(** * CoopThreads: the cooperative scheduler of [src/coop_threads.c]

    A shallow embedding of the scheduler and of its thread-control-block
    pool, followed by the properties of the dispatcher, of the unwind
    engine and of the yield / idle / wait surface.

    Conventions.
    - C [unsigned] is a 32-bit integer: a [Z] reduced with [uint].
    - [coop_tick_t] is an unsigned integer type of [TICK_BITS] bits, not
      narrower than [unsigned], so that tick arithmetic is done at that
      width with no promotion to [int]: a [Z] reduced with [tick_wrap].
    - The pool [sched.thrds] is a list; an access [thrds[i]] outside
      [0 .. CONFIG_MAX_THREADS-1] is undefined in C and is [None] here.
    - All three options [CONFIG_OPT_IDLE], [CONFIG_OPT_WAIT] and
      [CONFIG_OPT_YIELD_AFTER] are enabled.
    - [setjmp] / [longjmp]: a [jmp_buf] records the code position of the
      [setjmp] and the scheduler frame the saved stack pointer belongs to;
      a [longjmp] resumes there.  Thread routines are client code: what a
      running thread does next is an input of the machine. *)

From Stdlib Require Import ZArith Lia.
From stdpp Require Import base tactics option list list_numbers numbers strings.

Local Open Scope Z_scope.

(** ** Configuration *)

(** Modelled from the spec: the header [coop_threads.h] (compile-time
    configuration and tick macros) is not part of the sources.  The spec
    names [MAX_THREADS] (upper bound on pool size), [DEFAULT_STACK_SIZE]
    (substituted when the caller requests 0) and a tick type with a maximum
    representable value; they are taken as parameters. *)
Class Config := {
  CONFIG_MAX_THREADS : nat;
  CONFIG_DEFAULT_STACK_SIZE : Z;
  TICK_BITS : Z;
  config_threads_pos : (0 < CONFIG_MAX_THREADS)%nat;
  config_threads_fit : Z.of_nat CONFIG_MAX_THREADS < 2 ^ 32;
  config_tick_bits : 31 < TICK_BITS
}.

(** A small pool with 32-bit ticks, used to run the model on examples. *)
Definition small_config : Config :=
  Build_Config 5 256 32 (Nat.lt_0_succ 4) eq_refl eq_refl.

(** ** Data model *)

Inductive coop_thrd_state_t := EMPTY | HOLE | NEW | RUN | IDLE | WAIT.

Global Instance coop_thrd_state_eq_dec : EqDecision coop_thrd_state_t.
Proof. solve_decision. Defined.

Definition _IS_IDLE (st : coop_thrd_state_t) : bool := bool_decide (st = IDLE).
Definition _IS_WAIT (st : coop_thrd_state_t) : bool := bool_decide (st = WAIT).
Definition _IS_STARTED (st : coop_thrd_state_t) : bool :=
  bool_decide (st = RUN) || _IS_IDLE st || _IS_WAIT st.

Inductive coop_error_t := COOP_SUCCESS | COOP_INV_ARG | COOP_ERR_LIMIT.

(** The yield-family function a thread is suspended in: [_yield] is inlined
    in each of them, so a saved thread context resumes in that function. *)
Inductive api := ApiIdle | ApiYieldAfter | ApiWait.

(** The four [setjmp] sites, under the names the source comments give them. *)
Inductive jmp_pos :=
| sched_pos_run
| sched_pos_entry_thrd
| thrd_pos_new (a : api)
| thrd_pos_run (a : api).

(** A [jmp_buf]: all-zero bytes, or a context saved at [pos] with the stack
    pointer in the region of scheduler frame [frame] (for a thread position:
    the frame of [coop_sched_service] that called the thread routine). *)
Inductive jmp_buf := JZero | JSaved (frame : nat) (pos : jmp_pos).

Global Instance api_eq_dec : EqDecision api.
Proof. solve_decision. Defined.
Global Instance jmp_pos_eq_dec : EqDecision jmp_pos.
Proof. solve_decision. Defined.
Global Instance jmp_buf_eq_dec : EqDecision jmp_buf.
Proof. solve_decision. Defined.

Record coop_thrd_ctx_t := mk_thrd {
  proc : Z;                  (* routine address, 0 is NULL *)
  name : option string;      (* may be NULL *)
  stack_sz : Z;
  arg : Z;
  state : coop_thrd_state_t;
  idle_to : Z;
  switch_tick : Z;
  sem_id : Z;
  wait_to : Z;
  notif : bool;              (* wait_flgs.notif *)
  inf : bool;                (* wait_flgs.inf *)
  depth : Z;
  exe_ctx : jmp_buf;
  entry_ctx : jmp_buf
}.

Record coop_sched_ctx_t := mk_sched {
  cur_thrd : Z;
  busy_n : Z;
  hole_n : Z;
  idle_n : Z;
  sched_depth : Z;
  sched_exe_ctx : jmp_buf;
  thrds : list coop_thrd_ctx_t
}.

(** The globals of the translation unit: [sched] and the function-static
    [inited] of [_sched_init]. *)
Record globals := mk_globals {
  sched : coop_sched_ctx_t;
  inited : bool
}.

(** Field assignments. *)
Definition set_state v (t : coop_thrd_ctx_t) :=
  mk_thrd (proc t) (name t) (stack_sz t) (arg t) v (idle_to t) (switch_tick t)
    (sem_id t) (wait_to t) (notif t) (inf t) (depth t) (exe_ctx t) (entry_ctx t).
Definition set_idle_to v (t : coop_thrd_ctx_t) :=
  mk_thrd (proc t) (name t) (stack_sz t) (arg t) (state t) v (switch_tick t)
    (sem_id t) (wait_to t) (notif t) (inf t) (depth t) (exe_ctx t) (entry_ctx t).
Definition set_switch_tick v (t : coop_thrd_ctx_t) :=
  mk_thrd (proc t) (name t) (stack_sz t) (arg t) (state t) (idle_to t) v
    (sem_id t) (wait_to t) (notif t) (inf t) (depth t) (exe_ctx t) (entry_ctx t).
Definition set_sem_id v (t : coop_thrd_ctx_t) :=
  mk_thrd (proc t) (name t) (stack_sz t) (arg t) (state t) (idle_to t) (switch_tick t)
    v (wait_to t) (notif t) (inf t) (depth t) (exe_ctx t) (entry_ctx t).
Definition set_wait_to v (t : coop_thrd_ctx_t) :=
  mk_thrd (proc t) (name t) (stack_sz t) (arg t) (state t) (idle_to t) (switch_tick t)
    (sem_id t) v (notif t) (inf t) (depth t) (exe_ctx t) (entry_ctx t).
Definition set_notif v (t : coop_thrd_ctx_t) :=
  mk_thrd (proc t) (name t) (stack_sz t) (arg t) (state t) (idle_to t) (switch_tick t)
    (sem_id t) (wait_to t) v (inf t) (depth t) (exe_ctx t) (entry_ctx t).
Definition set_inf v (t : coop_thrd_ctx_t) :=
  mk_thrd (proc t) (name t) (stack_sz t) (arg t) (state t) (idle_to t) (switch_tick t)
    (sem_id t) (wait_to t) (notif t) v (depth t) (exe_ctx t) (entry_ctx t).
Definition set_depth v (t : coop_thrd_ctx_t) :=
  mk_thrd (proc t) (name t) (stack_sz t) (arg t) (state t) (idle_to t) (switch_tick t)
    (sem_id t) (wait_to t) (notif t) (inf t) v (exe_ctx t) (entry_ctx t).
Definition set_exe_ctx v (t : coop_thrd_ctx_t) :=
  mk_thrd (proc t) (name t) (stack_sz t) (arg t) (state t) (idle_to t) (switch_tick t)
    (sem_id t) (wait_to t) (notif t) (inf t) (depth t) v (entry_ctx t).
Definition set_entry_ctx v (t : coop_thrd_ctx_t) :=
  mk_thrd (proc t) (name t) (stack_sz t) (arg t) (state t) (idle_to t) (switch_tick t)
    (sem_id t) (wait_to t) (notif t) (inf t) (depth t) (exe_ctx t) v.

Definition set_cur_thrd v (s : coop_sched_ctx_t) :=
  mk_sched v (busy_n s) (hole_n s) (idle_n s) (sched_depth s) (sched_exe_ctx s) (thrds s).
Definition set_busy_n v (s : coop_sched_ctx_t) :=
  mk_sched (cur_thrd s) v (hole_n s) (idle_n s) (sched_depth s) (sched_exe_ctx s) (thrds s).
Definition set_hole_n v (s : coop_sched_ctx_t) :=
  mk_sched (cur_thrd s) (busy_n s) v (idle_n s) (sched_depth s) (sched_exe_ctx s) (thrds s).
Definition set_idle_n v (s : coop_sched_ctx_t) :=
  mk_sched (cur_thrd s) (busy_n s) (hole_n s) v (sched_depth s) (sched_exe_ctx s) (thrds s).
Definition set_sched_depth v (s : coop_sched_ctx_t) :=
  mk_sched (cur_thrd s) (busy_n s) (hole_n s) (idle_n s) v (sched_exe_ctx s) (thrds s).
Definition set_sched_exe_ctx v (s : coop_sched_ctx_t) :=
  mk_sched (cur_thrd s) (busy_n s) (hole_n s) (idle_n s) (sched_depth s) v (thrds s).
Definition set_thrds v (s : coop_sched_ctx_t) :=
  mk_sched (cur_thrd s) (busy_n s) (hole_n s) (idle_n s) (sched_depth s) (sched_exe_ctx s) v.

(** ** Machine integers and ticks *)

Definition UINT_MOD : Z := 2 ^ 32.
Definition uint (x : Z) : Z := x mod UINT_MOD.
(** [(unsigned)-1], the "none" value of [cur_thrd]. *)
Definition NO_THRD : Z := uint (-1).

(** What a client observes: calls of the platform idle primitive, entries
    into and resumptions of thread routines, and values returned by the
    library to the caller. *)
Inductive retval :=
| ret_void
| ret_bool (b : bool)
| ret_error (e : coop_error_t)
| ret_name (n : option string).

Inductive event :=
| ev_idle_cb (ticks : Z)
| ev_enter (i : Z)
| ev_resume (i : Z) (r : retval)
| ev_return (r : retval)
| ev_service_return.

Section Scheduler.
Context `{cfg : Config}.

Definition MAX : Z := Z.of_nat CONFIG_MAX_THREADS.

Definition TICK_MOD : Z := 2 ^ TICK_BITS.
Definition tick_wrap (x : Z) : Z := x mod TICK_MOD.

(** Modelled from the spec: [COOP_MAX_TICK] is "the maximum representable
    tick value". *)
Definition COOP_MAX_TICK : Z := TICK_MOD - 1.

(** Modelled from the spec: [is_tick_over(ref, limit)] is the "wrap-safe
    past-comparison, true iff [limit] is not in the future relative to
    [ref] within the half-range window", the window being
    [COOP_MAX_TICK/2]. *)
Definition COOP_IS_TICK_OVER (tick to : Z) : bool :=
  tick_wrap (tick - to) <=? COOP_MAX_TICK / 2.

(** [coop_tick_cb()]: the environment supplies the readings; a finite list
    of them bounds the length of a run. *)
Definition coop_tick_cb (clock : list Z) : option (Z * list Z) :=
  match clock with
  | [] => None
  | t :: clock' => Some (tick_wrap t, clock')
  end.

(** ** The pool *)

Definition zero_thrd : coop_thrd_ctx_t :=
  mk_thrd 0 None 0 0 EMPTY 0 0 0 0 false false 0 JZero JZero.

(** [static coop_sched_ctx_t sched = {}], also the effect of [memset]. *)
Definition zero_sched : coop_sched_ctx_t :=
  mk_sched 0 0 0 0 0 JZero (replicate CONFIG_MAX_THREADS zero_thrd).

Definition in_pool (i : Z) : bool := (0 <=? i) && (i <? MAX).

(** [thrds[i]] as an rvalue, for the pool [l]. *)
Definition thrd_at (l : list coop_thrd_ctx_t) (i : Z) : option coop_thrd_ctx_t :=
  if in_pool i then l !! Z.to_nat i else None.

(** Assignments to fields of [sched.thrds[i]]. *)
Definition thrd_upd (f : coop_thrd_ctx_t → coop_thrd_ctx_t) (i : Z)
    (s : coop_sched_ctx_t) : option coop_sched_ctx_t :=
  t ← thrd_at (thrds s) i;
  Some (set_thrds (<[Z.to_nat i := f t]> (thrds s)) s).

(** ** [_sched_init] *)

Definition _sched_init (force : bool) (g : globals) : globals :=
  if negb (inited g) || force
  then mk_globals (set_cur_thrd NO_THRD zero_sched) true
  else g.

(** ** [_mark_unwind_thrds] *)

(** First loop: the depth of the most shallow started thread. *)
Fixpoint started_depth (l : list coop_thrd_ctx_t) (depth0 : Z) : Z :=
  match l with
  | [] => depth0
  | t :: l' =>
      if _IS_STARTED (state t) && (depth0 <? depth t)
      then started_depth l' (depth t)
      else started_depth l' depth0
  end.

(** Second loop, from index [i] on: the holes at depth [d1] and above are
    marked [EMPTY]; returns the pool, [unwnd_thrd], [busy_n], [hole_n]. *)
Fixpoint unwind_holes (d1 : Z) (i : Z) (l : list coop_thrd_ctx_t)
    (unwnd_thrd busy hole : Z) : list coop_thrd_ctx_t * Z * Z * Z :=
  match l with
  | [] => ([], unwnd_thrd, busy, hole)
  | t :: l' =>
      if bool_decide (state t = HOLE) && (d1 <=? depth t) then
        let unwnd_thrd' := if d1 =? depth t then i else unwnd_thrd in
        let '(l'', u, b, h) :=
          unwind_holes d1 (i + 1) l' unwnd_thrd' (uint (busy - 1)) (uint (hole - 1)) in
        (set_state EMPTY t :: l'', u, b, h)
      else
        let '(l'', u, b, h) := unwind_holes d1 (i + 1) l' unwnd_thrd busy hole in
        (t :: l'', u, b, h)
  end.

Definition _mark_unwind_thrds (s : coop_sched_ctx_t) : option (Z * coop_sched_ctx_t) :=
  let unwnd_thrd := cur_thrd s in
  s ← thrd_upd (set_state EMPTY) (cur_thrd s) s;
  let s := set_busy_n (uint (busy_n s - 1)) s in
  let depth := started_depth (thrds s) 0 in
  if uint (depth + 1) <? sched_depth s then
    let '(l, u, b, h) :=
      unwind_holes (uint (depth + 1)) 0 (thrds s) unwnd_thrd (busy_n s) (hole_n s) in
    Some (u, set_sched_depth depth (set_hole_n h (set_busy_n b (set_thrds l s))))
  else
    Some (unwnd_thrd, set_sched_depth depth s).

(** ** [_system_idle] *)

(** The [for] loop of one pass, at tick [cur_tick]: returns the pool,
    [idle_n] and [min_idle]. *)
Fixpoint idle_scan (cur_tick : Z) (l : list coop_thrd_ctx_t) (idle min_idle : Z)
    : list coop_thrd_ctx_t * Z * Z :=
  match l with
  | [] => ([], idle, min_idle)
  | t :: l' =>
      if negb (bool_decide (state t = IDLE)) then
        let '(l'', n, m) := idle_scan cur_tick l' idle min_idle in (t :: l'', n, m)
      else if COOP_IS_TICK_OVER cur_tick (idle_to t) then
        let '(l'', n, m) := idle_scan cur_tick l' (uint (idle - 1)) min_idle in
        (set_state RUN t :: l'', n, m)
      else if tick_wrap (idle_to t - cur_tick) <? min_idle then
        let '(l'', n, m) := idle_scan cur_tick l' idle (tick_wrap (idle_to t - cur_tick)) in
        (t :: l'', n, m)
      else
        let '(l'', n, m) := idle_scan cur_tick l' idle min_idle in (t :: l'', n, m)
  end.

(** The loop condition: all active threads are idle. *)
Definition idle_ready (s : coop_sched_ctx_t) : bool :=
  (0 <? idle_n s) && (uint (busy_n s - hole_n s) <=? idle_n s).

(** The [while] loop; [i] tells whether the register [i] is non-zero (a
    subsequent pass), [min_idle] is the register of that name.  Every pass
    reads the clock once, hence the recursion on the readings. *)
Fixpoint _system_idle_loop (clock : list Z) (i : bool) (min_idle : Z)
    (s : coop_sched_ctx_t) : option (coop_sched_ctx_t * list Z * list event) :=
  match clock with
  | [] => if idle_ready s then None else Some (s, [], [])
  | t :: clock' =>
      if idle_ready s then
        let cur_tick := tick_wrap t in
        let '(l, n, m) := idle_scan cur_tick (thrds s) (idle_n s) COOP_MAX_TICK in
        '(s', clock'', evs) ← _system_idle_loop clock' true m (set_idle_n n (set_thrds l s));
        Some (s', clock'', (if i then [ev_idle_cb min_idle] else []) ++ evs)
      else Some (s, clock, [])
  end.

Definition _system_idle (clock : list Z) (s : coop_sched_ctx_t)
    : option (coop_sched_ctx_t * list Z * list event) :=
  _system_idle_loop clock false 0 s.

(** ** [coop_sched_thread] *)

(** The assignments of the loop body to the slot [t] it has found. *)
Definition sched_slot (proc0 : Z) (name0 : option string) (stack_sz0 arg0 : Z)
    (t : coop_thrd_ctx_t) : coop_thrd_ctx_t :=
  mk_thrd proc0 name0
    (if stack_sz0 =? 0 then CONFIG_DEFAULT_STACK_SIZE else stack_sz0)
    arg0 NEW (idle_to t) (switch_tick t) (sem_id t) (wait_to t)
    (notif t) (inf t) 0 JZero JZero.

(** The [for] loop: the first [EMPTY] slot is filled and the loop left. *)
Fixpoint sched_first_empty (proc0 : Z) (name0 : option string) (stack_sz0 arg0 : Z)
    (l : list coop_thrd_ctx_t) : option (list coop_thrd_ctx_t) :=
  match l with
  | [] => None
  | t :: l' =>
      if bool_decide (state t = EMPTY) then
        Some (sched_slot proc0 name0 stack_sz0 arg0 t :: l')
      else (t ::.) <$> sched_first_empty proc0 name0 stack_sz0 arg0 l'
  end.

Definition coop_sched_thread (proc0 : Z) (name0 : option string) (stack_sz0 arg0 : Z)
    (g : globals) : coop_error_t * globals :=
  if proc0 =? 0 then (COOP_INV_ARG, g)
  else if MAX <=? busy_n (sched g) then (COOP_ERR_LIMIT, g)
  else
    let g := _sched_init false g in
    match sched_first_empty proc0 name0 stack_sz0 arg0 (thrds (sched g)) with
    | Some l =>
        (COOP_SUCCESS,
         mk_globals (set_busy_n (uint (busy_n (sched g) + 1)) (set_thrds l (sched g)))
                    (inited g))
    | None => (COOP_SUCCESS, g)
    end.

(** ** [coop_thread_name] *)

Definition coop_thread_name (s : coop_sched_ctx_t) : option (option string) :=
  name <$> thrd_at (thrds s) (cur_thrd s).

(** ** [coop_notify], [coop_notify_all] *)

Definition wakes (sem : Z) (t : coop_thrd_ctx_t) : bool :=
  bool_decide (state t = WAIT) && (sem_id t =? sem).

Fixpoint notify_first (sem : Z) (l : list coop_thrd_ctx_t) : list coop_thrd_ctx_t :=
  match l with
  | [] => []
  | t :: l' =>
      if wakes sem t then set_state RUN (set_notif true t) :: l'
      else t :: notify_first sem l'
  end.

Definition coop_notify (sem : Z) (s : coop_sched_ctx_t) : coop_sched_ctx_t :=
  set_thrds (notify_first sem (thrds s)) s.

Fixpoint notify_each (sem : Z) (l : list coop_thrd_ctx_t) : list coop_thrd_ctx_t :=
  match l with
  | [] => []
  | t :: l' =>
      if wakes sem t then set_state RUN (set_notif true t) :: notify_each sem l'
      else t :: notify_each sem l'
  end.

Definition coop_notify_all (sem : Z) (s : coop_sched_ctx_t) : coop_sched_ctx_t :=
  set_thrds (notify_each sem (thrds s)) s.

(** ** [coop_test_is_shallow] (builds with [__TEST__]) *)

Definition coop_test_is_shallow (s : coop_sched_ctx_t) : option bool :=
  t ← thrd_at (thrds s) (cur_thrd s); Some (sched_depth s =? depth t).

(** ** The machine

    Control is in the application's [main], at the head of the [while] loop
    of the [coop_sched_service] frame number [frame] (0 for the call made by
    [main], [n+1] for the recursive call made by the first yield of a
    thread routine called from frame [n]), or in the code of the thread
    routine that was called from frame [frame]. *)
Inductive control := CMain | CLoop (frame : nat) | CThread (frame : nat).

Record machine := mk_machine {
  glob : globals;
  ctl : control;
  clock : list Z
}.

(** The arguments of one call of [coop_sched_thread]: the routine (0 is
    [NULL]), the name (may be [NULL]), the stack size (0 asks for the
    default) and the argument passed to the routine. *)
Record sched_args := mk_sched_args {
  sa_proc : Z;
  sa_name : option string;
  sa_stack_sz : Z;
  sa_arg : Z
}.

(** The library calls a client can make. *)
Inductive call :=
| call_sched_thread (proc0 : Z) (name0 : option string) (stack_sz0 arg0 : Z)
| call_sched_service
| call_thread_name
| call_idle (period : Z)
| call_yield_after (after : Z)
| call_wait (sem : Z) (timeout : Z)
| call_notify (sem : Z)
| call_notify_all (sem : Z).

(** What happens next: the code in control makes a library call, the running
    thread routine returns, or the scheduler runs the next pass of its loop. *)
Inductive input := in_call (c : call) | in_return | in_sched.

(** What the function a thread is suspended in returns once its [_yield]
    has returned. *)
Definition api_epilogue (a : api) (s : coop_sched_ctx_t) : option retval :=
  match a with
  | ApiIdle => Some ret_void
  | ApiYieldAfter => Some (ret_bool true)
  | ApiWait => t ← thrd_at (thrds s) (cur_thrd s); Some (ret_bool (notif t))
  end.

(** [longjmp(env, 1)]: both scheduler positions [break] out of the [switch]
    to the loop head of their frame; a thread position returns from
    [_yield] into the suspended function, which returns to the routine. *)
Definition longjmp (env : jmp_buf) (s : coop_sched_ctx_t)
    : option (control * list event) :=
  match env with
  | JZero => None
  | JSaved f sched_pos_run => Some (CLoop f, [])
  | JSaved f sched_pos_entry_thrd => Some (CLoop f, [])
  | JSaved f (thrd_pos_new a) | JSaved f (thrd_pos_run a) =>
      r ← api_epilogue a s; Some (CThread f, [ev_resume (cur_thrd s) r])
  end.

(** [_yield(new_state)], inlined in function [a] of a routine called from
    frame [f]. *)
Definition _yield (f : nat) (a : api) (new_state : coop_thrd_state_t)
    (s : coop_sched_ctx_t) : option (coop_sched_ctx_t * control * list event) :=
  t ← thrd_at (thrds s) (cur_thrd s);
  if bool_decide (state t = NEW) then
    s ← thrd_upd (λ t, set_exe_ctx (JSaved f (thrd_pos_new a)) (set_state new_state t))
          (cur_thrd s) s;
    (* alloca, memset, then the recursive coop_sched_service() *)
    Some (s, CLoop (S f), [])
  else
    s ← thrd_upd (λ t, set_exe_ctx (JSaved f (thrd_pos_run a)) (set_state new_state t))
          (cur_thrd s) s;
    '(c, evs) ← longjmp (sched_exe_ctx s) s;
    Some (s, c, evs).

Definition coop_idle (f : nat) (period : Z) (s : coop_sched_ctx_t) (clock : list Z)
    : option (coop_sched_ctx_t * control * list Z * list event) :=
  if 0 <? period then
    let s := set_idle_n (uint (idle_n s + 1)) s in
    '(tick, clock) ← coop_tick_cb clock;
    s ← thrd_upd (set_idle_to (tick_wrap (tick + period))) (cur_thrd s) s;
    '(s, c, evs) ← _yield f ApiIdle IDLE s;
    Some (s, c, clock, evs)
  else
    '(s, c, evs) ← _yield f ApiIdle RUN s;
    Some (s, c, clock, evs).

Definition coop_yield_after (f : nat) (after : Z) (s : coop_sched_ctx_t) (clock : list Z)
    : option (coop_sched_ctx_t * control * list Z * list event) :=
  '(tick, clock) ← coop_tick_cb clock;
  if COOP_IS_TICK_OVER tick after then
    '(s, c, evs) ← _yield f ApiYieldAfter RUN s;
    Some (s, c, clock, evs)
  else Some (s, CThread f, clock, [ev_return (ret_bool false)]).

(** The part of [coop_wait] before [_yield(WAIT)]. *)
Definition wait_enter (sem timeout : Z) (s : coop_sched_ctx_t) (clock : list Z)
    : option (coop_sched_ctx_t * list Z) :=
  s ← thrd_upd (λ t, set_notif false (set_sem_id sem t)) (cur_thrd s) s;
  if negb (timeout =? 0) then
    '(tick, clock) ← coop_tick_cb clock;
    s ← thrd_upd (λ t, set_inf false (set_wait_to (tick_wrap (tick + timeout)) t))
          (cur_thrd s) s;
    Some (s, clock)
  else
    s ← thrd_upd (λ t, set_inf true (set_wait_to 0 t)) (cur_thrd s) s;
    Some (s, clock).

Definition coop_wait (f : nat) (sem timeout : Z) (s : coop_sched_ctx_t) (clock : list Z)
    : option (coop_sched_ctx_t * control * list Z * list event) :=
  '(s, clock) ← wait_enter sem timeout s clock;
  '(s, c, evs) ← _yield f ApiWait WAIT s;
  Some (s, c, clock, evs).

(** [coop_sched_service], label [run]: the scheduler context is saved and
    the thread resumed. *)
Definition sched_run (f : nat) (s : coop_sched_ctx_t) (clock : list Z)
    : option (coop_sched_ctx_t * control * list Z * list event) :=
  let s := set_sched_exe_ctx (JSaved f sched_pos_run) s in
  '(tick, clock) ← coop_tick_cb clock;
  s ← thrd_upd (set_switch_tick tick) (cur_thrd s) s;
  t ← thrd_at (thrds s) (cur_thrd s);
  '(c, evs) ← longjmp (exe_ctx t) s;
  Some (s, c, clock, evs).

(** [coop_sched_service], one pass of the loop body in frame [f], up to the
    point where the loop head is reached again or a thread gets control. *)
Definition sched_iter (f : nat) (s : coop_sched_ctx_t) (clock : list Z)
    : option (coop_sched_ctx_t * control * list Z * list event) :=
  let s := set_cur_thrd (uint (cur_thrd s + 1) mod MAX) s in
  '(s, clock, evs0) ← _system_idle clock s;
  t ← thrd_at (thrds s) (cur_thrd s);
  match state t with
  | EMPTY | HOLE => Some (s, CLoop f, clock, evs0)
  | IDLE =>
      '(tick, clock) ← coop_tick_cb clock;
      if negb (COOP_IS_TICK_OVER tick (idle_to t)) then Some (s, CLoop f, clock, evs0)
      else
        s ← thrd_upd (set_state RUN) (cur_thrd s) s;
        let s := set_idle_n (uint (idle_n s - 1)) s in
        '(s, c, clock, evs) ← sched_run f s clock;
        Some (s, c, clock, evs0 ++ evs)
  | WAIT =>
      if inf t then Some (s, CLoop f, clock, evs0)
      else
        '(tick, clock) ← coop_tick_cb clock;
        if negb (COOP_IS_TICK_OVER tick (wait_to t)) then Some (s, CLoop f, clock, evs0)
        else
          s ← thrd_upd (set_state RUN) (cur_thrd s) s;
          '(s, c, clock, evs) ← sched_run f s clock;
          Some (s, c, clock, evs0 ++ evs)
  | RUN =>
      '(s, c, clock, evs) ← sched_run f s clock;
      Some (s, c, clock, evs0 ++ evs)
  | NEW =>
      s ← thrd_upd (set_entry_ctx (JSaved f sched_pos_entry_thrd)) (cur_thrd s) s;
      let s := set_sched_depth (uint (sched_depth s + 1)) s in
      s ← thrd_upd (set_depth (sched_depth s)) (cur_thrd s) s;
      '(tick, clock) ← coop_tick_cb clock;
      s ← thrd_upd (set_switch_tick tick) (cur_thrd s) s;
      Some (s, CThread f, clock, evs0 ++ [ev_enter (cur_thrd s)])
  end.

(** [coop_sched_service], [case NEW] after the routine has returned. *)
Definition thrd_exit (s : coop_sched_ctx_t)
    : option (coop_sched_ctx_t * control * list event) :=
  t ← thrd_at (thrds s) (cur_thrd s);
  if depth t <? sched_depth s then
    s ← thrd_upd (set_state HOLE) (cur_thrd s) s;
    let s := set_hole_n (uint (hole_n s + 1)) s in
    '(c, evs) ← longjmp (sched_exe_ctx s) s;
    Some (s, c, evs)
  else
    '(unwnd_thrd, s) ← _mark_unwind_thrds s;
    u ← thrd_at (thrds s) unwnd_thrd;
    '(c, evs) ← longjmp (entry_ctx u) s;
    Some (s, c, evs).

(** [coop_sched_service] at the head of its loop in frame [f].  When the
    loop is left in the frame of [main]'s call, the function returns to
    [main].  Leaving it in a recursive frame would resume the first yield
    of a routine on a pool that has just been reset; the model stops there
    ([service_exit_frame] shows that no run gets there). *)
Definition service_step (f : nat) (g : globals) (clock : list Z)
    : option (globals * control * list Z * list event) :=
  if 0 <? busy_n (sched g) then
    '(s, c, clock, evs) ← sched_iter f (sched g) clock;
    Some (mk_globals s (inited g), c, clock, evs)
  else
    match f with
    | O => Some (_sched_init true g, CMain, clock, [ev_service_return])
    | S _ => None
    end.

(** A library call made by the code in control [who].  The yield family is
    for thread routines only, and [coop_sched_service] for [main] only
    (anything else is a programmer violation with undefined behaviour);
    arguments of type [coop_tick_t] are converted on the call. *)
Definition user_call (who : control) (c : call) (g : globals) (clock : list Z)
    : option (globals * control * list Z * list event) :=
  let s := sched g in
  let lift (r : option (coop_sched_ctx_t * control * list Z * list event)) :=
    '(s, c, clock, evs) ← r; Some (mk_globals s (inited g), c, clock, evs) in
  match c, who with
  | _, CLoop _ => None
  | call_sched_thread p n sz a, _ =>
      let '(e, g) := coop_sched_thread p n sz a g in
      Some (g, who, clock, [ev_return (ret_error e)])
  | call_thread_name, _ =>
      n ← coop_thread_name s; Some (g, who, clock, [ev_return (ret_name n)])
  | call_notify sem, _ =>
      Some (mk_globals (coop_notify sem s) (inited g), who, clock, [ev_return ret_void])
  | call_notify_all sem, _ =>
      Some (mk_globals (coop_notify_all sem s) (inited g), who, clock, [ev_return ret_void])
  | call_sched_service, CMain => Some (g, CLoop 0, clock, [])
  | call_sched_service, _ => None
  | call_idle period, CThread f => lift (coop_idle f (tick_wrap period) s clock)
  | call_yield_after after, CThread f => lift (coop_yield_after f (tick_wrap after) s clock)
  | call_wait sem timeout, CThread f => lift (coop_wait f sem (tick_wrap timeout) s clock)
  | _, CMain => None
  end.

Definition step (i : input) (m : machine) : option (machine * list event) :=
  match i, ctl m with
  | in_sched, CLoop f =>
      '(g, c, clock, evs) ← service_step f (glob m) (clock m);
      Some (mk_machine g c clock, evs)
  | in_call c, (CMain | CThread _) =>
      '(g, c, clock, evs) ← user_call (ctl m) c (glob m) (clock m);
      Some (mk_machine g c clock, evs)
  | in_return, CThread _ =>
      '(s, c, evs) ← thrd_exit (sched (glob m));
      Some (mk_machine (mk_globals s (inited (glob m))) c (clock m), evs)
  | _, _ => None
  end.

Fixpoint run (ins : list input) (m : machine) : option (machine * list event) :=
  match ins with
  | [] => Some (m, [])
  | i :: ins' =>
      '(m', evs) ← step i m;
      '(m'', evs') ← run ins' m';
      Some (m'', evs ++ evs')
  end.

(** Program start: static zero-initialisation, control in [main]. *)
Definition init (clock : list Z) : machine :=
  mk_machine (mk_globals zero_sched false) CMain clock.

Inductive reachable : machine → Prop :=
| reach_init clock : reachable (init clock)
| reach_step i m m' evs : reachable m → step i m = Some (m', evs) → reachable m'.

(** ** Invariants of the scheduler state *)

(** A slot whose stack region lies on the main stack. *)
Definition live (st : coop_thrd_state_t) : bool :=
  _IS_STARTED st || bool_decide (st = HOLE).

Definition busy (st : coop_thrd_state_t) : bool := negb (bool_decide (st = EMPTY)).
Definition is_hole (st : coop_thrd_state_t) : bool := bool_decide (st = HOLE).

(** The number of slots whose state satisfies [p]. *)
Fixpoint count_state (p : coop_thrd_state_t → bool) (l : list coop_thrd_ctx_t) : Z :=
  match l with
  | [] => 0
  | t :: l' => (if p (state t) then 1 else 0) + count_state p l'
  end.

(** The depths of the live slots, in slot order. *)
Fixpoint live_depths (l : list coop_thrd_ctx_t) : list Z :=
  match l with
  | [] => []
  | t :: l' => if live (state t) then depth t :: live_depths l' else live_depths l'
  end.

Definition b2z (b : bool) : Z := if b then 1 else 0.

(** P2: the counters are the cardinalities of their state subsets. *)
Definition counters_ok (s : coop_sched_ctx_t) : Prop :=
  busy_n s = count_state busy (thrds s) ∧
  hole_n s = count_state is_hole (thrds s) ∧
  idle_n s = count_state _IS_IDLE (thrds s).

(** P3: the depths of the live slots are a permutation of [1 .. top]. *)
Definition depths_ok (top : Z) (s : coop_sched_ctx_t) : Prop :=
  live_depths (thrds s) ≡ₚ seqZ 1 top.

(** The function a saved thread context resumes in. *)
Definition ctx_api (j : jmp_buf) : option api :=
  match j with
  | JSaved _ (thrd_pos_new a) | JSaved _ (thrd_pos_run a) => Some a
  | _ => None
  end.

(** The saved contexts of a live slot: the routine of a thread of depth
    [f+1] was called from scheduler frame [f]. *)
Definition ctx_ok (t : coop_thrd_ctx_t) : Prop :=
  live (state t) →
  ∃ f : nat, depth t = Z.of_nat (S f) ∧
    entry_ctx t = JSaved f sched_pos_entry_thrd ∧
    (_IS_STARTED (state t) →
     ∃ a, exe_ctx t = JSaved f (thrd_pos_new a) ∨ exe_ctx t = JSaved f (thrd_pos_run a)).

(** The wait flags of a suspended thread: a thread still waiting has not
    been notified, and a runnable thread suspended in [coop_wait] has. *)
Definition susp_ok (t : coop_thrd_ctx_t) : Prop :=
  (state t = WAIT → notif t = false) ∧
  (state t = RUN → ctx_api (exe_ctx t) = Some ApiWait → notif t = true) ∧
  (state t = IDLE → ctx_api (exe_ctx t) = Some ApiIdle).

(** What holds of the pool wherever control is; [running] is the slot of
    the thread in control, if any. *)
Definition pool_ok (running : option Z) (s : coop_sched_ctx_t) : Prop :=
  length (thrds s) = CONFIG_MAX_THREADS ∧
  counters_ok s ∧
  (∀ i t, thrds s !! i = Some t → ctx_ok t) ∧
  (∀ i t, thrds s !! i = Some t → running ≠ Some (Z.of_nat i) → susp_ok t).

(** The state of a thread in control: entered and not yet suspended (its
    slot is still [NEW] and holds the top depth), or resumed. *)
Definition running_ok (f : nat) (s : coop_sched_ctx_t) : Prop :=
  ∃ x, thrd_at (thrds s) (cur_thrd s) = Some x ∧
    ((state x = NEW ∧ depth x = sched_depth s ∧ sched_depth s = Z.of_nat (S f) ∧
      entry_ctx x = JSaved f sched_pos_entry_thrd ∧
      depths_ok (sched_depth s - 1) s)
     ∨
     (state x = RUN ∧ depth x = Z.of_nat (S f) ∧
      sched_exe_ctx s = JSaved (Z.to_nat (sched_depth s)) sched_pos_run ∧
      depths_ok (sched_depth s) s)).

Definition mode_ok (c : control) (s : coop_sched_ctx_t) : Prop :=
  match c with
  | CMain => pool_ok None s ∧ sched_depth s = 0 ∧ depths_ok 0 s
  | CLoop f => pool_ok None s ∧ sched_depth s = Z.of_nat f ∧ depths_ok (sched_depth s) s
  | CThread f => pool_ok (Some (cur_thrd s)) s ∧ running_ok f s
  end.

Definition machine_ok (m : machine) : Prop :=
  (inited (glob m) = false → sched (glob m) = zero_sched) ∧
  mode_ok (ctl m) (sched (glob m)).

(** The maximum depth over the started ([RUN], [IDLE], [WAIT]) slots of a
    pool, 0 when there is none. *)
Fixpoint max_started_depth (l : list coop_thrd_ctx_t) : Z :=
  match l with
  | [] => 0
  | t :: l' =>
      if _IS_STARTED (state t) then Z.max (depth t) (max_started_depth l')
      else max_started_depth l'
  end.

(** A hole lying above depth [d]. *)
Definition hole_above (d : Z) (t : coop_thrd_ctx_t) : bool :=
  bool_decide (state t = HOLE) && (d <? depth t).

(** The number of holes above depth [d]. *)
Fixpoint holes_above (d : Z) (l : list coop_thrd_ctx_t) : Z :=
  match l with
  | [] => 0
  | t :: l' => (if hole_above d t then 1 else 0) + holes_above d l'
  end.

(** An [IDLE] slot whose [idle_to] has passed at tick [now]. *)
Definition idle_due (now : Z) (t : coop_thrd_ctx_t) : bool :=
  bool_decide (state t = IDLE) && COOP_IS_TICK_OVER now (idle_to t).

(** Every [IDLE] slot whose [idle_to] has passed becomes [RUN]. *)
Definition promote_due (now : Z) (l : list coop_thrd_ctx_t) : list coop_thrd_ctx_t :=
  (λ t, if idle_due now t then set_state RUN t else t) <$> l.

Fixpoint due_count (now : Z) (l : list coop_thrd_ctx_t) : Z :=
  match l with
  | [] => 0
  | t :: l' => (if idle_due now t then 1 else 0) + due_count now l'
  end.

(** [idle_to - now], in tick arithmetic, for the [IDLE] slots. *)
Fixpoint idle_waits (now : Z) (l : list coop_thrd_ctx_t) : list Z :=
  match l with
  | [] => []
  | t :: l' =>
      if bool_decide (state t = IDLE) then tick_wrap (idle_to t - now) :: idle_waits now l'
      else idle_waits now l'
  end.

(** Their minimum (no wait exceeds [COOP_MAX_TICK]). *)
Definition min_idle_of (now : Z) (l : list coop_thrd_ctx_t) : Z :=
  foldr Z.min COOP_MAX_TICK (idle_waits now l).

(** C9 as the specification words it, at one call of [coop_yield_after]
    in a thread routine called from frame [f]: whether the thread yields is
    decided by the current tick being past [after] counted from the slot's
    [switch_tick]. *)
Definition yield_after_from_switch_tick (f : nat) (after : Z)
    (s : coop_sched_ctx_t) (clk : list Z) : Prop :=
  ∀ x now clk',
    thrd_at (thrds s) (cur_thrd s) = Some x →
    coop_tick_cb clk = Some (now, clk') →
    if COOP_IS_TICK_OVER now (tick_wrap (switch_tick x + after))
    then ∃ s' g, coop_yield_after f after s clk = Some (s', CLoop g, clk', [])
    else coop_yield_after f after s clk =
           Some (s, CThread f, clk', [ev_return (ret_bool false)]).

(** The slot selected after slot [c]. *)
Definition next_thrd (c : Z) : Z := uint (c + 1) mod MAX.

(** The slots after slot [c] in cyclic order: [slot_after c 0] is the one
    with the smallest index greater than [c] modulo [MAX], [slot_after c 1]
    the one after it, and so on. *)
Definition slot_after (c : Z) (j : nat) : Z := (uint (c + 1) + Z.of_nat j) mod MAX.

(** A slot the dispatcher runs when it selects it at tick [now]: a new or
    running thread, an idle thread whose [idle_to] has passed, a thread
    waiting with a timeout that has passed. *)
Definition eligible (now : Z) (t : coop_thrd_ctx_t) : bool :=
  match state t with
  | NEW | RUN => true
  | IDLE => COOP_IS_TICK_OVER now (idle_to t)
  | WAIT => negb (inf t) && COOP_IS_TICK_OVER now (wait_to t)
  | EMPTY | HOLE => false
  end.

(** A slot the dispatcher runs whenever it selects it, whatever the clock
    reads: a thread not yet entered or a runnable one. *)
Definition ready (t : coop_thrd_ctx_t) : bool :=
  match state t with
  | NEW | RUN => true
  | _ => false
  end.

(** A slot the dispatcher passes over whenever it selects it, whatever the
    clock reads: a free slot, a hole, a thread waiting with no timeout. *)
Definition blocked (t : coop_thrd_ctx_t) : bool :=
  match state t with
  | EMPTY | HOLE => true
  | WAIT => inf t
  | _ => false
  end.

(** A slot before and after passes of the dispatcher that did not select
    it, the clock reading [rs]: it is as before, or it was idle, its
    [idle_to] had passed at one of the readings and [_system_idle] has made
    it [RUN]. *)
Definition woken_on (rs : list Z) (u u' : coop_thrd_ctx_t) : Prop :=
  u' = u ∨
  ((∃ r, r ∈ rs ∧ idle_due (tick_wrap r) u = true) ∧ u' = set_state RUN u).

(** The calls [cs] of [coop_sched_thread] have been made, in that order, on
    a free pool: their threads hold the first slots, not yet entered, with
    the routine, name, stack size (the default one for 0) and argument of
    the call, and the other slots are free. *)
Definition scheduled_in_order (cs : list sched_args) (s : coop_sched_ctx_t) : Prop :=
  busy_n s = Z.of_nat (length cs) ∧ length (thrds s) = CONFIG_MAX_THREADS ∧
  ∀ j t, thrds s !! j = Some t →
    match cs !! j with
    | Some c =>
        state t = NEW ∧ proc t = sa_proc c ∧ name t = sa_name c ∧
        stack_sz t =
          (if sa_stack_sz c =? 0 then CONFIG_DEFAULT_STACK_SIZE else sa_stack_sz c) ∧
        arg t = sa_arg c ∧ depth t = 0
    | None => state t = EMPTY
    end.

(** C10 as the specification words it, for [main] before the first
    dispatch: [cur_thrd] holds [(unsigned)-1] and the access made by
    [coop_thread_name] is out of range. *)
Definition sentinel_before_dispatch (m : machine) : Prop :=
  cur_thrd (sched (glob m)) = NO_THRD ∧ coop_thread_name (sched (glob m)) = None.

(** The life cycle of a slot: the changes of state a slot can go through
    in one step of the machine. *)
Definition lifecycle (a b : coop_thrd_state_t) : bool :=
  match a, b with
  | EMPTY, (EMPTY | NEW) => true
  | NEW, (NEW | RUN | IDLE | WAIT | EMPTY) => true
  | RUN, (RUN | IDLE | WAIT | HOLE | EMPTY) => true
  | IDLE, (IDLE | RUN) => true
  | WAIT, (WAIT | RUN) => true
  | HOLE, (HOLE | EMPTY) => true
  | _, _ => false
  end.

(** A slot before and after a step: its state follows the life cycle, what
    [coop_sched_thread] stored in it stays as long as the slot is busy, and
    its depth stays as long as its stack is on the main stack. *)
Definition slot_step (t t' : coop_thrd_ctx_t) : Prop :=
  lifecycle (state t) (state t') = true ∧
  (state t ≠ EMPTY →
   proc t' = proc t ∧ name t' = name t ∧ arg t' = arg t ∧ stack_sz t' = stack_sz t) ∧
  (live (state t) = true → depth t' = depth t ∧ entry_ctx t' = entry_ctx t).

(** A scheduled thread that has not been entered yet. *)
Definition is_new (st : coop_thrd_state_t) : bool := bool_decide (st = NEW).

(** Every hole lies under the top of the main stack. *)
Definition holes_buried (s : coop_sched_ctx_t) : Prop :=
  ∀ j t, thrds s !! j = Some t → state t = HOLE → depth t < sched_depth s.

(** Control is between two passes of the scheduler loop (or in [main]). *)
Definition between_iterations (m : machine) : Prop :=
  match ctl m with
  | CMain | CLoop _ => True
  | CThread _ => False
  end.

End Scheduler.

(** ** Example runs

    Runs of the machine on [small_config], from program start. *)
Definition demo_run (ins : list input) (clk : list Z) : option (machine * list event) :=
  @run small_config ins (@init small_config clk).

Definition demo_state (ins : list input) (clk : list Z) : machine :=
  match demo_run ins clk with
  | Some (m, _) => m
  | None => @init small_config []
  end.

Definition demo_events (ins : list input) (clk : list Z) : list event :=
  match demo_run ins clk with
  | Some (_, evs) => evs
  | None => []
  end.

(** The calls that notify the waiters on semaphore id [sem]. *)
Definition notifies (sem : Z) (i : input) : bool :=
  match i with
  | in_call (call_notify sem') | in_call (call_notify_all sem') => sem' =? sem
  | _ => false
  end.

(** Entries into and resumptions of thread routines, by slot. *)
Definition dispatched (evs : list event) : list Z :=
  omap (λ e, match e with
             | ev_enter i | ev_resume i _ => Some i
             | _ => None
             end) evs.

(** First entries into thread routines, by slot. *)
Definition entered (evs : list event) : list Z :=
  omap (λ e, match e with ev_enter i => Some i | _ => None end) evs.

(** Resumptions of suspended threads, by slot. *)
Definition resumed (evs : list event) : list Z :=
  omap (λ e, match e with ev_resume i _ => Some i | _ => None end) evs.

(** A call of [coop_sched_thread] with the arguments [c]. *)
Definition sched_call (c : sched_args) : input :=
  in_call (call_sched_thread (sa_proc c) (sa_name c) (sa_stack_sz c) (sa_arg c)).

Definition do_sched (proc0 : Z) : input := in_call (call_sched_thread proc0 None 0 0).
Definition do_service : input := in_call call_sched_service.
Definition do_yield : input := in_call (call_idle 0).

(** Threads A, B and C are scheduled in that order, with the arguments [a],
    [b] and [c], and [coop_sched_service] is called; every thread that gets
    control yields, up to the third dispatch. *)
Definition abc_inputs (a b c : sched_args) : list input :=
  [sched_call a; sched_call b; sched_call c; do_service;
   in_sched; do_yield; in_sched; do_yield; in_sched].

(** They go on yielding: C yields, the dispatcher passes over the free
    slots after it and comes round to A; A and B yield when they are
    resumed, up to the resumption of C. *)
Definition abc_resumes `{cfg : Config} : list input :=
  do_yield :: replicate (S (CONFIG_MAX_THREADS - 3)) in_sched ++
  [do_yield; in_sched; do_yield; in_sched].

(** The calls [cs] of [coop_sched_thread] are made and [coop_sched_service]
    is called; every thread that is entered returns without yielding, and
    the scheduler runs one more pass after the last of them. *)
Definition run_to_completion (cs : list sched_args) : list input :=
  (sched_call <$> cs) ++
  do_service :: concat (replicate (length cs) [in_sched; in_return]) ++ [in_sched].

(** Three threads are scheduled and [coop_sched_service] is called. *)
Definition three_scheduled : list input :=
  [do_sched 1; do_sched 2; do_sched 3; do_service].

(** Each of them is entered and yields once: depths 1, 2, 3. *)
Definition three_started : list input :=
  three_scheduled ++ [in_sched; do_yield; in_sched; do_yield; in_sched; do_yield].

(** The dispatcher comes round to the first thread and resumes it. *)
Definition first_resumed : list input :=
  three_started ++ [in_sched; in_sched; in_sched].

(** The states these runs end in. *)
Definition st_serviced : machine :=
  Eval vm_compute in demo_state [do_service] [].
Definition st_three_started : machine :=
  Eval vm_compute in demo_state three_started (repeat 0 20).
Definition st_first_resumed : machine :=
  Eval vm_compute in demo_state first_resumed (repeat 0 20).

(** One thread is scheduled and entered at tick 100; the clock then reads
    120. *)
Definition st_entered : machine :=
  Eval vm_compute in demo_state [do_sched 1; do_service; in_sched] [100; 120].

(** Two threads are entered at tick 0 and both call [coop_idle(100)]. *)
Definition two_idle : list input :=
  [do_sched 1; do_sched 2; do_service;
   in_sched; in_call (call_idle 100); in_sched; in_call (call_idle 100)].
Definition st_two_idle : machine :=
  Eval vm_compute in demo_state two_idle [0; 0; 0; 0].

(** Two threads: the first sleeps until tick 100, the second has yielded and
    the dispatcher has passed over the three free slots; the clock then
    reads 150. *)
Definition idle_selected : list input :=
  [do_sched 1; do_sched 2; do_service; in_sched; in_call (call_idle 100);
   in_sched; do_yield; in_sched; in_sched; in_sched].
Definition st_idle_selected : machine :=
  Eval vm_compute in demo_state idle_selected [0; 0; 0; 150; 150].
Definition st_idle_resumed : machine :=
  Eval vm_compute in demo_state (idle_selected ++ [in_sched]) [0; 0; 0; 150; 150].

(** Two threads: the first waits on semaphore id 7 with no timeout, the
    second has been entered; it then yields and is resumed after a round of
    the dispatcher. *)
Definition one_waiting : list input :=
  [do_sched 1; do_sched 2; do_service; in_sched; in_call (call_wait 7 0); in_sched].
Definition a_round : list input :=
  [do_yield; in_sched; in_sched; in_sched; in_sched; in_sched].
Definition st_one_waiting : machine :=
  Eval vm_compute in demo_state one_waiting (repeat 0 6).
Definition st_still_waiting : machine :=
  Eval vm_compute in demo_state (one_waiting ++ a_round) (repeat 0 6).

(** The first of three started threads has been resumed, and its routine
    returns. *)
Definition st_first_returned : machine :=
  Eval vm_compute in demo_state (first_resumed ++ [in_return]) (repeat 0 20).

(** Two threads: the first waits on semaphore id 7 with no timeout; the
    second notifies that id and yields, and the dispatcher has passed over
    the three free slots.  The clock then reads 5. *)
Definition waiter_notified : list input :=
  [do_sched 1; do_sched 2; do_service; in_sched; in_call (call_wait 7 0); in_sched;
   in_call (call_notify 7); do_yield; in_sched; in_sched; in_sched].
Definition st_waiter_notified : machine :=
  Eval vm_compute in demo_state waiter_notified [0; 0; 5].

(** Two threads: the first waits on semaphore id 7 at tick 10 with a timeout
    of 50 ticks; the second yields, and the dispatcher has passed over the
    three free slots.  The clock then reads 100. *)
Definition waiter_timed : list input :=
  [do_sched 1; do_sched 2; do_service; in_sched; in_call (call_wait 7 50); in_sched;
   do_yield; in_sched; in_sched; in_sched].
Definition st_waiter_timed : machine :=
  Eval vm_compute in demo_state waiter_timed [0; 10; 10; 100; 100].

(** One thread has been scheduled from [main]. *)
Definition st_scheduled : machine :=
  Eval vm_compute in demo_state [do_sched 1] [].

(** A thread named "blink" has been scheduled and entered. *)
Definition st_named : machine :=
  Eval vm_compute in
    demo_state [in_call (call_sched_thread 1 (Some "blink"%string) 0 0);
                do_service; in_sched] [0].

(** Two threads: the first sleeps until tick 100 and the second has just
    yielded from slot 1; the clock then reads 150, 151, ... *)
Definition idle_round : list input :=
  [do_sched 1; do_sched 2; do_service; in_sched; in_call (call_idle 100);
   in_sched; do_yield].
Definition st_idle_round : machine :=
  Eval vm_compute in demo_state idle_round ([0; 0; 0] ++ seqZ 150 12).

(** Three calls of [coop_sched_thread] with names, stack sizes and
    arguments. *)
Definition args_a : sched_args := mk_sched_args 1 (Some "A"%string) 0 10.
Definition args_b : sched_args := mk_sched_args 2 None 512 20.
Definition args_c : sched_args := mk_sched_args 3 (Some "C"%string) 128 0.

(** * Properties *)

Section Basics.
Context `{cfg : Config}.

(** ** Machine integers *)

Lemma uint_small x : 0 ≤ x < 2 ^ 32 → uint x = x.
Proof. intros. unfold uint, UINT_MOD. by apply Z.mod_small. Qed.

Lemma MAX_pos : 0 < MAX.
Proof. unfold MAX. pose proof config_threads_pos. lia. Qed.

Lemma MAX_fit : MAX < 2 ^ 32.
Proof. apply config_threads_fit. Qed.

Lemma NO_THRD_val : NO_THRD = 2 ^ 32 - 1.
Proof. reflexivity. Qed.

Lemma TICK_MOD_pos : 0 < TICK_MOD.
Proof. unfold TICK_MOD. pose proof config_tick_bits. apply Z.pow_pos_nonneg; lia. Qed.

Lemma tick_wrap_range x : 0 ≤ tick_wrap x < TICK_MOD.
Proof. unfold tick_wrap. apply Z.mod_pos_bound, TICK_MOD_pos. Qed.

(** ** Pool accesses *)

Lemma in_pool_spec i : in_pool i = true ↔ 0 ≤ i < MAX.
Proof. unfold in_pool. rewrite andb_true_iff, Z.leb_le, Z.ltb_lt. tauto. Qed.

Lemma thrd_at_Some l i t :
  thrd_at l i = Some t ↔ (0 ≤ i < MAX) ∧ l !! Z.to_nat i = Some t.
Proof.
  unfold thrd_at. destruct (in_pool i) eqn:E.
  - apply in_pool_spec in E. tauto.
  - split; [done|]. intros [H _]. apply in_pool_spec in H. congruence.
Qed.

Lemma thrd_at_nat l (i : nat) t :
  length l = CONFIG_MAX_THREADS →
  l !! i = Some t → thrd_at l (Z.of_nat i) = Some t.
Proof.
  intros Hl Hi. apply thrd_at_Some. rewrite Nat2Z.id. split; [|done].
  apply lookup_lt_Some in Hi. unfold MAX. lia.
Qed.

Lemma thrd_upd_Some f i s s' :
  thrd_upd f i s = Some s' ↔
  ∃ t, thrd_at (thrds s) i = Some t ∧ s' = set_thrds (<[Z.to_nat i := f t]> (thrds s)) s.
Proof.
  unfold thrd_upd. destruct (thrd_at (thrds s) i) as [t|]; simpl.
  - split; [intros [= <-]; eauto | intros (t' & [= <-] & ->); done].
  - split; [done | intros (t' & [=] & _)].
Qed.

Lemma thrd_upd_eq f i s t :
  thrd_at (thrds s) i = Some t →
  thrd_upd f i s = Some (set_thrds (<[Z.to_nat i := f t]> (thrds s)) s).
Proof. intros H. apply thrd_upd_Some. eauto. Qed.

Lemma thrd_at_insert_eq l i t t' :
  thrd_at l i = Some t → thrd_at (<[Z.to_nat i := t']> l) i = Some t'.
Proof.
  intros [Hi Hl]%thrd_at_Some. apply thrd_at_Some. split; [done|].
  apply list_lookup_insert_eq. by eapply lookup_lt_Some.
Qed.

Lemma thrd_at_insert_ne l i j t' :
  0 ≤ i → 0 ≤ j → i ≠ j → thrd_at (<[Z.to_nat i := t']> l) j = thrd_at l j.
Proof.
  intros Hi Hj Hne. unfold thrd_at. destruct (in_pool j); [|done].
  apply list_lookup_insert_ne. lia.
Qed.

(** ** Counting and depths under a slot update *)

Lemma count_state_app p l1 l2 :
  count_state p (l1 ++ l2) = count_state p l1 + count_state p l2.
Proof. induction l1 as [|t l1 IH]; simpl; [done|]. rewrite IH. lia. Qed.

Lemma count_state_range p l : 0 ≤ count_state p l ≤ Z.of_nat (length l).
Proof. induction l as [|t l IH]; simpl; [lia|]. destruct (p (state t)); lia. Qed.

Lemma count_state_replicate p n t :
  count_state p (replicate n t) = if p (state t) then Z.of_nat n else 0.
Proof.
  induction n as [|n IH]; simpl; [by destruct (p (state t))|].
  rewrite IH. destruct (p (state t)); lia.
Qed.

Lemma live_depths_app l1 l2 :
  live_depths (l1 ++ l2) = live_depths l1 ++ live_depths l2.
Proof. induction l1 as [|t l1 IH]; simpl; [done|]. rewrite IH. by destruct (live (state t)). Qed.

Lemma live_depths_length l : (length (live_depths l) ≤ length l)%nat.
Proof. induction l as [|t l IH]; simpl; [lia|]. destruct (live (state t)); simpl; lia. Qed.

Lemma live_depths_replicate n t :
  live (state t) = false → live_depths (replicate n t) = [].
Proof. intros H. induction n as [|n IH]; simpl; [done|]. by rewrite H. Qed.

Lemma insert_split {A} (l : list A) i x y :
  l !! i = Some x →
  ∃ l1 l2, l = l1 ++ x :: l2 ∧ <[i:=y]> l = l1 ++ y :: l2 ∧ length l1 = i.
Proof.
  intros H. exists (take i l), (drop (S i) l). split_and!.
  - by rewrite take_drop_middle.
  - apply insert_take_drop. by eapply lookup_lt_Some.
  - apply length_take_le. apply lookup_lt_Some in H. lia.
Qed.

Lemma count_state_insert p l i t t' :
  l !! i = Some t →
  count_state p (<[i:=t']> l) = count_state p l - b2z (p (state t)) + b2z (p (state t')).
Proof.
  intros (l1 & l2 & -> & -> & _)%(insert_split _ _ _ t').
  rewrite !count_state_app. simpl. unfold b2z.
  destruct (p (state t)), (p (state t')); lia.
Qed.

Lemma live_depths_insert l i t t' :
  l !! i = Some t →
  (if live (state t) then [depth t] else []) ++ live_depths (<[i:=t']> l)
  ≡ₚ (if live (state t') then [depth t'] else []) ++ live_depths l.
Proof.
  intros (l1 & l2 & -> & -> & _)%(insert_split _ _ _ t').
  rewrite !live_depths_app. simpl.
  destruct (live (state t)), (live (state t')); simpl;
    rewrite <- ?Permutation_middle; try done.
  apply Permutation_swap.
Qed.

Lemma live_depths_insert_same l i t t' :
  l !! i = Some t → live (state t') = live (state t) → depth t' = depth t →
  live_depths (<[i:=t']> l) = live_depths l.
Proof.
  intros (l1 & l2 & -> & -> & _)%(insert_split _ _ _ t') Hl Hd.
  rewrite !live_depths_app. simpl. by rewrite Hl, Hd.
Qed.

Lemma live_depths_insert_dead l i t t' :
  l !! i = Some t → live (state t') = false → live (state t) = false →
  live_depths (<[i:=t']> l) = live_depths l.
Proof.
  intros (l1 & l2 & -> & -> & _)%(insert_split _ _ _ t') Hl Hd.
  rewrite !live_depths_app. simpl. by rewrite Hl, Hd.
Qed.

Lemma live_depths_lt_length l i t :
  l !! i = Some t → live (state t) = false →
  (length (live_depths l) < length l)%nat.
Proof.
  intros (l1 & l2 & -> & _ & _)%(insert_split _ _ _ t) H.
  rewrite live_depths_app, !length_app. simpl. rewrite H.
  pose proof (live_depths_length l1). pose proof (live_depths_length l2). lia.
Qed.

Lemma elem_of_live_depths l d :
  d ∈ live_depths l ↔ ∃ i t, l !! i = Some t ∧ live (state t) = true ∧ depth t = d.
Proof.
  induction l as [|t l IH]; simpl.
  - split; [by intros ?%elem_of_nil | by intros (i & t & ? & _)].
  - destruct (live (state t)) eqn:E.
    + rewrite elem_of_cons, IH. split.
      * intros [->|(i & t' & ? & ? & ?)]; [by exists 0%nat, t | by exists (S i), t'].
      * intros ([|i] & t' & Hi & ? & ?); simpl in Hi; [left; congruence | right; eauto].
    + rewrite IH. split.
      * intros (i & t' & ? & ? & ?). by exists (S i), t'.
      * intros ([|i] & t' & Hi & ? & ?); simpl in Hi; [congruence | eauto].
Qed.

(** ** [seqZ] *)

Lemma seqZ_snoc_perm n : 0 ≤ n → seqZ 1 (n + 1) ≡ₚ (n + 1) :: seqZ 1 n.
Proof.
  intros Hn. rewrite (seqZ_app 1 n 1) by lia.
  rewrite (seqZ_cons (1 + n) 1) by lia. rewrite (seqZ_nil _ (Z.pred 1)) by lia.
  rewrite <- Permutation_cons_append. by replace (1 + n) with (n + 1) by lia.
Qed.

Lemma elem_of_seqZ_1 d n : d ∈ seqZ 1 n ↔ 1 ≤ d ≤ n.
Proof. rewrite elem_of_seqZ. lia. Qed.

Lemma depths_ok_length top s :
  depths_ok top s → 0 ≤ top → top = Z.of_nat (length (live_depths (thrds s))).
Proof.
  unfold depths_ok. intros H Ht. apply Permutation_length in H.
  rewrite length_seqZ in H. lia.
Qed.

End Basics.

(** Symbolic execution of slot accesses in hypothesis [H]. *)
Ltac exec_in H :=
  unfold thrd_upd in H;
  repeat (simpl in H;
    match type of H with
    | context [<[?i:=_]> (<[?i:=_]> _)] => rewrite list_insert_insert_eq in H
    | context [thrd_at (<[Z.to_nat ?i := ?t]> ?l) ?i] =>
        erewrite (thrd_at_insert_eq l i _ t) in H
          by (repeat (eapply thrd_at_insert_eq); eassumption)
    | context [thrd_at ?l ?i] =>
        match goal with Hx : thrd_at l i = Some _ |- _ => rewrite Hx in H end
    end);
  simpl in H.

Section Invariant.
Context `{cfg : Config}.

(** ** Generic preservation lemmas *)

Lemma count_state_Forall2 p (R : coop_thrd_ctx_t → coop_thrd_ctx_t → Prop) l l' :
  Forall2 R l l' → (∀ t t', R t t' → p (state t') = p (state t)) →
  count_state p l' = count_state p l.
Proof.
  intros H HR. induction H as [|t t' l l' Ht _ IH]; simpl; [done|].
  by rewrite IH, (HR _ _ Ht).
Qed.

Lemma live_depths_Forall2 (R : coop_thrd_ctx_t → coop_thrd_ctx_t → Prop) l l' :
  Forall2 R l l' →
  (∀ t t', R t t' → live (state t') = live (state t) ∧ depth t' = depth t) →
  live_depths l' = live_depths l.
Proof.
  intros H HR. induction H as [|t t' l l' Ht _ IH]; simpl; [done|].
  destruct (HR _ _ Ht) as [-> ->]. by rewrite IH.
Qed.

Lemma pool_ok_insert r s s' i t t' :
  pool_ok r s → thrds s !! i = Some t → thrds s' = <[i:=t']> (thrds s) →
  busy_n s' = busy_n s - b2z (busy (state t)) + b2z (busy (state t')) →
  hole_n s' = hole_n s - b2z (is_hole (state t)) + b2z (is_hole (state t')) →
  idle_n s' = idle_n s - b2z (_IS_IDLE (state t)) + b2z (_IS_IDLE (state t')) →
  ctx_ok t' → (r ≠ Some (Z.of_nat i) → susp_ok t') → pool_ok r s'.
Proof.
  intros (Hlen & (Hb & Hh & Hi) & Hctx & Hsusp) Ht Hl Hb' Hh' Hi' Hc Hs.
  unfold pool_ok, counters_ok. rewrite Hl, length_insert.
  rewrite !(count_state_insert _ _ _ _ _ Ht). split_and!; try lia; try done.
  - intros j u [[-> [<- _]]|[? ?]]%list_lookup_insert_Some; eauto.
  - intros j u [[-> [<- _]]|[? ?]]%list_lookup_insert_Some; eauto.
Qed.

Lemma pool_ok_scalars r s s' :
  pool_ok r s → thrds s' = thrds s → busy_n s' = busy_n s → hole_n s' = hole_n s →
  idle_n s' = idle_n s → pool_ok r s'.
Proof.
  unfold pool_ok, counters_ok. intros H -> -> -> ->. done.
Qed.

Lemma pool_ok_running s c : pool_ok None s → pool_ok (Some c) s.
Proof.
  intros (? & ? & ? & Hs). split_and!; try done. intros i t Hi _. by eapply Hs.
Qed.

Lemma pool_ok_suspend s c :
  pool_ok (Some c) s → (∀ x, thrd_at (thrds s) c = Some x → susp_ok x) → pool_ok None s.
Proof.
  intros (Hl & ? & ? & Hs) Hx. split_and!; try done. intros i t Hi _.
  destruct (decide (c = Z.of_nat i)) as [->|Hne].
  - apply Hx. by apply thrd_at_nat.
  - eapply Hs; [done|]. congruence.
Qed.

Lemma pool_ok_Forall2 (R : coop_thrd_ctx_t → coop_thrd_ctx_t → Prop) r s s' :
  pool_ok r s → Forall2 R (thrds s) (thrds s') →
  (∀ t t', R t t' → busy (state t') = busy (state t) ∧
     is_hole (state t') = is_hole (state t) ∧ (ctx_ok t → ctx_ok t') ∧
     (susp_ok t → susp_ok t')) →
  (∀ i t t', r = Some (Z.of_nat i) → thrds s !! i = Some t → R t t' → t' = t) →
  busy_n s' = busy_n s → hole_n s' = hole_n s →
  idle_n s' = count_state _IS_IDLE (thrds s') →
  pool_ok r s'.
Proof.
  intros (Hlen & (Hb & Hh & Hi) & Hctx & Hsusp) HF HR Hrun Hb' Hh' Hi'.
  unfold pool_ok, counters_ok. split_and!; try done.
  - by rewrite <- (Forall2_length _ _ _ HF).
  - rewrite Hb', Hb. symmetry. eapply count_state_Forall2; [done|]. intros. by apply HR.
  - rewrite Hh', Hh. symmetry. eapply count_state_Forall2; [done|]. intros. by apply HR.
  - intros i t' Hi2. destruct (Forall2_lookup_r _ _ _ _ _ HF Hi2) as (t & Ht & HRt).
    apply (HR _ _ HRt). eauto.
  - intros i t' Hi2 Hr. destruct (Forall2_lookup_r _ _ _ _ _ HF Hi2) as (t & Ht & HRt).
    apply (HR _ _ HRt). eauto.
Qed.

(** ** The reset state *)

Lemma zero_sched_ok r c : pool_ok r (set_cur_thrd c zero_sched).
Proof.
  unfold pool_ok, counters_ok. simpl. rewrite length_replicate, !count_state_replicate. simpl.
  split_and!; try done.
  - intros i t [-> _]%lookup_replicate. intros [].
  - intros i t [-> _]%lookup_replicate _. done.
Qed.

Lemma zero_sched_depths c : depths_ok 0 (set_cur_thrd c zero_sched).
Proof. unfold depths_ok. simpl. by rewrite live_depths_replicate. Qed.

Lemma zero_sched_eq : set_cur_thrd 0 zero_sched = zero_sched.
Proof. reflexivity. Qed.

Lemma thrd_at_zero c t : thrd_at (thrds (set_cur_thrd c zero_sched)) (cur_thrd zero_sched) = Some t → t = zero_thrd.
Proof. intros [_ [-> _]%lookup_replicate]%thrd_at_Some. done. Qed.

(** ** [coop_sched_thread] *)

Lemma sched_first_empty_Some p n sz a l l' :
  sched_first_empty p n sz a l = Some l' →
  ∃ i t, l !! i = Some t ∧ state t = EMPTY ∧
    (∀ j t', (j < i)%nat → l !! j = Some t' → state t' ≠ EMPTY) ∧
    l' = <[i := sched_slot p n sz a t]> l.
Proof.
  revert l'. induction l as [|t l IH]; intros l'; simpl; [done|].
  case_bool_decide as E.
  - intros [= <-]. exists 0%nat, t. split_and!; try done. intros; lia.
  - destruct (sched_first_empty p n sz a l) as [l1|]; [|done]. intros [= <-].
    destruct (IH _ eq_refl) as (i & u & Hi & Hu & Hlt & ->).
    exists (S i), u. split_and!; try done.
    intros [|j] t' Hj; simpl; [by intros [= <-] | intros; eapply Hlt; [|done]; lia].
Qed.

Lemma sched_first_empty_None p n sz a l :
  sched_first_empty p n sz a l = None → count_state busy l = Z.of_nat (length l).
Proof.
  induction l as [|t l IH]; simpl; [done|]. unfold busy at 1.
  case_bool_decide; [done|]. simpl.
  destruct (sched_first_empty p n sz a l); [done|]. intros _. rewrite IH by done. lia.
Qed.

Lemma coop_sched_thread_cases p n sz a g :
  (p = 0 ∧ coop_sched_thread p n sz a g = (COOP_INV_ARG, g)) ∨
  (p ≠ 0 ∧ MAX ≤ busy_n (sched g) ∧ coop_sched_thread p n sz a g = (COOP_ERR_LIMIT, g)) ∨
  (p ≠ 0 ∧ busy_n (sched g) < MAX ∧
   ((∃ l, sched_first_empty p n sz a (thrds (sched (_sched_init false g))) = Some l ∧
      coop_sched_thread p n sz a g =
        (COOP_SUCCESS,
         mk_globals (set_busy_n (uint (busy_n (sched (_sched_init false g)) + 1))
                       (set_thrds l (sched (_sched_init false g))))
                    (inited (_sched_init false g))))
    ∨ (sched_first_empty p n sz a (thrds (sched (_sched_init false g))) = None ∧
       coop_sched_thread p n sz a g = (COOP_SUCCESS, _sched_init false g)))).
Proof.
  unfold coop_sched_thread. destruct (Z.eqb_spec p 0); [by left|].
  destruct (Z.leb_spec MAX (busy_n (sched g))); [right; left; done|].
  right; right. split_and!; try done.
  destruct (sched_first_empty _ _ _ _ _); [left; eauto | right; eauto].
Qed.

Lemma running_ok_not_zero f c : ¬ running_ok f (set_cur_thrd c zero_sched).
Proof.
  intros (x & [_ [-> _]%lookup_replicate]%thrd_at_Some & [[? _]|[? _]]); done.
Qed.

Lemma sched_init_ok g who clk :
  who ≠ CLoop 0 → (∀ f, who ≠ CLoop (S f)) →
  machine_ok (mk_machine g who clk) →
  machine_ok (mk_machine (_sched_init false g) who clk) ∧
  inited (_sched_init false g) = true ∧
  (busy_n (sched g) < MAX → busy_n (sched (_sched_init false g)) < MAX).
Proof.
  intros Hw0 HwS Hm0. pose proof Hm0 as [Hz Hm]. simpl in *. unfold _sched_init.
  destruct (inited g) eqn:Ei; simpl; [done|].
  rewrite Hz in Hm by done. split_and!; try done; [|pose proof MAX_pos; lia].
  split; [done|]. simpl. destruct who as [|[|f]|f].
  - split_and!; [apply zero_sched_ok|done|apply zero_sched_depths].
  - done.
  - by specialize (HwS f).
  - destruct Hm as [_ Hr]. by apply (running_ok_not_zero f 0) in Hr.
Qed.

Lemma sched_slot_ctx_ok p n sz a t : ctx_ok (sched_slot p n sz a t).
Proof. intros []. Qed.

Lemma sched_slot_susp_ok p n sz a t : susp_ok (sched_slot p n sz a t).
Proof. split_and!; done. Qed.

Lemma coop_sched_thread_ok p n sz a g who clk :
  who ≠ CLoop 0 → (∀ f, who ≠ CLoop (S f)) →
  machine_ok (mk_machine g who clk) →
  machine_ok (mk_machine (coop_sched_thread p n sz a g).2 who clk).
Proof.
  intros Hw0 HwS Hm.
  destruct (coop_sched_thread_cases p n sz a g)
    as [[_ ->]|[(_ & _ & ->)|(_ & Hlt & [(l & Hl & ->)|[_ ->]])]]; simpl; try done.
  2:{ by apply sched_init_ok. }
  destruct (sched_init_ok g who clk Hw0 HwS Hm) as ([_ Hm1] & Hi & Hb). simpl in *.
  specialize (Hb Hlt). set (g1 := _sched_init false g) in *. clearbody g1. clear Hm Hlt.
  destruct (sched_first_empty_Some _ _ _ _ _ _ Hl) as (i & t & Hit & Ht & _ & ->).
  split; simpl; [congruence|].
  assert (Hbn : ∀ r, pool_ok r (sched g1) →
     pool_ok r (set_busy_n (uint (busy_n (sched g1) + 1))
        (set_thrds (<[i:=sched_slot p n sz a t]> (thrds (sched g1))) (sched g1)))).
  { intros r Hp. eapply pool_ok_insert; try done; simpl; rewrite ?Ht; simpl; try lia.
    - destruct Hp as (Hlen & (Hbu & _) & _). pose proof (count_state_range busy (thrds (sched g1))).
      pose proof MAX_fit. rewrite uint_small; lia.
    - apply sched_slot_ctx_ok. }
  assert (Hld : live_depths (<[i:=sched_slot p n sz a t]> (thrds (sched g1)))
                = live_depths (thrds (sched g1))).
  { eapply live_depths_insert_dead; [done|done|by rewrite Ht]. }
  destruct who as [|f|f].
  - destruct Hm1 as (Hp & Hd & Hdo). split_and!; [by apply Hbn|done|].
    unfold depths_ok in *. simpl. by rewrite Hld.
  - destruct Hm1 as (Hp & Hd & Hdo). split_and!; [by apply Hbn|done|].
    unfold depths_ok in *. simpl. by rewrite Hld.
  - destruct Hm1 as (Hp & x & Hx & Hr). split; [by apply Hbn|].
    exists x. simpl. unfold depths_ok in *. simpl. rewrite Hld. split; [|done].
    apply thrd_at_Some in Hx as [Hc Hx]. apply thrd_at_Some. split; [done|].
    rewrite list_lookup_insert_ne; [done|]. intros ->.
    rewrite Hit in Hx. injection Hx as <-. rewrite Ht in Hr. by destruct Hr as [[? _]|[? _]].
Qed.

(** ** [coop_notify], [coop_notify_all] *)

Lemma notify_first_Forall2 sem l :
  Forall2 (λ t t', t' = t ∨ (state t = WAIT ∧ t' = set_state RUN (set_notif true t)))
    l (notify_first sem l).
Proof.
  induction l as [|t l IH]; simpl; [constructor|].
  destruct (wakes sem t) eqn:E.
  - constructor; [|by apply Forall2_same_length_lookup_2; [|intros; left; congruence]].
    right. unfold wakes in E. apply andb_true_iff in E as [E _].
    by apply bool_decide_eq_true in E.
  - constructor; [by left | done].
Qed.

Lemma notify_each_Forall2 sem l :
  Forall2 (λ t t', t' = t ∨ (state t = WAIT ∧ t' = set_state RUN (set_notif true t)))
    l (notify_each sem l).
Proof.
  induction l as [|t l IH]; simpl; [constructor|].
  destruct (wakes sem t) eqn:E.
  - constructor; [|done].
    right. unfold wakes in E. apply andb_true_iff in E as [E _].
    by apply bool_decide_eq_true in E.
  - constructor; [by left | done].
Qed.

Lemma notify_rel_id l l' :
  Forall2 (λ t t', t' = t ∨ (state t = WAIT ∧ t' = set_state RUN (set_notif true t))) l l' →
  (∀ t, t ∈ l → state t ≠ WAIT) → l' = l.
Proof.
  induction 1 as [|t t' l l' Ht _ IH]; intros Hw; [done|].
  rewrite IH by (intros; apply Hw; by right).
  destruct Ht as [->|[Ht _]]; [done|]. exfalso. eapply Hw; [by left|done].
Qed.

Lemma notify_rel_ok g who clk l' :
  Forall2 (λ t t', t' = t ∨ (state t = WAIT ∧ t' = set_state RUN (set_notif true t)))
    (thrds (sched g)) l' →
  machine_ok (mk_machine g who clk) →
  machine_ok (mk_machine (mk_globals (set_thrds l' (sched g)) (inited g)) who clk).
Proof.
  intros HF [Hz Hm]. simpl in *.
  assert (Hp : ∀ r, (∀ c x, r = Some c → thrd_at (thrds (sched g)) c = Some x → state x ≠ WAIT) →
     pool_ok r (sched g) → pool_ok r (set_thrds l' (sched g))).
  { intros r Hr Hp. eapply pool_ok_Forall2; try done; simpl.
    - intros t t' [->|[Hw ->]]; [done|]. unfold busy, is_hole, ctx_ok, susp_ok. simpl.
      rewrite Hw. split_and!; done.
    - intros i t t' -> Hit [->|[Hw _]]; [done|].
      destruct Hp as (Hlen & _). exfalso. eapply Hr; [done| |done]. by apply thrd_at_nat.
    - destruct Hp as (_ & (_ & _ & ->) & _). symmetry.
      eapply count_state_Forall2; [done|]. by intros t t' [->|[-> ->]]. }
  assert (Hld : live_depths l' = live_depths (thrds (sched g))).
  { eapply live_depths_Forall2; [done|]. by intros t t' [->|[-> ->]]. }
  split.
  - simpl. intros Hi. specialize (Hz Hi). rewrite Hz in HF |- *.
    rewrite <- zero_sched_eq at 2. unfold set_cur_thrd, set_thrds. simpl. f_equal.
    apply (notify_rel_id _ _ HF). by intros t [-> _]%elem_of_replicate.
  - unfold mode_ok in *. simpl. destruct who as [|f|f]; unfold depths_ok in *; simpl; rewrite ?Hld.
    + destruct Hm as (? & ? & ?). split_and!; try done. by apply Hp.
    + destruct Hm as (? & ? & ?). split_and!; try done. by apply Hp.
    + destruct Hm as (Hpo & x & Hx & Hr). split.
      * apply Hp; [|done]. intros c y [= <-] Hy. rewrite Hx in Hy. injection Hy as <-.
        destruct Hr as [[-> _]|[-> _]]; done.
      * exists x. split; [|by unfold depths_ok in *; simpl; rewrite Hld].
        apply thrd_at_Some in Hx as [Hc Hx].
        apply thrd_at_Some. split; [done|]. simpl.
        destruct (Forall2_lookup_l _ _ _ _ _ HF Hx) as (x' & -> & [->|[Hw _]]); [done|].
        destruct Hr as [[Hs _]|[Hs _]]; congruence.
Qed.

(** ** [_system_idle] *)

Lemma idle_scan_spec cur l idle m :
  count_state _IS_IDLE l ≤ idle < 2 ^ 32 →
  Forall2 (λ t t', t' = t ∨ (state t = IDLE ∧ t' = set_state RUN t)) l (idle_scan cur l idle m).1.1 ∧
  (idle_scan cur l idle m).1.2 =
    idle - count_state _IS_IDLE l + count_state _IS_IDLE (idle_scan cur l idle m).1.1.
Proof.
  revert idle m. induction l as [|t l IH]; intros idle m Hi; simpl.
  { split; [constructor | lia]. }
  simpl in Hi. pose proof (count_state_range _IS_IDLE l) as Hr.
  destruct (decide (state t = IDLE)) as [E|E].
  - assert (HI : _IS_IDLE (state t) = true) by (by apply bool_decide_eq_true).
    rewrite HI in Hi |- *. rewrite bool_decide_eq_true_2 by done. simpl.
    destruct (COOP_IS_TICK_OVER cur (idle_to t)).
    + rewrite (uint_small (idle - 1)) by lia. specialize (IH (idle - 1) m).
      destruct IH as [IH1 IH2]; [lia|].
      destruct (idle_scan cur l (idle - 1) m) as [[l' n] m']. simpl in *.
      split; [constructor; [by right|done] | lia].
    + destruct (tick_wrap (idle_to t - cur) <? m).
      * specialize (IH idle (tick_wrap (idle_to t - cur))).
        destruct IH as [IH1 IH2]; [lia|].
        destruct (idle_scan cur l idle _) as [[l' n] m']. simpl in *. rewrite HI.
        split; [constructor; [by left|done] | lia].
      * specialize (IH idle m).
        destruct IH as [IH1 IH2]; [lia|].
        destruct (idle_scan cur l idle _) as [[l' n] m']. simpl in *. rewrite HI.
        split; [constructor; [by left|done] | lia].
  - assert (HI : _IS_IDLE (state t) = false) by (by apply bool_decide_eq_false).
    rewrite HI in Hi |- *. rewrite bool_decide_eq_false_2 by done. simpl.
    specialize (IH idle m).
    destruct IH as [IH1 IH2]; [lia|].
    destruct (idle_scan cur l idle _) as [[l' n] m']. simpl in *. rewrite HI.
    split; [constructor; [by left|done] | lia].
Qed.

Lemma idle_rel_ok s l' n :
  Forall2 (λ t t', t' = t ∨ (state t = IDLE ∧ t' = set_state RUN t)) (thrds s) l' →
  n = count_state _IS_IDLE l' →
  pool_ok None s →
  pool_ok None (set_idle_n n (set_thrds l' s)) ∧
  live_depths l' = live_depths (thrds s).
Proof.
  intros HF -> Hp. split.
  - eapply pool_ok_Forall2; try done; simpl.
    + intros t t' [->|[Hw ->]]; [done|]. unfold busy, is_hole, ctx_ok, susp_ok. simpl.
      rewrite Hw. split_and!; try done. intros (_ & _ & Hi). rewrite Hi by done. done.
  - eapply live_depths_Forall2; [done|]. by intros t t' [->|[-> ->]].
Qed.

Lemma system_idle_loop_ok clk i m s s' clk' evs :
  _system_idle_loop clk i m s = Some (s', clk', evs) → pool_ok None s →
  pool_ok None s' ∧ cur_thrd s' = cur_thrd s ∧ sched_depth s' = sched_depth s ∧
  sched_exe_ctx s' = sched_exe_ctx s ∧ live_depths (thrds s') = live_depths (thrds s).
Proof.
  revert i m s evs. induction clk as [|t clk IH]; intros i m s evs; simpl.
  { destruct (idle_ready s); [done|]. by intros [= <- <- <-]. }
  destruct (idle_ready s); [|by intros [= <- <- <-]].
  intros H Hp.
  assert (Hi : count_state _IS_IDLE (thrds s) ≤ idle_n s < 2 ^ 32).
  { destruct Hp as (Hlen & (_ & _ & ->) & _).
    pose proof (count_state_range _IS_IDLE (thrds s)). pose proof MAX_fit. unfold MAX in *. lia. }
  destruct (idle_scan_spec (tick_wrap t) (thrds s) (idle_n s) COOP_MAX_TICK Hi) as [HF Hn].
  destruct (idle_scan _ _ _ _) as [[l' n] m']. simpl in *.
  destruct (_system_idle_loop clk true m' _) as [[[s1 c1] e1]|] eqn:E; [|done].
  simpl in H. injection H as <- <- <-.
  destruct (idle_rel_ok s l' n HF) as [Hp1 Hld]; [|done|].
  { destruct Hp as (_ & (_ & _ & Hc) & _). lia. }
  destruct (IH _ _ _ _ E Hp1) as (? & ? & ? & ? & Hld2). simpl in *.
  split_and!; try done. congruence.
Qed.

(** ** The dispatcher *)

Lemma longjmp_thrd j s x g :
  thrd_at (thrds s) (cur_thrd s) = Some x →
  (∃ a, j = JSaved g (thrd_pos_new a) ∨ j = JSaved g (thrd_pos_run a)) →
  ∃ r, longjmp j s = Some (CThread g, [ev_resume (cur_thrd s) r]).
Proof.
  intros Hx [a [->| ->]]; simpl; destruct a; simpl; rewrite ?Hx; simpl; eauto.
Qed.

Lemma pool_lookup_cur l c x :
  thrd_at l c = Some x → l !! Z.to_nat c = Some x ∧ Z.of_nat (Z.to_nat c) = c.
Proof. intros [Hc Hx]%thrd_at_Some. split; [done|lia]. Qed.

Lemma sched_run_ok f s clk s' c clk' evs x :
  sched_run f s clk = Some (s', c, clk', evs) →
  thrd_at (thrds s) (cur_thrd s) = Some x → state x = RUN →
  pool_ok (Some (cur_thrd s)) s → sched_depth s = Z.of_nat f →
  depths_ok (sched_depth s) s →
  mode_ok c s'.
Proof.
  unfold sched_run. intros H Hx Hs Hp Hd Hdo.
  destruct (coop_tick_cb clk) as [[tick clk1]|]; [|done]. exec_in H.
  destruct (pool_lookup_cur _ _ _ Hx) as [Hx' Hc].
  assert (Hctx : ctx_ok x) by (destruct Hp as (_ & _ & Hctx & _); eauto).
  destruct Hctx as (g & Hdx & He & Hex); [by rewrite Hs|]. specialize (Hex ltac:(by rewrite Hs)).
  match type of H with context [longjmp _ ?s0] => set (s1 := s0) in * end.
  assert (Hx1 : thrd_at (thrds s1) (cur_thrd s1) = Some (set_switch_tick tick x)).
  { subst s1. simpl. by eapply thrd_at_insert_eq. }
  destruct (longjmp_thrd (exe_ctx x) s1 _ g Hx1 Hex) as [r Hr].
  rewrite Hr in H. simpl in H. injection H as <- <- <- <-.
  split.
  - apply (pool_ok_insert _ s _ _ x (set_switch_tick tick x) Hp Hx');
      simpl; rewrite ?Hs; try done; try lia.
    + intros _. exists g. simpl. split_and!; [done|done|intros _; exact Hex].
    + rewrite Hc. done.
  - exists (set_switch_tick tick x). split; [done|]. right. simpl.
    split_and!; try done. { by rewrite Hd, Nat2Z.id. }
    unfold depths_ok in *. simpl. erewrite live_depths_insert_same; done.
Qed.

Lemma count_state_pos p l i t :
  l !! i = Some t → p (state t) = true → 1 ≤ count_state p l.
Proof.
  intros (l1 & l2 & -> & _ & _)%(insert_split _ _ _ t) Hp.
  rewrite count_state_app. simpl. rewrite Hp.
  pose proof (count_state_range p l1). pose proof (count_state_range p l2). lia.
Qed.

Lemma depth_room s t i :
  pool_ok None s → depths_ok (sched_depth s) s → 0 ≤ sched_depth s →
  thrds s !! i = Some t → live (state t) = false →
  sched_depth s + 1 ≤ MAX.
Proof.
  intros (Hlen & _) Hdo Hd Ht Hl.
  apply depths_ok_length in Hdo; [|done].
  pose proof (live_depths_lt_length _ _ _ Ht Hl). unfold MAX. lia.
Qed.

Lemma sched_iter_ok f s clk s' c clk' evs :
  sched_iter f s clk = Some (s', c, clk', evs) →
  pool_ok None s → sched_depth s = Z.of_nat f → depths_ok (sched_depth s) s →
  mode_ok c s'.
Proof.
  unfold sched_iter, _system_idle. intros H Hp Hd Hdo.
  destruct (_system_idle_loop _ _ _ _) as [[[s1 clk1] evs0]|] eqn:Ei; [|done]. simpl in H.
  apply system_idle_loop_ok in Ei as (Hp1 & Hc1 & Hd1 & He1 & Hl1);
    [|by eapply pool_ok_scalars]. simpl in *.
  assert (Hdo1 : depths_ok (sched_depth s1) s1).
  { unfold depths_ok in *. by rewrite Hl1, Hd1. }
  rewrite <- Hd1 in Hd. clear Hc1 Hd1 He1 Hl1 Hp Hdo.
  destruct (thrd_at (thrds s1) (cur_thrd s1)) as [t|] eqn:Ht; [|done]. simpl in H.
  destruct (pool_lookup_cur _ _ _ Ht) as [Ht' Hc].
  pose proof (pool_ok_running s1 (cur_thrd s1) Hp1) as Hpr.
  assert (Hctx : ctx_ok t) by (destruct Hp1 as (_ & _ & Hctx & _); eauto).
  destruct (state t) eqn:Est.
  - (* EMPTY *) by injection H as <- <- <- <-.
  - (* HOLE *) by injection H as <- <- <- <-.
  - (* NEW *)
    destruct (coop_tick_cb clk1) as [[tick clk2]|] eqn:Et; exec_in H; [|done].
    injection H as <- <- <- <-.
    assert (Hroom : sched_depth s1 + 1 ≤ MAX).
    { eapply depth_room; try done; [lia|by rewrite Est]. }
    pose proof MAX_fit. rewrite uint_small by lia.
    split.
    + apply (pool_ok_insert _ s1 _ _ t
        (set_switch_tick tick (set_depth (sched_depth s1 + 1)
           (set_entry_ctx (JSaved f sched_pos_entry_thrd) t))) Hpr Ht');
        simpl; rewrite ?Est, ?Hc; simpl; try done; try lia.
      intros Hl. simpl in Hl. by rewrite Est in Hl.
    + eexists. split; [simpl; by eapply thrd_at_insert_eq|]. left. simpl.
      split_and!; try done; [lia|].
      unfold depths_ok in *. simpl. replace (sched_depth s1 + 1 - 1) with (sched_depth s1) by lia.
      erewrite live_depths_insert_dead; try done; simpl; by rewrite Est.
  - (* RUN *)
    destruct (sched_run f s1 clk1) as [[[[s2 c2] clk2] evs2]|] eqn:Er; [|done].
    simpl in H. injection H as <- <- <- <-. by eapply sched_run_ok.
  - (* IDLE *)
    destruct (coop_tick_cb clk1) as [[tick clk2]|] eqn:Et; [|done]. simpl in H.
    destruct (COOP_IS_TICK_OVER tick (idle_to t)); simpl in H;
      [|by injection H as <- <- <- <-].
    exec_in H.
    destruct (sched_run f _ clk2) as [[[[s2 c2] clk2'] evs2]|] eqn:Er; [|done].
    simpl in H. injection H as <- <- <- <-.
    eapply sched_run_ok; [exact Er|simpl; by eapply thrd_at_insert_eq|done| |done|].
    + apply (pool_ok_insert _ s1 _ _ t (set_state RUN t) Hpr Ht');
        simpl; rewrite ?Est, ?Hc; simpl; try done; try lia.
      * destruct Hp1 as (Hlen & (_ & _ & Hi) & _).
        pose proof (count_state_pos _IS_IDLE _ _ _ Ht' ltac:(by rewrite Est)).
        pose proof (count_state_range _IS_IDLE (thrds s1)). pose proof MAX_fit.
        rewrite uint_small; unfold MAX in *; simpl; lia.
      * intros _. destruct Hctx as (g & ? & ? & ?); [by rewrite Est|]. exists g.
        simpl. split_and!; try done. rewrite Est in *. done.
    + unfold depths_ok in *. simpl. erewrite live_depths_insert_same; try done.
      simpl. by rewrite Est.
  - (* WAIT *)
    destruct (inf t); [by injection H as <- <- <- <-|].
    destruct (coop_tick_cb clk1) as [[tick clk2]|] eqn:Et; [|done]. simpl in H.
    destruct (COOP_IS_TICK_OVER tick (wait_to t)); simpl in H;
      [|by injection H as <- <- <- <-].
    exec_in H.
    destruct (sched_run f _ clk2) as [[[[s2 c2] clk2'] evs2]|] eqn:Er; [|done].
    simpl in H. injection H as <- <- <- <-.
    eapply sched_run_ok; [exact Er|simpl; by eapply thrd_at_insert_eq|done| |done|].
    + apply (pool_ok_insert _ s1 _ _ t (set_state RUN t) Hpr Ht');
        simpl; rewrite ?Est, ?Hc; simpl; try done; try lia.
      * intros _. destruct Hctx as (g & ? & ? & ?); [by rewrite Est|]. exists g.
        simpl. split_and!; try done. rewrite Est in *. done.
    + unfold depths_ok in *. simpl. erewrite live_depths_insert_same; try done.
      simpl. by rewrite Est.
Qed.

(** ** The yield family *)

Lemma count_state_lt p l i t :
  l !! i = Some t → p (state t) = false → count_state p l < Z.of_nat (length l).
Proof.
  intros (l1 & l2 & -> & _ & _)%(insert_split _ _ _ t) Hp.
  rewrite count_state_app, length_app. simpl. rewrite Hp.
  pose proof (count_state_range p l1). pose proof (count_state_range p l2). lia.
Qed.

Lemma running_depth s x :
  thrd_at (thrds s) (cur_thrd s) = Some x → state x = RUN →
  depths_ok (sched_depth s) s → 1 ≤ depth x ≤ sched_depth s.
Proof.
  intros [_ Hx]%thrd_at_Some Hs Hdo. apply elem_of_seqZ_1. unfold depths_ok in Hdo.
  rewrite <- Hdo. apply elem_of_live_depths. exists (Z.to_nat (cur_thrd s)), x.
  by rewrite Hs.
Qed.

Lemma running_fields_ok f s x x' :
  thrd_at (thrds s) (cur_thrd s) = Some x →
  state x' = state x → depth x' = depth x →
  entry_ctx x' = entry_ctx x → exe_ctx x' = exe_ctx x →
  pool_ok (Some (cur_thrd s)) s → running_ok f s →
  pool_ok (Some (cur_thrd s)) (set_thrds (<[Z.to_nat (cur_thrd s) := x']> (thrds s)) s) ∧
  running_ok f (set_thrds (<[Z.to_nat (cur_thrd s) := x']> (thrds s)) s).
Proof.
  intros Hx Hs Hd He Hex Hp (y & Hy & Hr). rewrite Hx in Hy. injection Hy as <-.
  destruct (pool_lookup_cur _ _ _ Hx) as [Hx' Hc].
  assert (Hctx : ctx_ok x) by (destruct Hp as (_ & _ & Hctx & _); eauto).
  split.
  - apply (pool_ok_insert _ s _ _ x x' Hp Hx'); simpl; rewrite ?Hs, ?Hc; try done; try lia.
    unfold ctx_ok. by rewrite Hs, Hd, He, Hex.
  - exists x'. split; [simpl; by eapply thrd_at_insert_eq|].
    unfold depths_ok in *. simpl. rewrite Hs, Hd, He.
    erewrite live_depths_insert_same; try done. by rewrite Hs.
Qed.

Lemma yield_ok f a st s s' c evs x :
  _yield f a st s = Some (s', c, evs) →
  thrd_at (thrds s) (cur_thrd s) = Some x →
  pool_ok (Some (cur_thrd s)) (set_idle_n (idle_n s - b2z (_IS_IDLE st)) s) →
  running_ok f s →
  match st with
  | RUN => a ≠ ApiWait
  | IDLE => a = ApiIdle
  | WAIT => notif x = false
  | _ => False
  end →
  mode_ok c s'.
Proof.
  intros H Hx Hp (y & Hy & Hr) Hst. rewrite Hx in Hy. injection Hy as <-.
  destruct (pool_lookup_cur _ _ _ Hx) as [Hx' Hc].
  assert (Hctx : ctx_ok x) by (destruct Hp as (_ & _ & Hctx & _); eauto).
  unfold _yield in H. simpl in H. rewrite Hx in H. simpl in H.
  set (s0 := set_idle_n (idle_n s - b2z (_IS_IDLE st)) s) in *.
  destruct Hr as [(Hs & Hdx & Hd & He & Hdo)|(Hs & Hdx & He & Hdo)].
  - rewrite Hs in H. simpl in H. exec_in H. injection H as <- <- <-.
    split_and!; simpl; [|done|].
    + eapply pool_ok_suspend.
      * apply (pool_ok_insert _ s0 _ _ x
          (set_exe_ctx (JSaved f (thrd_pos_new a)) (set_state st x)) Hp Hx');
          simpl; rewrite ?Hs, ?Hc; simpl; try done; try lia.
        -- destruct st; simpl in *; try done; lia.
        -- destruct st; simpl in *; try done; lia.
        -- intros _. exists f. simpl. split_and!; [lia|done|eauto].
      * simpl. intros y Hy. erewrite thrd_at_insert_eq in Hy by done. injection Hy as <-.
        unfold susp_ok. simpl. destruct st; try done; split_and!; try done.
        -- intros _ [= ->]. done.
        -- intros _. by subst a.
    + unfold depths_ok in *. simpl.
      pose proof (live_depths_insert (thrds s) _ x
        (set_exe_ctx (JSaved f (thrd_pos_new a)) (set_state st x)) Hx') as Hli.
      rewrite Hs in Hli. simpl in Hli.
      replace (live st) with true in Hli by (by destruct st). simpl in Hli.
      rewrite Hli, Hdo, Hdx.
      replace (sched_depth s) with (sched_depth s - 1 + 1) at 1 3 by lia.
      symmetry. apply seqZ_snoc_perm. lia.
  - rewrite Hs in H. simpl in H. exec_in H. rewrite He in H. simpl in H.
    injection H as <- <- <-.
    pose proof (running_depth s x Hx Hs Hdo) as Hrange.
    split_and!; simpl; [|lia|].
    + eapply pool_ok_suspend.
      * apply (pool_ok_insert _ s0 _ _ x
          (set_exe_ctx (JSaved f (thrd_pos_run a)) (set_state st x)) Hp Hx');
          simpl; rewrite ?Hs, ?Hc; simpl; try done; try lia.
        -- destruct st; simpl in *; try done; lia.
        -- destruct st; simpl in *; try done; lia.
        -- intros _. exists f. simpl.
           destruct Hctx as (g & Hg & Hen & _); [by rewrite Hs|].
           assert (g = f) as -> by lia. split_and!; [done|done|eauto].
      * simpl. intros y Hy. erewrite thrd_at_insert_eq in Hy by done. injection Hy as <-.
        unfold susp_ok. simpl. destruct st; try done; split_and!; try done.
        -- intros _ [= ->]. done.
        -- intros _. by subst a.
    + unfold depths_ok in *. simpl. erewrite live_depths_insert_same; try done.
      simpl. rewrite Hs. by destruct st.
Qed.

Lemma pool_ok_idle_0 r s : pool_ok r s → pool_ok r (set_idle_n (idle_n s - b2z (_IS_IDLE RUN)) s).
Proof. intros H. eapply pool_ok_scalars; [done|done..|simpl; lia]. Qed.

Lemma coop_idle_ok f period s clk s' c clk' evs :
  coop_idle f period s clk = Some (s', c, clk', evs) →
  pool_ok (Some (cur_thrd s)) s → running_ok f s → mode_ok c s'.
Proof.
  unfold coop_idle. intros H Hp Hr. pose proof Hr as (x & Hx & Hr').
  destruct (0 <? period).
  - destruct (coop_tick_cb clk) as [[tick clk1]|]; [|done]. exec_in H.
    destruct (_yield _ _ _ _) as [[[s1 c1] e1]|] eqn:Ey; [|done].
    simpl in H. injection H as <- <- <- <-.
    destruct (pool_lookup_cur _ _ _ Hx) as [Hx' Hc].
    destruct (running_fields_ok f s x (set_idle_to (tick_wrap (tick + period)) x) Hx)
      as [Hp1 Hr1]; try done.
    eapply yield_ok; [exact Ey|simpl; by eapply thrd_at_insert_eq| |exact Hr1|done].
    eapply pool_ok_scalars; [exact Hp1|done..|]. simpl.
    destruct Hp as (Hlen & (_ & _ & Hi) & _).
    pose proof (count_state_range _IS_IDLE (thrds s)).
    pose proof (count_state_lt _IS_IDLE _ _ _ Hx') as Hlt.
    pose proof MAX_fit. unfold MAX in *.
    rewrite uint_small; [lia|].
    destruct Hr' as [[Hs _]|[Hs _]]; rewrite Hs in Hlt; specialize (Hlt eq_refl); lia.
  - destruct (_yield _ _ _ _) as [[[s1 c1] e1]|] eqn:Ey; [|done].
    simpl in H. injection H as <- <- <- <-.
    eapply yield_ok; [exact Ey|done|by apply pool_ok_idle_0|done|done].
Qed.

Lemma coop_yield_after_ok f after s clk s' c clk' evs :
  coop_yield_after f after s clk = Some (s', c, clk', evs) →
  pool_ok (Some (cur_thrd s)) s → running_ok f s → mode_ok c s'.
Proof.
  unfold coop_yield_after. intros H Hp Hr. pose proof Hr as (x & Hx & Hr').
  destruct (coop_tick_cb clk) as [[tick clk1]|]; [|done]. simpl in H.
  destruct (COOP_IS_TICK_OVER tick after).
  - destruct (_yield _ _ _ _) as [[[s1 c1] e1]|] eqn:Ey; [|done].
    simpl in H. injection H as <- <- <- <-.
    eapply yield_ok; [exact Ey|done|by apply pool_ok_idle_0|done|done].
  - injection H as <- <- <- <-. done.
Qed.

Lemma wait_enter_ok f sem timeout s clk s' clk' :
  wait_enter sem timeout s clk = Some (s', clk') →
  pool_ok (Some (cur_thrd s)) s → running_ok f s →
  pool_ok (Some (cur_thrd s')) s' ∧ running_ok f s' ∧
  ∃ x', thrd_at (thrds s') (cur_thrd s') = Some x' ∧ notif x' = false.
Proof.
  unfold wait_enter. intros H Hp Hr. pose proof Hr as (x & Hx & Hr').
  destruct (negb (timeout =? 0)).
  - exec_in H. destruct (coop_tick_cb clk) as [[tick clk1]|]; [|done]. exec_in H.
    injection H as <- <-.
    match goal with |- context [<[_ := ?y]> _] => 
      destruct (running_fields_ok f s x y Hx) as [Hp1 Hr1]; try done end.
    split_and!; try done. eexists. split; [simpl; by eapply thrd_at_insert_eq|done].
  - exec_in H. injection H as <- <-.
    match goal with |- context [<[_ := ?y]> _] => 
      destruct (running_fields_ok f s x y Hx) as [Hp1 Hr1]; try done end.
    split_and!; try done. eexists. split; [simpl; by eapply thrd_at_insert_eq|done].
Qed.

Lemma coop_wait_ok f sem timeout s clk s' c clk' evs :
  coop_wait f sem timeout s clk = Some (s', c, clk', evs) →
  pool_ok (Some (cur_thrd s)) s → running_ok f s → mode_ok c s'.
Proof.
  unfold coop_wait. intros H Hp Hr.
  destruct (wait_enter sem timeout s clk) as [[s1 clk1]|] eqn:Ew; [|done]. simpl in H.
  destruct (wait_enter_ok f _ _ _ _ _ _ Ew Hp Hr) as (Hp1 & Hr1 & x' & Hx' & Hn).
  destruct (_yield _ _ _ _) as [[[s2 c2] e2]|] eqn:Ey; [|done].
  simpl in H. injection H as <- <- <- <-.
  eapply yield_ok; [exact Ey|done| |done|done].
  eapply pool_ok_scalars; [exact Hp1|done..|simpl; lia].
Qed.

End Invariant.

Section Unwind.
Context `{cfg : Config}.

(** ** [_mark_unwind_thrds] *)

Lemma started_depth_spec l d0 :
  d0 ≤ started_depth l d0 ∧
  (∀ t, t ∈ l → _IS_STARTED (state t) = true → depth t ≤ started_depth l d0) ∧
  (started_depth l d0 = d0 ∨
   ∃ t, t ∈ l ∧ _IS_STARTED (state t) = true ∧ depth t = started_depth l d0).
Proof.
  revert d0. induction l as [|t l IH]; intros d0; simpl.
  { split_and!; [lia| |by left]. by intros t ?%elem_of_nil. }
  destruct (_IS_STARTED (state t)) eqn:Es; simpl.
  - destruct (Z.ltb_spec d0 (depth t)) as [Hlt|Hge].
    + destruct (IH (depth t)) as (H1 & H2 & H3). split_and!; [lia| |].
      * intros u [->|Hu]%elem_of_cons Hsu; [lia|eauto].
      * right. destruct H3 as [->|(u & ? & ? & ?)].
        -- exists t. split_and!; [by left|done|done].
        -- exists u. split_and!; [by right|done|done].
    + destruct (IH d0) as (H1 & H2 & H3). split_and!; [lia| |].
      * intros u [->|Hu]%elem_of_cons Hsu; [lia|eauto].
      * destruct H3 as [->|(u & ? & ? & ?)]; [by left|].
        right. exists u. split_and!; [by right|done|done].
  - destruct (IH d0) as (H1 & H2 & H3). split_and!; [lia| |].
    + intros u [->|Hu]%elem_of_cons Hsu; [congruence|eauto].
    + destruct H3 as [->|(u & ? & ? & ?)]; [by left|].
      right. exists u. split_and!; [by right|done|done].
Qed.

(** The holes at depth [d1] and above are freed, nothing else changes. *)
Lemma unwind_holes_rel d1 i l u b h :
  Forall2 (λ t t', (state t = HOLE ∧ d1 ≤ depth t ∧ t' = set_state EMPTY t) ∨
                   (¬ (state t = HOLE ∧ d1 ≤ depth t) ∧ t' = t))
    l (unwind_holes d1 i l u b h).1.1.1.
Proof.
  revert i u b h. induction l as [|t l IH]; intros i u b h; simpl; [constructor|].
  destruct (bool_decide (state t = HOLE) && (d1 <=? depth t)) eqn:E.
  - apply andb_true_iff in E as [E1%bool_decide_eq_true E2%Z.leb_le].
    match goal with |- context [unwind_holes d1 ?i0 l ?u0 ?b0 ?h0] =>
      specialize (IH i0 u0 b0 h0); destruct (unwind_holes d1 i0 l u0 b0 h0) as [[[l' u'] b'] h'] end.
    simpl in *. constructor; [by left|done].
  - match goal with |- context [unwind_holes d1 ?i0 l ?u0 ?b0 ?h0] =>
      specialize (IH i0 u0 b0 h0); destruct (unwind_holes d1 i0 l u0 b0 h0) as [[[l' u'] b'] h'] end.
    simpl in *. constructor; [|done]. right. split; [|done].
    intros [E1 E2]. apply andb_false_iff in E as [E|E].
    + by apply bool_decide_eq_false in E.
    + apply Z.leb_gt in E. lia.
Qed.

Lemma unwind_holes_counts d1 i l u b h :
  count_state is_hole l ≤ h → h ≤ b → b < 2 ^ 32 →
  (unwind_holes d1 i l u b h).2 =
    h - count_state is_hole l + count_state is_hole (unwind_holes d1 i l u b h).1.1.1 ∧
  (unwind_holes d1 i l u b h).1.2 =
    b - count_state is_hole l + count_state is_hole (unwind_holes d1 i l u b h).1.1.1.
Proof.
  revert i u b h. induction l as [|t l IH]; intros i u b h Hh Hb Hlt; simpl; [lia|].
  simpl in Hh. pose proof (count_state_range is_hole l).
  destruct (bool_decide (state t = HOLE) && (d1 <=? depth t)) eqn:E.
  - apply andb_true_iff in E as [E1 E2].
    assert (Hh1 : is_hole (state t) = true) by done. rewrite Hh1 in Hh |- *.
    rewrite (uint_small (b - 1)), (uint_small (h - 1)) by lia.
    match goal with |- context [unwind_holes d1 ?i0 l ?u0 ?b0 ?h0] =>
      specialize (IH i0 u0 b0 h0); destruct (unwind_holes d1 i0 l u0 b0 h0) as [[[l' u'] b'] h'] end.
    simpl in *. destruct IH; lia.
  - match goal with |- context [unwind_holes d1 ?i0 l ?u0 ?b0 ?h0] =>
      specialize (IH i0 u0 b0 h0); destruct (unwind_holes d1 i0 l u0 b0 h0) as [[[l' u'] b'] h'] end.
    simpl in *. destruct (is_hole (state t)); destruct IH; lia.
Qed.

Lemma unwind_holes_target d1 i l u b h :
  ((∀ j t, l !! j = Some t → ¬ (state t = HOLE ∧ depth t = d1)) ∧
   (unwind_holes d1 i l u b h).1.1.2 = u) ∨
  (∃ j t, l !! j = Some t ∧ state t = HOLE ∧ depth t = d1 ∧
     (unwind_holes d1 i l u b h).1.1.2 = i + Z.of_nat j).
Proof.
  revert i u b h. induction l as [|t l IH]; intros i u b h; simpl.
  { left. split; [|done]. by intros j t. }
  destruct (bool_decide (state t = HOLE) && (d1 <=? depth t)) eqn:E.
  - apply andb_true_iff in E as [E1%bool_decide_eq_true E2%Z.leb_le].
    match goal with |- context [unwind_holes d1 ?i0 l ?u0 ?b0 ?h0] =>
      specialize (IH i0 u0 b0 h0); destruct (unwind_holes d1 i0 l u0 b0 h0) as [[[l' u'] b'] h'] end.
    simpl in *. destruct IH as [[Hno ->]|(j & t' & Hj & ? & ? & ->)].
    + destruct (Z.eqb_spec d1 (depth t)) as [Heq|Hne].
      * right. exists 0%nat, t. split_and!; try done. lia.
      * left. split; [|done]. intros [|j] t'; simpl; [intros [= <-] [_ ?]; congruence|eauto].
    + right. exists (S j), t'. split_and!; try done. lia.
  - match goal with |- context [unwind_holes d1 ?i0 l ?u0 ?b0 ?h0] =>
      specialize (IH i0 u0 b0 h0); destruct (unwind_holes d1 i0 l u0 b0 h0) as [[[l' u'] b'] h'] end.
    simpl in *. destruct IH as [[Hno ->]|(j & t' & Hj & ? & ? & ->)].
    + left. split; [|done]. intros [|j] t'; simpl; [|eauto].
      intros [= <-] [E1 E2]. apply andb_false_iff in E as [E|E].
      * by apply bool_decide_eq_false in E.
      * apply Z.leb_gt in E. lia.
    + right. exists (S j), t'. split_and!; try done. lia.
Qed.

(** Freed holes leave the live depths below [d1], when every started thread
    lies below [d1]. *)
Lemma unwind_rel_depths d1 l l' :
  Forall2 (λ t t', (state t = HOLE ∧ d1 ≤ depth t ∧ t' = set_state EMPTY t) ∨
                   (¬ (state t = HOLE ∧ d1 ≤ depth t) ∧ t' = t)) l l' →
  (∀ t, t ∈ l → _IS_STARTED (state t) = true → depth t < d1) →
  live_depths l' = filter (λ d, d < d1) (live_depths l).
Proof.
  induction 1 as [|t t' l l' Ht _ IH]; intros Hs; simpl; [done|].
  rewrite IH by (intros; apply Hs; [by right|done]).
  destruct Ht as [(Hh & Hd & ->)|[Hn ->]]; simpl.
  - rewrite Hh. simpl. rewrite filter_cons_False by lia. done.
  - destruct (live (state t)) eqn:El; [|done].
    rewrite filter_cons_True; [done|].
    destruct (_IS_STARTED (state t)) eqn:Est.
    + apply Hs; [by left|done].
    + unfold live in El. rewrite Est in El. simpl in El.
      apply bool_decide_eq_true in El. destruct (Z.lt_ge_cases (depth t) d1); [done|].
      exfalso. apply Hn. split; [done|lia].
Qed.

Lemma unwind_rel_counts d1 l l' p :
  Forall2 (λ t t', (state t = HOLE ∧ d1 ≤ depth t ∧ t' = set_state EMPTY t) ∨
                   (¬ (state t = HOLE ∧ d1 ≤ depth t) ∧ t' = t)) l l' →
  p HOLE = p EMPTY →
  count_state p l' = count_state p l.
Proof.
  intros HF Hp. eapply count_state_Forall2; [done|].
  intros t t' [(Hh & _ & ->)|[_ ->]]; [|done]. simpl. by rewrite Hh.
Qed.

Lemma unwind_rel_busy d1 l l' :
  Forall2 (λ t t', (state t = HOLE ∧ d1 ≤ depth t ∧ t' = set_state EMPTY t) ∨
                   (¬ (state t = HOLE ∧ d1 ≤ depth t) ∧ t' = t)) l l' →
  count_state busy l' - count_state is_hole l' = count_state busy l - count_state is_hole l.
Proof.
  induction 1 as [|t t' l l' Ht _ IH]; simpl; [done|].
  destruct Ht as [(Hh & _ & ->)|[_ ->]]; simpl; [rewrite Hh; simpl; lia|lia].
Qed.

Lemma filter_lt_seqZ d n :
  0 ≤ d ≤ n → filter (λ k, k < d + 1) (seqZ 1 n) = seqZ 1 d.
Proof.
  intros Hd. replace n with (d + (n - d)) by lia. rewrite seqZ_app by lia.
  rewrite filter_app.
  assert (H1 : ∀ m k, 0 ≤ k → m + k ≤ d + 1 → filter (λ k, k < d + 1) (seqZ m k) = seqZ m k).
  { intros m k Hk. revert m. pattern k. apply natlike_ind; [| |done].
    - intros m _. by rewrite seqZ_nil.
    - intros k' Hk' IH m Hm. rewrite seqZ_cons by lia.
      rewrite filter_cons_True by lia. f_equal.
      replace (Z.pred (Z.succ k')) with k' by lia. apply IH. lia. }
  assert (H2 : ∀ m k, 0 ≤ k → d + 1 ≤ m → filter (λ k, k < d + 1) (seqZ m k) = []).
  { intros m k Hk. revert m. pattern k. apply natlike_ind; [| |done].
    - intros m _. by rewrite seqZ_nil.
    - intros k' Hk' IH m Hm. rewrite seqZ_cons by lia.
      rewrite filter_cons_False by lia.
      replace (Z.pred (Z.succ k')) with k' by lia. apply IH. lia. }
  rewrite H1, H2 by lia. by rewrite app_nil_r.
Qed.

Lemma count_hole_le_busy l : count_state is_hole l ≤ count_state busy l.
Proof.
  induction l as [|t l IH]; simpl; [lia|]. by destruct (state t); simpl; lia.
Qed.

Lemma live_depths_elem l t :
  t ∈ l → live (state t) = true → depth t ∈ live_depths l.
Proof.
  intros [i Hi]%list_elem_of_lookup Hl. apply elem_of_live_depths. eauto.
Qed.

Lemma started_live st : _IS_STARTED st = true → live st = true.
Proof. unfold live. by intros ->. Qed.

(** What [_mark_unwind_thrds] computes when the terminating thread holds the
    top depth and the other live depths are [1 .. sched.depth - 1]. *)
Lemma mark_unwind_spec s x :
  pool_ok (Some (cur_thrd s)) s →
  thrd_at (thrds s) (cur_thrd s) = Some x →
  state x = NEW ∨ state x = RUN →
  1 ≤ sched_depth s →
  live_depths (<[Z.to_nat (cur_thrd s) := set_state EMPTY x]> (thrds s))
    ≡ₚ seqZ 1 (sched_depth s - 1) →
  ∃ u s', _mark_unwind_thrds s = Some (u, s') ∧
    let l1 := <[Z.to_nat (cur_thrd s) := set_state EMPTY x]> (thrds s) in
    let d := started_depth l1 0 in
    0 ≤ d < sched_depth s ∧
    sched_depth s' = d ∧ cur_thrd s' = cur_thrd s ∧ idle_n s' = idle_n s ∧
    sched_exe_ctx s' = sched_exe_ctx s ∧
    Forall2 (λ t t', (state t = HOLE ∧ d + 1 ≤ depth t ∧ t' = set_state EMPTY t) ∨
                     (¬ (state t = HOLE ∧ d + 1 ≤ depth t) ∧ t' = t)) l1 (thrds s') ∧
    busy_n s' = count_state busy (thrds s') ∧
    hole_n s' = count_state is_hole (thrds s') ∧
    live_depths (thrds s') ≡ₚ seqZ 1 d ∧
    ((∃ j t, l1 !! j = Some t ∧ state t = HOLE ∧ depth t = d + 1 ∧ u = Z.of_nat j) ∨
     ((∀ j t, l1 !! j = Some t → ¬ (state t = HOLE ∧ depth t = d + 1)) ∧
      u = cur_thrd s ∧ d + 1 = sched_depth s)).
Proof.
  intros Hp Hx Hsx Hd1 Hdo.
  destruct (pool_lookup_cur _ _ _ Hx) as [Hx' Hc].
  set (l1 := <[Z.to_nat (cur_thrd s) := set_state EMPTY x]> (thrds s)) in *.
  destruct Hp as (Hlen & (Hb & Hh & Hi) & Hctx & Hsusp).
  assert (Hl1 : length l1 = CONFIG_MAX_THREADS) by (subst l1; by rewrite length_insert).
  assert (Hx1 : l1 !! Z.to_nat (cur_thrd s) = Some (set_state EMPTY x)).
  { subst l1. apply list_lookup_insert_eq. by eapply lookup_lt_Some. }
  assert (Hb1 : count_state busy l1 = busy_n s - 1).
  { subst l1. rewrite (count_state_insert _ _ _ _ _ Hx'), Hb. simpl.
    destruct Hsx as [-> | ->]; simpl; lia. }
  assert (Hh1 : count_state is_hole l1 = hole_n s).
  { subst l1. rewrite (count_state_insert _ _ _ _ _ Hx'), Hh. simpl.
    destruct Hsx as [-> | ->]; simpl; lia. }
  pose proof (count_state_range busy l1) as Hbr.
  pose proof (count_state_range is_hole l1) as Hhr.
  pose proof (count_hole_le_busy l1) as Hhb.
  pose proof MAX_fit as HM. unfold MAX in HM.
  assert (HD : sched_depth s - 1 < Z.of_nat CONFIG_MAX_THREADS).
  { pose proof (live_depths_lt_length l1 _ _ Hx1 eq_refl) as Hlt.
    apply Permutation_length in Hdo. rewrite length_seqZ in Hdo. lia. }
  destruct (started_depth_spec l1 0) as (Hd0 & Hmax & Hwit).
  set (d := started_depth l1 0) in *.
  assert (Hdle : d ≤ sched_depth s - 1).
  { destruct Hwit as [->|(t & Ht & Hst & <-)]; [lia|].
    apply started_live in Hst. pose proof (live_depths_elem _ _ Ht Hst) as He.
    rewrite Hdo in He. apply elem_of_seqZ_1 in He. lia. }
  assert (Hholes : ∀ k, d < k ≤ sched_depth s - 1 →
            ∃ j t, l1 !! j = Some t ∧ state t = HOLE ∧ depth t = k).
  { intros k Hk. assert (He : k ∈ live_depths l1) by (rewrite Hdo; apply elem_of_seqZ_1; lia).
    apply elem_of_live_depths in He as (j & t & Hj & Hl & Hdt). exists j, t.
    split_and!; try done. unfold live in Hl.
    destruct (_IS_STARTED (state t)) eqn:Est.
    - assert (depth t ≤ d) by (apply Hmax; [by eapply list_elem_of_lookup_2|done]). lia.
    - simpl in Hl. by apply bool_decide_eq_true in Hl. }
  unfold _mark_unwind_thrds, thrd_upd. rewrite Hx. simpl. fold l1. fold d.
  rewrite (uint_small (d + 1)) by lia. rewrite (uint_small (busy_n s - 1)) by lia.
  destruct (Z.ltb_spec (d + 1) (sched_depth s)) as [Hlt|Hge].
  - pose proof (unwind_holes_rel (d + 1) 0 l1 (cur_thrd s) (busy_n s - 1) (hole_n s)) as Hrel.
    destruct (unwind_holes_counts (d + 1) 0 l1 (cur_thrd s) (busy_n s - 1) (hole_n s))
      as [Hch Hcb]; [lia..|].
    pose proof (unwind_holes_target (d + 1) 0 l1 (cur_thrd s) (busy_n s - 1) (hole_n s)) as Htg.
    destruct (unwind_holes _ _ _ _ _ _) as [[[l' u] b'] h']. simpl in *.
    eexists _, _. split; [done|]. simpl.
    split_and!; try done; try lia.
    + pose proof (unwind_rel_busy _ _ _ Hrel). lia.
    + erewrite unwind_rel_depths; [|done|].
      * rewrite Hdo. rewrite filter_lt_seqZ by lia. done.
      * intros t Ht Hst. specialize (Hmax t Ht Hst). lia.
    + left. destruct Htg as [[Hno _]|(j & t & Hj & Hst & Hdt & ->)].
      * destruct (Hholes (d + 1)) as (j & t & Hj & Hst & Hdt); [lia|]. by destruct (Hno j t Hj).
      * exists j, t. split_and!; try done.
  - eexists _, _. split; [done|]. simpl.
    assert (d = sched_depth s - 1) as Hde by lia.
    assert (Hnone : ∀ j t, l1 !! j = Some t → ¬ (state t = HOLE ∧ d + 1 ≤ depth t)).
    { intros j t Hj [Hst Hdt].
      assert (He : depth t ∈ live_depths l1).
      { apply elem_of_live_depths. exists j, t. by rewrite Hst. }
      rewrite Hdo in He. apply elem_of_seqZ_1 in He. lia. }
    split_and!; try done; try lia.
    + apply Forall2_same_length_lookup_2; [done|]. intros j t t' Hj Hj'.
      rewrite Hj in Hj'. injection Hj' as <-. right. split; [|done]. by eapply Hnone.
    + by rewrite Hde.
    + right. split_and!; [|done|lia]. intros j t Hj [Hst Hdt]. eapply Hnone; [done|].
      split; [done|lia].
Qed.

(** ** Thread termination *)

Lemma exit_depths f s x :
  thrd_at (thrds s) (cur_thrd s) = Some x →
  (state x = NEW ∧ depth x = sched_depth s ∧ sched_depth s = Z.of_nat (S f) ∧
   entry_ctx x = JSaved f sched_pos_entry_thrd ∧ depths_ok (sched_depth s - 1) s) ∨
  (state x = RUN ∧ depth x = Z.of_nat (S f) ∧
   sched_exe_ctx s = JSaved (Z.to_nat (sched_depth s)) sched_pos_run ∧
   depths_ok (sched_depth s) s) →
  ¬ depth x < sched_depth s →
  depth x = sched_depth s ∧ sched_depth s = Z.of_nat (S f) ∧
  live_depths (<[Z.to_nat (cur_thrd s) := set_state EMPTY x]> (thrds s))
    ≡ₚ seqZ 1 (sched_depth s - 1).
Proof.
  intros Hx Hr Hge. destruct (pool_lookup_cur _ _ _ Hx) as [Hx' Hc].
  destruct Hr as [(Hs & Hdx & Hd & He & Hdo)|(Hs & Hdx & He & Hdo)].
  - split_and!; try done. unfold depths_ok in Hdo.
    erewrite live_depths_insert_dead; try done. by rewrite Hs.
  - pose proof (running_depth s x Hx Hs Hdo) as Hrange.
    assert (depth x = sched_depth s) as Hde by lia.
    split_and!; [done|lia|].
    pose proof (live_depths_insert (thrds s) _ x (set_state EMPTY x) Hx') as Hli.
    rewrite Hs in Hli. simpl in Hli. unfold depths_ok in Hdo.
    rewrite Hdo, Hde in Hli.
    replace (sched_depth s) with (sched_depth s - 1 + 1) in Hli at 1 2 by lia.
    rewrite seqZ_snoc_perm in Hli by lia.
    by apply Permutation_cons_inv in Hli.
Qed.

Lemma thrd_exit_ok f s s' c evs :
  thrd_exit s = Some (s', c, evs) →
  pool_ok (Some (cur_thrd s)) s → running_ok f s → mode_ok c s'.
Proof.
  unfold thrd_exit. intros H Hp (x & Hx & Hr). rewrite Hx in H. simpl in H.
  destruct (pool_lookup_cur _ _ _ Hx) as [Hx' Hc].
  assert (Hctx : ctx_ok x) by (destruct Hp as (_ & _ & Hctx & _); eauto).
  destruct (Z.ltb_spec (depth x) (sched_depth s)) as [Hlt|Hge].
  - (* not topmost: the slot becomes a hole *)
    destruct Hr as [(Hs & Hdx & _)|(Hs & Hdx & He & Hdo)]; [lia|].
    exec_in H. rewrite He in H. simpl in H. injection H as <- <- <-.
    pose proof (running_depth s x Hx Hs Hdo) as Hrange.
    split_and!; simpl; [|lia|].
    + eapply pool_ok_suspend.
      * apply (pool_ok_insert _ s _ _ x (set_state HOLE x) Hp Hx');
          simpl; rewrite ?Hs, ?Hc; simpl; try done; try lia.
        -- destruct Hp as (Hlen & (_ & Hh & _) & _).
           pose proof (count_state_range is_hole (thrds s)).
           pose proof (count_state_lt is_hole _ _ _ Hx') as Hl. rewrite Hs in Hl.
           specialize (Hl eq_refl). pose proof MAX_fit. unfold MAX in *.
           rewrite uint_small; lia.
        -- intros _. destruct Hctx as (g & ? & ? & _); [by rewrite Hs|].
           exists g. simpl. split_and!; done.
      * simpl. intros y Hy. erewrite thrd_at_insert_eq in Hy by done. by injection Hy as <-.
    + unfold depths_ok in *. simpl. erewrite live_depths_insert_same; try done.
      simpl. by rewrite Hs.
  - (* topmost: unwind *)
    destruct (exit_depths f s x Hx Hr ltac:(lia)) as (Hdx & Hd & Hdo).
    assert (Hsx : state x = NEW ∨ state x = RUN) by (destruct Hr as [[? _]|[? _]]; eauto).
    assert (Hen : entry_ctx x = JSaved f sched_pos_entry_thrd).
    { destruct Hr as [(_ & _ & _ & He & _)|(Hs & Hdx' & _)]; [done|].
      destruct Hctx as (g & ? & ? & _); [by rewrite Hs|]. by assert (g = f) as -> by lia. }
    destruct (mark_unwind_spec s x Hp Hx Hsx ltac:(lia) Hdo)
      as (u & s2 & Hm & Hd2 & Hsd & Hcur & Hid & _ & Hrel & Hb & Hh & Hld & Htg).
    rewrite Hm in H. simpl in H.
    set (l1 := <[Z.to_nat (cur_thrd s) := set_state EMPTY x]> (thrds s)) in *.
    set (d := started_depth l1 0) in *.
    destruct Hp as (Hlen & (_ & _ & Hi) & Hctxs & Hsusp).
    assert (Hl1 : length l1 = CONFIG_MAX_THREADS) by (subst l1; by rewrite length_insert).
    assert (Hfrom : ∀ j t, l1 !! j = Some t →
              (j = Z.to_nat (cur_thrd s) ∧ t = set_state EMPTY x) ∨
              (j ≠ Z.to_nat (cur_thrd s) ∧ thrds s !! j = Some t)).
    { intros j t [[-> [<- _]]|[? ?]]%list_lookup_insert_Some; eauto. }
    assert (Hp2 : pool_ok None s2).
    { split_and!.
      - by rewrite <- (Forall2_length _ _ _ Hrel).
      - split_and!; try done. rewrite Hid, Hi.
        rewrite (unwind_rel_counts _ _ _ _IS_IDLE Hrel) by done.
        subst l1. rewrite (count_state_insert _ _ _ _ _ Hx'). simpl.
        destruct Hsx as [-> | ->]; simpl; lia.
      - intros j t' Hj. destruct (Forall2_lookup_r _ _ _ _ _ Hrel Hj) as (t & Ht & Hr').
        destruct Hr' as [(_ & _ & ->)|[_ ->]]; [by intros []|].
        destruct (Hfrom _ _ Ht) as [[_ ->]|[_ Ht']]; [by intros []|eauto].
      - intros j t' Hj _. destruct (Forall2_lookup_r _ _ _ _ _ Hrel Hj) as (t & Ht & Hr').
        destruct Hr' as [(_ & _ & ->)|[_ ->]]; [done|].
        destruct (Hfrom _ _ Ht) as [[_ ->]|[Hne Ht']]; [done|].
        eapply Hsusp; [done|]. intros [= E]. lia. }
    assert (Hjump : ∃ ut, thrd_at (thrds s2) u = Some ut ∧
              entry_ctx ut = JSaved (Z.to_nat d) sched_pos_entry_thrd).
    { destruct Htg as [(j & t & Hj & Hst & Hdt & ->)|(_ & -> & Hd1)].
      - destruct (Forall2_lookup_l _ _ _ _ _ Hrel Hj) as (t' & Ht' & Hr').
        exists t'. split; [by apply thrd_at_nat; [rewrite <- (Forall2_length _ _ _ Hrel)|]|].
        destruct (Hfrom _ _ Hj) as [[_ ->]|[_ Hjs]]; [done|].
        destruct (Hctxs _ _ Hjs) as (g & Hg & He & _); [by rewrite Hst|].
        assert (g = Z.to_nat d) as -> by lia.
        by destruct Hr' as [(_ & _ & ->)|[_ ->]].
      - assert (Hx1 : l1 !! Z.to_nat (cur_thrd s) = Some (set_state EMPTY x)).
        { subst l1. apply list_lookup_insert_eq. by eapply lookup_lt_Some. }
        destruct (Forall2_lookup_l _ _ _ _ _ Hrel Hx1) as (t' & Ht' & Hr').
        exists t'. split; [apply thrd_at_Some; split; [by apply thrd_at_Some in Hx as [? _]|done]|].
        assert (f = Z.to_nat d) as <- by lia.
        by destruct Hr' as [(_ & _ & ->)|[_ ->]]. }
    destruct Hjump as (ut & Hu & Hut). rewrite Hu in H. simpl in H.
    rewrite Hut in H. simpl in H.
    injection H as <- <- <-. split_and!; [done|lia|]. unfold depths_ok. by rewrite Hsd.
Qed.

End Unwind.

Section Reachable.
Context `{cfg : Config}.

(** ** Every reachable state satisfies the invariant *)

Lemma init_ok clk : machine_ok (init clk).
Proof.
  split; [done|]. simpl. split_and!; [|done|].
  - apply (zero_sched_ok None 0).
  - apply (zero_sched_depths 0).
Qed.

Lemma sched_init_force g :
  _sched_init true g = mk_globals (set_cur_thrd NO_THRD zero_sched) true.
Proof. unfold _sched_init. by rewrite orb_true_r. Qed.

Lemma service_step_ok f g clk g' c clk' evs :
  service_step f g clk = Some (g', c, clk', evs) →
  machine_ok (mk_machine g (CLoop f) clk) → machine_ok (mk_machine g' c clk').
Proof.
  unfold service_step. intros H [Hz (Hp & Hd & Hdo)]. simpl in *.
  destruct (Z.ltb_spec 0 (busy_n (sched g))) as [Hb|Hb].
  - destruct (sched_iter f (sched g) clk) as [[[[s1 c1] clk1] evs1]|] eqn:Ei; [|done].
    simpl in H. injection H as <- <- <- <-. split; simpl.
    + intros Hi. rewrite (Hz Hi) in Hb. simpl in Hb. lia.
    + by eapply sched_iter_ok.
  - simpl in H. destruct f; [|done]. rewrite sched_init_force in H.
    injection H as <- <- <- <-. split; [done|]. simpl.
    split_and!; [apply zero_sched_ok|done|apply zero_sched_depths].
Qed.

Lemma user_call_ok who c g clk g' c' clk' evs :
  user_call who c g clk = Some (g', c', clk', evs) →
  machine_ok (mk_machine g who clk) → machine_ok (mk_machine g' c' clk').
Proof.
  intros H Hm.
  assert (Hin : ∀ f, who = CThread f → inited g = true).
  { intros f ->. destruct Hm as [Hz [_ Hr]]. simpl in *.
    destruct (inited g); [done|]. rewrite Hz in Hr by done.
    by apply (running_ok_not_zero f 0) in Hr. }
  assert (Hlift : ∀ f r, who = CThread f →
    (∀ s1 c1 clk1 evs1, r = Some (s1, c1, clk1, evs1) → mode_ok c1 s1) →
    ('(s, c, clock, evs) ← r; Some (mk_globals s (inited g), c, clock, evs))
      = Some (g', c', clk', evs) →
    machine_ok (mk_machine g' c' clk')).
  { intros f r -> Hr Hb. destruct r as [[[[s1 c1] clk1] evs1]|]; [|done].
    simpl in Hb. injection Hb as <- <- <- <-. split; simpl.
    - by rewrite (Hin f eq_refl).
    - by eapply Hr. }
  unfold user_call in H.
  destruct c as [p n sz a| | |period|after|sem timeout|sem|sem]; destruct who as [|f|f];
    try done; simpl in H.
  - destruct (coop_sched_thread p n sz a g) as [e g1] eqn:E.
    injection H as <- <- <- <-.
    replace g1 with (coop_sched_thread p n sz a g).2 by (by rewrite E).
    by apply coop_sched_thread_ok.
  - destruct (coop_sched_thread p n sz a g) as [e g1] eqn:E.
    injection H as <- <- <- <-.
    replace g1 with (coop_sched_thread p n sz a g).2 by (by rewrite E).
    by apply coop_sched_thread_ok.
  - injection H as <- <- <- <-. destruct Hm as [Hz (Hp & Hd & Hdo)]. simpl in *.
    split; [done|]. simpl. split_and!; try done. by rewrite Hd.
  - destruct (coop_thread_name (sched g)); [|done]. by injection H as <- <- <- <-.
  - destruct (coop_thread_name (sched g)); [|done]. by injection H as <- <- <- <-.
  - destruct Hm as [_ [Hp Hr]]. simpl in *.
    eapply (Hlift f); [done| |exact H]. intros. by eapply coop_idle_ok.
  - destruct Hm as [_ [Hp Hr]]. simpl in *.
    eapply (Hlift f); [done| |exact H]. intros. by eapply coop_yield_after_ok.
  - destruct Hm as [_ [Hp Hr]]. simpl in *.
    eapply (Hlift f); [done| |exact H]. intros. by eapply coop_wait_ok.
  - injection H as <- <- <- <-. apply notify_rel_ok; [apply notify_first_Forall2|done].
  - injection H as <- <- <- <-. apply notify_rel_ok; [apply notify_first_Forall2|done].
  - injection H as <- <- <- <-. apply notify_rel_ok; [apply notify_each_Forall2|done].
  - injection H as <- <- <- <-. apply notify_rel_ok; [apply notify_each_Forall2|done].
Qed.

Lemma step_ok i m m' evs :
  step i m = Some (m', evs) → machine_ok m → machine_ok m'.
Proof.
  unfold step. destruct m as [g c clk]. simpl. intros H Hm.
  destruct i as [cl| |]; destruct c as [|f|f]; try done.
  - destruct (user_call _ _ _ _) as [[[[g1 c1] clk1] evs1]|] eqn:E; [|done].
    simpl in H. injection H as <- <-. by eapply user_call_ok.
  - destruct (user_call _ _ _ _) as [[[[g1 c1] clk1] evs1]|] eqn:E; [|done].
    simpl in H. injection H as <- <-. by eapply user_call_ok.
  - destruct (thrd_exit _) as [[[s1 c1] evs1]|] eqn:E; [|done].
    simpl in H. injection H as <- <-. destruct Hm as [Hz [Hp Hr]]. simpl in *.
    split; simpl.
    + intros Hi. rewrite (Hz Hi) in Hr. by apply (running_ok_not_zero f 0) in Hr.
    + by eapply thrd_exit_ok.
  - destruct (service_step _ _ _) as [[[[g1 c1] clk1] evs1]|] eqn:E; [|done].
    simpl in H. injection H as <- <-. by eapply service_step_ok.
Qed.

Lemma reachable_ok m : reachable m → machine_ok m.
Proof.
  induction 1 as [clk|i m m' evs _ IH Hs]; [apply init_ok|by eapply step_ok].
Qed.

Lemma run_reachable ins m m' evs :
  reachable m → run ins m = Some (m', evs) → reachable m'.
Proof.
  revert m evs. induction ins as [|i ins IH]; intros m evs Hm; simpl.
  - by intros [= <- <-].
  - destruct (step i m) as [[m1 e1]|] eqn:E; [|done]. simpl.
    destruct (run ins m1) as [[m2 e2]|] eqn:E2; [|done]. simpl.
    intros [= <- <-]. eapply IH; [|done]. by eapply reach_step.
Qed.

(** The scheduler loop is only left in the frame of [main]'s call. *)
Lemma service_exit_frame m f :
  reachable m → ctl m = CLoop f → busy_n (sched (glob m)) = 0 → f = 0%nat.
Proof.
  intros Hm%reachable_ok Hc Hb. destruct Hm as [_ Hm]. rewrite Hc in Hm.
  destruct Hm as ((_ & (Hbc & _) & _) & Hd & Hdo).
  rewrite Hbc in Hb.
  assert (Hl : live_depths (thrds (sched (glob m))) = []).
  { revert Hb. generalize (thrds (sched (glob m))). induction l as [|t l IH]; simpl; [done|].
    pose proof (count_state_range busy l). destruct (state t); simpl; try lia; intros; apply IH; lia. }
  unfold depths_ok in Hdo. rewrite Hl in Hdo. apply Permutation_length in Hdo.
  rewrite length_seqZ in Hdo. simpl in Hdo. lia.
Qed.

End Reachable.

Section Claims.
Context `{cfg : Config}.

(** ** Scheduler invariants *)

(** C2. In every state reachable from the all-[EMPTY] initial state, between
    two passes of the scheduler loop, [busy_n], [hole_n] and [idle_n] are the
    numbers of non-[EMPTY], [HOLE] and [IDLE] slots, and the depths of the
    [RUN], [IDLE], [WAIT] and [HOLE] slots are a permutation of
    [1 .. sched.depth]. *)
Theorem counters_and_depths_invariant m :
  reachable m → between_iterations m →
  busy_n (sched (glob m)) = count_state busy (thrds (sched (glob m))) ∧
  hole_n (sched (glob m)) = count_state is_hole (thrds (sched (glob m))) ∧
  idle_n (sched (glob m)) = count_state _IS_IDLE (thrds (sched (glob m))) ∧
  live_depths (thrds (sched (glob m))) ≡ₚ seqZ 1 (sched_depth (sched (glob m))).
Proof.
  intros [_ Hm]%reachable_ok Hb. unfold between_iterations in Hb.
  destruct (ctl m); [| |done].
  - destruct Hm as ((_ & (? & ? & ?) & _) & Hd & Hdo). rewrite Hd. done.
  - destruct Hm as ((_ & (? & ? & ?) & _) & Hd & Hdo). done.
Qed.

(** ** [coop_sched_thread] *)

(** C3. [coop_sched_thread] returns [COOP_INV_ARG] exactly when [proc] is
    null and [COOP_ERR_LIMIT] exactly when [proc] is given and
    [busy_n >= CONFIG_MAX_THREADS], both without changing the state;
    otherwise it returns [COOP_SUCCESS], the lowest-index [EMPTY] slot
    becomes [NEW] with depth 0, zeroed contexts and the default stack size
    in place of 0, [busy_n] grows by one and no other slot changes. *)
Theorem coop_sched_thread_spec m p n sz a :
  reachable m →
  let g := glob m in
  let e := (coop_sched_thread p n sz a g).1 in
  let g' := (coop_sched_thread p n sz a g).2 in
  (e = COOP_INV_ARG ↔ p = 0) ∧
  (e = COOP_ERR_LIMIT ↔ p ≠ 0 ∧ MAX ≤ busy_n (sched g)) ∧
  (e ≠ COOP_SUCCESS → g' = g) ∧
  (e = COOP_SUCCESS →
   ∃ i t,
     thrds (sched g) !! i = Some t ∧ state t = EMPTY ∧
     (∀ j t', (j < i)%nat → thrds (sched g) !! j = Some t' → state t' ≠ EMPTY) ∧
     thrds (sched g') = <[i := sched_slot p n sz a t]> (thrds (sched g)) ∧
     state (sched_slot p n sz a t) = NEW ∧
     depth (sched_slot p n sz a t) = 0 ∧
     exe_ctx (sched_slot p n sz a t) = JZero ∧
     entry_ctx (sched_slot p n sz a t) = JZero ∧
     stack_sz (sched_slot p n sz a t) = (if sz =? 0 then CONFIG_DEFAULT_STACK_SIZE else sz) ∧
     busy_n (sched g') = busy_n (sched g) + 1 ∧
     (∀ j, j ≠ i → thrds (sched g') !! j = thrds (sched g) !! j)).
Proof.
  intros Hr g e g'. pose proof (reachable_ok _ Hr) as [Hz Hm]. fold g in Hz, Hm.
  assert (Hp : ∃ r, pool_ok r (sched g)).
  { destruct (ctl m); [destruct Hm as (? & _)|destruct Hm as (? & _)|destruct Hm as (? & _)]; eauto. }
  destruct Hp as (r & Hlen & (Hb & _) & _).
  subst e g'.
  destruct (coop_sched_thread_cases p n sz a g)
    as [[Hp0 ->]|[(Hp0 & Hfull & ->)|(Hp0 & Hlt & [(l & Hl & ->)|[Hl ->]])]]; simpl.
  - split_and!; try done. split; [done|]. by intros [? _].
  - split_and!; try done.
  - (* success *)
    assert (Hth : thrds (sched (_sched_init false g)) = thrds (sched g) ∧
                  busy_n (sched (_sched_init false g)) = busy_n (sched g)).
    { unfold _sched_init. destruct (inited g) eqn:Ei; simpl; [done|]. by rewrite Hz. }
    destruct Hth as [Hth Hbu]. rewrite Hth in Hl. rewrite Hbu.
    destruct (sched_first_empty_Some _ _ _ _ _ _ Hl) as (i & t & Hi & Ht & Hfirst & ->).
    split_and!; try done. { split; [done|]. intros [_ ?]. lia. }
    intros _. exists i, t. split_and!; try done.
    + pose proof (count_state_range busy (thrds (sched g))). pose proof MAX_fit.
      apply uint_small. lia.
    + intros j Hj. by apply list_lookup_insert_ne.
  - (* no EMPTY slot although busy_n < MAX: excluded by the counters *)
    exfalso.
    assert (Hth : thrds (sched (_sched_init false g)) = thrds (sched g)).
    { unfold _sched_init. destruct (inited g) eqn:Ei; simpl; [done|]. by rewrite Hz. }
    rewrite Hth in Hl. apply sched_first_empty_None in Hl. unfold MAX in Hlt. lia.
Qed.

(** ** [coop_sched_service] *)

Lemma sched_run_not_main f s clk s' c clk' evs :
  sched_run f s clk = Some (s', c, clk', evs) → c ≠ CMain.
Proof.
  unfold sched_run.
  destruct (coop_tick_cb clk) as [[tick clk1]|]; [|done]. simpl.
  destruct (thrd_upd _ _ _); [|done]. simpl.
  destruct (thrd_at _ _) as [t|]; [|done]. simpl.
  destruct (exe_ctx t) as [|g [| |a|a]]; simpl; try done.
  - by intros [= <- <- <- <-].
  - by intros [= <- <- <- <-].
  - destruct (api_epilogue _ _); [|done]. by intros [= <- <- <- <-].
  - destruct (api_epilogue _ _); [|done]. by intros [= <- <- <- <-].
Qed.

Lemma sched_iter_not_main f s clk s' c clk' evs :
  sched_iter f s clk = Some (s', c, clk', evs) → c ≠ CMain.
Proof.
  unfold sched_iter. intros Ei.
  destruct (_system_idle _ _) as [[[s2 clk2] evs2]|]; [|done]. simpl in Ei.
  destruct (thrd_at _ _) as [t|]; [|done]. simpl in Ei.
  destruct (state t).
  - by injection Ei as <- <- <- <-.
  - by injection Ei as <- <- <- <-.
  - destruct (thrd_upd _ _ _); [|done]. simpl in Ei.
    destruct (thrd_upd _ _ _); [|done]. simpl in Ei.
    destruct (coop_tick_cb _) as [[? ?]|]; [|done]. simpl in Ei.
    destruct (thrd_upd _ _ _); [|done]. simpl in Ei. by injection Ei as <- <- <- <-.
  - destruct (sched_run _ _ _) as [[[[? ?] ?] ?]|] eqn:Es; [|done].
    simpl in Ei. injection Ei as <- <- <- <-. by eapply sched_run_not_main.
  - destruct (coop_tick_cb _) as [[? ?]|]; [|done]. simpl in Ei.
    destruct (negb _); [by injection Ei as <- <- <- <-|].
    destruct (thrd_upd _ _ _); [|done]. simpl in Ei.
    destruct (sched_run _ _ _) as [[[[? ?] ?] ?]|] eqn:Es; [|done].
    simpl in Ei. injection Ei as <- <- <- <-. by eapply sched_run_not_main.
  - destruct (inf t); [by injection Ei as <- <- <- <-|].
    destruct (coop_tick_cb _) as [[? ?]|]; [|done]. simpl in Ei.
    destruct (negb _); [by injection Ei as <- <- <- <-|].
    destruct (thrd_upd _ _ _); [|done]. simpl in Ei.
    destruct (sched_run _ _ _) as [[[[? ?] ?] ?]|] eqn:Es; [|done].
    simpl in Ei. injection Ei as <- <- <- <-. by eapply sched_run_not_main.
Qed.

(** C4. At the head of its loop [coop_sched_service] runs another pass
    exactly while [busy_n > 0]; with [busy_n = 0] it resets the scheduler and
    returns.  Whenever control comes back to [main], every slot is [EMPTY],
    the counters and the depth are 0 and [cur_thrd] is [(unsigned)-1]: the
    state from which a fresh session starts. *)
Theorem service_drains_and_resets m f :
  reachable m → ctl m = CLoop f →
  (0 < busy_n (sched (glob m)) →
   ∀ m' evs, step in_sched m = Some (m', evs) →
     ctl m' ≠ CMain ∧
     ∃ s' c clk', sched_iter f (sched (glob m)) (clock m) = Some (s', c, clk', evs) ∧
       m' = mk_machine (mk_globals s' (inited (glob m))) c clk') ∧
  (busy_n (sched (glob m)) = 0 →
   step in_sched m =
     Some (mk_machine (_sched_init true (glob m)) CMain (clock m), [ev_service_return])) ∧
  (∀ m' evs, step in_sched m = Some (m', evs) → ctl m' = CMain →
     let s' := sched (glob m') in
     busy_n (sched (glob m)) = 0 ∧
     s' = set_cur_thrd NO_THRD zero_sched ∧
     length (thrds s') = CONFIG_MAX_THREADS ∧
     Forall (λ t, state t = EMPTY) (thrds s') ∧
     busy_n s' = 0 ∧ hole_n s' = 0 ∧ idle_n s' = 0 ∧ sched_depth s' = 0 ∧
     cur_thrd s' = NO_THRD).
Proof.
  intros Hr Hc. pose proof (reachable_ok _ Hr) as Hok.
  assert (Hrun : 0 < busy_n (sched (glob m)) →
     ∀ m' evs, step in_sched m = Some (m', evs) →
     ctl m' ≠ CMain ∧
     ∃ s' c clk', sched_iter f (sched (glob m)) (clock m) = Some (s', c, clk', evs) ∧
       m' = mk_machine (mk_globals s' (inited (glob m))) c clk').
  { intros Hb m' evs Hs. unfold step in Hs. rewrite Hc in Hs. unfold service_step in Hs.
    destruct (Z.ltb_spec 0 (busy_n (sched (glob m)))); [|lia].
    destruct (sched_iter _ _ _) as [[[[s1 c1] clk1] evs1]|] eqn:Ei; [|done].
    simpl in Hs. injection Hs as <- <-. split; [|by eauto 6]. simpl.
    by eapply sched_iter_not_main. }
  assert (Hexit : busy_n (sched (glob m)) = 0 →
     step in_sched m =
       Some (mk_machine (_sched_init true (glob m)) CMain (clock m), [ev_service_return])).
  { intros Hb. pose proof (service_exit_frame m f Hr Hc Hb) as ->.
    unfold step. rewrite Hc. unfold service_step. rewrite Hb. done. }
  split_and!; [done|done|].
  intros m' evs Hs Hm'.
  assert (Hb : busy_n (sched (glob m)) = 0).
  { destruct Hok as [_ Hmo]. rewrite Hc in Hmo. destruct Hmo as ((_ & (Hb & _) & _) & _).
    pose proof (count_state_range busy (thrds (sched (glob m)))).
    destruct (Z.eq_dec (busy_n (sched (glob m))) 0) as [|Hne]; [done|].
    destruct (Hrun ltac:(lia) _ _ Hs) as [Hn _]. done. }
  rewrite (Hexit Hb) in Hs. injection Hs as <- <-. simpl. rewrite sched_init_force. simpl.
  split_and!; try done.
  - apply length_replicate.
  - apply Forall_forall. by intros t [-> _]%elem_of_replicate.
Qed.

(** ** [coop_notify], [coop_notify_all] *)

Lemma notify_first_none sem l :
  (∀ i t, l !! i = Some t → wakes sem t = false) → notify_first sem l = l.
Proof.
  induction l as [|u l IH]; intros Hnone; simpl; [done|].
  rewrite (Hnone 0%nat u) by done. f_equal. apply IH. intros i t Hi. by apply (Hnone (S i)).
Qed.

Lemma notify_each_none sem l :
  (∀ i t, l !! i = Some t → wakes sem t = false) → notify_each sem l = l.
Proof.
  induction l as [|u l IH]; intros Hnone; simpl; [done|].
  rewrite (Hnone 0%nat u) by done. f_equal. apply IH. intros i t Hi. by apply (Hnone (S i)).
Qed.

(** C6. [coop_notify] wakes exactly the lowest-index slot that is in [WAIT]
    on the given semaphore id: that slot gets its notified flag set and
    becomes [RUN], nothing else changes; [coop_notify_all] does so for every
    such slot; with no such slot both leave the scheduler state as it is. *)
Theorem notify_spec (s : coop_sched_ctx_t) sem :
  (∀ i t, thrds s !! i = Some t → wakes sem t = true →
     (∀ j t', (j < i)%nat → thrds s !! j = Some t' → wakes sem t' = false) →
     coop_notify sem s = set_thrds (<[i := set_state RUN (set_notif true t)]> (thrds s)) s) ∧
  coop_notify_all sem s =
    set_thrds ((λ t, if wakes sem t then set_state RUN (set_notif true t) else t) <$> thrds s) s ∧
  ((∀ i t, thrds s !! i = Some t → wakes sem t = false) →
     coop_notify sem s = s ∧ coop_notify_all sem s = s) ∧
  (∀ t, wakes sem t = true ↔ state t = WAIT ∧ sem_id t = sem).
Proof.
  split_and!.
  - intros i t Hi Hw Hfirst. unfold coop_notify. f_equal.
    revert i Hi Hfirst. induction (thrds s) as [|u l IH]; intros i Hi Hfirst; [done|].
    destruct i as [|i]; simpl in *.
    + injection Hi as ->. by rewrite Hw.
    + rewrite (Hfirst 0%nat u) by (done || lia). f_equal. apply IH; [done|].
      intros j t' Hj. apply (Hfirst (S j)). lia.
  - unfold coop_notify_all. f_equal. induction (thrds s) as [|u l IH]; simpl; [done|].
    rewrite IH. by destruct (wakes sem u).
  - intros Hnone. unfold coop_notify, coop_notify_all.
    rewrite notify_first_none, notify_each_none by done. by destruct s.
  - intros t. unfold wakes. rewrite andb_true_iff, bool_decide_eq_true, Z.eqb_eq. done.
Qed.

(** ** [coop_thread_name] *)

Lemma longjmp_not_main j s c evs : longjmp j s = Some (c, evs) → c ≠ CMain.
Proof.
  destruct j as [|g [| |a|a]]; simpl; try done.
  - by intros [= <- <-].
  - by intros [= <- <-].
  - destruct (api_epilogue _ _); [|done]. by intros [= <- <-].
  - destruct (api_epilogue _ _); [|done]. by intros [= <- <-].
Qed.

Lemma yield_not_main f a st s s' c evs : _yield f a st s = Some (s', c, evs) → c ≠ CMain.
Proof.
  unfold _yield. destruct (thrd_at _ _) as [t|]; [|done]. simpl.
  destruct (bool_decide _).
  - destruct (thrd_upd _ _ _); [|done]. simpl. by intros [= <- <- <-].
  - destruct (thrd_upd _ _ _); [|done]. simpl.
    destruct (longjmp _ _) as [[c2 ?]|] eqn:El; [|done]. simpl.
    intros [= <- <- <-]. by eapply longjmp_not_main.
Qed.

Lemma coop_sched_thread_cur p n sz a g :
  (inited g = true → cur_thrd (sched (coop_sched_thread p n sz a g).2) = cur_thrd (sched g)) ∧
  (inited (coop_sched_thread p n sz a g).2 = true → inited g = false →
   cur_thrd (sched (coop_sched_thread p n sz a g).2) = NO_THRD).
Proof.
  destruct (coop_sched_thread_cases p n sz a g)
    as [[Hp0 ->]|[(Hp0 & Hfull & ->)|(Hp0 & Hlt & [(l & Hl & ->)|[Hl ->]])]]; simpl;
    unfold _sched_init; destruct (inited g) eqn:Ei; simpl; split; done.
Qed.

(** In [main], once the scheduler has been initialised, no thread is
    selected. *)
Lemma main_cur_thrd m :
  reachable m → ctl m = CMain → inited (glob m) = true →
  cur_thrd (sched (glob m)) = NO_THRD.
Proof.
  induction 1 as [clk|i m m' evs Hr IH Hs]; [done|].
  intros Hc Hi. unfold step in Hs.
  destruct i as [c| |]; destruct (ctl m) as [|f|f] eqn:Ec; try done.
  - (* a call made by main *)
    destruct (user_call _ _ _ _) as [[[[g1 c1] clk1] evs1]|] eqn:E; [|done].
    simpl in Hs. injection Hs as <- <-. simpl in *. subst c1.
    unfold user_call in E.
    destruct c as [p n sz a| | |period|after|sem timeout|sem|sem]; try done; simpl in E.
    + destruct (coop_sched_thread p n sz a (glob m)) as [e g2] eqn:Ecs.
      injection E as <- <- <-.
      pose proof (coop_sched_thread_cur p n sz a (glob m)) as [H1 H2].
      rewrite Ecs in H1, H2. simpl in *.
      destruct (inited (glob m)) eqn:Ei; [rewrite H1 by done; by apply IH|by apply H2].
    + destruct (coop_thread_name _); [|done]. injection E as <- <- <-. by apply IH.
    + injection E as <- <- <-. simpl in *. by apply IH.
    + injection E as <- <- <-. simpl in *. by apply IH.
  - (* a call made by a thread keeps control out of main *)
    destruct (user_call _ _ _ _) as [[[[g1 c1] clk1] evs1]|] eqn:E; [|done].
    simpl in Hs. injection Hs as <- <-. simpl in *. subst c1. exfalso.
    unfold user_call in E.
    destruct c as [p n sz a| | |period|after|sem timeout|sem|sem]; try done; simpl in E.
    + by destruct (coop_sched_thread p n sz a (glob m)).
    + by destruct (coop_thread_name _).
    + unfold coop_idle in E. destruct (0 <? _).
      * destruct (coop_tick_cb _) as [[? ?]|]; [|done]. simpl in E.
        destruct (thrd_upd _ _ _); [|done]. simpl in E.
        destruct (_yield _ _ _ _) as [[[? c2] ?]|] eqn:Ey; [|done]. simpl in E.
        injection E as _ -> _ _. by apply yield_not_main in Ey.
      * destruct (_yield _ _ _ _) as [[[? c2] ?]|] eqn:Ey; [|done]. simpl in E.
        injection E as _ -> _ _. by apply yield_not_main in Ey.
    + unfold coop_yield_after in E.
      destruct (coop_tick_cb _) as [[? ?]|]; [|done]. simpl in E.
      destruct (COOP_IS_TICK_OVER _ _); [|done].
      destruct (_yield _ _ _ _) as [[[? c2] ?]|] eqn:Ey; [|done]. simpl in E.
      injection E as _ -> _ _. by apply yield_not_main in Ey.
    + unfold coop_wait in E.
      destruct (wait_enter _ _ _ _) as [[? ?]|]; [|done]. simpl in E.
      destruct (_yield _ _ _ _) as [[[? c2] ?]|] eqn:Ey; [|done]. simpl in E.
      injection E as _ -> _ _. by apply yield_not_main in Ey.
  - (* thread termination jumps into the scheduler *)
    destruct (thrd_exit _) as [[[s1 c1] evs1]|] eqn:E; [|done].
    simpl in Hs. injection Hs as <- <-. simpl in *. subst c1. exfalso.
    unfold thrd_exit in E. destruct (thrd_at _ _) as [t|]; [|done]. simpl in E.
    destruct (_ <? _).
    + destruct (thrd_upd _ _ _); [|done]. simpl in E.
      destruct (longjmp _ _) as [[c2 ?]|] eqn:El; [|done]. simpl in E.
      injection E as _ -> _. by apply longjmp_not_main in El.
    + destruct (_mark_unwind_thrds _) as [[? ?]|]; [|done]. simpl in E.
      destruct (thrd_at _ _); [|done]. simpl in E.
      destruct (longjmp _ _) as [[c2 ?]|] eqn:El; [|done]. simpl in E.
      injection E as _ -> _. by apply longjmp_not_main in El.
  - (* the scheduler loop *)
    destruct (service_step _ _ _) as [[[[g1 c1] clk1] evs1]|] eqn:E; [|done].
    simpl in Hs. injection Hs as <- <-. simpl in *. subst c1.
    unfold service_step in E. destruct (0 <? _).
    + destruct (sched_iter _ _ _) as [[[[? c2] ?] ?]|] eqn:Ei; [|done]. simpl in E.
      injection E as _ -> _ _. by apply sched_iter_not_main in Ei.
    + destruct f; [|done]. injection E as <- <- <-. by rewrite sched_init_force.
Qed.

Lemma in_pool_NO_THRD : in_pool NO_THRD = false.
Proof.
  unfold in_pool. apply andb_false_iff. right. apply Z.ltb_ge.
  pose proof MAX_fit. rewrite NO_THRD_val. lia.
Qed.

(** C10 (amended). [coop_thread_name] indexes the pool with [cur_thrd]
    unchecked.  With [cur_thrd < CONFIG_MAX_THREADS], as in every executing
    thread, the index is in bounds and the name of that slot is returned.
    [_sched_init] sets [cur_thrd] to [(unsigned)-1]; this is its value in
    [main] once the scheduler has been initialised (by the first call of
    [coop_sched_thread] with a routine, or by [coop_sched_service] when it
    returns), and there the access is out of range.  At program start,
    before any initialisation, [cur_thrd] is 0 as the static initialiser
    leaves it: the call reads slot 0, in bounds, and returns its null
    name. *)
Theorem coop_thread_name_bounds :
  (∀ s, 0 ≤ cur_thrd s < MAX → length (thrds s) = CONFIG_MAX_THREADS →
     ∃ t, thrds s !! Z.to_nat (cur_thrd s) = Some t ∧
          coop_thread_name s = Some (name t)) ∧
  (∀ m f, reachable m → ctl m = CThread f →
     0 ≤ cur_thrd (sched (glob m)) < MAX ∧
     ∃ t, thrds (sched (glob m)) !! Z.to_nat (cur_thrd (sched (glob m))) = Some t ∧
          coop_thread_name (sched (glob m)) = Some (name t)) ∧
  (∀ g, cur_thrd (sched (_sched_init true g)) = NO_THRD) ∧
  NO_THRD = 2 ^ 32 - 1 ∧
  (∀ s, cur_thrd s = NO_THRD → coop_thread_name s = None) ∧
  (∀ m, reachable m → ctl m = CMain → inited (glob m) = true →
     cur_thrd (sched (glob m)) = NO_THRD ∧ coop_thread_name (sched (glob m)) = None) ∧
  (∀ m, reachable m → inited (glob m) = false →
     (∀ f, ctl m ≠ CThread f) ∧ cur_thrd (sched (glob m)) = 0 ∧
     coop_thread_name (sched (glob m)) = Some None) ∧
  (∀ clk, inited (glob (init clk)) = false) ∧
  (∀ m p n sz a m' evs, reachable m → ctl m = CMain → p ≠ 0 →
     step (in_call (call_sched_thread p n sz a)) m = Some (m', evs) →
     inited (glob m') = true) ∧
  (∀ m f m' evs, reachable m → ctl m = CLoop f →
     step in_sched m = Some (m', evs) → ctl m' = CMain →
     inited (glob m') = true).
Proof.
  assert (Hno : ∀ s, cur_thrd s = NO_THRD → coop_thread_name s = None).
  { intros s Hs. unfold coop_thread_name, thrd_at. by rewrite Hs, in_pool_NO_THRD. }
  split_and!; try done.
  - intros s Hc Hl. destruct (lookup_lt_is_Some_2 (thrds s) (Z.to_nat (cur_thrd s))) as [t Ht].
    { unfold MAX in Hc. lia. }
    exists t. split; [done|]. unfold coop_thread_name.
    by rewrite (proj2 (thrd_at_Some _ _ _) (conj Hc Ht)).
  - intros m f Hr Hc. destruct (reachable_ok _ Hr) as [_ Hm]. rewrite Hc in Hm.
    destruct Hm as (_ & x & Hx & _). pose proof Hx as [Hin Hx']%thrd_at_Some.
    split; [done|]. exists x. split; [done|]. unfold coop_thread_name. by rewrite Hx.
  - intros g. by rewrite sched_init_force.
  - intros m Hr Hc Hi. pose proof (main_cur_thrd m Hr Hc Hi). eauto.
  - intros m Hr Hi. destruct (reachable_ok _ Hr) as [Hz Hm].
    specialize (Hz Hi). split.
    + intros f Hc. rewrite Hc in Hm. destruct Hm as (_ & x & Hx & Hro).
      rewrite Hz in Hx. apply (thrd_at_zero 0) in Hx as ->.
      by destruct Hro as [[? _]|[? _]].
    + rewrite Hz. split; [done|]. unfold coop_thread_name.
      assert (Hx : thrd_at (thrds zero_sched) (cur_thrd zero_sched) = Some zero_thrd).
      { apply thrd_at_Some. pose proof MAX_pos. split; [simpl; lia|].
        apply lookup_replicate. split; [done|]. unfold MAX in *. simpl. lia. }
      by rewrite Hx.
  - intros m p n sz a m' evs Hr Hc Hp Hs. destruct (reachable_ok _ Hr) as [Hz _].
    unfold step in Hs. rewrite Hc in Hs. unfold user_call in Hs.
    destruct (coop_sched_thread_cases p n sz a (glob m))
      as [[? _]|[(_ & Hlim & He)|(_ & _ & [(l & _ & He)|[_ He]])]]; [done|..];
      rewrite He in Hs; simpl in Hs; injection Hs as <- <-; simpl.
    + destruct (inited (glob m)) eqn:E; [done|]. rewrite (Hz eq_refl) in Hlim.
      pose proof MAX_pos. simpl in Hlim. lia.
    + unfold _sched_init. by destruct (inited (glob m)) eqn:E.
    + unfold _sched_init. by destruct (inited (glob m)) eqn:E.
  - intros m f m' evs Hr Hc Hs Hc'.
    unfold step in Hs. rewrite Hc in Hs. unfold service_step in Hs.
    destruct (0 <? _).
    + destruct (sched_iter _ _ _) as [[[[s1 c1] clk1] evs1]|] eqn:Ei; [|done].
      simpl in Hs. injection Hs as <- <-. simpl in Hc'. subst c1.
      by apply sched_iter_not_main in Ei.
    + destruct f; [|done]. simpl in Hs. injection Hs as <- <-.
      by rewrite sched_init_force.
Qed.

(** ** Termination and unwind *)

Lemma started_depth_max l d0 :
  0 ≤ d0 → started_depth l d0 = Z.max d0 (max_started_depth l).
Proof.
  revert d0. induction l as [|t l IH]; intros d0 Hd; simpl; [lia|].
  destruct (_IS_STARTED (state t)); simpl; [|by apply IH].
  destruct (Z.ltb_spec d0 (depth t)); rewrite IH by lia; lia.
Qed.

Lemma max_started_depth_nonneg l : 0 ≤ max_started_depth l.
Proof. induction l as [|t l IH]; simpl; [lia|]. destruct (_IS_STARTED (state t)); lia. Qed.

Lemma unwind_rel_fmap d l l' :
  Forall2 (λ t t', (state t = HOLE ∧ d + 1 ≤ depth t ∧ t' = set_state EMPTY t) ∨
                   (¬ (state t = HOLE ∧ d + 1 ≤ depth t) ∧ t' = t)) l l' →
  l' = (λ t, if hole_above d t then set_state EMPTY t else t) <$> l.
Proof.
  induction 1 as [|t t' l l' Ht _ IH]; simpl; [done|]. f_equal; [|exact IH].
  unfold hole_above. destruct Ht as [(Hs & Hd & ->)|[Hn ->]].
  - rewrite bool_decide_eq_true_2 by done. simpl.
    by destruct (Z.ltb_spec d (depth t)); [|lia].
  - destruct (bool_decide (state t = HOLE)) eqn:E; [|done]. simpl.
    apply bool_decide_eq_true in E. destruct (Z.ltb_spec d (depth t)); [|done].
    exfalso. apply Hn. split; [done|lia].
Qed.

Lemma count_after_unwind d l :
  count_state is_hole ((λ t, if hole_above d t then set_state EMPTY t else t) <$> l)
    = count_state is_hole l - holes_above d l ∧
  count_state busy ((λ t, if hole_above d t then set_state EMPTY t else t) <$> l)
    = count_state busy l - holes_above d l.
Proof.
  induction l as [|t l [IH1 IH2]]; [done|].
  rewrite !fmap_cons. cbn [count_state holes_above]. rewrite IH1, IH2.
  unfold hole_above. destruct (bool_decide (state t = HOLE)) eqn:E; simpl.
  - apply bool_decide_eq_true in E. rewrite E.
    destruct (d <? depth t); simpl; rewrite ?E; simpl; lia.
  - lia.
Qed.

Lemma holes_above_insert d l i t t' :
  l !! i = Some t → hole_above d t = false → hole_above d t' = false →
  holes_above d (<[i:=t']> l) = holes_above d l.
Proof.
  intros (l1 & l2 & -> & -> & _)%(insert_split _ _ _ t') H1 H2.
  induction l1 as [|u l1 IH]; simpl; [by rewrite H1, H2|]. by rewrite IH.
Qed.

Lemma live_depth_unique l i j t u :
  NoDup (live_depths l) → l !! i = Some t → l !! j = Some u →
  live (state t) = true → live (state u) = true → depth t = depth u → i = j.
Proof.
  revert i j. induction l as [|v l IH]; intros i j Hnd Hi Hj Ht Hu Hd; [done|].
  simpl in Hnd. destruct i as [|i], j as [|j]; simpl in *; [done| | |].
  - injection Hi as ->. rewrite Ht in Hnd. apply NoDup_cons in Hnd as [Hn _].
    exfalso. apply Hn. rewrite Hd. apply elem_of_live_depths. eauto.
  - injection Hj as ->. rewrite Hu in Hnd. apply NoDup_cons in Hnd as [Hn _].
    exfalso. apply Hn. rewrite <- Hd. apply elem_of_live_depths. eauto.
  - f_equal. apply IH; try done. destruct (live (state v)); [|done].
    by apply NoDup_cons in Hnd as [_ ?].
Qed.

(** C1. When the routine of the running thread returns: if the depth of its
    slot is below [sched.depth], the slot becomes [HOLE] and [hole_n] grows
    by one, nothing else changes and control goes back to the scheduler; if
    it equals [sched.depth], the slot becomes [EMPTY] with [busy_n]
    decremented, the new depth is the maximum depth of the slots still
    started, every hole above it becomes [EMPTY] decrementing [busy_n] and
    [hole_n], [sched.depth] becomes the new depth, and the unwind target is
    the hole at the new depth plus one if there is one, the terminating slot
    otherwise. *)
Theorem termination_transition m f x :
  reachable m → ctl m = CThread f →
  let s := sched (glob m) in
  thrd_at (thrds s) (cur_thrd s) = Some x →
  (depth x < sched_depth s →
   thrd_exit s =
     Some (set_hole_n (hole_n s + 1)
             (set_thrds (<[Z.to_nat (cur_thrd s) := set_state HOLE x]> (thrds s)) s),
           CLoop (Z.to_nat (sched_depth s)), [])) ∧
  (depth x = sched_depth s →
   let l1 := <[Z.to_nat (cur_thrd s) := set_state EMPTY x]> (thrds s) in
   let d := max_started_depth l1 in
   ∃ u s',
     _mark_unwind_thrds s = Some (u, s') ∧
     thrd_exit s = Some (s', CLoop (Z.to_nat d), []) ∧
     thrds s' = (λ t, if hole_above d t then set_state EMPTY t else t) <$> l1 ∧
     busy_n s' = busy_n s - 1 - holes_above d (thrds s) ∧
     hole_n s' = hole_n s - holes_above d (thrds s) ∧
     idle_n s' = idle_n s ∧
     sched_depth s' = d ∧
     (∀ j t, thrds s !! j = Some t → state t = HOLE → depth t = d + 1 → u = Z.of_nat j) ∧
     ((∀ j t, thrds s !! j = Some t → ¬ (state t = HOLE ∧ depth t = d + 1)) →
      u = cur_thrd s)).
Proof.
  intros Hreach Hc s Hx. destruct (reachable_ok _ Hreach) as [_ Hm]. rewrite Hc in Hm.
  fold s in Hm. destruct Hm as (Hp & y & Hy & Hr). rewrite Hx in Hy. injection Hy as <-.
  destruct (pool_lookup_cur _ _ _ Hx) as [Hx' Hcur].
  assert (Hctx : ctx_ok x) by (destruct Hp as (_ & _ & Hctx & _); eauto).
  split.
  - intros Hlt. unfold thrd_exit. rewrite Hx. simpl.
    destruct (Z.ltb_spec (depth x) (sched_depth s)); [|lia].
    destruct Hr as [(Hs & Hdx & _)|(Hs & Hdx & He & Hdo)]; [lia|].
    unfold thrd_upd. rewrite Hx. simpl. rewrite He. simpl.
    destruct Hp as (Hlen & (_ & Hh & _) & _).
    pose proof (count_state_range is_hole (thrds s)).
    pose proof (count_state_lt is_hole _ _ _ Hx') as Hl. rewrite Hs in Hl.
    specialize (Hl eq_refl). pose proof MAX_fit. unfold MAX in *.
    rewrite uint_small by lia. done.
  - intros Hdx l1 d.
    destruct (exit_depths f s x Hx Hr ltac:(lia)) as (_ & Hd & Hdo).
    assert (Hsx : state x = NEW ∨ state x = RUN) by (destruct Hr as [[? _]|[? _]]; eauto).
    assert (Hen : entry_ctx x = JSaved f sched_pos_entry_thrd).
    { destruct Hr as [(_ & _ & _ & He & _)|(Hs & Hdx' & _)]; [done|].
      destruct Hctx as (g & ? & ? & _); [by rewrite Hs|]. by assert (g = f) as -> by lia. }
    destruct (mark_unwind_spec s x Hp Hx Hsx ltac:(lia) Hdo)
      as (u & s2 & Hmu & Hd2 & Hsd & Hcu & Hid & _ & Hrel & Hb & Hh & Hld & Htg).
    fold l1 in Hdo, Hd2, Hsd, Hrel, Htg, Hld.
    rewrite (started_depth_max l1 0) in Hd2, Hsd, Hrel, Htg, Hld by lia.
    pose proof (max_started_depth_nonneg l1) as Hnn. fold d in Hnn.
    rewrite Z.max_r in Hd2, Hsd, Hrel, Htg, Hld by done. fold d in Hd2, Hsd, Hrel, Htg, Hld.
    pose proof (unwind_rel_fmap _ _ _ Hrel) as Hmap.
    destruct (count_after_unwind d l1) as [Hch Hcb]. rewrite <- Hmap in Hch, Hcb.
    destruct Hp as (Hlen & (Hbs & Hhs & His) & Hctxs & Hsusp).
    assert (Hxh : hole_above d x = false).
    { unfold hole_above. destruct Hsx as [-> | ->]; done. }
    assert (Hha : holes_above d l1 = holes_above d (thrds s)).
    { by apply holes_above_insert with x. }
    assert (Hb1 : count_state busy l1 = busy_n s - 1).
    { subst l1. rewrite (count_state_insert _ _ _ _ _ Hx'), Hbs. simpl.
      destruct Hsx as [-> | ->]; simpl; lia. }
    assert (Hh1 : count_state is_hole l1 = hole_n s).
    { subst l1. rewrite (count_state_insert _ _ _ _ _ Hx'), Hhs. simpl.
      destruct Hsx as [-> | ->]; simpl; lia. }
    assert (Hl1 : length l1 = CONFIG_MAX_THREADS) by (subst l1; by rewrite length_insert).
    assert (Hx1 : l1 !! Z.to_nat (cur_thrd s) = Some (set_state EMPTY x)).
    { subst l1. apply list_lookup_insert_eq. by eapply lookup_lt_Some. }
    assert (Hfrom : ∀ j t, l1 !! j = Some t →
              (j = Z.to_nat (cur_thrd s) ∧ t = set_state EMPTY x) ∨
              (j ≠ Z.to_nat (cur_thrd s) ∧ thrds s !! j = Some t)).
    { intros j t [[-> [<- _]]|[? ?]]%list_lookup_insert_Some; eauto. }
    assert (Hto : ∀ j t, thrds s !! j = Some t → state t = HOLE → l1 !! j = Some t).
    { intros j t Hj Hst. subst l1. rewrite list_lookup_insert_ne; [done|].
      intros <-. rewrite Hx' in Hj. injection Hj as <-. destruct Hsx; congruence. }
    assert (Hnd : NoDup (live_depths l1)) by (rewrite Hdo; apply NoDup_seqZ).
    assert (Hjump : ∃ ut, thrd_at (thrds s2) u = Some ut ∧
              entry_ctx ut = JSaved (Z.to_nat d) sched_pos_entry_thrd).
    { destruct Htg as [(j & t & Hj & Hst & Hdt & ->)|(_ & -> & Hd1)].
      - destruct (Forall2_lookup_l _ _ _ _ _ Hrel Hj) as (t' & Ht' & Hr').
        exists t'. split; [by apply thrd_at_nat; [rewrite <- (Forall2_length _ _ _ Hrel)|]|].
        destruct (Hfrom _ _ Hj) as [[_ ->]|[_ Hjs]]; [done|].
        destruct (Hctxs _ _ Hjs) as (g & Hg & He & _); [by rewrite Hst|].
        assert (g = Z.to_nat d) as -> by lia.
        by destruct Hr' as [(_ & _ & ->)|[_ ->]].
      - destruct (Forall2_lookup_l _ _ _ _ _ Hrel Hx1) as (t' & Ht' & Hr').
        exists t'. split; [apply thrd_at_Some; split; [by apply thrd_at_Some in Hx as [? _]|done]|].
        assert (f = Z.to_nat d) as <- by lia.
        by destruct Hr' as [(_ & _ & ->)|[_ ->]]. }
    destruct Hjump as (ut & Hu & Hut).
    exists u, s2. split_and!; try done; try lia.
    + unfold thrd_exit. rewrite Hx. simpl.
      destruct (Z.ltb_spec (depth x) (sched_depth s)); [lia|].
      fold s. rewrite Hmu. simpl. rewrite Hu. simpl. rewrite Hut. done.
    + intros j t Hj Hst Hdt.
      destruct Htg as [(j' & t' & Hj' & Hst' & Hdt' & ->)|(Hno & _)].
      * f_equal.
        apply (live_depth_unique l1 j' j t' t Hnd Hj' (Hto _ _ Hj Hst));
          [by rewrite Hst'|by rewrite Hst|lia].
      * destruct (Hno j t (Hto _ _ Hj Hst)). done.
    + intros Hno. destruct Htg as [(j' & t' & Hj' & Hst' & Hdt' & ->)|(_ & -> & _)]; [|done].
      destruct (Hfrom _ _ Hj') as [[_ ->]|[_ Hjs]]; [done|]. by destruct (Hno j' t' Hjs).
Qed.

End Claims.

Section Idle.
Context `{cfg : Config}.

(** ** System-idle collapsing *)

Lemma min_idle_of_le now l : min_idle_of now l ≤ COOP_MAX_TICK.
Proof.
  unfold min_idle_of. induction (idle_waits now l) as [|x ws IH]; simpl; lia.
Qed.

Lemma min_idle_of_lower now l t :
  t ∈ l → state t = IDLE → min_idle_of now l ≤ tick_wrap (idle_to t - now).
Proof.
  unfold min_idle_of. induction l as [|u l IH]; [by intros ?%elem_of_nil|].
  intros [->|Hin]%elem_of_cons Hs; simpl.
  - rewrite bool_decide_eq_true_2 by done. simpl. lia.
  - specialize (IH Hin Hs). destruct (bool_decide (state u = IDLE)); simpl; lia.
Qed.

Lemma idle_waits_nil_or now l :
  idle_waits now l = [] ∨ ∃ t, t ∈ l ∧ state t = IDLE.
Proof.
  induction l as [|v l IH]; simpl; [by left|].
  case_bool_decide as E; [right; exists v; split; [by left|done]|].
  destruct IH as [?|(w & ? & ?)]; [by left|]. right. exists w. split; [by right|done].
Qed.

Lemma min_idle_of_attained now l :
  (∃ t, t ∈ l ∧ state t = IDLE) →
  ∃ t, t ∈ l ∧ state t = IDLE ∧ min_idle_of now l = tick_wrap (idle_to t - now).
Proof.
  unfold min_idle_of. induction l as [|u l IH]; [by intros (t & ?%elem_of_nil & _)|].
  intros (t & Hin & Hs). simpl. destruct (decide (state u = IDLE)) as [Hu|Hu].
  - rewrite bool_decide_eq_true_2 by done. simpl.
    destruct (idle_waits_nil_or now l) as [Hnil|Hex].
    + exists u. split_and!; [by left|done|].
      rewrite Hnil. simpl. pose proof (tick_wrap_range (idle_to u - now)).
      unfold COOP_MAX_TICK. lia.
    + destruct (IH Hex) as (v & Hv & Hsv & Hm).
      destruct (Z.le_gt_cases (tick_wrap (idle_to u - now)) (foldr Z.min COOP_MAX_TICK (idle_waits now l))).
      * exists u. split_and!; [by left|done|lia].
      * exists v. split_and!; [by right|done|lia].
  - rewrite bool_decide_eq_false_2 by done.
    apply elem_of_cons in Hin as [->|Hin]; [done|].
    destruct IH as (v & Hv & Hsv & Hm); [by eauto|].
    exists v. split_and!; [by right|done|done].
Qed.

(** One pass at a tick at which no idle thread is due. *)
Lemma idle_scan_none_due now l idle m :
  (∀ t, t ∈ l → idle_due now t = false) → m ≤ COOP_MAX_TICK →
  idle_scan now l idle m = (l, idle, Z.min m (min_idle_of now l)).
Proof.
  unfold min_idle_of. revert m. induction l as [|t l IH]; intros m Hno Hm; simpl.
  { f_equal. lia. }
  pose proof (Hno t ltac:(by left)) as Ht. unfold idle_due in Ht.
  assert (Hno' : ∀ u, u ∈ l → idle_due now u = false) by (intros; apply Hno; by right).
  destruct (bool_decide (state t = IDLE)) eqn:E; simpl in *.
  - rewrite Ht. destruct (Z.ltb_spec (tick_wrap (idle_to t - now)) m).
    + rewrite IH; [|done|]. { f_equal. lia. }
      pose proof (tick_wrap_range (idle_to t - now)). unfold COOP_MAX_TICK. lia.
    + rewrite IH by done. f_equal. lia.
  - rewrite IH by done. done.
Qed.

(** One pass in general: the due slots are promoted and counted. *)
Lemma idle_scan_promotes now l idle m :
  count_state _IS_IDLE l ≤ idle < 2 ^ 32 →
  (idle_scan now l idle m).1.1 = promote_due now l ∧
  (idle_scan now l idle m).1.2 = idle - due_count now l.
Proof.
  revert idle m. induction l as [|t l IH]; intros idle m Hi.
  { simpl. split; [done|lia]. }
  simpl in Hi. pose proof (count_state_range _IS_IDLE l) as Hr.
  change (promote_due now (t :: l))
    with ((if idle_due now t then set_state RUN t else t) :: promote_due now l).
  cbn [idle_scan due_count]. unfold idle_due at 1 2.
  destruct (decide (state t = IDLE)) as [E|E].
  - assert (HI : _IS_IDLE (state t) = true) by (by apply bool_decide_eq_true).
    rewrite HI in Hi. rewrite bool_decide_eq_true_2 by done. simpl.
    destruct (COOP_IS_TICK_OVER now (idle_to t)).
    + rewrite (uint_small (idle - 1)) by lia. specialize (IH (idle - 1) m).
      destruct IH as [IH1 IH2]; [lia|].
      destruct (idle_scan now l (idle - 1) m) as [[l' n] m']. simpl in *.
      split; [by rewrite IH1 | lia].
    + destruct (tick_wrap (idle_to t - now) <? m).
      * specialize (IH idle (tick_wrap (idle_to t - now))).
        destruct IH as [IH1 IH2]; [lia|].
        destruct (idle_scan now l idle _) as [[l' n] m']. simpl in *.
        split; [by rewrite IH1 | lia].
      * specialize (IH idle m).
        destruct IH as [IH1 IH2]; [lia|].
        destruct (idle_scan now l idle _) as [[l' n] m']. simpl in *.
        split; [by rewrite IH1 | lia].
  - assert (HI : _IS_IDLE (state t) = false) by (by apply bool_decide_eq_false).
    rewrite HI in Hi. rewrite bool_decide_eq_false_2 by done. simpl.
    specialize (IH idle m).
    destruct IH as [IH1 IH2]; [lia|].
    destruct (idle_scan now l idle _) as [[l' n] m']. simpl in *.
    split; [by rewrite IH1 | lia].
Qed.

Lemma promote_none_due now l :
  (∀ t, t ∈ l → idle_due now t = false) → promote_due now l = l ∧ due_count now l = 0.
Proof.
  induction l as [|t l IH]; intros Hno; [done|].
  change (promote_due now (t :: l))
    with ((if idle_due now t then set_state RUN t else t) :: promote_due now l).
  cbn [due_count].
  rewrite (Hno t) by (by left). destruct IH as [-> ->]; [intros; apply Hno; by right|done].
Qed.

Lemma due_count_pos now l t : t ∈ l → idle_due now t = true → 1 ≤ due_count now l.
Proof.
  assert (Hnn : ∀ l, 0 ≤ due_count now l).
  { clear. induction l as [|u l IH]; simpl; [lia|]. destruct (idle_due now u); lia. }
  induction l as [|u l IH]; [by intros ?%elem_of_nil|].
  intros [->|Hin]%elem_of_cons Hd; simpl.
  - rewrite Hd. specialize (Hnn l). lia.
  - specialize (IH Hin Hd). destruct (idle_due now u); lia.
Qed.

Lemma count_idle_le_active l :
  count_state _IS_IDLE l ≤ count_state busy l - count_state is_hole l.
Proof.
  induction l as [|t l IH]; simpl; [lia|]. destruct (state t); simpl; lia.
Qed.

Lemma all_active_idle l t :
  count_state busy l - count_state is_hole l ≤ count_state _IS_IDLE l →
  t ∈ l → state t = NEW ∨ state t = RUN ∨ state t = WAIT → False.
Proof.
  induction l as [|u l IH]; [by intros _ ?%elem_of_nil|].
  simpl. intros Hc [->|Hin]%elem_of_cons Hs.
  - pose proof (count_idle_le_active l).
    destruct Hs as [Hs|[Hs|Hs]]; rewrite Hs in Hc; simpl in Hc; lia.
  - apply IH; try done. pose proof (count_idle_le_active l).
    destruct (state u); simpl in Hc; lia.
Qed.

(** With a thread not yet entered, runnable or waiting in the pool, the
    condition of the idle loop fails. *)
Lemma active_not_idle_ready s j t :
  length (thrds s) = CONFIG_MAX_THREADS → counters_ok s →
  thrds s !! j = Some t → state t = NEW ∨ state t = RUN ∨ state t = WAIT →
  idle_ready s = false.
Proof.
  intros Hlen (Hb & Hh & Hi) Hj Hs. unfold idle_ready.
  destruct (0 <? idle_n s); [|done]. simpl. apply Z.leb_gt.
  pose proof (count_state_range busy (thrds s)).
  pose proof (count_state_range is_hole (thrds s)).
  pose proof (count_hole_le_busy (thrds s)). pose proof MAX_fit. unfold MAX in *.
  rewrite uint_small by lia.
  destruct (Z.le_gt_cases (busy_n s - hole_n s) (idle_n s)) as [Hle|]; [|lia].
  exfalso. eapply (all_active_idle (thrds s) t); [lia|by eapply list_elem_of_lookup_2|done].
Qed.

Lemma system_idle_skip s clk : idle_ready s = false → _system_idle clk s = Some (s, clk, []).
Proof. intros H. unfold _system_idle. destruct clk; simpl; by rewrite H. Qed.

(** A pass at a tick at which some idle thread is due ends the idle loop. *)
Lemma system_idle_promote s last rest :
  length (thrds s) = CONFIG_MAX_THREADS → counters_ok s →
  idle_ready s = true →
  (∃ t, t ∈ thrds s ∧ idle_due (tick_wrap last) t = true) →
  let s' := set_idle_n (idle_n s - due_count (tick_wrap last) (thrds s))
              (set_thrds (promote_due (tick_wrap last) (thrds s)) s) in
  (∀ i m, _system_idle_loop (last :: rest) i m s =
            Some (s', rest, if i then [ev_idle_cb m] else [])) ∧
  idle_ready s' = false.
Proof.
  intros Hlen (Hb & Hh & Hi) Hready (td & Htd & Hdue) s'.
  pose proof (count_state_range _IS_IDLE (thrds s)) as Hir.
  pose proof (count_state_range is_hole (thrds s)) as Hhr.
  pose proof (count_state_range busy (thrds s)) as Hbr.
  pose proof (count_hole_le_busy (thrds s)) as Hhb.
  pose proof (count_idle_le_active (thrds s)) as Hia.
  pose proof MAX_fit as HM. unfold MAX in HM.
  assert (Hbound : count_state _IS_IDLE (thrds s) ≤ idle_n s < 2 ^ 32) by lia.
  assert (Hexit : idle_ready s' = false).
  { subst s'. unfold idle_ready. simpl.
    pose proof (due_count_pos _ _ _ Htd Hdue).
    apply andb_false_iff. right. apply Z.leb_gt.
    rewrite uint_small by lia. lia. }
  split; [|done].
  intros i m. simpl. rewrite Hready.
  destruct (idle_scan_promotes (tick_wrap last) (thrds s) (idle_n s) COOP_MAX_TICK Hbound)
    as [H1 H2].
  destruct (idle_scan _ _ _ _) as [[l' n] m']. simpl in H1, H2. subst l' n. fold s'.
  assert (Hstop : _system_idle_loop rest true m' s' = Some (s', rest, [])).
  { destruct rest; simpl; by rewrite Hexit. }
  rewrite Hstop. simpl. by rewrite app_nil_r.
Qed.

(** C8. [_system_idle], entered when all active (busy, non-hole) threads are
    idle.  Let the clock read [ticks], then [last], where no idle thread is
    due at any of [ticks] and some idle thread is due at [last].  Then the
    platform idle primitive is called once per reading of [ticks], each time
    with the minimum over the [IDLE] slots of [idle_to - now]; at [last]
    every due [IDLE] slot becomes [RUN] with [idle_n] decremented, and the
    routine is left, for the system is no longer idle.  With [ticks] empty
    the due slots are promoted at once and the idle primitive is not
    called. *)
Theorem system_idle_collapse s ticks last rest :
  length (thrds s) = CONFIG_MAX_THREADS → counters_ok s →
  idle_ready s = true →
  (∀ now t, now ∈ ticks → t ∈ thrds s → idle_due (tick_wrap now) t = false) →
  (∃ t, t ∈ thrds s ∧ idle_due (tick_wrap last) t = true) →
  let s' := set_idle_n (idle_n s - due_count (tick_wrap last) (thrds s))
              (set_thrds (promote_due (tick_wrap last) (thrds s)) s) in
  _system_idle (ticks ++ last :: rest) s =
    Some (s', rest, (λ now, ev_idle_cb (min_idle_of (tick_wrap now) (thrds s))) <$> ticks) ∧
  idle_ready s' = false ∧
  (∀ now, now ∈ ticks →
     (∀ t, t ∈ thrds s → state t = IDLE →
        min_idle_of (tick_wrap now) (thrds s) ≤ tick_wrap (idle_to t - tick_wrap now)) ∧
     (∃ t, t ∈ thrds s ∧ state t = IDLE ∧
        min_idle_of (tick_wrap now) (thrds s) = tick_wrap (idle_to t - tick_wrap now))).
Proof.
  intros Hlen (Hb & Hh & Hi) Hready Hno (td & Htd & Hdue) s'.
  pose proof (count_state_range _IS_IDLE (thrds s)) as Hir.
  pose proof (count_state_range is_hole (thrds s)) as Hhr.
  pose proof (count_state_range busy (thrds s)) as Hbr.
  pose proof (count_hole_le_busy (thrds s)) as Hhb.
  pose proof (count_idle_le_active (thrds s)) as Hia.
  pose proof MAX_fit as HM. unfold MAX in HM.
  destruct (system_idle_promote s last rest Hlen (conj Hb (conj Hh Hi)) Hready
              (ex_intro _ td (conj Htd Hdue))) as [Hlast Hexit].
  fold s' in Hlast, Hexit.
  split_and!; [|done|].
  - unfold _system_idle.
    assert (Hgen : ∀ i m, _system_idle_loop (ticks ++ last :: rest) i m s =
      Some (s', rest,
        (if i then [ev_idle_cb m] else []) ++
        match ticks with
        | [] => []
        | _ :: _ =>
            ((λ now, ev_idle_cb (min_idle_of (tick_wrap now) (thrds s))) <$> ticks)
        end)).
    { induction ticks as [|now ticks IH]; intros i m.
      - simpl app. rewrite Hlast. by rewrite app_nil_r.
      - cbn [app _system_idle_loop]. rewrite Hready.
        rewrite idle_scan_none_due; [|intros; apply Hno; [by left|done]|lia].
        rewrite Z.min_r by apply min_idle_of_le.
        assert (Hs : set_idle_n (idle_n s) (set_thrds (thrds s) s) = s) by (by destruct s).
        rewrite Hs. rewrite IH by (intros; apply Hno; [by right|done]).
        simpl. do 3 f_equal. by destruct ticks. }
    rewrite Hgen. simpl. by destruct ticks.
  - intros now Hnow. split.
    + intros t Ht Hs. by apply min_idle_of_lower.
    + apply min_idle_of_attained. exists td. split; [done|].
      unfold idle_due in Hdue. apply andb_true_iff in Hdue as [Hs _].
      by apply bool_decide_eq_true in Hs.
Qed.

End Idle.

Section Yield.
Context `{cfg : Config}.

(** ** [_yield] in a running thread *)

(** The slot of the yielding thread after [_yield(new_state)]. *)
Lemma yield_running f a st s x :
  running_ok f s →
  thrd_at (thrds s) (cur_thrd s) = Some x →
  ∃ pos g,
    (pos = thrd_pos_new a ∨ pos = thrd_pos_run a) ∧
    _yield f a st s =
      Some (set_thrds (<[Z.to_nat (cur_thrd s) :=
                         set_exe_ctx (JSaved f pos) (set_state st x)]> (thrds s)) s,
            CLoop g, []).
Proof.
  intros (y & Hy & Hro) Hx. rewrite Hx in Hy. injection Hy as <-.
  unfold _yield, thrd_upd. rewrite Hx. simpl.
  destruct Hro as [(Hs & _)|(Hs & Hdx & He & Hdo)]; rewrite Hs; simpl.
  - rewrite ?Hx. simpl. eauto.
  - rewrite ?Hx. simpl. rewrite He. simpl. eauto.
Qed.

(** ** [coop_yield_after] *)

(** C9 (amended). [coop_yield_after(after)] reads the current tick [now]
    and compares it with [after] itself: if [now] is past [after]
    ([COOP_IS_TICK_OVER]) the thread yields in state [RUN], and its saved
    context resumes in [coop_yield_after], which then returns true;
    otherwise false is returned at once and the scheduler state, with the
    saved context of the thread, is unchanged.  The slot's [switch_tick]
    plays no part. *)
Theorem coop_yield_after_spec m f after now clk' x :
  reachable m → ctl m = CThread f → clock m = now :: clk' →
  let s := sched (glob m) in
  thrd_at (thrds s) (cur_thrd s) = Some x →
  (COOP_IS_TICK_OVER (tick_wrap now) after = true →
   ∃ pos g,
     (pos = thrd_pos_new ApiYieldAfter ∨ pos = thrd_pos_run ApiYieldAfter) ∧
     coop_yield_after f after s (clock m) =
       Some (set_thrds (<[Z.to_nat (cur_thrd s) :=
                          set_exe_ctx (JSaved f pos) (set_state RUN x)]> (thrds s)) s,
             CLoop g, clk', []) ∧
     ∀ s', api_epilogue ApiYieldAfter s' = Some (ret_bool true)) ∧
  (COOP_IS_TICK_OVER (tick_wrap now) after = false →
   coop_yield_after f after s (clock m) =
     Some (s, CThread f, clk', [ev_return (ret_bool false)])).
Proof.
  intros Hr Hc Hclk s Hx. rewrite Hclk. unfold coop_yield_after. simpl.
  destruct (reachable_ok _ Hr) as [_ Hm]. rewrite Hc in Hm. destruct Hm as [_ Hro].
  destruct (yield_running f ApiYieldAfter RUN s x Hro Hx) as (pos & g & Hpos & Hy).
  split.
  - intros ->. rewrite Hy. simpl. exists pos, g. done.
  - intros ->. done.
Qed.

(** ** [coop_wait] *)

Lemma wait_enter_eq sem timeout s clk x :
  thrd_at (thrds s) (cur_thrd s) = Some x →
  wait_enter sem timeout s clk =
    if timeout =? 0 then
      Some (set_thrds (<[Z.to_nat (cur_thrd s) :=
              set_inf true (set_wait_to 0 (set_notif false (set_sem_id sem x)))]> (thrds s)) s,
            clk)
    else
      match clk with
      | [] => None
      | now :: clk' =>
          Some (set_thrds (<[Z.to_nat (cur_thrd s) :=
                  set_inf false (set_wait_to (tick_wrap (tick_wrap now + timeout))
                    (set_notif false (set_sem_id sem x)))]> (thrds s)) s,
                clk')
      end.
Proof.
  intros Hx. unfold wait_enter, thrd_upd. rewrite Hx. simpl.
  destruct (timeout =? 0); simpl.
  - erewrite thrd_at_insert_eq by done. simpl. by rewrite list_insert_insert_eq.
  - destruct clk as [|now clk']; simpl; [done|].
    erewrite thrd_at_insert_eq by done. simpl. by rewrite list_insert_insert_eq.
Qed.

(** The passes of [_system_idle] only turn [IDLE] slots into [RUN]. *)
Lemma system_idle_loop_rel clk i m s s' clk' evs :
  _system_idle_loop clk i m s = Some (s', clk', evs) → pool_ok None s →
  Forall2 (λ t t', t' = t ∨ (state t = IDLE ∧ t' = set_state RUN t)) (thrds s) (thrds s') ∧
  (∀ e, e ∈ evs → ∃ ticks, e = ev_idle_cb ticks).
Proof.
  revert i m s evs. induction clk as [|t clk IH]; intros i m s evs; simpl.
  { destruct (idle_ready s); [done|]. intros [= <- <- <-] _. split.
    - apply Forall2_same_length_lookup_2; [done|]. intros j u u' Hu Hu'. left. congruence.
    - by intros e ?%elem_of_nil. }
  destruct (idle_ready s).
  2:{ intros [= <- <- <-] _. split.
    - apply Forall2_same_length_lookup_2; [done|]. intros j u u' Hu Hu'. left. congruence.
    - by intros e ?%elem_of_nil. }
  intros H Hp.
  assert (Hi : count_state _IS_IDLE (thrds s) ≤ idle_n s < 2 ^ 32).
  { destruct Hp as (Hlen & (_ & _ & ->) & _).
    pose proof (count_state_range _IS_IDLE (thrds s)). pose proof MAX_fit. unfold MAX in *. lia. }
  destruct (idle_scan_spec (tick_wrap t) (thrds s) (idle_n s) COOP_MAX_TICK Hi) as [HF Hn].
  destruct (idle_scan _ _ _ _) as [[l' n] m']. simpl in *.
  destruct (_system_idle_loop clk true m' _) as [[[s1 c1] e1]|] eqn:E; [|done].
  simpl in H. injection H as <- <- <-.
  destruct (idle_rel_ok s l' n HF) as [Hp1 Hld]; [|done|].
  { destruct Hp as (_ & (_ & _ & Hc) & _). lia. }
  destruct (IH _ _ _ _ E Hp1) as (HF2 & Hev). simpl in *. split.
  - apply Forall2_same_length_lookup_2.
    { rewrite (Forall2_length _ _ _ HF). by rewrite (Forall2_length _ _ _ HF2). }
    intros j u u2 Hu Hu2.
    destruct (Forall2_lookup_l _ _ _ _ _ HF Hu) as (u1 & Hu1 & Hr1).
    destruct (Forall2_lookup_l _ _ _ _ _ HF2 Hu1) as (u2' & Hu2' & Hr2).
    rewrite Hu2 in Hu2'. injection Hu2' as <-.
    destruct Hr1 as [->|[Hs ->]]; [done|]. right. split; [done|].
    by destruct Hr2 as [->|[? _]].
  - intros e [He|He]%elem_of_app; [|by apply Hev].
    destruct i; [|by apply elem_of_nil in He]. apply list_elem_of_singleton in He. eauto.
Qed.

Lemma sched_run_events f s clk s' c clk' evs x :
  sched_run f s clk = Some (s', c, clk', evs) →
  thrd_at (thrds s) (cur_thrd s) = Some x →
  evs = [] ∨
  ∃ a r, ctx_api (exe_ctx x) = Some a ∧ evs = [ev_resume (cur_thrd s) r] ∧
    (a = ApiWait → r = ret_bool (notif x)).
Proof.
  unfold sched_run. intros H Hx.
  destruct (coop_tick_cb clk) as [[tick clk1]|]; [|done]. exec_in H.
  destruct (exe_ctx x) as [|g [| |a|a]] eqn:E; simpl in H; try done.
  - left. by injection H as <- <- <- <-.
  - left. by injection H as <- <- <- <-.
  - right. destruct a; exec_in H; injection H as <- <- <- <-; eexists _, _; split_and!; try done.
  - right. destruct a; exec_in H; injection H as <- <- <- <-; eexists _, _; split_and!; try done.
Qed.

(** [sched_run] on a slot whose thread is suspended in [coop_wait]: the
    thread is resumed and the call returns the notified flag. *)
Lemma sched_run_wait f s r clk x :
  thrd_at (thrds s) (cur_thrd s) = Some x →
  ctx_api (exe_ctx x) = Some ApiWait →
  ∃ g, sched_run f s (r :: clk) =
    Some (set_thrds (<[Z.to_nat (cur_thrd s) := set_switch_tick (tick_wrap r) x]> (thrds s))
            (set_sched_exe_ctx (JSaved f sched_pos_run) s),
          CThread g, clk, [ev_resume (cur_thrd s) (ret_bool (notif x))]).
Proof.
  intros Hx Hapi. unfold sched_run, thrd_upd. simpl. rewrite Hx. simpl.
  erewrite thrd_at_insert_eq by done. simpl.
  destruct (exe_ctx x) as [|g [| |a|a]]; simpl in Hapi; try done;
    injection Hapi as ->; simpl; erewrite thrd_at_insert_eq by done; simpl; eauto.
Qed.

(** A pass of the loop that selects a thread suspended in [coop_wait]. *)
Lemma sched_iter_wait f s t :
  pool_ok None s →
  thrd_at (thrds s) (next_thrd (cur_thrd s)) = Some t →
  ctx_api (exe_ctx t) = Some ApiWait →
  (state t = RUN → ∀ r clk,
     notif t = true ∧
     ∃ s' g, sched_iter f s (r :: clk) =
       Some (s', CThread g, clk, [ev_resume (next_thrd (cur_thrd s)) (ret_bool true)]) ∧
       busy_n s' = busy_n s) ∧
  (state t = WAIT → inf t = false → ∀ r1 r2 clk,
     COOP_IS_TICK_OVER (tick_wrap r1) (wait_to t) = true →
     notif t = false ∧
     ∃ s' g, sched_iter f s (r1 :: r2 :: clk) =
       Some (s', CThread g, clk, [ev_resume (next_thrd (cur_thrd s)) (ret_bool false)]) ∧
       busy_n s' = busy_n s) ∧
  (state t = WAIT → inf t = false → ∀ r1 clk,
     COOP_IS_TICK_OVER (tick_wrap r1) (wait_to t) = false →
     sched_iter f s (r1 :: clk) =
       Some (set_cur_thrd (next_thrd (cur_thrd s)) s, CLoop f, clk, [])) ∧
  (state t = WAIT → inf t = true → ∀ clk,
     sched_iter f s clk =
       Some (set_cur_thrd (next_thrd (cur_thrd s)) s, CLoop f, clk, [])).
Proof.
  intros Hp Ht Hapi. destruct (pool_lookup_cur _ _ _ Ht) as [Ht' _].
  assert (Hsusp : susp_ok t).
  { destruct Hp as (_ & _ & _ & Hsu). by eapply Hsu. }
  destruct Hsusp as (Hw & Hr & _).
  assert (Hskip : state t = RUN ∨ state t = WAIT → ∀ clk,
            _system_idle clk (set_cur_thrd (next_thrd (cur_thrd s)) s) =
              Some (set_cur_thrd (next_thrd (cur_thrd s)) s, clk, [])).
  { intros Hs clk. apply system_idle_skip.
    destruct Hp as (Hlen & Hc & _).
    eapply (active_not_idle_ready _ _ t); [exact Hlen|exact Hc|exact Ht'|].
    destruct Hs; eauto. }
  split_and!.
  - intros Hs r clk. split; [by apply Hr|].
    unfold sched_iter. fold (next_thrd (cur_thrd s)). rewrite Hskip by eauto.
    simpl. rewrite Ht. simpl. rewrite Hs.
    destruct (sched_run_wait f (set_cur_thrd (next_thrd (cur_thrd s)) s) r clk t Ht Hapi)
      as [g Hrun].
    rewrite Hrun. simpl. rewrite (Hr Hs Hapi). eauto.
  - intros Hs Hinf r1 r2 clk Hover. split; [by apply Hw|].
    unfold sched_iter. fold (next_thrd (cur_thrd s)). rewrite Hskip by eauto.
    simpl. rewrite Ht. simpl. rewrite Hs, Hinf. simpl. rewrite Hover. simpl.
    unfold thrd_upd. simpl. rewrite Ht. simpl.
    match goal with |- context [sched_run f ?s2 ?c] =>
      destruct (sched_run_wait f s2 r2 clk (set_state RUN t)) as [g Hrun] end.
    { simpl. by eapply thrd_at_insert_eq. }
    { done. }
    rewrite Hrun. simpl. rewrite (Hw Hs). eauto.
  - intros Hs Hinf r1 clk Hover.
    unfold sched_iter. fold (next_thrd (cur_thrd s)). rewrite Hskip by eauto.
    simpl. rewrite Ht. simpl. rewrite Hs, Hinf. simpl. by rewrite Hover.
  - intros Hs Hinf clk.
    unfold sched_iter. fold (next_thrd (cur_thrd s)). rewrite Hskip by eauto.
    simpl. rewrite Ht. simpl. by rewrite Hs, Hinf.
Qed.

(** C7. [coop_wait] stores the semaphore id, clears the notified flag, and
    for a zero timeout sets the infinite flag, for a non-zero one sets
    [wait_to] to the current tick plus the timeout; the calling thread then
    yields in state [WAIT].  When a thread suspended in [coop_wait] is
    resumed, the call returns true if the slot had been made [RUN] (by a
    notification, which sets the flag), and false if the dispatcher found it
    in [WAIT] with its timeout passed, the flag being still clear from the
    entry.  And the thread is resumed: when the dispatcher selects the slot
    of a thread suspended in [coop_wait], a slot made [RUN] is given control
    and its call returns true; a slot in [WAIT] whose timeout has passed at
    the tick read is made [RUN] and given control, and its call returns
    false; a slot in [WAIT] with no timeout, or whose timeout has not
    passed, is passed over and stays as it is. *)
Theorem coop_wait_spec m f :
  reachable m →
  let s := sched (glob m) in
  (ctl m = CThread f → ∀ x sem timeout,
     thrd_at (thrds s) (cur_thrd s) = Some x →
     (timeout = 0 →
      ∃ pos g, (pos = thrd_pos_new ApiWait ∨ pos = thrd_pos_run ApiWait) ∧
        coop_wait f sem timeout s (clock m) =
          Some (set_thrds (<[Z.to_nat (cur_thrd s) :=
                  set_exe_ctx (JSaved f pos) (set_state WAIT
                    (set_inf true (set_wait_to 0 (set_notif false (set_sem_id sem x)))))]>
                  (thrds s)) s,
                CLoop g, clock m, [])) ∧
     (timeout ≠ 0 → ∀ now clk', clock m = now :: clk' →
      ∃ pos g, (pos = thrd_pos_new ApiWait ∨ pos = thrd_pos_run ApiWait) ∧
        coop_wait f sem timeout s (clock m) =
          Some (set_thrds (<[Z.to_nat (cur_thrd s) :=
                  set_exe_ctx (JSaved f pos) (set_state WAIT
                    (set_inf false (set_wait_to (tick_wrap (tick_wrap now + timeout))
                      (set_notif false (set_sem_id sem x)))))]>
                  (thrds s)) s,
                CLoop g, clk', []))) ∧
  (ctl m = CLoop f → ∀ m' evs i r t,
     step in_sched m = Some (m', evs) → ev_resume i r ∈ evs →
     thrd_at (thrds s) i = Some t → ctx_api (exe_ctx t) = Some ApiWait →
     (state t = RUN ∧ notif t = true ∧ r = ret_bool true) ∨
     (state t = WAIT ∧ notif t = false ∧ inf t = false ∧ r = ret_bool false)) ∧
  (ctl m = CLoop f → ∀ t,
     thrd_at (thrds s) (next_thrd (cur_thrd s)) = Some t →
     ctx_api (exe_ctx t) = Some ApiWait →
     (state t = RUN → ∀ r clk', clock m = r :: clk' →
        notif t = true ∧
        ∃ m' g,
          step in_sched m =
            Some (m', [ev_resume (next_thrd (cur_thrd s)) (ret_bool true)]) ∧
          ctl m' = CThread g ∧ clock m' = clk') ∧
     (state t = WAIT → inf t = false → ∀ r1 r2 clk', clock m = r1 :: r2 :: clk' →
        COOP_IS_TICK_OVER (tick_wrap r1) (wait_to t) = true →
        notif t = false ∧
        ∃ m' g,
          step in_sched m =
            Some (m', [ev_resume (next_thrd (cur_thrd s)) (ret_bool false)]) ∧
          ctl m' = CThread g ∧ clock m' = clk') ∧
     (state t = WAIT → inf t = false → ∀ r1 clk', clock m = r1 :: clk' →
        COOP_IS_TICK_OVER (tick_wrap r1) (wait_to t) = false →
        ∃ m', step in_sched m = Some (m', []) ∧ ctl m' = CLoop f ∧ clock m' = clk' ∧
          thrds (sched (glob m')) = thrds s) ∧
     (state t = WAIT → inf t = true →
        ∃ m', step in_sched m = Some (m', []) ∧ ctl m' = CLoop f ∧
          clock m' = clock m ∧ thrds (sched (glob m')) = thrds s)).
Proof.
  intros Hr s. pose proof (reachable_ok _ Hr) as [_ Hm]. fold s in Hm. split_and!.
  - intros Hc x sem timeout Hx. rewrite Hc in Hm. destruct Hm as [Hp Hro].
    assert (Hgen : ∀ w, state w = state x → depth w = depth x →
              entry_ctx w = entry_ctx x → exe_ctx w = exe_ctx x →
              ∃ pos g, (pos = thrd_pos_new ApiWait ∨ pos = thrd_pos_run ApiWait) ∧
                _yield f ApiWait WAIT
                  (set_thrds (<[Z.to_nat (cur_thrd s) := w]> (thrds s)) s) =
                Some (set_thrds (<[Z.to_nat (cur_thrd s) :=
                        set_exe_ctx (JSaved f pos) (set_state WAIT w)]> (thrds s)) s,
                      CLoop g, [])).
    { intros w H1 H2 H3 H4.
      destruct (running_fields_ok f s x w Hx H1 H2 H3 H4 Hp Hro) as [_ Hro1].
      destruct (yield_running f ApiWait WAIT _ w Hro1) as (pos & g & Hpos & Hy).
      { simpl. by eapply thrd_at_insert_eq. }
      exists pos, g. split; [done|]. rewrite Hy. simpl. by rewrite list_insert_insert_eq. }
    split.
    + intros ->. unfold coop_wait. rewrite (wait_enter_eq _ _ _ _ x Hx). simpl.
      destruct (Hgen (set_inf true (set_wait_to 0 (set_notif false (set_sem_id sem x)))))
        as (pos & g & Hpos & Hy); try done.
      exists pos, g. split; [done|]. by rewrite Hy.
    + intros Ht now clk' Hclk. unfold coop_wait. rewrite (wait_enter_eq _ _ _ _ x Hx), Hclk.
      destruct (Z.eqb_spec timeout 0); [done|]. simpl.
      destruct (Hgen (set_inf false (set_wait_to (tick_wrap (tick_wrap now + timeout))
                  (set_notif false (set_sem_id sem x)))))
        as (pos & g & Hpos & Hy); try done.
      exists pos, g. split; [done|]. by rewrite Hy.
  - intros Hc m' evs i r t Hs Hev Ht Hapi. rewrite Hc in Hm.
    destruct Hm as (Hp & Hd & Hdo).
    unfold step in Hs. rewrite Hc in Hs. unfold service_step in Hs.
    destruct (0 <? _); [|by destruct f; [injection Hs as <- <-;
      apply list_elem_of_singleton in Hev|]].
    destruct (sched_iter _ _ _) as [[[[s1 c1] clk1] evs1]|] eqn:Ei; [|done].
    simpl in Hs. injection Hs as <- <-. fold s in Ei.
    unfold sched_iter, _system_idle in Ei.
    destruct (_system_idle_loop _ _ _ _) as [[[s2 clk2] evs0]|] eqn:Eidle; [|done].
    simpl in Ei.
    assert (Hp0 : pool_ok None (set_cur_thrd (uint (cur_thrd s + 1) mod MAX) s))
      by (by eapply pool_ok_scalars).
    destruct (system_idle_loop_rel _ _ _ _ _ _ _ Eidle Hp0) as [Hrel Hidle_ev].
    destruct (system_idle_loop_ok _ _ _ _ _ _ _ Eidle Hp0) as (Hp2 & _).
    simpl in Hrel.
    destruct (thrd_at (thrds s2) (cur_thrd s2)) as [t2|] eqn:Ht2; [|done]. simpl in Ei.
    (* the slot [i] of the event is the dispatched slot, unchanged by the idle passes *)
    assert (Hsusp : susp_ok t).
    { destruct Hp as (Hlen & _ & _ & Hsu). apply thrd_at_Some in Ht as [_ Ht].
      by eapply Hsu. }
    assert (Hkey : ∀ s3 c3 clk3 evs3 x3,
       sched_run f s3 clk3 = Some (s1, c3, clk1, evs3) →
       thrd_at (thrds s3) (cur_thrd s3) = Some x3 → cur_thrd s3 = cur_thrd s2 →
       ev_resume i r ∈ evs0 ++ evs3 →
       (x3 = t2 ∨ x3 = set_state RUN t2) →
       i = cur_thrd s2 ∧ t2 = t ∧ r = ret_bool (notif t)).
    { intros s3 c3 clk3 evs3 x3 Hrun Hx3 Hcur [Hin|Hin]%elem_of_app Hx.
      { destruct (Hidle_ev _ Hin) as [? [=]]. }
      destruct (sched_run_events _ _ _ _ _ _ _ _ Hrun Hx3) as [->|(a & r' & Ha & -> & Hr')];
        [by apply elem_of_nil in Hin|].
      apply list_elem_of_singleton in Hin. injection Hin as -> ->.
      rewrite Hcur in *. split; [done|].
      assert (Ht2' : thrds s2 !! Z.to_nat (cur_thrd s2) = Some t2)
        by (by apply thrd_at_Some in Ht2 as [_ ?]).
      destruct (Forall2_lookup_r _ _ _ _ _ Hrel Ht2') as (t0 & Ht0 & Hr0).
      assert (t0 = t) as ->.
      { apply thrd_at_Some in Ht as [_ Ht]. rewrite Ht in Ht0. by injection Ht0. }
      assert (t2 = t) as ->.
      { destruct Hr0 as [->|[Hst ->]]; [done|].
        destruct Hsusp as (_ & _ & Hidle). rewrite (Hidle Hst) in Hapi. done. }
      split; [done|]. destruct Hx as [-> | ->]; simpl in *; rewrite Hapi in Ha;
        injection Ha as <-; by rewrite Hr'. }
    assert (Hnoidle : ∀ e, e ∈ evs0 → e ≠ ev_resume i r).
    { intros e He ->. by destruct (Hidle_ev _ He) as [? [=]]. }
    destruct (state t2) eqn:Est.
    + injection Ei as <- <- <- <-. by destruct (Hnoidle _ Hev).
    + injection Ei as <- <- <- <-. by destruct (Hnoidle _ Hev).
    + exec_in Ei. destruct (coop_tick_cb clk2) as [[tick clk3]|]; [|done]. exec_in Ei.
      injection Ei as <- <- <- <-. apply elem_of_app in Hev as [Hev|Hev].
      * by destruct (Hnoidle _ Hev).
      * by apply list_elem_of_singleton in Hev.
    + destruct (sched_run f s2 clk2) as [[[[s3 c3] clk3] evs3]|] eqn:Er; [|done].
      simpl in Ei. injection Ei as <- <- <- <-.
      destruct (Hkey _ _ _ _ _ Er Ht2 eq_refl Hev ltac:(by left)) as (-> & -> & ->).
      left. destruct Hsusp as (_ & Hn & _). rewrite (Hn Est Hapi). done.
    + destruct (coop_tick_cb clk2) as [[tick clk3]|]; [|done]. simpl in Ei.
      destruct (negb _); [injection Ei as <- <- <- <-; by destruct (Hnoidle _ Hev)|].
      exec_in Ei.
      destruct (sched_run f _ clk3) as [[[[s3 c3] clk4] evs3]|] eqn:Er; [|done].
      simpl in Ei. injection Ei as <- <- <- <-.
      destruct (Hkey _ _ _ _ _ Er ltac:(simpl; by eapply thrd_at_insert_eq) eq_refl Hev
                  ltac:(by right)) as (-> & -> & ->).
      destruct Hsusp as (_ & _ & Hidle). rewrite (Hidle Est) in Hapi. done.
    + destruct (inf t2) eqn:Einf; [injection Ei as <- <- <- <-; by destruct (Hnoidle _ Hev)|].
      destruct (coop_tick_cb clk2) as [[tick clk3]|]; [|done]. simpl in Ei.
      destruct (negb _); [injection Ei as <- <- <- <-; by destruct (Hnoidle _ Hev)|].
      exec_in Ei.
      destruct (sched_run f _ clk3) as [[[[s3 c3] clk4] evs3]|] eqn:Er; [|done].
      simpl in Ei. injection Ei as <- <- <- <-.
      destruct (Hkey _ _ _ _ _ Er ltac:(simpl; by eapply thrd_at_insert_eq) eq_refl Hev
                  ltac:(by right)) as (-> & -> & ->).
      right. destruct Hsusp as (Hn & _ & _). rewrite (Hn Est). done.
  - intros Hc t Ht Hapi. rewrite Hc in Hm. destruct Hm as (Hp & _).
    destruct (pool_lookup_cur _ _ _ Ht) as [Ht' _].
    assert (Hbn : state t = RUN ∨ state t = WAIT → (0 <? busy_n s) = true).
    { intros Hs. apply Z.ltb_lt. destruct Hp as (_ & (-> & _) & _).
      pose proof (count_state_pos busy _ _ _ Ht') as H.
      apply Z.lt_le_trans with 1; [lia|]. apply H. by destruct Hs as [-> | ->]. }
    destruct (sched_iter_wait f s t Hp Ht Hapi) as (H1 & H2 & H3 & H4).
    unfold step. rewrite Hc. unfold service_step. fold s.
    split_and!.
    + intros Hs r clk' Hclk. destruct (H1 Hs r clk') as (Hn & s' & g & Hit & _).
      split; [done|]. rewrite Hbn, Hclk, Hit by eauto. simpl. eauto.
    + intros Hs Hinf r1 r2 clk' Hclk Hover.
      destruct (H2 Hs Hinf r1 r2 clk' Hover) as (Hn & s' & g & Hit & _).
      split; [done|]. rewrite Hbn, Hclk, Hit by eauto. simpl. eauto.
    + intros Hs Hinf r1 clk' Hclk Hover.
      rewrite Hbn, Hclk, (H3 Hs Hinf r1 clk' Hover) by eauto. simpl. eauto.
    + intros Hs Hinf. rewrite Hbn, (H4 Hs Hinf (clock m)) by eauto. simpl. eauto.
Qed.

End Yield.

Section RoundRobin.
Context `{cfg : Config}.

(** ** Round-robin dispatch *)

Lemma promote_due_rel now l :
  Forall2 (λ t t', t' = t ∨ (idle_due now t = true ∧ t' = set_state RUN t))
    l (promote_due now l).
Proof.
  induction l as [|t l IH]; [constructor|].
  change (promote_due now (t :: l))
    with ((if idle_due now t then set_state RUN t else t) :: promote_due now l).
  constructor; [|done]. destruct (idle_due now t) eqn:E; eauto.
Qed.

Lemma sched_run_resumes f s clk tick clk1 x :
  thrd_at (thrds s) (cur_thrd s) = Some x →
  coop_tick_cb clk = Some (tick, clk1) →
  ctx_ok x → _IS_STARTED (state x) = true →
  ∃ g r, sched_run f s clk =
    Some (set_thrds (<[Z.to_nat (cur_thrd s) := set_switch_tick tick x]> (thrds s))
            (set_sched_exe_ctx (JSaved f sched_pos_run) s),
          CThread g, clk1, [ev_resume (cur_thrd s) r]).
Proof.
  intros Hx Hclk Hctx Hst. unfold sched_run, thrd_upd. rewrite Hclk. simpl.
  rewrite Hx. simpl. erewrite thrd_at_insert_eq by done. simpl.
  destruct Hctx as (g & _ & _ & Hex); [by apply Is_true_true, started_live|].
  destruct Hex as [a [He|He]]; [by apply Is_true_true|..]; rewrite He; simpl;
    destruct a; simpl; try (erewrite thrd_at_insert_eq by done; simpl); eauto.
Qed.

Lemma idle_due_eligible now t : idle_due now t = true → eligible now t = true.
Proof.
  unfold idle_due, eligible.
  intros [Hs%bool_decide_eq_true Ho]%andb_true_iff. by rewrite Hs.
Qed.

(** [_system_idle] with some slot eligible at the first reading [r] of the
    clock: at most that reading is used, the slots due at [r] become [RUN],
    and the idle primitive is not called. *)
Lemma system_idle_first s r clk :
  pool_ok None s →
  (∃ j t, thrds s !! j = Some t ∧ eligible (tick_wrap r) t = true) →
  ∃ s1 clk1, _system_idle (r :: clk) s = Some (s1, clk1, []) ∧
    (clk1 = r :: clk ∨ clk1 = clk) ∧
    Forall2 (λ t t', t' = t ∨ (idle_due (tick_wrap r) t = true ∧ t' = set_state RUN t))
      (thrds s) (thrds s1) ∧
    cur_thrd s1 = cur_thrd s ∧ busy_n s1 = busy_n s.
Proof.
  intros Hp (j & t & Hj & He). unfold _system_idle.
  destruct (idle_ready s) eqn:Hready.
  - destruct Hp as (Hlen & Hc & _). pose proof Hc as (Hb & Hh & Hi).
    assert (Hdue : idle_due (tick_wrap r) t = true).
    { unfold idle_ready in Hready. apply andb_true_iff in Hready as [_ Hle%Z.leb_le].
      pose proof (count_state_range busy (thrds s)).
      pose proof (count_state_range is_hole (thrds s)).
      pose proof (count_hole_le_busy (thrds s)). pose proof MAX_fit. unfold MAX in *.
      rewrite uint_small in Hle by lia.
      assert (Hin : t ∈ thrds s) by (by eapply list_elem_of_lookup_2).
      pose proof (all_active_idle (thrds s) t ltac:(lia) Hin) as Hact.
      unfold eligible in He. unfold idle_due.
      destruct (state t) eqn:Est; try done; try (exfalso; apply Hact; eauto). }
    destruct (system_idle_promote s r clk Hlen Hc Hready) as [Hlast _].
    { exists t. split; [by eapply list_elem_of_lookup_2|done]. }
    rewrite Hlast. eexists _, clk. split; [done|]. split; [by right|]. simpl.
    split_and!; try done. apply promote_due_rel.
  - simpl. rewrite Hready. exists s, (r :: clk).
    split_and!; try done; [by left|].
    apply Forall_Forall2_diag, Forall_forall. eauto.
Qed.

Lemma woken_on_refl rs u : woken_on rs u u.
Proof. by left. Qed.

Lemma woken_on_mono rs rs' u u' :
  (∀ r, r ∈ rs' → r ∈ rs) → woken_on rs' u u' → woken_on rs u u'.
Proof. intros Hsub [->|[(r & Hr & Hd) ->]]; [by left|]. right. eauto. Qed.

Lemma woken_on_trans rs u u' u'' :
  woken_on rs u u' → woken_on rs u' u'' → woken_on rs u u''.
Proof.
  intros [->|[Hex ->]]; [done|]. intros [->|[(r & _ & Hd) _]]; [by right|].
  unfold idle_due in Hd. simpl in Hd. done.
Qed.

(** A slot that is not eligible at any of the readings is not woken. *)
Lemma woken_on_ineligible rs u u' :
  woken_on rs u u' → (∀ r, r ∈ rs → eligible (tick_wrap r) u = false) → u' = u.
Proof.
  intros [->|[(r & Hr & Hd) _]] Hno; [done|].
  apply idle_due_eligible in Hd. rewrite (Hno r Hr) in Hd. done.
Qed.

(** A slot that is eligible at the readings stays so. *)
Lemma woken_on_eligible rs u u' r :
  woken_on rs u u' → eligible (tick_wrap r) u = true → eligible (tick_wrap r) u' = true.
Proof. by intros [->|[_ ->]]. Qed.

(** One pass of the loop on a clock whose next readings are [rs], with some
    slot eligible at all of them: the selected slot runs if it is eligible
    at these readings and is passed over if it is not; at most three
    readings are used, and the other slots are as before or woken. *)
Lemma sched_iter_on f s rs rest t b :
  pool_ok None s → (3 ≤ length rs)%nat →
  (∃ j u, thrds s !! j = Some u ∧ ∀ r, r ∈ rs → eligible (tick_wrap r) u = true) →
  thrd_at (thrds s) (next_thrd (cur_thrd s)) = Some t →
  (∀ r, r ∈ rs → eligible (tick_wrap r) t = b) →
  ∃ s' c used rs' evs,
    sched_iter f s (rs ++ rest) = Some (s', c, rs' ++ rest, evs) ∧
    rs = used ++ rs' ∧ (length used ≤ 3)%nat ∧
    cur_thrd s' = next_thrd (cur_thrd s) ∧
    (∀ j u', thrds s' !! j = Some u' →
       Z.of_nat j ≠ next_thrd (cur_thrd s) ∨ b = false →
       ∃ u, thrds s !! j = Some u ∧ woken_on rs u u') ∧
    (if b then (∃ g, c = CThread g) ∧ dispatched evs = [next_thrd (cur_thrd s)]
     else c = CLoop f ∧ dispatched evs = []).
Proof.
  intros Hp Hn (j0 & u0 & Hj0 & He0) Ht Hb. unfold sched_iter.
  fold (next_thrd (cur_thrd s)).
  set (nx := next_thrd (cur_thrd s)) in *.
  assert (Hp0 : pool_ok None (set_cur_thrd nx s)) by (by eapply pool_ok_scalars).
  assert (Hex : ∃ r1 rs1, rs = r1 :: rs1) by (destruct rs; [simpl in Hn; lia|eauto]).
  destruct Hex as (r1 & rs1 & Hrs1).
  assert (Hr1 : r1 ∈ rs) by (rewrite Hrs1; left).
  destruct (system_idle_first (set_cur_thrd nx s) r1 (rs1 ++ rest) Hp0)
    as (s1 & clk1 & Hidle & Hclk1 & Hrel & Hcur & Hbusy).
  { exists j0, u0. split; [done|]. by apply He0. }
  assert (Hshape : ∃ used0 a c0 rs2,
            clk1 = a :: c0 :: rs2 ++ rest ∧ rs = used0 ++ a :: c0 :: rs2 ∧
            (length used0 ≤ 1)%nat).
  { rewrite Hrs1 in Hn |- *. destruct rs1 as [|r2 [|r3 rs3]]; simpl in Hn; try lia.
    destruct Hclk1 as [-> | ->];
      [exists [], r1, r2, (r3 :: rs3)|exists [r1], r2, r3, rs3]; simpl;
      split_and!; (done || lia). }
  destruct Hshape as (used0 & a & c0 & rs2 & -> & Hrs & Hu0).
  assert (Ha : a ∈ rs) by (rewrite Hrs; apply elem_of_app; right; left).
  replace (rs ++ rest) with (r1 :: rs1 ++ rest) by (by rewrite Hrs1).
  rewrite Hidle. simpl in Hrel, Hcur, Hbusy. cbn [mbind option_bind].
  destruct (system_idle_loop_ok _ _ _ _ _ _ _ Hidle Hp0) as (Hp1 & _).
  destruct (pool_lookup_cur _ _ _ Ht) as [Ht' Hnx].
  destruct (Forall2_lookup_l _ _ _ _ _ Hrel Ht') as (t1 & Ht1' & Hr1').
  assert (Ht1 : thrd_at (thrds s1) (cur_thrd s1) = Some t1).
  { rewrite Hcur. apply thrd_at_Some. split; [|done]. by apply thrd_at_Some in Ht as [? _]. }
  assert (Hfr : ∀ j u', thrds s1 !! j = Some u' →
            ∃ u, thrds s !! j = Some u ∧ woken_on rs u u').
  { intros j u' Hj. destruct (Forall2_lookup_r _ _ _ _ _ Hrel Hj) as (u & Hu & Hr).
    exists u. split; [done|]. destruct Hr as [->|[Hd ->]]; [by left|]. right. eauto. }
  assert (He1 : ∀ r, r ∈ rs → eligible (tick_wrap r) t1 = b).
  { intros r Hr. destruct Hr1' as [->|[Hd ->]]; [by apply Hb|].
    apply idle_due_eligible in Hd. rewrite (Hb r1 Hr1) in Hd. by subst b. }
  assert (Hctx : ctx_ok t1) by (destruct Hp1 as (_ & _ & Hctx & _); eauto).
  rewrite Ht1. cbn [mbind option_bind].
  assert (Hskip : ∀ used rs', rs = used ++ rs' → (length used ≤ 3)%nat → b = false →
    ∃ s' c used1 rs1' evs,
      Some (s1, CLoop f, rs' ++ rest, @nil event) = Some (s', c, rs1' ++ rest, evs) ∧
      rs = used1 ++ rs1' ∧ (length used1 ≤ 3)%nat ∧ cur_thrd s' = nx ∧
      (∀ j u', thrds s' !! j = Some u' → Z.of_nat j ≠ nx ∨ b = false →
         ∃ u, thrds s !! j = Some u ∧ woken_on rs u u') ∧
      (if b then (∃ g, c = CThread g) ∧ dispatched evs = [nx]
       else c = CLoop f ∧ dispatched evs = [])).
  { intros used rs' Hr Hl ->. exists s1, (CLoop f), used, rs', [].
    split_and!; try done. intros; by apply Hfr. }
  assert (Hrun : ∀ used rs' w s' g evs, rs = used ++ rs' → (length used ≤ 3)%nat →
    b = true →
    thrds s' = <[Z.to_nat (cur_thrd s1) := w]> (thrds s1) → cur_thrd s' = cur_thrd s1 →
    dispatched evs = [nx] →
    ∃ s'' c used1 rs1' evs',
      Some (s', CThread g, rs' ++ rest, evs) = Some (s'', c, rs1' ++ rest, evs') ∧
      rs = used1 ++ rs1' ∧ (length used1 ≤ 3)%nat ∧ cur_thrd s'' = nx ∧
      (∀ j u', thrds s'' !! j = Some u' → Z.of_nat j ≠ nx ∨ b = false →
         ∃ u, thrds s !! j = Some u ∧ woken_on rs u u') ∧
      (if b then (∃ g, c = CThread g) ∧ dispatched evs' = [nx]
       else c = CLoop f ∧ dispatched evs' = [])).
  { intros used rs' w s' g evs Hr Hl -> Hth Hcu Hev.
    exists s', (CThread g), used, rs', evs.
    split_and!; try done; [congruence| |eauto].
    intros j u' Hj [Hne|?]; [|done]. rewrite Hth in Hj.
    rewrite list_lookup_insert_ne in Hj by (rewrite Hcur; simpl; lia). by apply Hfr. }
  assert (Hrs_a : rs = (used0 ++ [a]) ++ c0 :: rs2) by (by rewrite <- app_assoc).
  assert (Hrs_c : rs = (used0 ++ [a; c0]) ++ rs2) by (by rewrite <- app_assoc).
  assert (Hl_a : (length (used0 ++ [a]) ≤ 3)%nat) by (rewrite length_app; simpl; lia).
  assert (Hl_c : (length (used0 ++ [a; c0]) ≤ 3)%nat) by (rewrite length_app; simpl; lia).
  specialize (He1 a Ha) as He1a. specialize (He1 r1 Hr1) as He1r.
  destruct (state t1) eqn:Est.
  - (* EMPTY *)
    apply (Hskip used0 (a :: c0 :: rs2)); [done|lia|].
    rewrite <- He1r. unfold eligible. by rewrite Est.
  - (* HOLE *)
    apply (Hskip used0 (a :: c0 :: rs2)); [done|lia|].
    rewrite <- He1r. unfold eligible. by rewrite Est.
  - (* NEW *)
    unfold thrd_upd. simpl. rewrite Ht1. simpl.
    erewrite thrd_at_insert_eq by done. simpl.
    erewrite thrd_at_insert_eq by (by eapply thrd_at_insert_eq). simpl.
    rewrite !list_insert_insert_eq.
    eapply (Hrun (used0 ++ [a]) (c0 :: rs2)); [done|done| |reflexivity|reflexivity|
                   by simpl; rewrite Hcur].
    rewrite <- He1r. unfold eligible. by rewrite Est.
  - (* RUN *)
    destruct (sched_run_resumes f s1 (a :: c0 :: rs2 ++ rest) _ _ t1 Ht1
                eq_refl Hctx ltac:(by rewrite Est)) as (g & r & Hrun').
    rewrite Hrun'. simpl.
    eapply (Hrun (used0 ++ [a]) (c0 :: rs2)); [done|done| |reflexivity|reflexivity|
                   by simpl; rewrite Hcur].
    rewrite <- He1r. unfold eligible. by rewrite Est.
  - (* IDLE *)
    simpl. unfold eligible in He1a. rewrite Est in He1a. rewrite He1a.
    destruct b; simpl.
    + unfold thrd_upd. rewrite Ht1. simpl.
      match goal with |- context [sched_run f ?s2 ?clk] =>
        destruct (sched_run_resumes f s2 clk (tick_wrap c0) (rs2 ++ rest)
                    (set_state RUN t1)) as (g & r & Hrun') end.
      { simpl. by eapply thrd_at_insert_eq. }
      { done. }
      { intros _. destruct Hctx as (g & ? & ? & ?); [by rewrite Est|]. exists g.
        simpl. split_and!; try done. rewrite Est in *. done. }
      { done. }
      rewrite Hrun'. simpl. rewrite !list_insert_insert_eq.
      eapply (Hrun (used0 ++ [a; c0]) rs2); [done|done|done|reflexivity|reflexivity|
                   by simpl; rewrite Hcur].
    + by apply (Hskip (used0 ++ [a]) (c0 :: rs2)).
  - (* WAIT *)
    unfold eligible in He1a, He1r. rewrite Est in He1a, He1r.
    destruct (inf t1) eqn:Einf; simpl.
    { apply (Hskip used0 (a :: c0 :: rs2)); [done|lia|]. by rewrite <- He1r. }
    simpl in He1a. rewrite He1a.
    destruct b; simpl.
    + unfold thrd_upd. rewrite Ht1. simpl.
      match goal with |- context [sched_run f ?s2 ?clk] =>
        destruct (sched_run_resumes f s2 clk (tick_wrap c0) (rs2 ++ rest)
                    (set_state RUN t1)) as (g & r & Hrun') end.
      { simpl. by eapply thrd_at_insert_eq. }
      { done. }
      { intros _. destruct Hctx as (g & ? & ? & ?); [by rewrite Est|]. exists g.
        simpl. split_and!; try done. rewrite Est in *. done. }
      { done. }
      rewrite Hrun'. simpl. rewrite !list_insert_insert_eq.
      eapply (Hrun (used0 ++ [a; c0]) rs2); [done|done|done|reflexivity|reflexivity|
                   by simpl; rewrite Hcur].
    + by apply (Hskip (used0 ++ [a]) (c0 :: rs2)).
Qed.

(** *** The order of the slots *)

Lemma next_thrd_range c : 0 ≤ next_thrd c < MAX.
Proof. unfold next_thrd. apply Z.mod_pos_bound, MAX_pos. Qed.

Lemma next_thrd_in_pool c : 0 ≤ c < MAX → next_thrd c = (c + 1) mod MAX.
Proof. intros. unfold next_thrd. pose proof MAX_fit. by rewrite uint_small by lia. Qed.

Lemma next_thrd_NO_THRD : next_thrd NO_THRD = 0.
Proof.
  unfold next_thrd. rewrite NO_THRD_val.
  change (uint (2 ^ 32 - 1 + 1)) with 0. apply Zmod_0_l.
Qed.

Lemma slot_after_0 c : slot_after c 0 = next_thrd c.
Proof. unfold slot_after, next_thrd. by rewrite Z.add_0_r. Qed.

Lemma slot_after_next c j : slot_after (next_thrd c) j = slot_after c (S j).
Proof.
  unfold slot_after. pose proof (next_thrd_range c). pose proof MAX_fit.
  rewrite uint_small by lia. unfold next_thrd. rewrite Nat2Z.inj_succ.
  rewrite <- Z.add_assoc, Zplus_mod_idemp_l. f_equal. lia.
Qed.

Lemma slot_after_range c j : 0 ≤ slot_after c j < MAX.
Proof. unfold slot_after. apply Z.mod_pos_bound, MAX_pos. Qed.

Lemma slot_after_in_pool c j :
  0 ≤ c < MAX → slot_after c j = (c + 1 + Z.of_nat j) mod MAX.
Proof. intros. unfold slot_after. pose proof MAX_fit. by rewrite uint_small by lia. Qed.

Lemma slot_after_NO_THRD j : slot_after NO_THRD j = Z.of_nat j mod MAX.
Proof.
  unfold slot_after. rewrite NO_THRD_val. by change (uint (2 ^ 32 - 1 + 1)) with 0.
Qed.

Lemma slot_after_inj c i j :
  Z.of_nat i < MAX → Z.of_nat j < MAX → slot_after c i = slot_after c j → i = j.
Proof.
  unfold slot_after. intros Hi Hj Heq. pose proof MAX_pos.
  set (a := uint (c + 1)) in *.
  assert (Hd : ∀ x y, (a + x) mod MAX = (a + y) mod MAX → 0 ≤ x ≤ y → y < MAX → x = y).
  { intros x y Hxy Hx Hy.
    assert (Hm : (y - x) mod MAX = 0).
    { replace (y - x) with ((a + y) - (a + x)) by lia.
      rewrite Zminus_mod, Hxy, Z.sub_diag. apply Zmod_0_l. }
    rewrite Z.mod_small in Hm by lia. lia. }
  destruct (decide (i ≤ j)%nat).
  - apply Nat2Z.inj, Hd; [done|lia..].
  - symmetry. apply Nat2Z.inj, Hd; [done|lia..].
Qed.

Lemma thrd_at_total l i :
  length l = CONFIG_MAX_THREADS → 0 ≤ i < MAX → ∃ t, thrd_at l i = Some t.
Proof.
  intros Hl Hi. destruct (lookup_lt_is_Some_2 l (Z.to_nat i)) as [t Ht].
  { rewrite Hl. unfold MAX in Hi. lia. }
  exists t. by apply thrd_at_Some.
Qed.

Lemma eligible_busy now s j u :
  counters_ok s → thrds s !! j = Some u → eligible now u = true → 0 < busy_n s.
Proof.
  intros (Hb & _) Hj He. rewrite Hb.
  pose proof (count_state_pos busy _ _ _ Hj) as H.
  apply Z.lt_le_trans with 1; [lia|]. apply H.
  unfold eligible in He. by destruct (state u).
Qed.

Lemma run_app a b m m1 m2 e1 e2 :
  run a m = Some (m1, e1) → run b m1 = Some (m2, e2) →
  run (a ++ b) m = Some (m2, e1 ++ e2).
Proof.
  revert m e1. induction a as [|i a IH]; intros m e1 Ha Hb; simpl in *.
  - by injection Ha as <- <-.
  - destruct (step i m) as [[m' e]|]; [|done]. simpl in *.
    destruct (run a m') as [[m'' e']|] eqn:Ea; [|done]. simpl in *.
    injection Ha as <- <-. rewrite (IH _ _ Ea Hb). simpl. by rewrite app_assoc.
Qed.

Lemma dispatched_app e1 e2 : dispatched (e1 ++ e2) = dispatched e1 ++ dispatched e2.
Proof. apply omap_app. Qed.

(** *** Passes of the loop *)

(** One [in_sched] step on a clock whose next readings are [rs]. *)
Lemma loop_pass_on m f rs rest t b :
  machine_ok m → ctl m = CLoop f → clock m = rs ++ rest → (3 ≤ length rs)%nat →
  (∃ j u, thrds (sched (glob m)) !! j = Some u ∧
          ∀ r, r ∈ rs → eligible (tick_wrap r) u = true) →
  thrd_at (thrds (sched (glob m))) (next_thrd (cur_thrd (sched (glob m)))) = Some t →
  (∀ r, r ∈ rs → eligible (tick_wrap r) t = b) →
  ∃ m' used rs' evs,
    step in_sched m = Some (m', evs) ∧ machine_ok m' ∧
    clock m' = rs' ++ rest ∧ rs = used ++ rs' ∧ (length used ≤ 3)%nat ∧
    cur_thrd (sched (glob m')) = next_thrd (cur_thrd (sched (glob m))) ∧
    (∀ j u', thrds (sched (glob m')) !! j = Some u' →
       Z.of_nat j ≠ next_thrd (cur_thrd (sched (glob m))) ∨ b = false →
       ∃ u, thrds (sched (glob m)) !! j = Some u ∧ woken_on rs u u') ∧
    (if b
     then (∃ g, ctl m' = CThread g) ∧
          dispatched evs = [next_thrd (cur_thrd (sched (glob m)))]
     else ctl m' = CLoop f ∧ dispatched evs = []).
Proof.
  intros Hok Hc Hclk Hn Hel Ht Hb.
  assert (Hp : pool_ok None (sched (glob m))).
  { destruct Hok as [_ Hm]. rewrite Hc in Hm. apply Hm. }
  destruct (sched_iter_on f _ rs rest t b Hp Hn Hel Ht Hb)
    as (s' & c & used & rs' & evs & Hit & Hrs & Hl & Hcur & Hfr & Hd).
  assert (Hstep : step in_sched m =
            Some (mk_machine (mk_globals s' (inited (glob m))) c (rs' ++ rest), evs)).
  { unfold step. rewrite Hc. unfold service_step.
    destruct Hel as (j & u & Hj & He).
    assert (Hex : ∃ r, r ∈ rs) by (destruct rs as [|r ?]; [simpl in Hn; lia|exists r; left]).
    destruct Hex as [r Hr].
    pose proof (eligible_busy _ _ _ _ (proj1 (proj2 Hp)) Hj (He r Hr)) as Hbn.
    apply Z.ltb_lt in Hbn. rewrite Hbn, Hclk, Hit. done. }
  eexists _, used, rs', evs. split; [exact Hstep|].
  split; [by eapply step_ok|]. simpl. split_and!; done.
Qed.

(** The slots after the current one are passed over one pass at a time, as
    long as they are not eligible; the first eligible one is given control. *)
Lemma first_eligible_runs k : ∀ m f rs rest t,
  machine_ok m → ctl m = CLoop f → clock m = rs ++ rest → (3 * S k ≤ length rs)%nat →
  (∀ j u r, (j < k)%nat →
     thrd_at (thrds (sched (glob m))) (slot_after (cur_thrd (sched (glob m))) j) = Some u →
     r ∈ rs → eligible (tick_wrap r) u = false) →
  thrd_at (thrds (sched (glob m))) (slot_after (cur_thrd (sched (glob m))) k) = Some t →
  (∀ r, r ∈ rs → eligible (tick_wrap r) t = true) →
  ∃ m' evs g used rs',
    run (replicate (S k) in_sched) m = Some (m', evs) ∧ machine_ok m' ∧
    ctl m' = CThread g ∧
    clock m' = rs' ++ rest ∧ rs = used ++ rs' ∧ (length used ≤ 3 * S k)%nat ∧
    dispatched evs = [slot_after (cur_thrd (sched (glob m))) k] ∧
    cur_thrd (sched (glob m')) = slot_after (cur_thrd (sched (glob m))) k.
Proof.
  induction k as [|k IH]; intros m f rs rest t Hok Hc Hclk Hn Hskip Ht He.
  - rewrite slot_after_0 in *.
    destruct (loop_pass_on m f rs rest t true Hok Hc Hclk ltac:(lia)) as
      (m' & used & rs' & evs & Hstep & Hok' & Hclk' & Hrs & Hl & Hcur & Hfr & Hd);
      [|done|done|].
    { apply pool_lookup_cur in Ht as [Ht _]. eauto. }
    destruct Hd as [[g Hg] Hd].
    exists m', evs, g, used, rs'. cbn [run replicate]. rewrite Hstep. simpl.
    rewrite app_nil_r. split_and!; done.
  - set (s := sched (glob m)) in *.
    assert (Hp : pool_ok None s).
    { destruct Hok as [_ Hm]. rewrite Hc in Hm. apply Hm. }
    destruct (thrd_at_total (thrds s) (next_thrd (cur_thrd s))) as [t0 Ht0];
      [apply Hp|apply next_thrd_range|].
    assert (He0 : ∀ r, r ∈ rs → eligible (tick_wrap r) t0 = false).
    { intros r Hr. apply (Hskip 0%nat t0 r); [lia| |done]. by rewrite slot_after_0. }
    destruct (loop_pass_on m f rs rest t0 false Hok Hc Hclk ltac:(lia)) as
      (m1 & used1 & rs1 & evs1 & Hstep & Hok1 & Hclk1 & Hrs1 & Hl1 & Hcur1 & Hfr1 & Hd1);
      [|done|done|].
    { apply pool_lookup_cur in Ht as [Ht _]. eauto. }
    fold s in Hcur1, Hfr1. destruct Hd1 as [Hc1 Hd1].
    set (s1 := sched (glob m1)) in *.
    assert (Hp1 : pool_ok None s1).
    { destruct Hok1 as [_ Hm]. rewrite Hc1 in Hm. apply Hm. }
    assert (Hsub : ∀ r, r ∈ rs1 → r ∈ rs).
    { intros r Hr. rewrite Hrs1. apply elem_of_app. by right. }
    assert (Hsame : ∀ i u, thrd_at (thrds s) i = Some u →
              ∃ u', thrd_at (thrds s1) i = Some u' ∧ woken_on rs u u').
    { intros i u Hu. pose proof Hu as [Hi Hu']%thrd_at_Some.
      destruct (thrd_at_total (thrds s1) i) as [u' Hu1]; [apply Hp1|done|].
      exists u'. split; [done|].
      pose proof Hu1 as [_ Hu1']%thrd_at_Some.
      destruct (Hfr1 _ _ Hu1') as (u0 & Hu0 & Hw); [by right|]. congruence. }
    destruct (Hsame _ _ Ht) as (t' & Ht' & Hwt).
    destruct (IH m1 f rs1 rest t' Hok1 Hc1 Hclk1) as
      (m' & evs & g & used & rs' & Hrun & Hok' & Hc' & Hclk' & Hrs' & Hl' & Hd & Hcur).
    { rewrite Hrs1, length_app in Hn. lia. }
    { intros j u' r Hj Hu' Hr. fold s1 in Hu'. rewrite Hcur1, slot_after_next in Hu'.
      pose proof Hu' as [Hi Hu1']%thrd_at_Some.
      destruct (Hfr1 _ _ Hu1') as (u0 & Hu0 & Hw); [by right|].
      assert (Hno : ∀ r0, r0 ∈ rs → eligible (tick_wrap r0) u0 = false).
      { intros r0 Hr0. apply (Hskip (S j) u0 r0); [lia| |done]. by apply thrd_at_Some. }
      rewrite (woken_on_ineligible _ _ _ Hw Hno). apply Hno. by apply Hsub. }
    { fold s1. by rewrite Hcur1, slot_after_next. }
    { intros r Hr. eapply woken_on_eligible; [exact Hwt|]. apply He. by apply Hsub. }
    fold s1 in Hd, Hcur. rewrite Hcur1, slot_after_next in Hd, Hcur.
    exists m', (evs1 ++ evs), g, (used1 ++ used), rs'.
    change (replicate (S (S k)) in_sched) with (in_sched :: replicate (S k) in_sched).
    cbn [run]. rewrite Hstep. cbn [mbind option_bind]. rewrite Hrun. simpl.
    split_and!; try done.
    + by rewrite Hrs1, Hrs', app_assoc.
    + rewrite length_app. lia.
    + unfold dispatched in *. by rewrite omap_app, Hd1, Hd.
Qed.

(** *** Ready and blocked slots, whatever the clock reads *)

Lemma ready_eligible now t : ready t = true → eligible now t = true.
Proof. unfold ready, eligible. by destruct (state t). Qed.

Lemma blocked_not_eligible now t : blocked t = true → eligible now t = false.
Proof. unfold blocked, eligible. destruct (state t); try done. by intros ->. Qed.

Lemma ready_not_idle_ready r s j t :
  pool_ok r s → thrds s !! j = Some t → ready t = true → idle_ready s = false.
Proof.
  intros (Hlen & Hc & _) Hj Hr. eapply active_not_idle_ready; try done.
  unfold ready in Hr. destruct (state t); try done; eauto.
Qed.

(** A pass that selects a blocked slot only advances [cur_thrd]. *)
Lemma sched_iter_blocked f s clk t :
  idle_ready s = false →
  thrd_at (thrds s) (next_thrd (cur_thrd s)) = Some t → blocked t = true →
  sched_iter f s clk = Some (set_cur_thrd (next_thrd (cur_thrd s)) s, CLoop f, clk, []).
Proof.
  intros Hr Ht Hb. unfold sched_iter. fold (next_thrd (cur_thrd s)).
  rewrite system_idle_skip by done. simpl. rewrite Ht. simpl.
  unfold blocked in Hb. destruct (state t); try done. by rewrite Hb.
Qed.

(** A pass that selects a thread not yet entered enters it. *)
Lemma sched_iter_enters f s r clk t :
  idle_ready s = false →
  thrd_at (thrds s) (next_thrd (cur_thrd s)) = Some t → state t = NEW →
  ∃ s', sched_iter f s (r :: clk) =
          Some (s', CThread f, clk, [ev_enter (next_thrd (cur_thrd s))]) ∧
    cur_thrd s' = next_thrd (cur_thrd s) ∧
    sched_depth s' = uint (sched_depth s + 1) ∧
    thrds s' = <[Z.to_nat (next_thrd (cur_thrd s)) :=
                 set_switch_tick (tick_wrap r)
                   (set_depth (uint (sched_depth s + 1))
                      (set_entry_ctx (JSaved f sched_pos_entry_thrd) t))]> (thrds s).
Proof.
  intros Hr Ht Hs. unfold sched_iter. fold (next_thrd (cur_thrd s)).
  rewrite system_idle_skip by done. simpl. rewrite Ht. simpl. rewrite Hs.
  unfold thrd_upd. simpl. rewrite Ht. simpl.
  erewrite thrd_at_insert_eq by done. simpl.
  erewrite thrd_at_insert_eq by (by eapply thrd_at_insert_eq). simpl.
  rewrite !list_insert_insert_eq. eauto.
Qed.

(** A pass that selects a ready slot gives it control: a thread not yet
    entered is entered, a runnable one is resumed.  One reading of the clock
    is used, and no other slot changes. *)
Lemma sched_iter_ready f s r clk t :
  pool_ok None s → idle_ready s = false →
  thrd_at (thrds s) (next_thrd (cur_thrd s)) = Some t → ready t = true →
  ∃ s' g t' e, sched_iter f s (r :: clk) = Some (s', CThread g, clk, [e]) ∧
    cur_thrd s' = next_thrd (cur_thrd s) ∧
    thrds s' = <[Z.to_nat (next_thrd (cur_thrd s)) := t']> (thrds s) ∧
    state t' = state t ∧
    ((state t = NEW ∧ e = ev_enter (next_thrd (cur_thrd s))) ∨
     (state t = RUN ∧ ∃ rv, e = ev_resume (next_thrd (cur_thrd s)) rv)).
Proof.
  intros Hp Hr Ht Hrd. unfold ready in Hrd.
  destruct (state t) eqn:Est; try done.
  - destruct (sched_iter_enters f s r clk t Hr Ht Est) as (s' & Hit & Hcur & _ & Hth).
    eexists s', f, _, _. split; [exact Hit|]. split_and!; try done. by left.
  - unfold sched_iter. fold (next_thrd (cur_thrd s)).
    rewrite system_idle_skip by done. simpl. rewrite Ht. simpl. rewrite Est.
    assert (Hctx : ctx_ok t).
    { destruct Hp as (_ & _ & Hctx & _). apply pool_lookup_cur in Ht as [Ht _]. eauto. }
    destruct (sched_run_resumes f (set_cur_thrd (next_thrd (cur_thrd s)) s) (r :: clk)
                (tick_wrap r) clk t Ht eq_refl Hctx ltac:(by rewrite Est))
      as (g & rv & Hrun).
    rewrite Hrun. simpl. eexists _, g, _, _. split; [done|]. simpl.
    split_and!; try done. right. eauto.
Qed.

Lemma ready_busy r s j t :
  pool_ok r s → thrds s !! j = Some t → ready t = true → 0 < busy_n s.
Proof.
  intros (_ & (Hb & _) & _) Hj Hr. rewrite Hb.
  pose proof (count_state_pos busy _ _ _ Hj) as H.
  apply Z.lt_le_trans with 1; [lia|]. apply H.
  unfold ready in Hr. by destruct (state t).
Qed.

(** The passes over blocked slots, with a ready thread in the pool: nothing
    changes but [cur_thrd], and the clock is not read. *)
Lemma blocked_passes k : ∀ m f i t,
  machine_ok m → ctl m = CLoop f →
  thrds (sched (glob m)) !! i = Some t → ready t = true →
  (∀ j u, (j < k)%nat →
     thrd_at (thrds (sched (glob m))) (slot_after (cur_thrd (sched (glob m))) j) = Some u →
     blocked u = true) →
  ∃ m', run (replicate k in_sched) m = Some (m', []) ∧ machine_ok m' ∧
    ctl m' = CLoop f ∧ clock m' = clock m ∧
    thrds (sched (glob m')) = thrds (sched (glob m)) ∧
    (∀ j, slot_after (cur_thrd (sched (glob m'))) j =
          slot_after (cur_thrd (sched (glob m))) (k + j)).
Proof.
  induction k as [|k IH]; intros m f i t Hok Hc Hi Hrd Hbl.
  - exists m. done.
  - set (s := sched (glob m)) in *.
    assert (Hp : pool_ok None s).
    { destruct Hok as [_ Hm]. rewrite Hc in Hm. apply Hm. }
    destruct (thrd_at_total (thrds s) (next_thrd (cur_thrd s))) as [t0 Ht0];
      [apply Hp|apply next_thrd_range|].
    assert (Hb0 : blocked t0 = true).
    { apply (Hbl 0%nat); [lia|]. by rewrite slot_after_0. }
    assert (Hstep : step in_sched m =
              Some (mk_machine (mk_globals (set_cur_thrd (next_thrd (cur_thrd s)) s)
                                  (inited (glob m))) (CLoop f) (clock m), [])).
    { unfold step. rewrite Hc. unfold service_step. fold s.
      pose proof (ready_busy _ _ _ _ Hp Hi Hrd) as Hbn. apply Z.ltb_lt in Hbn.
      rewrite Hbn.
      rewrite (sched_iter_blocked f s (clock m) t0); try done.
      by eapply ready_not_idle_ready. }
    pose proof (step_ok _ _ _ _ Hstep Hok) as Hok1.
    destruct (IH _ f i t Hok1 eq_refl Hi Hrd) as (m' & Hrun & Hok' & Hc' & Hclk' & Hth' & Hsl).
    { intros j u Hj Hu. simpl in Hu. rewrite slot_after_next in Hu.
      apply (Hbl (S j)); [lia|done]. }
    exists m'. change (replicate (S k) in_sched) with (in_sched :: replicate k in_sched).
    cbn [run]. rewrite Hstep. cbn [mbind option_bind]. rewrite Hrun. simpl.
    split_and!; try done. intros j. rewrite Hsl. simpl. by rewrite slot_after_next.
Qed.

(** The first ready slot after blocked ones is given control, whatever the
    clock reads; one reading is used. *)
Lemma ready_after_blocked k m f t r clk' :
  machine_ok m → ctl m = CLoop f → clock m = r :: clk' →
  (∀ j u, (j < k)%nat →
     thrd_at (thrds (sched (glob m))) (slot_after (cur_thrd (sched (glob m))) j) = Some u →
     blocked u = true) →
  thrd_at (thrds (sched (glob m))) (slot_after (cur_thrd (sched (glob m))) k) = Some t →
  ready t = true →
  ∃ m' g t' e,
    run (replicate (S k) in_sched) m = Some (m', [e]) ∧ machine_ok m' ∧
    ctl m' = CThread g ∧ clock m' = clk' ∧
    cur_thrd (sched (glob m')) = slot_after (cur_thrd (sched (glob m))) k ∧
    thrds (sched (glob m')) =
      <[Z.to_nat (slot_after (cur_thrd (sched (glob m))) k) := t']>
        (thrds (sched (glob m))) ∧
    state t' = state t ∧
    ((state t = NEW ∧ e = ev_enter (slot_after (cur_thrd (sched (glob m))) k)) ∨
     (state t = RUN ∧ ∃ rv, e = ev_resume (slot_after (cur_thrd (sched (glob m))) k) rv)).
Proof.
  intros Hok Hc Hclk Hbl Ht Hrd.
  destruct (pool_lookup_cur _ _ _ Ht) as [Ht' _].
  destruct (blocked_passes k m f _ t Hok Hc Ht' Hrd Hbl)
    as (m1 & Hrun1 & Hok1 & Hc1 & Hclk1 & Hth1 & Hsl1).
  set (s1 := sched (glob m1)) in *.
  assert (Hp1 : pool_ok None s1).
  { destruct Hok1 as [_ Hm]. rewrite Hc1 in Hm. apply Hm. }
  assert (Hnx : next_thrd (cur_thrd s1) = slot_after (cur_thrd (sched (glob m))) k).
  { rewrite <- slot_after_0, Hsl1. by rewrite Nat.add_0_r. }
  assert (Ht1 : thrd_at (thrds s1) (next_thrd (cur_thrd s1)) = Some t).
  { by rewrite Hnx, Hth1. }
  assert (Hir : idle_ready s1 = false).
  { eapply ready_not_idle_ready; [exact Hp1| |exact Hrd]. rewrite Hth1. exact Ht'. }
  destruct (sched_iter_ready f s1 r clk' t Hp1 Hir Ht1 Hrd)
    as (s' & g & t' & e & Hit & Hcur & Hth & Hst & He).
  assert (Hstep : step in_sched m1 =
            Some (mk_machine (mk_globals s' (inited (glob m1))) (CThread g) clk', [e])).
  { unfold step. rewrite Hc1. unfold service_step. fold s1.
    assert (Hbn : 0 < busy_n s1).
    { eapply ready_busy; [exact Hp1| |exact Hrd]. rewrite Hth1. exact Ht'. }
    apply Z.ltb_lt in Hbn. rewrite Hbn, Hclk1, Hclk, Hit. done. }
  eexists _, g, t', e. split.
  { rewrite replicate_S_end.
    apply (run_app _ _ _ _ _ _ _ Hrun1). cbn [run]. rewrite Hstep. done. }
  split; [by eapply step_ok|]. simpl. rewrite <- Hnx, <- Hth1.
  split_and!; try done.
Qed.

(** A thread in control yields: its slot is [RUN], the other slots are as
    before, and control is at the head of a scheduler loop. *)
Lemma yield_pass m g :
  machine_ok m → ctl m = CThread g →
  ∃ m' g' x,
    step do_yield m = Some (m', []) ∧ machine_ok m' ∧ ctl m' = CLoop g' ∧
    clock m' = clock m ∧
    cur_thrd (sched (glob m')) = cur_thrd (sched (glob m)) ∧
    thrds (sched (glob m')) =
      <[Z.to_nat (cur_thrd (sched (glob m))) := x]> (thrds (sched (glob m))) ∧
    state x = RUN.
Proof.
  intros Hok Hc. pose proof Hok as [_ Hm]. rewrite Hc in Hm. destruct Hm as [Hp Hr].
  pose proof Hr as (x & Hx & _).
  destruct (yield_running g ApiIdle RUN _ x Hr Hx) as (pos & g' & _ & Hy).
  assert (Hstep : step do_yield m =
    Some (mk_machine
            (mk_globals
               (set_thrds (<[Z.to_nat (cur_thrd (sched (glob m))) :=
                   set_exe_ctx (JSaved g pos) (set_state RUN x)]> (thrds (sched (glob m))))
                  (sched (glob m))) (inited (glob m)))
            (CLoop g') (clock m), [])).
  { unfold step, do_yield. rewrite Hc. unfold user_call, coop_idle.
    replace (tick_wrap 0) with 0 by (symmetry; apply Zmod_0_l).
    simpl. rewrite Hy. done. }
  eexists _, g', _. split; [exact Hstep|]. split; [by eapply step_ok|]. done.
Qed.

Lemma slot_after_after c k j :
  slot_after (slot_after c k) j = slot_after c (S (k + j)).
Proof.
  pose proof (slot_after_range c k). pose proof MAX_fit.
  unfold slot_after at 1. rewrite uint_small by lia. unfold slot_after.
  rewrite <- Z.add_assoc, Zplus_mod_idemp_l. f_equal. lia.
Qed.

(** The first ready slot after blocked ones is given control and yields:
    its slot is [RUN], no other slot has changed, and control is at the head
    of a scheduler loop. *)
Lemma ready_round k m f t r clk' :
  machine_ok m → ctl m = CLoop f → clock m = r :: clk' →
  (∀ j u, (j < k)%nat →
     thrd_at (thrds (sched (glob m))) (slot_after (cur_thrd (sched (glob m))) j) = Some u →
     blocked u = true) →
  thrd_at (thrds (sched (glob m))) (slot_after (cur_thrd (sched (glob m))) k) = Some t →
  ready t = true →
  ∃ m' g x e,
    run (replicate (S k) in_sched ++ [do_yield]) m = Some (m', [e]) ∧ machine_ok m' ∧
    ctl m' = CLoop g ∧ clock m' = clk' ∧
    cur_thrd (sched (glob m')) = slot_after (cur_thrd (sched (glob m))) k ∧
    thrds (sched (glob m')) =
      <[Z.to_nat (slot_after (cur_thrd (sched (glob m))) k) := x]>
        (thrds (sched (glob m))) ∧
    state x = RUN ∧
    ((state t = NEW ∧ e = ev_enter (slot_after (cur_thrd (sched (glob m))) k)) ∨
     (state t = RUN ∧ ∃ rv, e = ev_resume (slot_after (cur_thrd (sched (glob m))) k) rv)).
Proof.
  intros Hok Hc Hclk Hbl Ht Hrd.
  destruct (ready_after_blocked k m f t r clk' Hok Hc Hclk Hbl Ht Hrd)
    as (m1 & g1 & t' & e & Hrun1 & Hok1 & Hc1 & Hclk1 & Hcur1 & Hth1 & _ & He).
  destruct (yield_pass m1 g1 Hok1 Hc1) as
    (m2 & g2 & x & Hstep2 & Hok2 & Hc2 & Hclk2 & Hcur2 & Hth2 & Hx).
  exists m2, g2, x, e. split.
  { apply (run_app _ [do_yield] _ _ _ _ _ Hrun1). cbn [run]. by rewrite Hstep2. }
  split_and!; try done; [congruence..|].
  by rewrite Hth2, Hcur1, Hth1, list_insert_insert_eq.
Qed.

(** Three ready threads in three slots in a row, after blocked slots, are
    given control in the order of their slots, each one yielding in turn;
    a reading of the clock is used by each dispatch. *)
Lemma three_ready_in_order k m f ta tb tc r1 r2 r3 clk' :
  machine_ok m → ctl m = CLoop f → clock m = r1 :: r2 :: r3 :: clk' →
  (k + 3 ≤ CONFIG_MAX_THREADS)%nat →
  (∀ j u, (j < k)%nat →
     thrd_at (thrds (sched (glob m))) (slot_after (cur_thrd (sched (glob m))) j) = Some u →
     blocked u = true) →
  thrd_at (thrds (sched (glob m))) (slot_after (cur_thrd (sched (glob m))) k) = Some ta →
  thrd_at (thrds (sched (glob m))) (slot_after (cur_thrd (sched (glob m))) (S k)) = Some tb →
  thrd_at (thrds (sched (glob m))) (slot_after (cur_thrd (sched (glob m))) (S (S k)))
    = Some tc →
  ready ta = true → ready tb = true → ready tc = true →
  ∃ m' g ea eb ec xa xb xc,
    run (replicate (S k) in_sched ++ [do_yield; in_sched; do_yield; in_sched]) m
      = Some (m', [ea; eb; ec]) ∧
    machine_ok m' ∧ ctl m' = CThread g ∧ clock m' = clk' ∧
    cur_thrd (sched (glob m')) = slot_after (cur_thrd (sched (glob m))) (S (S k)) ∧
    thrds (sched (glob m')) =
      <[Z.to_nat (slot_after (cur_thrd (sched (glob m))) (S (S k))) := xc]>
        (<[Z.to_nat (slot_after (cur_thrd (sched (glob m))) (S k)) := xb]>
           (<[Z.to_nat (slot_after (cur_thrd (sched (glob m))) k) := xa]>
              (thrds (sched (glob m))))) ∧
    state xa = RUN ∧ state xb = RUN ∧ state xc = state tc ∧
    ((state ta = NEW ∧ ea = ev_enter (slot_after (cur_thrd (sched (glob m))) k)) ∨
     (state ta = RUN ∧ ∃ rv, ea = ev_resume (slot_after (cur_thrd (sched (glob m))) k) rv)) ∧
    ((state tb = NEW ∧ eb = ev_enter (slot_after (cur_thrd (sched (glob m))) (S k))) ∨
     (state tb = RUN ∧
      ∃ rv, eb = ev_resume (slot_after (cur_thrd (sched (glob m))) (S k)) rv)) ∧
    ((state tc = NEW ∧ ec = ev_enter (slot_after (cur_thrd (sched (glob m))) (S (S k)))) ∨
     (state tc = RUN ∧
      ∃ rv, ec = ev_resume (slot_after (cur_thrd (sched (glob m))) (S (S k))) rv)).
Proof.
  intros Hok Hc Hclk HM Hbl Hta Htb Htc Hra Hrb Hrc.
  set (c := cur_thrd (sched (glob m))) in *.
  set (sa := slot_after c k) in *. set (sb := slot_after c (S k)) in *.
  set (sc := slot_after c (S (S k))) in *.
  pose proof (slot_after_range c k) as Hsa. fold sa in Hsa.
  pose proof (slot_after_range c (S k)) as Hsb. fold sb in Hsb.
  pose proof (slot_after_range c (S (S k))) as Hsc. fold sc in Hsc.
  assert (Hab : sa ≠ sb).
  { unfold sa, sb. intros ?%slot_after_inj; unfold MAX; lia. }
  assert (Hac : sa ≠ sc).
  { unfold sa, sc. intros ?%slot_after_inj; unfold MAX; lia. }
  assert (Hbc : sb ≠ sc).
  { unfold sb, sc. intros ?%slot_after_inj; unfold MAX; lia. }
  destruct (ready_round k m f ta r1 (r2 :: r3 :: clk') Hok Hc Hclk Hbl Hta Hra)
    as (m1 & g1 & xa & ea & Hrun1 & Hok1 & Hc1 & Hclk1 & Hcur1 & Hth1 & Hxa & Hea).
  fold c in Hcur1, Hth1, Hea. fold sa in Hcur1, Hth1, Hea.
  assert (Hn1 : slot_after (cur_thrd (sched (glob m1))) 0 = sb).
  { rewrite Hcur1. unfold sa, sb. rewrite slot_after_after. f_equal. lia. }
  assert (Hn1' : slot_after (cur_thrd (sched (glob m1))) 1 = sc).
  { rewrite Hcur1. unfold sa, sc. rewrite slot_after_after. f_equal. lia. }
  assert (Htb1 : thrd_at (thrds (sched (glob m1)))
                   (slot_after (cur_thrd (sched (glob m1))) 0) = Some tb).
  { rewrite Hn1, Hth1, thrd_at_insert_ne by lia. done. }
  destruct (ready_round 0 m1 g1 tb r2 (r3 :: clk') Hok1 Hc1 Hclk1 ltac:(intros; lia)
              Htb1 Hrb)
    as (m2 & g2 & xb & eb & Hrun2 & Hok2 & Hc2 & Hclk2 & Hcur2 & Hth2 & Hxb & Heb).
  rewrite Hn1 in Hcur2, Hth2, Heb.
  assert (Hn2 : slot_after (cur_thrd (sched (glob m2))) 0 = sc).
  { rewrite Hcur2. unfold sb, sc. rewrite slot_after_after. f_equal. lia. }
  assert (Htc2 : thrd_at (thrds (sched (glob m2)))
                   (slot_after (cur_thrd (sched (glob m2))) 0) = Some tc).
  { rewrite Hn2, Hth2, thrd_at_insert_ne by lia.
    rewrite Hth1, thrd_at_insert_ne by lia. done. }
  destruct (ready_after_blocked 0 m2 g2 tc r3 clk' Hok2 Hc2 Hclk2 ltac:(intros; lia)
              Htc2 Hrc)
    as (m3 & g3 & xc & ec & Hrun3 & Hok3 & Hc3 & Hclk3 & Hcur3 & Hth3 & Hxc & Hec).
  rewrite Hn2 in Hcur3, Hth3, Hec.
  exists m3, g3, ea, eb, ec, xa, xb, xc. split.
  { replace (replicate (S k) in_sched ++ [do_yield; in_sched; do_yield; in_sched])
      with ((replicate (S k) in_sched ++ [do_yield]) ++
            (replicate 1 in_sched ++ [do_yield]) ++ replicate 1 in_sched)
      by (by rewrite <- app_assoc).
    apply (run_app _ _ _ _ _ _ [eb; ec] Hrun1).
    by apply (run_app _ _ _ _ _ _ [ec] Hrun2). }
  split_and!; try done. by rewrite Hth3, Hth2, Hth1.
Qed.

(** *** Threads scheduled from program start *)

Lemma sched_first_empty_at p n sz a l : ∀ i t,
  l !! i = Some t → state t = EMPTY →
  (∀ j t', (j < i)%nat → l !! j = Some t' → state t' ≠ EMPTY) →
  sched_first_empty p n sz a l = Some (<[i := sched_slot p n sz a t]> l).
Proof.
  induction l as [|x l IH]; intros i t Hi Ht Hlt; [done|].
  destruct i as [|i]; simpl in *.
  - injection Hi as ->. by rewrite Ht.
  - rewrite bool_decide_eq_false_2 by (apply (Hlt 0%nat); [lia|done]).
    rewrite (IH i t); try done. intros j t' Hj. apply (Hlt (S j)). lia.
Qed.

Lemma sched_init_noop g : inited g = true → _sched_init false g = g.
Proof. intros H. unfold _sched_init. by rewrite H. Qed.

Lemma scheduled_in_order_init cs g :
  scheduled_in_order cs (sched g) → (inited g = false → sched g = zero_sched) →
  scheduled_in_order cs (sched (_sched_init false g)).
Proof.
  intros Hs Hz. unfold _sched_init. destruct (inited g); [done|]. simpl.
  rewrite (Hz eq_refl) in Hs. done.
Qed.

Lemma scheduled_in_order_nil s :
  s = zero_sched ∨ s = set_cur_thrd NO_THRD zero_sched → scheduled_in_order [] s.
Proof.
  intros [-> | ->]; (split_and!; [done|apply length_replicate|]);
    by intros j t [-> _]%lookup_replicate.
Qed.

(** One more call of [coop_sched_thread], from [main], with the first slots
    taken by the calls [qs]: the call succeeds and takes the next slot. *)
Lemma sched_step_in_order c qs m :
  sa_proc c ≠ 0 → (length qs < CONFIG_MAX_THREADS)%nat →
  machine_ok m → ctl m = CMain → scheduled_in_order qs (sched (glob m)) →
  ∃ m', step (sched_call c) m = Some (m', [ev_return (ret_error COOP_SUCCESS)]) ∧
    machine_ok m' ∧ ctl m' = CMain ∧ clock m' = clock m ∧
    scheduled_in_order (qs ++ [c]) (sched (glob m')).
Proof.
  intros Hp Hk Hok Hc Hs.
  pose proof (scheduled_in_order_init _ _ Hs (proj1 Hok)) as (Hb0 & Hlen & Hst).
  destruct Hs as (Hb & _).
  destruct (lookup_lt_is_Some_2 (thrds (sched (_sched_init false (glob m)))) (length qs))
    as [t Ht]; [lia|].
  assert (Hstep : step (sched_call c) m =
    Some (mk_machine
            (mk_globals
               (set_busy_n (uint (busy_n (sched (_sched_init false (glob m))) + 1))
                  (set_thrds (<[length qs :=
                                  sched_slot (sa_proc c) (sa_name c) (sa_stack_sz c)
                                    (sa_arg c) t]>
                                (thrds (sched (_sched_init false (glob m)))))
                     (sched (_sched_init false (glob m)))))
               (inited (_sched_init false (glob m))))
            CMain (clock m), [ev_return (ret_error COOP_SUCCESS)])).
  { unfold step, sched_call. rewrite Hc. unfold user_call, coop_sched_thread.
    apply Z.eqb_neq in Hp. rewrite Hp.
    rewrite (proj2 (Z.leb_gt _ _)) by (unfold MAX; lia).
    rewrite (sched_first_empty_at _ _ _ _ _ (length qs) t Ht); [done| |].
    - specialize (Hst _ _ Ht). by rewrite lookup_ge_None_2 in Hst by lia.
    - intros j t' Hj Ht'. specialize (Hst _ _ Ht').
      destruct (lookup_lt_is_Some_2 qs j Hj) as [q Hq]. rewrite Hq in Hst.
      destruct Hst as [-> _]. done. }
  eexists. split; [exact Hstep|]. split; [by eapply step_ok|]. simpl.
  split_and!; try done. unfold scheduled_in_order. simpl. split_and!.
  - pose proof MAX_fit. unfold MAX in *. rewrite Hb0, uint_small by lia.
    rewrite length_app. simpl. lia.
  - by rewrite length_insert.
  - intros j u Hj. destruct (decide (j = length qs)) as [->|Hne].
    + rewrite list_lookup_insert_eq in Hj by lia. injection Hj as <-.
      rewrite lookup_app_r, Nat.sub_diag by lia. done.
    + rewrite list_lookup_insert_ne in Hj by done. specialize (Hst _ _ Hj).
      destruct (decide (j < length qs)%nat).
      * by rewrite lookup_app_l by done.
      * rewrite lookup_ge_None_2 in Hst by lia.
        rewrite lookup_ge_None_2; [done|]. rewrite length_app. simpl. lia.
Qed.

Lemma sched_many_in_order cs : ∀ qs m,
  Forall (λ c, sa_proc c ≠ 0) cs → (length qs + length cs ≤ CONFIG_MAX_THREADS)%nat →
  machine_ok m → ctl m = CMain → scheduled_in_order qs (sched (glob m)) →
  ∃ m', run (sched_call <$> cs) m =
          Some (m', (λ _, ev_return (ret_error COOP_SUCCESS)) <$> cs) ∧
    machine_ok m' ∧ ctl m' = CMain ∧ clock m' = clock m ∧
    scheduled_in_order (qs ++ cs) (sched (glob m')).
Proof.
  induction cs as [|c cs IH]; intros qs m Hcs Hlen Hok Hc Hs.
  - exists m. rewrite app_nil_r. done.
  - apply Forall_cons in Hcs as [Hp Hcs]. simpl in Hlen.
    destruct (sched_step_in_order c qs m Hp ltac:(lia) Hok Hc Hs)
      as (m1 & Hstep & Hok1 & Hc1 & Hclk1 & Hs1).
    destruct (IH (qs ++ [c]) m1 Hcs) as (m' & Hrun & Hok' & Hc' & Hclk' & Hs');
      try done.
    { rewrite length_app. simpl. lia. }
    exists m'. rewrite fmap_cons. cbn [run]. rewrite Hstep. cbn [mbind option_bind].
    rewrite Hrun. simpl. rewrite <- app_assoc in Hs'. split_and!; try done. congruence.
Qed.

Lemma dispatched_returns {A} (l : list A) r :
  dispatched ((λ _, ev_return r) <$> l) = [].
Proof. by induction l. Qed.

(** The calls [cs] are made from program start and [coop_sched_service] is
    called: its loop begins with no slot selected. *)
Lemma scheduled_then_service cs clk :
  Forall (λ c, sa_proc c ≠ 0) cs → (0 < length cs ≤ CONFIG_MAX_THREADS)%nat →
  ∃ m, run ((sched_call <$> cs) ++ [do_service]) (init clk) =
         Some (m, (λ _, ev_return (ret_error COOP_SUCCESS)) <$> cs) ∧
    machine_ok m ∧ ctl m = CLoop 0 ∧ clock m = clk ∧
    cur_thrd (sched (glob m)) = NO_THRD ∧
    scheduled_in_order cs (sched (glob m)).
Proof.
  intros Hcs Hlen.
  destruct (sched_many_in_order cs [] (init clk) Hcs)
    as (m0 & Hrun0 & Hok0 & Hc0 & Hclk0 & Hs0);
    [simpl; lia|apply init_ok|done|apply scheduled_in_order_nil; by left|].
  rewrite app_nil_l in Hs0. simpl in Hclk0.
  assert (Hreach0 : reachable m0).
  { eapply run_reachable; [apply reach_init|exact Hrun0]. }
  assert (Hstep : step do_service m0 =
            Some (mk_machine (glob m0) (CLoop 0) (clock m0), [])).
  { unfold step, do_service. by rewrite Hc0. }
  exists (mk_machine (glob m0) (CLoop 0) (clock m0)). split.
  { pose proof (run_app _ [do_service] _ _
                  (mk_machine (glob m0) (CLoop 0) (clock m0)) _ [] Hrun0) as Happ.
    rewrite app_nil_r in Happ. apply Happ. cbn [run]. by rewrite Hstep. }
  split; [by eapply step_ok|]. simpl. split_and!; try done.
  apply (main_cur_thrd m0 Hreach0 Hc0).
  destruct (inited (glob m0)) eqn:E; [done|].
  destruct Hs0 as (Hb & _). rewrite (proj1 Hok0 E) in Hb. simpl in Hb. lia.
Qed.

(** A, B and C are given control in the order in which they were scheduled,
    first when they are entered and again when they are resumed, whatever
    the clock reads. *)
Lemma abc_order a b c clk :
  3 ≤ MAX → sa_proc a ≠ 0 → sa_proc b ≠ 0 → sa_proc c ≠ 0 → (3 ≤ length clk)%nat →
  ∃ m evs,
    run (abc_inputs a b c) (init clk) = Some (m, evs) ∧
    dispatched evs = [0; 1; 2] ∧ entered evs = [0; 1; 2] ∧ resumed evs = [] ∧
    clock m = drop 3 clk ∧
    ((3 ≤ length (clock m))%nat →
     ∃ m' evs',
       run abc_resumes m = Some (m', evs') ∧
       dispatched evs' = [0; 1; 2] ∧ resumed evs' = [0; 1; 2] ∧ entered evs' = [] ∧
       clock m' = drop 6 clk).
Proof.
  intros HM Ha Hb Hc Hn. unfold MAX in HM.
  destruct clk as [|r1 [|r2 [|r3 clk1]]]; simpl in Hn; try lia.
  destruct (scheduled_then_service [a; b; c] (r1 :: r2 :: r3 :: clk1))
    as (m0 & Hrun0 & Hok0 & Hc0 & Hclk0 & Hcur0 & Hb0 & Hlen0 & Hst0).
  { by repeat constructor. } { simpl. lia. }
  assert (Hsl0 : ∀ j : nat, (j < 3)%nat → slot_after (cur_thrd (sched (glob m0))) j = Z.of_nat j).
  { intros j Hj. rewrite Hcur0, slot_after_NO_THRD. apply Z.mod_small. unfold MAX. lia. }
  assert (Hnew : ∀ j : nat, (j < 3)%nat →
            ∃ t, thrd_at (thrds (sched (glob m0))) (Z.of_nat j) = Some t ∧ state t = NEW).
  { intros j Hj. destruct (lookup_lt_is_Some_2 (thrds (sched (glob m0))) j) as [t Ht]; [lia|].
    exists t. split; [apply thrd_at_nat; done|]. specialize (Hst0 _ _ Ht).
    destruct j as [|[|[|j]]]; simpl in Hst0; try lia; by destruct Hst0. }
  assert (Hfree : ∀ j u, (3 ≤ j)%nat → thrds (sched (glob m0)) !! j = Some u → state u = EMPTY).
  { intros j u Hj Hu. specialize (Hst0 _ _ Hu).
    by rewrite lookup_ge_None_2 in Hst0 by (simpl; lia). }
  destruct (Hnew 0%nat) as (ta & Hta & Hsa); [lia|].
  destruct (Hnew 1%nat) as (tb & Htb & Hsb); [lia|].
  destruct (Hnew 2%nat) as (tc & Htc & Hsc); [lia|].
  assert (S0 : slot_after (cur_thrd (sched (glob m0))) 0 = 0)
    by (apply (Hsl0 0%nat); lia).
  assert (S1 : slot_after (cur_thrd (sched (glob m0))) 1 = 1)
    by (apply (Hsl0 1%nat); lia).
  assert (S2 : slot_after (cur_thrd (sched (glob m0))) 2 = 2)
    by (apply (Hsl0 2%nat); lia).
  change (Z.of_nat 0) with 0 in Hta. change (Z.of_nat 1) with 1 in Htb.
  change (Z.of_nat 2) with 2 in Htc.
  destruct (three_ready_in_order 0 m0 0 ta tb tc r1 r2 r3 clk1 Hok0 Hc0 Hclk0)
    as (m1 & g1 & ea & eb & ec & xa & xb & xc & Hrun1 & Hok1 & Hc1 & Hclk1 & Hcur1 &
        Hth1 & Hxa & Hxb & Hxc & Hea & Heb & Hec);
    [lia|intros; lia|by rewrite ?S0, ?S1, ?S2..|
     unfold ready; by rewrite Hsa|unfold ready; by rewrite Hsb|
     unfold ready; by rewrite Hsc|].
  rewrite S2 in Hcur1, Hec. rewrite S0, S1, S2 in Hth1. rewrite S0 in Hea.
  rewrite S1 in Heb.
  destruct Hea as [[_ ->]|[Hea _]]; [|congruence].
  destruct Heb as [[_ ->]|[Heb _]]; [|congruence].
  destruct Hec as [[_ ->]|[Hec _]]; [|congruence].
  exists m1. eexists. split.
  { change (abc_inputs a b c) with
      (((sched_call <$> [a; b; c]) ++ [do_service]) ++
       (replicate 1 in_sched ++ [do_yield; in_sched; do_yield; in_sched])).
    exact (run_app _ _ _ _ _ _ _ Hrun0 Hrun1). }
  split_and!; try done.
  intros Hn1. rewrite Hclk1 in Hn1.
  destruct clk1 as [|r4 [|r5 [|r6 clk2]]]; simpl in Hn1; try lia.
  destruct (yield_pass m1 g1 Hok1 Hc1) as
    (m2 & g2 & x & Hstep2 & Hok2 & Hc2 & Hclk2 & Hcur2 & Hth2 & Hx).
  rewrite Hcur1 in Hcur2, Hth2. rewrite Hclk1 in Hclk2.
  simpl in Hth1, Hth2.
  assert (H0 : thrd_at (thrds (sched (glob m2))) 0 = Some xa).
  { rewrite Hth2, Hth1. rewrite !(thrd_at_insert_ne _ _ 0) by lia.
    by apply (thrd_at_insert_eq _ 0 ta). }
  assert (H1 : thrd_at (thrds (sched (glob m2))) 1 = Some xb).
  { rewrite Hth2, Hth1. rewrite !(thrd_at_insert_ne _ 2 1) by lia.
    apply (thrd_at_insert_eq _ 1 tb). by rewrite (thrd_at_insert_ne _ 0 1) by lia. }
  assert (H2 : thrd_at (thrds (sched (glob m2))) 2 = Some x).
  { rewrite Hth2. apply (thrd_at_insert_eq _ 2 xc). rewrite Hth1.
    apply (thrd_at_insert_eq _ 2 tc).
    by rewrite (thrd_at_insert_ne _ 1 2), (thrd_at_insert_ne _ 0 2) by lia. }
  assert (Hrest : ∀ i u, 3 ≤ i → thrd_at (thrds (sched (glob m2))) i = Some u → state u = EMPTY).
  { intros i u Hi Hu. rewrite Hth2, Hth1 in Hu.
    rewrite !(thrd_at_insert_ne _ 2 i), (thrd_at_insert_ne _ 1 i),
      (thrd_at_insert_ne _ 0 i) in Hu by lia.
    apply thrd_at_Some in Hu as [_ Hu]. apply (Hfree (Z.to_nat i) u); [lia|done]. }
  set (k := (CONFIG_MAX_THREADS - 3)%nat).
  assert (Hsl2 : ∀ j : nat, slot_after (cur_thrd (sched (glob m2))) j = (3 + Z.of_nat j) mod MAX).
  { intros j. rewrite Hcur2, slot_after_in_pool by (unfold MAX; lia). done. }
  assert (Hsl2k : ∀ i : nat, (i < 3)%nat → slot_after (cur_thrd (sched (glob m2))) (k + i) = Z.of_nat i).
  { intros i Hi. rewrite Hsl2.
    replace (3 + Z.of_nat (k + i)) with (Z.of_nat i + 1 * MAX) by (unfold k, MAX; lia).
    rewrite Z_mod_plus_full. apply Z.mod_small. unfold MAX. lia. }
  destruct (three_ready_in_order k m2 g2 xa xb x r4 r5 r6 clk2 Hok2 Hc2 Hclk2)
    as (m3 & g3 & ea & eb & ec & ya & yb & yc & Hrun3 & Hok3 & Hc3 & Hclk3 & _ &
        _ & _ & _ & _ & Hea & Heb & Hec).
  { unfold k. lia. }
  { intros j u Hj Hu. rewrite Hsl2 in Hu.
    rewrite Z.mod_small in Hu by (unfold k, MAX in *; lia).
    unfold blocked. rewrite (Hrest (3 + Z.of_nat j) u); [done|lia|done]. }
  { rewrite <- (Nat.add_0_r k), Hsl2k by lia. done. }
  { replace (S k) with (k + 1)%nat by lia. rewrite Hsl2k by lia. done. }
  { replace (S (S k)) with (k + 2)%nat by lia. rewrite Hsl2k by lia. done. }
  { unfold ready. by rewrite Hxa. }
  { unfold ready. by rewrite Hxb. }
  { unfold ready. by rewrite Hx. }
  replace (S (S k)) with (k + 2)%nat in Hec by lia.
  replace (S k) with (k + 1)%nat in Heb by lia.
  rewrite <- (Nat.add_0_r k) in Hea. rewrite Hsl2k in Hea, Heb, Hec by lia.
  destruct Hea as [[Hea _]|[_ [rva ->]]]; [congruence|].
  destruct Heb as [[Heb _]|[_ [rvb ->]]]; [congruence|].
  destruct Hec as [[Hec _]|[_ [rvc ->]]]; [congruence|].
  exists m3. eexists. split.
  { change abc_resumes with
      ([do_yield] ++
       (replicate (S k) in_sched ++ [do_yield; in_sched; do_yield; in_sched])).
    refine (run_app [do_yield] _ m1 m2 m3 [] _ _ Hrun3).
    cbn [run]. by rewrite Hstep2. }
  split_and!; done.
Qed.

(** *** The slot selected by a pass *)

Lemma sched_run_cur f s clk s' c clk' evs :
  sched_run f s clk = Some (s', c, clk', evs) →
  cur_thrd s' = cur_thrd s ∧ (dispatched evs = [] ∨ dispatched evs = [cur_thrd s]).
Proof.
  unfold sched_run, thrd_upd.
  destruct (coop_tick_cb clk) as [[tick clk1]|]; [|done]. simpl.
  destruct (thrd_at (thrds s) (cur_thrd s)) as [x|]; [|done]. simpl.
  destruct (thrd_at _ _) as [t|]; [|done]. simpl.
  destruct (exe_ctx t) as [|g [| |a|a]]; simpl; try done.
  - intros [= <- <- <- <-]. eauto.
  - intros [= <- <- <- <-]. eauto.
  - destruct (api_epilogue a _); [|done]. simpl. intros [= <- <- <- <-]. eauto.
  - destruct (api_epilogue a _); [|done]. simpl. intros [= <- <- <- <-]. eauto.
Qed.

Lemma idle_events_dispatch evs :
  (∀ e, e ∈ evs → ∃ ticks, e = ev_idle_cb ticks) → dispatched evs = [].
Proof.
  induction evs as [|e evs IH]; [done|]. intros H.
  destruct (H e) as [ticks ->]; [left|]. simpl. apply IH.
  intros e' He'. apply H. by right.
Qed.

(** Every pass of the loop selects the slot after [cur_thrd], and no other
    slot is given control in it. *)
Lemma sched_iter_cur f s clk s' c clk' evs :
  sched_iter f s clk = Some (s', c, clk', evs) → pool_ok None s →
  cur_thrd s' = next_thrd (cur_thrd s) ∧
  (dispatched evs = [] ∨ dispatched evs = [next_thrd (cur_thrd s)]).
Proof.
  unfold sched_iter. fold (next_thrd (cur_thrd s)). intros Ei Hp.
  assert (Hp0 : pool_ok None (set_cur_thrd (next_thrd (cur_thrd s)) s))
    by (by eapply pool_ok_scalars).
  destruct (_system_idle _ _) as [[[s2 clk2] evs2]|] eqn:Eidle; [|done].
  destruct (system_idle_loop_ok _ _ _ _ _ _ _ Eidle Hp0) as (_ & Hcur & _).
  destruct (system_idle_loop_rel _ _ _ _ _ _ _ Eidle Hp0) as [_ Hev%idle_events_dispatch].
  simpl in Hcur, Ei.
  assert (Hrun : ∀ s3 clk3 r, cur_thrd s3 = cur_thrd s2 →
            ('(s4, c4, clk4, evs4) ← sched_run f s3 clk3; Some (s4, c4, clk4, evs2 ++ evs4))
              = Some r →
            cur_thrd r.1.1.1 = next_thrd (cur_thrd s) ∧
            (dispatched r.2 = [] ∨ dispatched r.2 = [next_thrd (cur_thrd s)])).
  { intros s3 clk3 r Hc3 Er.
    destruct (sched_run f s3 clk3) as [[[[s4 c4] clk4] evs4]|] eqn:Es; [|done].
    injection Er as <-. simpl. apply sched_run_cur in Es as [Hc4 Hd4].
    rewrite dispatched_app, Hev, Hc4, Hc3, Hcur. simpl.
    split; [done|]. rewrite Hc3, Hcur in Hd4. done. }
  destruct (thrd_at _ _) as [t|]; [|done]. simpl in Ei.
  destruct (state t).
  - injection Ei as <- <- <- <-. eauto.
  - injection Ei as <- <- <- <-. eauto.
  - unfold thrd_upd in Ei.
    repeat (match type of Ei with
            | context [thrd_at ?l ?i] => destruct (thrd_at l i); simpl in Ei; [|done]
            | context [coop_tick_cb ?k] =>
                destruct (coop_tick_cb k) as [[? ?]|]; simpl in Ei; [|done]
            end).
    injection Ei as <- <- <- <-. simpl. rewrite dispatched_app, Hev, Hcur. eauto.
  - by apply (Hrun _ _ _ eq_refl) in Ei.
  - destruct (coop_tick_cb _) as [[? ?]|]; [|done]. simpl in Ei.
    destruct (negb _); [injection Ei as <- <- <- <-; eauto|].
    unfold thrd_upd in Ei. destruct (thrd_at _ _); [|done]. simpl in Ei.
    by apply Hrun in Ei.
  - destruct (inf t); [injection Ei as <- <- <- <-; eauto|].
    destruct (coop_tick_cb _) as [[? ?]|]; [|done]. simpl in Ei.
    destruct (negb _); [injection Ei as <- <- <- <-; eauto|].
    unfold thrd_upd in Ei. destruct (thrd_at _ _); [|done]. simpl in Ei.
    by apply Hrun in Ei.
Qed.

(** C5. Dispatch is round-robin.  Every pass of the service loop first
    advances [cur_thrd] to the next slot, [(cur_thrd + 1) mod MAX] (slot 0
    from [(unsigned)-1]), and gives control to no other slot; a thread that
    yields leaves [cur_thrd] as it is, so that the loop it returns to, or the
    recursive call it makes, goes on with the slot after it.

    Tie-breaking, for any readings [rs] of the clock: with the [k] slots
    after [cur_thrd] in cyclic order not eligible at these readings and the
    next one eligible at them, that one is given control first, after [k]
    passes that give control to nobody (a pass reads the clock at most three
    times).  In particular, whatever the clock reads, with the [k] slots
    after [cur_thrd] blocked (free, a hole, or waiting with no timeout) and
    the next one ready (not yet entered, or runnable), that one is given
    control first, and the clock is read once.

    Three threads A, B, C scheduled in that order from program start, with
    any names, stack sizes and arguments, each yielding whenever it gets
    control, are given control in the order of their slots 0, 1, 2, whatever
    the clock reads: they are entered in that order, and when the dispatcher
    comes round they are resumed in that order. *)
Theorem round_robin_dispatch :
  (∀ m f m' evs,
     reachable m → ctl m = CLoop f → 0 < busy_n (sched (glob m)) →
     step in_sched m = Some (m', evs) →
     cur_thrd (sched (glob m')) = next_thrd (cur_thrd (sched (glob m))) ∧
     (dispatched evs = [] ∨
      dispatched evs = [next_thrd (cur_thrd (sched (glob m)))])) ∧
  (∀ c, 0 ≤ c < MAX → next_thrd c = (c + 1) mod MAX) ∧
  next_thrd NO_THRD = 0 ∧
  (∀ c j, 0 ≤ c < MAX → slot_after c j = (c + 1 + Z.of_nat j) mod MAX) ∧
  (∀ j, slot_after NO_THRD j = Z.of_nat j mod MAX) ∧
  (∀ m g,
     reachable m → ctl m = CThread g →
     ∃ m' g', step do_yield m = Some (m', []) ∧ ctl m' = CLoop g' ∧
       cur_thrd (sched (glob m')) = cur_thrd (sched (glob m))) ∧
  (∀ m f k t rs rest,
     reachable m → ctl m = CLoop f → clock m = rs ++ rest → (3 * S k ≤ length rs)%nat →
     (∀ j u r, (j < k)%nat →
        thrd_at (thrds (sched (glob m))) (slot_after (cur_thrd (sched (glob m))) j) = Some u →
        r ∈ rs → eligible (tick_wrap r) u = false) →
     thrd_at (thrds (sched (glob m))) (slot_after (cur_thrd (sched (glob m))) k) = Some t →
     (∀ r, r ∈ rs → eligible (tick_wrap r) t = true) →
     ∃ m' evs g,
       run (replicate (S k) in_sched) m = Some (m', evs) ∧ ctl m' = CThread g ∧
       dispatched evs = [slot_after (cur_thrd (sched (glob m))) k] ∧
       cur_thrd (sched (glob m')) = slot_after (cur_thrd (sched (glob m))) k) ∧
  (∀ m f k t r clk',
     reachable m → ctl m = CLoop f → clock m = r :: clk' →
     (∀ j u, (j < k)%nat →
        thrd_at (thrds (sched (glob m))) (slot_after (cur_thrd (sched (glob m))) j) = Some u →
        blocked u = true) →
     thrd_at (thrds (sched (glob m))) (slot_after (cur_thrd (sched (glob m))) k) = Some t →
     ready t = true →
     ∃ m' e g,
       run (replicate (S k) in_sched) m = Some (m', [e]) ∧ ctl m' = CThread g ∧
       clock m' = clk' ∧
       dispatched [e] = [slot_after (cur_thrd (sched (glob m))) k] ∧
       cur_thrd (sched (glob m')) = slot_after (cur_thrd (sched (glob m))) k) ∧
  (3 ≤ MAX →
   ∀ a b c clk,
     sa_proc a ≠ 0 → sa_proc b ≠ 0 → sa_proc c ≠ 0 → (3 ≤ length clk)%nat →
     ∃ m evs,
       run (abc_inputs a b c) (init clk) = Some (m, evs) ∧
       dispatched evs = [0; 1; 2] ∧ entered evs = [0; 1; 2] ∧ resumed evs = [] ∧
       clock m = drop 3 clk ∧
       ((3 ≤ length (clock m))%nat →
        ∃ m' evs',
          run abc_resumes m = Some (m', evs') ∧
          dispatched evs' = [0; 1; 2] ∧ resumed evs' = [0; 1; 2] ∧ entered evs' = [] ∧
          clock m' = drop 6 clk)).
Proof.
  split_and!.
  - intros m f m' evs Hr Hc Hb Hs. apply reachable_ok in Hr as [_ Hm].
    rewrite Hc in Hm. destruct Hm as [Hp _].
    unfold step in Hs. rewrite Hc in Hs. unfold service_step in Hs.
    apply Z.ltb_lt in Hb. rewrite Hb in Hs.
    destruct (sched_iter _ _ _) as [[[[s' c] clk'] evs']|] eqn:Ei; [|done].
    injection Hs as <- <-. simpl. by eapply sched_iter_cur.
  - apply next_thrd_in_pool.
  - apply next_thrd_NO_THRD.
  - intros. by apply slot_after_in_pool.
  - apply slot_after_NO_THRD.
  - intros m g Hr Hc.
    destruct (yield_pass m g (reachable_ok _ Hr) Hc) as
      (m' & g' & x & Hs & _ & Hc' & _ & Hcur & _).
    eauto.
  - intros m f k t rs rest Hr Hc Hclk Hn Hskip Ht He.
    destruct (first_eligible_runs k m f rs rest t (reachable_ok _ Hr) Hc Hclk Hn Hskip Ht He)
      as (m' & evs & g & used & rs' & Hrun & _ & Hc' & _ & _ & _ & Hd & Hcur).
    eauto 10.
  - intros m f k t r clk' Hr Hc Hclk Hbl Ht Hrd.
    destruct (ready_after_blocked k m f t r clk' (reachable_ok _ Hr) Hc Hclk Hbl Ht Hrd)
      as (m' & g & t' & e & Hrun & _ & Hc' & Hclk' & Hcur & _ & _ & He).
    exists m', e, g. split_and!; try done.
    by destruct He as [[_ ->]|[_ [rv ->]]].
  - intros HM a b c clk. by apply abc_order.
Qed.

End RoundRobin.

Section Bounds.
Context `{cfg : Config}.

(** ** Counters and recursion depth *)

Lemma live_depths_count l : Z.of_nat (length (live_depths l)) = count_state live l.
Proof.
  induction l as [|t l IH]; [done|]. simpl.
  destruct (live (state t)); simpl; lia.
Qed.

Lemma count_busy_split l :
  count_state busy l = count_state live l + count_state is_new l.
Proof.
  induction l as [|t l IH]; [done|]. simpl. rewrite IH.
  destruct (state t); simpl; lia.
Qed.

Lemma mode_pool_ok c s : mode_ok c s → ∃ r, pool_ok r s.
Proof. destruct c; simpl; intros [? ?]; eauto. Qed.

(** The depth of the scheduler against the number of live slots. *)
Lemma mode_depth c s :
  mode_ok c s →
  (match c with CThread _ => False | _ => True end →
   sched_depth s = count_state live (thrds s)) ∧
  count_state live (thrds s) ≤ sched_depth s ∧
  sched_depth s + count_state is_new (thrds s) ≤ count_state busy (thrds s) + 1 ∧
  sched_depth s ≤ count_state busy (thrds s).
Proof.
  rewrite count_busy_split, <- live_depths_count.
  pose proof (count_state_range is_new (thrds s)) as Hn.
  destruct c as [|f|f]; simpl.
  - intros (_ & -> & Hd). unfold depths_ok in Hd.
    apply Permutation_length in Hd. rewrite Hd. simpl. lia.
  - intros (_ & Hf & Hd). apply depths_ok_length in Hd; lia.
  - intros (Hp & x & Hx & [(Hs & _ & Hf & _ & Hd)|(Hs & Hdx & _ & Hd)]).
    + apply depths_ok_length in Hd; [|lia].
      destruct (pool_lookup_cur _ _ _ Hx) as [Hx' _].
      pose proof (count_state_pos is_new _ _ _ Hx') as H1.
      unfold is_new in H1 at 1. rewrite Hs in H1. specialize (H1 eq_refl).
      split; [done|]. lia.
    + pose proof (running_depth _ _ Hx Hs Hd).
      apply depths_ok_length in Hd; [|lia]. split; [done|]. lia.
Qed.

(** X1. In every reachable state the pool has [CONFIG_MAX_THREADS] slots and
    no counter has wrapped: the holes and the idle threads are disjoint sets
    of busy slots, at most [CONFIG_MAX_THREADS] slots are busy, and
    [sched.depth] is at most [busy_n]; between two passes of the loop
    [sched.depth] is [busy_n] less the number of threads not yet entered. *)
Theorem counters_in_range m :
  reachable m →
  let s := sched (glob m) in
  length (thrds s) = CONFIG_MAX_THREADS ∧
  0 ≤ hole_n s ∧ 0 ≤ idle_n s ∧ hole_n s + idle_n s ≤ busy_n s ∧ busy_n s ≤ MAX ∧
  0 ≤ sched_depth s ≤ busy_n s ∧
  (between_iterations m →
   sched_depth s = busy_n s - count_state is_new (thrds s)).
Proof.
  intros Hr s. destruct (reachable_ok _ Hr) as [_ Hm]. fold s in Hm.
  destruct (mode_pool_ok _ _ Hm) as (r & Hlen & (Hb & Hh & Hi) & _).
  destruct (mode_depth _ _ Hm) as (Heq & Hlive & _ & Hle).
  pose proof (count_state_range busy (thrds s)).
  pose proof (count_state_range is_hole (thrds s)).
  pose proof (count_state_range _IS_IDLE (thrds s)).
  pose proof (count_state_range live (thrds s)).
  pose proof (count_idle_le_active (thrds s)).
  unfold MAX. split_and!; try lia.
  unfold between_iterations. intros Hbt. rewrite Hb, count_busy_split.
  rewrite Heq; [lia|]. by destruct (ctl m).
Qed.

(** X2. The calls of [coop_sched_service] nest as deep as [sched.depth]: at
    the loop head of frame [f] (0 for the call made by [main]) [sched.depth]
    is [f], which never exceeds [CONFIG_MAX_THREADS]; a thread in control
    was called from a frame below [sched.depth]; and the loop condition
    [busy_n > 0] only fails in the frame of [main], so that no recursive call
    ever returns into the thread that made it. *)
Theorem service_recursion_depth m f :
  reachable m →
  let s := sched (glob m) in
  (ctl m = CLoop f →
     sched_depth s = Z.of_nat f ∧ Z.of_nat f ≤ MAX ∧
     (busy_n s = 0 → f = 0%nat) ∧
     ((0 < f)%nat → 0 < busy_n s)) ∧
  (ctl m = CThread f →
     Z.of_nat f < sched_depth s ≤ MAX ∧ 0 < busy_n s).
Proof.
  intros Hr s. pose proof (reachable_ok _ Hr) as [_ Hm]. fold s in Hm.
  destruct (mode_pool_ok _ _ Hm) as (r & Hlen & (Hb & _) & _).
  destruct (mode_depth _ _ Hm) as (_ & _ & _ & Hle).
  pose proof (count_state_range busy (thrds s)). unfold MAX.
  split; intros Hc; rewrite Hc in Hm; simpl in Hm.
  - destruct Hm as (_ & Hf & _).
    assert (H0 : busy_n s = 0 → f = 0%nat) by (by apply service_exit_frame).
    split_and!; try done; try lia.
  - destruct Hm as (_ & x & Hx & [(Hs & _ & Hf & _)|(Hs & Hdx & _ & Hd)]).
    + lia.
    + pose proof (running_depth _ _ Hx Hs Hd). lia.
Qed.

End Bounds.

Section Capacity.
Context `{cfg : Config}.

(** ** The capacity of the pool *)

(** X3. The pool holds exactly [CONFIG_MAX_THREADS] threads.  From program
    start, up to that many calls of [coop_sched_thread] with a non-null
    routine, whatever the names, stack sizes and arguments, all succeed and
    fill the slots in index order, one thread per call, each slot holding
    the routine, name, stack size (the default one for 0) and argument of
    its call; with the pool full, a further call returns [COOP_ERR_LIMIT]
    (or [COOP_INV_ARG] for a null routine) and changes nothing. *)
Theorem pool_capacity cs clk :
  Forall (λ c, sa_proc c ≠ 0) cs → (length cs ≤ CONFIG_MAX_THREADS)%nat →
  ∃ m, run (sched_call <$> cs) (init clk) =
         Some (m, (λ _, ev_return (ret_error COOP_SUCCESS)) <$> cs) ∧
    scheduled_in_order cs (sched (glob m)) ∧
    (length cs = CONFIG_MAX_THREADS →
     ∀ p n sz a,
       coop_sched_thread p n sz a (glob m) =
         (if p =? 0 then COOP_INV_ARG else COOP_ERR_LIMIT, glob m)).
Proof.
  intros Hcs Hlen.
  destruct (sched_many_in_order cs [] (init clk) Hcs) as (m & Hrun & _ & _ & _ & Hs);
    [simpl; lia|apply init_ok|done|apply scheduled_in_order_nil; by left|
     rewrite app_nil_l in Hs].
  exists m. split_and!; try done.
  intros Hfull p n sz a. unfold coop_sched_thread.
  destruct (p =? 0); [done|]. destruct Hs as (Hb & _).
  rewrite (proj2 (Z.leb_le _ _)); [done|]. unfold MAX. lia.
Qed.

End Capacity.

Section Notify.
Context `{cfg : Config}.

(** ** Notifications compose *)

Lemma wakes_same a b t : wakes a t = true → wakes b t = true → a = b.
Proof.
  unfold wakes. intros [_ Ha%Z.eqb_eq]%andb_true_iff [_ Hb%Z.eqb_eq]%andb_true_iff.
  congruence.
Qed.

Lemma notify_each_idem a l : notify_each a (notify_each a l) = notify_each a l.
Proof.
  induction l as [|t l IH]; [done|]. simpl.
  destruct (wakes a t) eqn:E; simpl; rewrite ?E, IH; done.
Qed.

Lemma notify_first_each a l : notify_first a (notify_each a l) = notify_each a l.
Proof.
  induction l as [|t l IH]; [done|]. simpl.
  destruct (wakes a t) eqn:E; simpl; rewrite ?E, IH; done.
Qed.

Lemma notify_each_first a l : notify_each a (notify_first a l) = notify_each a l.
Proof.
  induction l as [|t l IH]; [done|]. simpl.
  destruct (wakes a t) eqn:E; simpl; rewrite ?E, ?IH; done.
Qed.

Lemma notify_first_comm a b l :
  notify_first a (notify_first b l) = notify_first b (notify_first a l).
Proof.
  induction l as [|t l IH]; [done|]. simpl.
  destruct (wakes a t) eqn:Ea, (wakes b t) eqn:Eb; simpl; rewrite ?Ea, ?Eb, ?IH; try done.
  by rewrite (wakes_same a b t Ea Eb).
Qed.

Lemma notify_each_comm a b l :
  notify_each a (notify_each b l) = notify_each b (notify_each a l).
Proof.
  induction l as [|t l IH]; [done|]. simpl.
  destruct (wakes a t) eqn:Ea, (wakes b t) eqn:Eb; simpl; rewrite ?Ea, ?Eb, ?IH; done.
Qed.

Lemma notify_first_each_comm a b l :
  notify_first a (notify_each b l) = notify_each b (notify_first a l).
Proof.
  induction l as [|t l IH]; [done|]. simpl.
  destruct (wakes a t) eqn:Ea, (wakes b t) eqn:Eb; simpl; rewrite ?Ea, ?Eb, ?IH; try done.
  rewrite (wakes_same a b t Ea Eb). by rewrite notify_each_first.
Qed.

(** A notification that finds a waiter takes one thread out of [WAIT]. *)
Lemma notify_first_waiters a l i t :
  l !! i = Some t → wakes a t = true →
  count_state _IS_WAIT (notify_first a l) = count_state _IS_WAIT l - 1.
Proof.
  revert i. induction l as [|u l IH]; intros i Hi Ht; [done|]. simpl.
  destruct (wakes a u) eqn:E.
  - unfold wakes in E. apply andb_true_iff in E as [->%bool_decide_eq_true _].
    simpl. lia.
  - destruct i as [|i]; simpl in Hi; [congruence|]. simpl. rewrite (IH i); [lia|done..].
Qed.

(** X4. How notifications compose.  [coop_notify_all] is idempotent and
    absorbs [coop_notify] on the same semaphore id, before or after it;
    notifications commute with one another, whatever their ids.  A
    [coop_notify] that finds a waiter takes exactly one thread out of
    [WAIT], so repeated calls wake the waiters one at a time. *)
Theorem notify_compose (s : coop_sched_ctx_t) a b :
  coop_notify_all a (coop_notify_all a s) = coop_notify_all a s ∧
  coop_notify a (coop_notify_all a s) = coop_notify_all a s ∧
  coop_notify_all a (coop_notify a s) = coop_notify_all a s ∧
  coop_notify a (coop_notify b s) = coop_notify b (coop_notify a s) ∧
  coop_notify_all a (coop_notify_all b s) = coop_notify_all b (coop_notify_all a s) ∧
  coop_notify a (coop_notify_all b s) = coop_notify_all b (coop_notify a s) ∧
  (∀ i t, thrds s !! i = Some t → wakes a t = true →
     count_state _IS_WAIT (thrds (coop_notify a s)) = count_state _IS_WAIT (thrds s) - 1).
Proof.
  unfold coop_notify, coop_notify_all. destruct s as [c bn hn i d e l]. simpl.
  unfold set_thrds. simpl.
  rewrite notify_each_idem, notify_first_each, notify_each_first,
    (notify_first_comm a b), (notify_each_comm a b), (notify_first_each_comm a b).
  split_and!; try done. apply notify_first_waiters.
Qed.

End Notify.

Section IdleCall.
Context `{cfg : Config}.

(** ** [coop_idle] *)

(** [_yield] in a thread in control: the first yield of a thread saves its
    context at [thrd_pos_new] and calls [coop_sched_service] recursively;
    a later one saves it at [thrd_pos_run] and jumps back to the scheduler,
    in the frame at the top of the stack. *)
Lemma yield_exact f a st s x :
  running_ok f s →
  thrd_at (thrds s) (cur_thrd s) = Some x →
  _yield f a st s =
    Some (set_thrds (<[Z.to_nat (cur_thrd s) :=
            set_exe_ctx (JSaved f (if bool_decide (state x = NEW)
                                   then thrd_pos_new a else thrd_pos_run a))
              (set_state st x)]> (thrds s)) s,
          CLoop (if bool_decide (state x = NEW)
                 then S f else Z.to_nat (sched_depth s)), []).
Proof.
  intros (y & Hy & Hro) Hx. rewrite Hx in Hy. injection Hy as <-.
  unfold _yield, thrd_upd. rewrite Hx. simpl.
  destruct Hro as [(Hs & _)|(Hs & Hdx & He & Hdo)]; rewrite Hs; simpl.
  - rewrite ?Hx. simpl. done.
  - rewrite ?Hx. simpl. rewrite He. simpl. done.
Qed.

Lemma coop_idle_exact f s x :
  pool_ok (Some (cur_thrd s)) s → running_ok f s →
  thrd_at (thrds s) (cur_thrd s) = Some x →
  let pos := if bool_decide (state x = NEW)
             then thrd_pos_new ApiIdle else thrd_pos_run ApiIdle in
  let g := if bool_decide (state x = NEW) then S f else Z.to_nat (sched_depth s) in
  (∀ clk, coop_idle f 0 s clk =
    Some (set_thrds (<[Z.to_nat (cur_thrd s) :=
            set_exe_ctx (JSaved f pos) (set_state RUN x)]> (thrds s)) s,
          CLoop g, clk, [])) ∧
  (∀ period now clk', 0 < period →
     coop_idle f period s (now :: clk') =
       Some (set_thrds (<[Z.to_nat (cur_thrd s) :=
               set_exe_ctx (JSaved f pos)
                 (set_state IDLE (set_idle_to (tick_wrap (tick_wrap now + period)) x))]>
               (thrds s)) (set_idle_n (idle_n s + 1) s),
             CLoop g, clk', [])).
Proof.
  intros Hp Hr Hx pos g.
  destruct (pool_lookup_cur _ _ _ Hx) as [Hx' Hcur].
  split; [intros clk|intros period now clk' Hper].
  - unfold coop_idle. simpl. by rewrite (yield_exact f ApiIdle RUN s x Hr Hx).
  - unfold coop_idle. apply Z.ltb_lt in Hper. rewrite Hper. simpl.
    unfold thrd_upd. simpl. rewrite Hx. simpl.
    destruct (running_fields_ok f s x (set_idle_to (tick_wrap (tick_wrap now + period)) x) Hx)
      as [_ Hr1]; try done.
    match goal with |- context [_yield f ApiIdle IDLE ?s2] =>
      rewrite (yield_exact f ApiIdle IDLE s2 (set_idle_to (tick_wrap (tick_wrap now + period)) x))
    end; [|exact Hr1|simpl; by eapply thrd_at_insert_eq].
    simpl. rewrite list_insert_insert_eq.
    destruct Hp as (Hlen & (_ & _ & Hi) & _).
    pose proof (count_state_range _IS_IDLE (thrds s)).
    pose proof (count_state_lt _IS_IDLE _ _ _ Hx') as Hlt.
    pose proof MAX_fit. unfold MAX in *.
    rewrite uint_small; [done|].
    destruct Hr as (y & Hy & Hro). rewrite Hx in Hy. injection Hy as <-.
    destruct Hro as [[Hs _]|[Hs _]]; rewrite Hs in Hlt; specialize (Hlt eq_refl); lia.
Qed.

(** X5. [coop_idle] in a thread in control.  With a zero period it is a
    plain yield: the slot stays runnable, [idle_n] and the clock are not
    touched.  With a positive period the slot becomes [IDLE] with
    [idle_to] the current tick plus the period and [idle_n] grows by one
    (without wrapping).  Either way the context of the thread is saved, no
    other slot changes and control goes to a scheduler loop: that of a new
    recursive call of [coop_sched_service] on the first yield of the thread,
    that of the frame at the top of the stack later on.  The call itself
    returns nothing when the thread is resumed. *)
Theorem coop_idle_spec m f x :
  reachable m → ctl m = CThread f →
  let s := sched (glob m) in
  thrd_at (thrds s) (cur_thrd s) = Some x →
  let pos := if bool_decide (state x = NEW)
             then thrd_pos_new ApiIdle else thrd_pos_run ApiIdle in
  let g := if bool_decide (state x = NEW) then S f else Z.to_nat (sched_depth s) in
  coop_idle f 0 s (clock m) =
    Some (set_thrds (<[Z.to_nat (cur_thrd s) :=
            set_exe_ctx (JSaved f pos) (set_state RUN x)]> (thrds s)) s,
          CLoop g, clock m, []) ∧
  (∀ period now clk', 0 < period → clock m = now :: clk' →
     coop_idle f period s (clock m) =
       Some (set_thrds (<[Z.to_nat (cur_thrd s) :=
               set_exe_ctx (JSaved f pos)
                 (set_state IDLE (set_idle_to (tick_wrap (tick_wrap now + period)) x))]>
               (thrds s)) (set_idle_n (idle_n s + 1) s),
             CLoop g, clk', [])) ∧
  (∀ s', api_epilogue ApiIdle s' = Some ret_void).
Proof.
  intros Hreach Hc s Hx pos g. destruct (reachable_ok _ Hreach) as [_ Hm].
  rewrite Hc in Hm. fold s in Hm. destruct Hm as [Hp Hr].
  destruct (coop_idle_exact f s x Hp Hr Hx) as [H0 H1].
  split_and!; [apply H0| |done].
  intros period now clk' Hper ->. by apply H1.
Qed.

End IdleCall.

Section Safety.
Context `{cfg : Config}.

(** ** Returns and calls of a running thread *)

(** The routine of the thread in control returns: the two cases of
    [coop_sched_service], with the jump that ends each of them. *)
Lemma thrd_exit_total f s x :
  pool_ok (Some (cur_thrd s)) s → running_ok f s →
  thrd_at (thrds s) (cur_thrd s) = Some x →
  (depth x < sched_depth s ∧ state x = RUN ∧
   thrd_exit s =
     Some (set_hole_n (hole_n s + 1)
             (set_thrds (<[Z.to_nat (cur_thrd s) := set_state HOLE x]> (thrds s)) s),
           CLoop (Z.to_nat (sched_depth s)), [])) ∨
  (depth x = sched_depth s ∧
   ∃ u s', _mark_unwind_thrds s = Some (u, s') ∧
     thrd_exit s = Some (s', CLoop (Z.to_nat (sched_depth s')), []) ∧
     0 ≤ sched_depth s' < sched_depth s ∧
     thrds s' !! Z.to_nat (cur_thrd s) = Some (set_state EMPTY x) ∧
     (∀ j t, thrds s !! j = Some t → j ≠ Z.to_nat (cur_thrd s) →
        ∃ t', thrds s' !! j = Some t' ∧
              (t' = t ∨ (state t = HOLE ∧ t' = set_state EMPTY t))) ∧
     cur_thrd s' = cur_thrd s).
Proof.
  intros Hp (y & Hy & Hr) Hx. rewrite Hx in Hy. injection Hy as <-.
  destruct (pool_lookup_cur _ _ _ Hx) as [Hx' Hcur].
  assert (Hctx : ctx_ok x) by (destruct Hp as (_ & _ & Hctx & _); eauto).
  destruct (Z.ltb_spec (depth x) (sched_depth s)) as [Hlt|Hge].
  - left. split; [done|].
    destruct Hr as [(Hs & Hdx & _)|(Hs & Hdx & He & Hdo)]; [lia|]. split; [done|].
    unfold thrd_exit. rewrite Hx. simpl.
    rewrite (proj2 (Z.ltb_lt _ _) Hlt).
    unfold thrd_upd. rewrite Hx. simpl. rewrite He. simpl.
    destruct Hp as (Hlen & (_ & Hh & _) & _).
    pose proof (count_state_range is_hole (thrds s)).
    pose proof (count_state_lt is_hole _ _ _ Hx') as Hl. rewrite Hs in Hl.
    specialize (Hl eq_refl). pose proof MAX_fit. unfold MAX in *.
    rewrite uint_small by lia. done.
  - right.
    destruct (exit_depths f s x Hx Hr ltac:(lia)) as (Hdx & Hd & Hdo).
    split; [done|].
    assert (Hsx : state x = NEW ∨ state x = RUN) by (destruct Hr as [[? _]|[? _]]; eauto).
    assert (Hen : entry_ctx x = JSaved f sched_pos_entry_thrd).
    { destruct Hr as [(_ & _ & _ & He & _)|(Hs & Hdx' & _)]; [done|].
      destruct Hctx as (g & ? & ? & _); [by rewrite Hs|]. by assert (g = f) as -> by lia. }
    destruct (mark_unwind_spec s x Hp Hx Hsx ltac:(lia) Hdo)
      as (u & s2 & Hmu & Hd2 & Hsd & Hcu & Hid & _ & Hrel & Hb & Hh & Hld & Htg).
    set (l1 := <[Z.to_nat (cur_thrd s) := set_state EMPTY x]> (thrds s)) in *.
    set (d := started_depth l1 0) in *.
    destruct Hp as (Hlen & _ & Hctxs & _).
    assert (Hx1 : l1 !! Z.to_nat (cur_thrd s) = Some (set_state EMPTY x)).
    { subst l1. apply list_lookup_insert_eq. by eapply lookup_lt_Some. }
    assert (Hl1 : length l1 = CONFIG_MAX_THREADS) by (subst l1; by rewrite length_insert).
    assert (Hkeep : thrds s2 !! Z.to_nat (cur_thrd s) = Some (set_state EMPTY x)).
    { destruct (Forall2_lookup_l _ _ _ _ _ Hrel Hx1) as (t' & Ht' & Hr').
      by destruct Hr' as [([=] & _)|[_ ->]]. }
    assert (Hjump : ∃ ut, thrd_at (thrds s2) u = Some ut ∧
              entry_ctx ut = JSaved (Z.to_nat d) sched_pos_entry_thrd).
    { destruct Htg as [(j & t & Hj & Hst & Hdt & ->)|(_ & -> & Hd1)].
      - destruct (Forall2_lookup_l _ _ _ _ _ Hrel Hj) as (t' & Ht' & Hr').
        exists t'. split; [by apply thrd_at_nat; [rewrite <- (Forall2_length _ _ _ Hrel)|]|].
        assert (Hjs : thrds s !! j = Some t).
        { subst l1. apply list_lookup_insert_Some in Hj as [(_ & <- & _)|[_ ?]]; done. }
        destruct (Hctxs _ _ Hjs) as (g & Hg & He & _); [by rewrite Hst|].
        assert (g = Z.to_nat d) as -> by lia.
        by destruct Hr' as [(_ & _ & ->)|[_ ->]].
      - exists (set_state EMPTY x).
        split; [apply thrd_at_Some; split; [by apply thrd_at_Some in Hx as [? _]|done]|].
        assert (f = Z.to_nat d) as <- by lia. done. }
    destruct Hjump as (ut & Hu & Hut).
    exists u, s2. split_and!; try done; try lia.
    + unfold thrd_exit. rewrite Hx. simpl.
      rewrite (proj2 (Z.ltb_ge _ _) Hge), Hmu. simpl. rewrite Hu. simpl.
      rewrite Hut, Hsd. done.
    + intros j t Hj Hne.
      assert (Hj1 : l1 !! j = Some t) by (subst l1; by rewrite list_lookup_insert_ne).
      destruct (Forall2_lookup_l _ _ _ _ _ Hrel Hj1) as (t' & Ht' & Hr').
      exists t'. split; [done|]. destruct Hr' as [(? & _ & ->)|[_ ->]]; eauto.
Qed.

(** X6. [coop_test_is_shallow] in a thread in control returns true exactly
    when no slot on the main stack lies above the thread (in particular for
    a thread that has not yielded yet).  It tells what the return of the
    routine will do: on true the stack is unwound, the slot is freed and
    [sched.depth] decreases; on false the slot is left as a hole and
    [sched.depth] stays. *)
Theorem coop_test_is_shallow_spec m f x :
  reachable m → ctl m = CThread f →
  let s := sched (glob m) in
  thrd_at (thrds s) (cur_thrd s) = Some x →
  ∃ b, coop_test_is_shallow s = Some b ∧
    (b = true ↔
     ∀ j t, thrds s !! j = Some t → live (state t) = true → depth t ≤ depth x) ∧
    (state x = NEW → b = true) ∧
    ∃ s' g, thrd_exit s = Some (s', CLoop g, []) ∧
      thrds s' !! Z.to_nat (cur_thrd s) = Some (set_state (if b then EMPTY else HOLE) x) ∧
      (if b then sched_depth s' < sched_depth s else sched_depth s' = sched_depth s).
Proof.
  intros Hreach Hc s Hx. destruct (reachable_ok _ Hreach) as [_ Hm].
  rewrite Hc in Hm. fold s in Hm. destruct Hm as [Hp Hr].
  destruct (pool_lookup_cur _ _ _ Hx) as [Hx' Hcur].
  exists (sched_depth s =? depth x). unfold coop_test_is_shallow. rewrite Hx. simpl.
  split; [done|]. rewrite Z.eqb_eq.
  pose proof Hr as (y & Hy & Hro). fold s in Hy. rewrite Hx in Hy. injection Hy as <-.
  assert (Hle : ∀ top, depths_ok top s → ∀ j t, thrds s !! j = Some t →
            live (state t) = true → depth t ≤ top).
  { intros top Hd j t Hj Hl.
    assert (Hin : depth t ∈ live_depths (thrds s)).
    { apply live_depths_elem; [by eapply list_elem_of_lookup_2|done]. }
    unfold depths_ok in Hd. rewrite Hd in Hin. apply elem_of_seqZ_1 in Hin. lia. }
  split_and!.
  - split.
    + intros Heq j t Hj Hl.
      destruct Hro as [(_ & _ & _ & _ & Hd)|(_ & _ & _ & Hd)];
        pose proof (Hle _ Hd j t Hj Hl); lia.
    + intros Hall. destruct Hro as [(_ & ? & _)|(Hs & Hdx & _ & Hd)]; [done|].
      pose proof (running_depth _ _ Hx Hs Hd).
      assert (Hin : sched_depth s ∈ live_depths (thrds s)).
      { unfold depths_ok in Hd. rewrite Hd. apply elem_of_seqZ_1. lia. }
      apply elem_of_live_depths in Hin as (j & t & Hj & Hl & Hdt).
      specialize (Hall j t Hj Hl). lia.
  - intros Hs. destruct Hro as [(_ & ? & _)|(Hs' & _)]; [done|congruence].
  - destruct (thrd_exit_total f s x Hp Hr Hx)
      as [(Hlt & _ & He)|(Heq & u & s' & _ & He & Hd & Hk & _)].
    + rewrite (proj2 (Z.eqb_neq _ _)) by lia. eexists _, _. split; [exact He|].
      simpl. split; [|done]. apply list_lookup_insert_eq. by eapply lookup_lt_Some.
    + rewrite (proj2 (Z.eqb_eq _ _)) by lia. eexists _, _. split; [exact He|].
      split; [done|lia].
Qed.

(** X7. A running thread never faults.  In every reachable state with a
    thread in control, the return of its routine and every library call it
    may make (all but [coop_sched_service]) are defined as long as the clock
    can be read: the current slot is in the pool and every [longjmp] goes to
    a context that has been saved.  The return and the calls that suspend
    the thread give control to a scheduler loop; the others return to the
    thread. *)
Theorem thread_never_faults m f :
  reachable m → ctl m = CThread f →
  (∃ m' g, step in_return m = Some (m', []) ∧ ctl m' = CLoop g) ∧
  (∀ c, c ≠ call_sched_service → clock m ≠ [] →
     ∃ m' evs, step (in_call c) m = Some (m', evs) ∧
       match c with
       | call_idle _ | call_wait _ _ => ∃ g, ctl m' = CLoop g
       | call_yield_after _ => ctl m' = CThread f ∨ ∃ g, ctl m' = CLoop g
       | _ => ctl m' = CThread f
       end).
Proof.
  intros Hreach Hc. destruct (reachable_ok _ Hreach) as [_ Hm].
  rewrite Hc in Hm. destruct Hm as [Hp Hr]. pose proof Hr as (x & Hx & _).
  split.
  - unfold step. rewrite Hc.
    destruct (thrd_exit_total f _ x Hp Hr Hx) as [(_ & _ & He)|(_ & u & s' & _ & He & _)];
      rewrite He; simpl; eauto.
  - intros c Hne Hclk. destruct (clock m) as [|now clk'] eqn:Eclk; [done|].
    unfold step. rewrite Hc, Eclk. unfold user_call.
    destruct (coop_idle_exact f _ x Hp Hr Hx) as [H0 H1].
    destruct c as [p n sz a| | |period|after|sem timeout|sem|sem]; try done.
    + destruct (coop_sched_thread p n sz a (glob m)) as [e g']. simpl. eauto.
    + unfold coop_thread_name. rewrite Hx. simpl. eauto.
    + pose proof (tick_wrap_range period).
      destruct (decide (tick_wrap period = 0)) as [->|Hpos].
      * rewrite H0. simpl. eauto.
      * rewrite H1 by lia. simpl. eauto.
    + unfold coop_yield_after. simpl.
      destruct (COOP_IS_TICK_OVER _ _); [|simpl; eauto].
      rewrite (yield_exact f ApiYieldAfter RUN _ x Hr Hx). simpl.
      eexists _, _. split; [done|]. right. simpl. eauto.
    + unfold coop_wait.
      destruct (wait_enter sem (tick_wrap timeout) (sched (glob m)) (now :: clk'))
        as [[s1 clk1]|] eqn:Ew.
      2:{ rewrite (wait_enter_eq _ _ _ _ x Hx) in Ew. by destruct (_ =? 0). }
      destruct (wait_enter_ok f _ _ _ _ _ _ Ew Hp Hr) as (_ & Hr1 & x1 & Hx1 & _).
      simpl. rewrite (yield_exact f ApiWait WAIT _ x1 Hr1 Hx1). simpl. eauto.
    + simpl. eauto.
    + simpl. eauto.
Qed.

(** ** Passes of the dispatcher *)

(** The idle loop on readings [ticks] at which no idle thread is due,
    followed by a reading [last] at which one is. *)
Lemma system_idle_wakes s ticks last rest :
  length (thrds s) = CONFIG_MAX_THREADS → counters_ok s → idle_ready s = true →
  (∀ now t, now ∈ ticks → t ∈ thrds s → idle_due (tick_wrap now) t = false) →
  (∃ t, t ∈ thrds s ∧ idle_due (tick_wrap last) t = true) →
  ∀ i m, ∃ s' evs, _system_idle_loop (ticks ++ last :: rest) i m s = Some (s', rest, evs).
Proof.
  intros Hlen Hc Hready Hno Hdue.
  destruct (system_idle_promote s last rest Hlen Hc Hready Hdue) as [Hlast _].
  induction ticks as [|now ticks IH]; intros i m.
  - simpl app. rewrite Hlast. eauto.
  - cbn [app _system_idle_loop]. rewrite Hready.
    rewrite idle_scan_none_due;
      [|intros; apply Hno; [by left|done]|pose proof TICK_MOD_pos; unfold COOP_MAX_TICK; lia].
    assert (Hs : set_idle_n (idle_n s) (set_thrds (thrds s) s) = s) by (by destruct s).
    rewrite Hs.
    destruct (IH (λ now' t H, Hno now' t (list_elem_of_further _ _ _ H)) true
                (Z.min COOP_MAX_TICK (min_idle_of (tick_wrap now) (thrds s))))
      as (s' & evs & ->).
    simpl. eauto.
Qed.

(** A pass of the loop is defined once the idle loop has been left with two
    readings of the clock to come. *)
Lemma sched_iter_defined f s clk s1 clk1 evs0 :
  pool_ok None s →
  _system_idle clk (set_cur_thrd (next_thrd (cur_thrd s)) s) = Some (s1, clk1, evs0) →
  (2 ≤ length clk1)%nat →
  ∃ s' c clk' evs, sched_iter f s clk = Some (s', c, clk', evs) ∧
    (c = CLoop f ∨ ∃ g, c = CThread g).
Proof.
  intros Hp Hidle Hlen. unfold sched_iter. fold (next_thrd (cur_thrd s)).
  assert (Hp0 : pool_ok None (set_cur_thrd (next_thrd (cur_thrd s)) s))
    by (by eapply pool_ok_scalars).
  rewrite Hidle. simpl.
  destruct (system_idle_loop_ok _ _ _ _ _ _ _ Hidle Hp0) as (Hp1 & Hcur & _).
  simpl in Hcur.
  destruct (thrd_at_total (thrds s1) (cur_thrd s1)) as [t1 Ht1];
    [apply Hp1|rewrite Hcur; apply next_thrd_range|].
  assert (Hctx : ctx_ok t1).
  { destruct (pool_lookup_cur _ _ _ Ht1) as [Ht1' _].
    destruct Hp1 as (_ & _ & Hctx & _). eauto. }
  destruct clk1 as [|r1 [|r2 clk2]]; simpl in Hlen; try lia.
  rewrite Ht1. simpl.
  assert (Hrun : ∀ s2 clk3 r, thrd_at (thrds s2) (cur_thrd s2) = Some (set_state RUN t1) →
            state t1 = IDLE ∨ state t1 = WAIT →
            ∃ s' c clk' evs,
              ('(s4, c4, clk4, evs4) ← sched_run f s2 (r :: clk3);
               Some (s4, c4, clk4, evs0 ++ evs4)) = Some (s', c, clk', evs) ∧
              (c = CLoop f ∨ ∃ g, c = CThread g)).
  { intros s2 clk3 r Hx Hst.
    destruct (sched_run_resumes f s2 (r :: clk3) (tick_wrap r) clk3 (set_state RUN t1) Hx)
      as (g & r' & ->); [done| |done|simpl; eauto 10].
    intros _. destruct Hctx as (g & ? & ? & ?); [by destruct Hst as [-> | ->]|].
    exists g. simpl. split_and!; try done.
    destruct Hst as [Hst|Hst]; rewrite Hst in *; done. }
  destruct (state t1) eqn:Est.
  - eauto 10.
  - eauto 10.
  - unfold thrd_upd. simpl. rewrite Ht1. simpl.
    erewrite thrd_at_insert_eq by done. simpl.
    erewrite thrd_at_insert_eq by (by eapply thrd_at_insert_eq). simpl. eauto 10.
  - destruct (sched_run_resumes f s1 (r1 :: r2 :: clk2) (tick_wrap r1) (r2 :: clk2) t1 Ht1)
      as (g & r' & ->); [done|done|by rewrite Est|simpl; eauto 10].
  - destruct (negb _); [eauto 10|]. unfold thrd_upd. rewrite Ht1. simpl.
    apply Hrun; [|by left]. simpl. by eapply thrd_at_insert_eq.
  - destruct (inf t1); [eauto 10|]. simpl.
    destruct (negb _); [eauto 10|]. unfold thrd_upd. rewrite Ht1. simpl.
    apply Hrun; [|by right]. simpl. by eapply thrd_at_insert_eq.
Qed.

(** X8. The dispatcher never faults.  At the head of the loop in a reachable
    state: with no busy slot, [coop_sched_service] returns to [main]; with a
    busy slot, the pass is defined whenever the clock has readings enough
    (two, beyond those of the idle loop): the slot selected is in the pool
    and the jump into a thread goes to a saved context.  The pass ends at the
    loop head of the same frame or with a thread in control. *)
Theorem dispatcher_never_faults m f :
  reachable m → ctl m = CLoop f →
  let s := sched (glob m) in
  (busy_n s = 0 →
   ∃ m', step in_sched m = Some (m', [ev_service_return]) ∧ ctl m' = CMain) ∧
  (0 < busy_n s → idle_ready s = false → (2 ≤ length (clock m))%nat →
   ∃ m' evs, step in_sched m = Some (m', evs) ∧
     (ctl m' = CLoop f ∨ ∃ g, ctl m' = CThread g)) ∧
  (0 < busy_n s → idle_ready s = true →
   ∀ ticks last rest,
     clock m = ticks ++ last :: rest → (2 ≤ length rest)%nat →
     (∀ now t, now ∈ ticks → t ∈ thrds s → idle_due (tick_wrap now) t = false) →
     (∃ t, t ∈ thrds s ∧ idle_due (tick_wrap last) t = true) →
     ∃ m' evs, step in_sched m = Some (m', evs) ∧
       (ctl m' = CLoop f ∨ ∃ g, ctl m' = CThread g)).
Proof.
  intros Hreach Hc s. destruct (reachable_ok _ Hreach) as [_ Hm].
  rewrite Hc in Hm. fold s in Hm. destruct Hm as (Hp & _).
  assert (Hpass : ∀ s1 clk1 evs0,
            0 < busy_n s →
            _system_idle (clock m) (set_cur_thrd (next_thrd (cur_thrd s)) s)
              = Some (s1, clk1, evs0) →
            (2 ≤ length clk1)%nat →
            ∃ m' evs, step in_sched m = Some (m', evs) ∧
              (ctl m' = CLoop f ∨ ∃ g, ctl m' = CThread g)).
  { intros s1 clk1 evs0 Hb Hidle Hlen.
    destruct (sched_iter_defined f s _ _ _ _ Hp Hidle Hlen) as (s' & c & clk' & evs & Hi & Hctl).
    unfold step. rewrite Hc. unfold service_step. fold s.
    apply Z.ltb_lt in Hb. rewrite Hb, Hi. simpl. eauto. }
  split_and!.
  - intros Hb. pose proof (service_exit_frame m f Hreach Hc Hb) as ->.
    unfold step. rewrite Hc. unfold service_step. fold s. rewrite Hb. simpl. eauto.
  - intros Hb Hnr Hlen. eapply Hpass; [done| |exact Hlen].
    by apply system_idle_skip.
  - intros Hb Hr ticks last rest Hclk Hlen Hno Hdue.
    destruct (system_idle_wakes (set_cur_thrd (next_thrd (cur_thrd s)) s) ticks last rest)
      with (i := false) (m := 0) as (s1 & evs0 & Hidle); try done; try apply Hp.
    eapply Hpass; [done| |exact Hlen]. rewrite Hclk. exact Hidle.
Qed.

End Safety.

Section SystemIdle.
Context `{cfg : Config}.

(** ** When the system goes idle *)

Lemma count_all_idle l :
  (∀ t, t ∈ l → state t ≠ NEW ∧ state t ≠ RUN ∧ state t ≠ WAIT) →
  count_state busy l - count_state is_hole l = count_state _IS_IDLE l.
Proof.
  induction l as [|t l IH]; [done|]. intros H. simpl.
  specialize (IH (λ u Hu, H u (list_elem_of_further _ _ _ Hu))).
  destruct (H t) as (? & ? & ?); [left|]. destruct (state t); simpl; try done; lia.
Qed.

Lemma count_idle_pos l :
  0 < count_state _IS_IDLE l → ∃ t, t ∈ l ∧ state t = IDLE.
Proof.
  induction l as [|t l IH]; simpl; [lia|]. intros H.
  destruct (decide (state t = IDLE)) as [Hs|Hs].
  - exists t. split; [left|done].
  - unfold _IS_IDLE in H at 1. rewrite bool_decide_eq_false_2 in H by done.
    destruct IH as (u & Hu & ?); [lia|]. exists u. split; [by right|done].
Qed.

(** X9. [_system_idle] holds the scheduler back only when every active
    thread sleeps: its loop is entered exactly when some slot is [IDLE] and
    no slot is [NEW], [RUN] or [WAIT].  Otherwise it returns at once,
    without reading the clock or calling the platform idle primitive: a
    thread blocked in [coop_wait], even with a timeout, keeps the scheduler
    polling. *)
Theorem system_idle_only_when_all_idle s clk :
  length (thrds s) = CONFIG_MAX_THREADS → counters_ok s →
  (idle_ready s = true ↔
     (∃ t, t ∈ thrds s ∧ state t = IDLE) ∧
     (∀ t, t ∈ thrds s → state t ≠ NEW ∧ state t ≠ RUN ∧ state t ≠ WAIT)) ∧
  (idle_ready s = false → _system_idle clk s = Some (s, clk, [])) ∧
  (∀ s' clk' evs, _system_idle clk s = Some (s', clk', evs) → evs ≠ [] →
     idle_ready s = true).
Proof.
  intros Hlen (Hb & Hh & Hi).
  pose proof (count_state_range busy (thrds s)).
  pose proof (count_state_range is_hole (thrds s)).
  pose proof (count_state_range _IS_IDLE (thrds s)).
  pose proof (count_hole_le_busy (thrds s)). pose proof MAX_fit. unfold MAX in *.
  assert (Hskip : idle_ready s = false → _system_idle clk s = Some (s, clk, [])).
  { intros Hr. unfold _system_idle. destruct clk; simpl; by rewrite Hr. }
  split_and!; [|done|].
  - unfold idle_ready. rewrite uint_small by lia.
    rewrite andb_true_iff, Z.ltb_lt, Z.leb_le. split.
    + intros [Hpos Hle]. split.
      * apply count_idle_pos. lia.
      * intros t Ht.
        pose proof (all_active_idle (thrds s) t ltac:(lia) Ht) as Hact.
        split_and!; intros Hs; apply Hact; eauto.
    + intros [(t & Ht & Hs) Hall]. split.
      * apply list_elem_of_lookup_1 in Ht as [j Hj].
        pose proof (count_state_pos _IS_IDLE _ _ _ Hj) as Hp. rewrite Hs in Hp.
        specialize (Hp eq_refl). lia.
      * pose proof (count_all_idle _ Hall). lia.
  - intros s' clk' evs Hidle Hev. destruct (idle_ready s) eqn:Hr; [done|].
    rewrite (Hskip eq_refl) in Hidle. by injection Hidle as <- <- <-.
Qed.

End SystemIdle.

Section Wakeup.
Context `{cfg : Config}.

(** ** Sleeping threads are not woken early *)

Lemma idle_scan_due cur l : ∀ idle m,
  Forall2 (λ t t', t' = t ∨
             (state t = IDLE ∧ COOP_IS_TICK_OVER cur (idle_to t) = true ∧
              t' = set_state RUN t))
    l (idle_scan cur l idle m).1.1.
Proof.
  induction l as [|t l IH]; intros idle m; simpl; [constructor|].
  destruct (decide (state t = IDLE)) as [E|E].
  - rewrite bool_decide_eq_true_2 by done. simpl.
    destruct (COOP_IS_TICK_OVER cur (idle_to t)) eqn:Eo.
    + specialize (IH (uint (idle - 1)) m).
      destruct (idle_scan cur l _ m) as [[l' n] m']. simpl in *.
      constructor; [by right|done].
    + destruct (tick_wrap (idle_to t - cur) <? m).
      * specialize (IH idle (tick_wrap (idle_to t - cur))).
        destruct (idle_scan cur l idle _) as [[l' n] m']. simpl in *.
        constructor; [by left|done].
      * specialize (IH idle m).
        destruct (idle_scan cur l idle _) as [[l' n] m']. simpl in *.
        constructor; [by left|done].
  - rewrite bool_decide_eq_false_2 by done. simpl. specialize (IH idle m).
    destruct (idle_scan cur l idle _) as [[l' n] m']. simpl in *.
    constructor; [by left|done].
Qed.

Lemma Forall2_diag_left {A} (R : A → A → Prop) (l : list A) :
  (∀ x, R x x) → Forall2 R l l.
Proof. intros H. induction l; constructor; auto. Qed.

(** The idle loop reads a prefix of the clock, and a slot it makes [RUN] was
    [IDLE] with its [idle_to] passed at one of these readings. *)
Lemma system_idle_loop_due clk : ∀ i m s s' clk' evs,
  _system_idle_loop clk i m s = Some (s', clk', evs) →
  ∃ used, clk = used ++ clk' ∧
    Forall2 (λ t t', t' = t ∨
               (state t = IDLE ∧ t' = set_state RUN t ∧
                ∃ now, now ∈ used ∧ COOP_IS_TICK_OVER (tick_wrap now) (idle_to t) = true))
      (thrds s) (thrds s').
Proof.
  induction clk as [|t clk IH]; intros i m s s' clk' evs; simpl.
  { destruct (idle_ready s); [done|]. intros [= <- <- <-]. exists [].
    split; [done|]. apply Forall2_diag_left. by left. }
  destruct (idle_ready s).
  2:{ intros [= <- <- <-]. exists []. split; [done|]. apply Forall2_diag_left. by left. }
  pose proof (idle_scan_due (tick_wrap t) (thrds s) (idle_n s) COOP_MAX_TICK) as HF.
  destruct (idle_scan _ _ _ _) as [[l' n] m']. simpl in HF.
  destruct (_system_idle_loop clk true m' _) as [[[s1 c1] e1]|] eqn:E; [|done].
  simpl. intros [= <- <- <-].
  destruct (IH _ _ _ _ _ _ E) as (used & -> & HF2). simpl in HF2.
  exists (t :: used). split; [done|].
  apply Forall2_same_length_lookup_2.
  { rewrite (Forall2_length _ _ _ HF). by rewrite (Forall2_length _ _ _ HF2). }
  intros j u u2 Hu Hu2.
  destruct (Forall2_lookup_l _ _ _ _ _ HF Hu) as (u1 & Hu1 & Hr1).
  destruct (Forall2_lookup_l _ _ _ _ _ HF2 Hu1) as (u2' & Hu2' & Hr2).
  rewrite Hu2 in Hu2'. injection Hu2' as <-.
  destruct Hr1 as [->|(Hs & Ho & ->)].
  - destruct Hr2 as [->|(Hs & -> & now & Hnow & Ho)]; [by left|].
    right. split_and!; try done. exists now. split; [by right|done].
  - right. split; [done|]. split; [by destruct Hr2 as [->|[? _]]|].
    exists t. split; [left|done].
Qed.

Lemma sched_run_reads f s clk s' c clk' evs :
  sched_run f s clk = Some (s', c, clk', evs) →
  ∃ r, clk = r :: clk' ∧ ∀ i v, ev_resume i v ∈ evs → i = cur_thrd s.
Proof.
  unfold sched_run, thrd_upd. destruct clk as [|r clk1]; [done|]. simpl.
  destruct (thrd_at (thrds s) (cur_thrd s)) as [x|]; [|done]. simpl.
  destruct (thrd_at _ _) as [t|]; [|done]. simpl.
  destruct (exe_ctx t) as [|g [| |a|a]]; simpl; try done.
  - intros [= <- <- <- <-]. exists r. split; [done|]. by intros i v ?%elem_of_nil.
  - intros [= <- <- <- <-]. exists r. split; [done|]. by intros i v ?%elem_of_nil.
  - destruct (api_epilogue a _); [|done]. simpl. intros [= <- <- <- <-].
    exists r. split; [done|]. by intros i v [= -> _]%list_elem_of_singleton.
  - destruct (api_epilogue a _); [|done]. simpl. intros [= <- <- <- <-].
    exists r. split; [done|]. by intros i v [= -> _]%list_elem_of_singleton.
Qed.

(** A pass that resumes a slot: which slot, which readings, and why. *)
Lemma sched_iter_wakeup f s clk s' c clk' evs i r t :
  pool_ok None s →
  sched_iter f s clk = Some (s', c, clk', evs) → ev_resume i r ∈ evs →
  thrd_at (thrds s) i = Some t →
  i = next_thrd (cur_thrd s) ∧
  ∃ used, clk = used ++ clk' ∧
    (state t = IDLE →
     ∃ now, now ∈ used ∧ COOP_IS_TICK_OVER (tick_wrap now) (idle_to t) = true) ∧
    (state t = WAIT →
     inf t = false ∧
     ∃ now, now ∈ used ∧ COOP_IS_TICK_OVER (tick_wrap now) (wait_to t) = true).
Proof.
  intros Hp Hit Hev Ht. unfold sched_iter in Hit. fold (next_thrd (cur_thrd s)) in Hit.
  assert (Hp0 : pool_ok None (set_cur_thrd (next_thrd (cur_thrd s)) s))
    by (by eapply pool_ok_scalars).
  destruct (_system_idle _ _) as [[[s1 clk1] evs0]|] eqn:Eidle; [|done].
  destruct (system_idle_loop_ok _ _ _ _ _ _ _ Eidle Hp0) as (_ & Hcur & _).
  destruct (system_idle_loop_rel _ _ _ _ _ _ _ Eidle Hp0) as [_ Hev0].
  destruct (system_idle_loop_due _ _ _ _ _ _ _ Eidle) as (used0 & Hclk & HF).
  simpl in Hcur, HF, Hit.
  assert (Hno : ev_resume i r ∉ evs0).
  { intros [ticks [=]]%Hev0. }
  destruct (thrd_at (thrds s1) (cur_thrd s1)) as [t1|] eqn:Ht1; [|done]. simpl in Hit.
  (* the slot before the idle loop *)
  assert (Hrel : i = cur_thrd s1 →
            t1 = t ∨ (state t = IDLE ∧ t1 = set_state RUN t ∧
              ∃ now, now ∈ used0 ∧ COOP_IS_TICK_OVER (tick_wrap now) (idle_to t) = true)).
  { intros ->. destruct (pool_lookup_cur _ _ _ Ht) as [Ht' _].
    destruct (Forall2_lookup_l _ _ _ _ _ HF Ht') as (u & Hu & Hr).
    destruct (pool_lookup_cur _ _ _ Ht1) as [Ht1' _]. rewrite Ht1' in Hu.
    by injection Hu as <-. }
  (* a resumption by [sched_run] on the rest of the clock *)
  assert (Hrun : ∀ s2 clk2,
            ('(s4, c4, clk4, evs4) ← sched_run f s2 clk2; Some (s4, c4, clk4, evs0 ++ evs4))
              = Some (s', c, clk', evs) →
            cur_thrd s2 = cur_thrd s1 →
            i = cur_thrd s1 ∧ ∃ r2, clk2 = r2 :: clk').
  { intros s2 clk2 Er Hc2.
    destruct (sched_run f s2 clk2) as [[[[s4 c4] clk4] evs4]|] eqn:Es; [|done].
    simpl in Er. injection Er as <- <- <- <-.
    destruct (sched_run_reads _ _ _ _ _ _ _ Es) as (r2 & -> & Hi).
    apply elem_of_app in Hev as [?|Hin]; [done|]. apply Hi in Hin.
    split; [congruence|eauto]. }
  destruct (state t1) eqn:Est.
  - injection Hit as <- <- <- <-. done.
  - injection Hit as <- <- <- <-. done.
  - unfold thrd_upd in Hit.
    repeat (match type of Hit with
            | context [thrd_at ?l ?i] => destruct (thrd_at l i); simpl in Hit; [|done]
            | context [coop_tick_cb ?k] =>
                destruct (coop_tick_cb k) as [[? ?]|]; simpl in Hit; [|done]
            end).
    injection Hit as <- <- <- <-.
    apply elem_of_app in Hev as [?|Hin]; [done|]. by apply list_elem_of_singleton in Hin.
  - destruct (Hrun _ _ Hit eq_refl) as (-> & r2 & Hk).
    split; [by rewrite Hcur|]. exists (used0 ++ [r2]).
    split; [rewrite Hclk, Hk, <- app_assoc; done|].
    destruct (Hrel eq_refl) as [->|(Hs & -> & now & Hnow & Ho)].
    + split; intros Hs; congruence.
    + split; [|intros; congruence]. intros _. exists now.
      split; [apply elem_of_app; by left|done].
  - destruct clk1 as [|r1 clk2]; [done|]. simpl in Hit.
    destruct (COOP_IS_TICK_OVER (tick_wrap r1) (idle_to t1)) eqn:Eo; simpl in Hit;
      [|by injection Hit as <- <- <- <-].
    unfold thrd_upd in Hit. rewrite Ht1 in Hit. simpl in Hit.
    destruct (Hrun _ _ Hit eq_refl) as (-> & r2 & Hk).
    split; [by rewrite Hcur|]. exists (used0 ++ [r1; r2]).
    split; [rewrite Hclk, Hk, <- app_assoc; done|].
    destruct (Hrel eq_refl) as [->|(Hs & -> & _)]; [|done].
    split; [|intros; congruence]. intros _. exists r1.
    split; [apply elem_of_app; right; left|done].
  - destruct (inf t1) eqn:Einf; [by injection Hit as <- <- <- <-|].
    destruct clk1 as [|r1 clk2]; [done|]. simpl in Hit.
    destruct (COOP_IS_TICK_OVER (tick_wrap r1) (wait_to t1)) eqn:Eo; simpl in Hit;
      [|by injection Hit as <- <- <- <-].
    unfold thrd_upd in Hit. rewrite Ht1 in Hit. simpl in Hit.
    destruct (Hrun _ _ Hit eq_refl) as (-> & r2 & Hk).
    split; [by rewrite Hcur|]. exists (used0 ++ [r1; r2]).
    split; [rewrite Hclk, Hk, <- app_assoc; done|].
    destruct (Hrel eq_refl) as [->|(Hs & -> & _)]; [|done].
    split; [intros; congruence|]. intros _. split; [done|]. exists r1.
    split; [apply elem_of_app; right; left|done].
Qed.

(** X10. No early wake-up.  When a pass of the dispatcher resumes a thread
    that was [IDLE] before the pass, its [idle_to] had passed at one of the
    clock readings taken during the pass; when it resumes one that was in
    [WAIT], the wait had a timeout and [wait_to] had passed at one of these
    readings.  The thread resumed is always the one in the slot after
    [cur_thrd]. *)
Theorem no_early_wakeup m f m' evs i r t :
  reachable m → ctl m = CLoop f →
  let s := sched (glob m) in
  step in_sched m = Some (m', evs) → ev_resume i r ∈ evs →
  thrd_at (thrds s) i = Some t →
  i = next_thrd (cur_thrd s) ∧
  ∃ used, clock m = used ++ clock m' ∧
    (state t = IDLE →
     ∃ now, now ∈ used ∧ COOP_IS_TICK_OVER (tick_wrap now) (idle_to t) = true) ∧
    (state t = WAIT →
     inf t = false ∧
     ∃ now, now ∈ used ∧ COOP_IS_TICK_OVER (tick_wrap now) (wait_to t) = true).
Proof.
  intros Hreach Hc s Hstep Hev Ht. destruct (reachable_ok _ Hreach) as [_ Hm].
  rewrite Hc in Hm. fold s in Hm. destruct Hm as (Hp & _).
  unfold step in Hstep. rewrite Hc in Hstep. unfold service_step in Hstep. fold s in Hstep.
  destruct (0 <? busy_n s).
  - destruct (sched_iter f s (clock m)) as [[[[s' c] clk'] evs']|] eqn:Ei; [|done].
    simpl in Hstep. injection Hstep as <- <-. simpl.
    by eapply sched_iter_wakeup.
  - destruct f; [|done]. simpl in Hstep. injection Hstep as <- <-.
    by apply list_elem_of_singleton in Hev.
Qed.

End Wakeup.

Section Frame.
Context `{cfg : Config}.

(** ** What a step leaves alone *)

Lemma sched_run_frame f s clk s' c clk' evs :
  sched_run f s clk = Some (s', c, clk', evs) →
  ∀ j, j ≠ Z.to_nat (cur_thrd s) → thrds s' !! j = thrds s !! j.
Proof.
  unfold sched_run, thrd_upd. destruct (coop_tick_cb clk) as [[tick clk1]|]; [|done]. simpl.
  destruct (thrd_at (thrds s) (cur_thrd s)) as [x|]; [|done]. simpl.
  destruct (thrd_at _ _) as [t|]; [|done]. simpl.
  destruct (longjmp _ _) as [[c1 e1]|]; [|done]. simpl.
  intros [= <- <- <- <-] j Hj. simpl. by rewrite list_lookup_insert_ne.
Qed.

(** A pass of the loop changes the slot it selects and the idle slots that
    the idle loop wakes, and nothing else; a slot it selects and finds
    free, a hole or in an infinite wait is passed over. *)
Lemma sched_iter_frame f s clk s' c clk' evs j u :
  pool_ok None s → sched_iter f s clk = Some (s', c, clk', evs) →
  thrds s !! j = Some u → state u ≠ IDLE →
  (Z.of_nat j ≠ next_thrd (cur_thrd s) ∨ (state u = WAIT ∧ inf u = true) ∨
   state u = EMPTY ∨ state u = HOLE) →
  thrds s' !! j = Some u ∧ Z.of_nat j ∉ dispatched evs.
Proof.
  intros Hp Hit Hj Hni Hor.
  destruct (sched_iter_cur _ _ _ _ _ _ _ Hit Hp) as [_ Hd].
  unfold sched_iter in Hit. fold (next_thrd (cur_thrd s)) in Hit.
  assert (Hp0 : pool_ok None (set_cur_thrd (next_thrd (cur_thrd s)) s))
    by (by eapply pool_ok_scalars).
  destruct (_system_idle _ _) as [[[s1 clk1] evs0]|] eqn:Eidle; [|done].
  destruct (system_idle_loop_ok _ _ _ _ _ _ _ Eidle Hp0) as (_ & Hcur & _).
  destruct (system_idle_loop_rel _ _ _ _ _ _ _ Eidle Hp0) as [HF Hev0%idle_events_dispatch].
  simpl in Hcur, HF, Hit.
  assert (Hj1 : thrds s1 !! j = Some u).
  { destruct (Forall2_lookup_l _ _ _ _ _ HF Hj) as (u1 & Hu1 & [->|[? _]]); done. }
  destruct (thrd_at (thrds s1) (cur_thrd s1)) as [t1|] eqn:Ht1; [|done]. simpl in Hit.
  destruct (pool_lookup_cur _ _ _ Ht1) as [Ht1' Hc1].
  destruct (decide (Z.of_nat j = cur_thrd s1)) as [Heq|Hne].
  - assert (t1 = u) as ->.
    { rewrite <- Heq, Nat2Z.id in Ht1'. congruence. }
    destruct Hor as [?|[[Hs Hinf]|[Hs|Hs]]]; [congruence|rewrite Hs in Hit..].
    + rewrite Hinf in Hit. injection Hit as <- <- <- <-. rewrite Hev0.
      split; [done|]. by intros ?%elem_of_nil.
    + injection Hit as <- <- <- <-. rewrite Hev0. split; [done|]. by intros ?%elem_of_nil.
    + injection Hit as <- <- <- <-. rewrite Hev0. split; [done|]. by intros ?%elem_of_nil.
  - assert (Hjn : j ≠ Z.to_nat (cur_thrd s1)) by lia.
    split.
    2:{ destruct Hd as [-> | ->]; [by intros ?%elem_of_nil|].
        intros Hin%list_elem_of_singleton. congruence. }
    assert (Hrun : ∀ s2 clk2,
              ('(s4, c4, clk4, evs4) ← sched_run f s2 clk2; Some (s4, c4, clk4, evs0 ++ evs4))
                = Some (s', c, clk', evs) →
              cur_thrd s2 = cur_thrd s1 → thrds s2 !! j = Some u →
              thrds s' !! j = Some u).
    { intros s2 clk2 Er Hc2 Hj2.
      destruct (sched_run f s2 clk2) as [[[[s4 c4] clk4] evs4]|] eqn:Es; [|done].
      simpl in Er. injection Er as <- <- <- <-.
      rewrite (sched_run_frame _ _ _ _ _ _ _ Es); [done|congruence]. }
    destruct (state t1).
    + by injection Hit as <- <- <- <-.
    + by injection Hit as <- <- <- <-.
    + unfold thrd_upd in Hit.
      repeat (match type of Hit with
              | context [thrd_at ?l ?i] => destruct (thrd_at l i); simpl in Hit; [|done]
              | context [coop_tick_cb ?k] =>
                  destruct (coop_tick_cb k) as [[? ?]|]; simpl in Hit; [|done]
              end).
      injection Hit as <- <- <- <-. simpl. by rewrite !list_lookup_insert_ne.
    + by apply (Hrun _ _ Hit).
    + destruct (coop_tick_cb _) as [[? ?]|]; [|done]. simpl in Hit.
      destruct (negb _); [by injection Hit as <- <- <- <-|].
      unfold thrd_upd in Hit. rewrite Ht1 in Hit. simpl in Hit.
      apply (Hrun _ _ Hit); [done|]. simpl. by rewrite list_lookup_insert_ne.
    + destruct (inf t1); [by injection Hit as <- <- <- <-|].
      destruct (coop_tick_cb _) as [[? ?]|]; [|done]. simpl in Hit.
      destruct (negb _); [by injection Hit as <- <- <- <-|].
      unfold thrd_upd in Hit. rewrite Ht1 in Hit. simpl in Hit.
      apply (Hrun _ _ Hit); [done|]. simpl. by rewrite list_lookup_insert_ne.
Qed.

Lemma notify_first_wakes sem l :
  Forall2 (λ t t', t' = t ∨ wakes sem t = true) l (notify_first sem l).
Proof.
  induction l as [|t l IH]; [constructor|]. simpl.
  destruct (wakes sem t) eqn:E.
  - constructor; [by right|]. apply Forall2_diag_left. by left.
  - constructor; [by left|done].
Qed.

Lemma notify_each_wakes sem l :
  Forall2 (λ t t', t' = t ∨ wakes sem t = true) l (notify_each sem l).
Proof.
  induction l as [|t l IH]; [constructor|]. simpl.
  destruct (wakes sem t) eqn:E; constructor; auto.
Qed.

(** A library call leaves a waiting thread alone, unless it notifies the
    semaphore id the thread waits on. *)
Lemma user_call_frame who c g clk g' c' clk' evs j u :
  machine_ok (mk_machine g who clk) →
  user_call who c g clk = Some (g', c', clk', evs) →
  thrds (sched g) !! j = Some u → state u = WAIT →
  notifies (sem_id u) (in_call c) = false →
  thrds (sched g') !! j = Some u ∧ dispatched evs = [].
Proof.
  intros [Hz Hm] Hcall Hj Hs Hn. simpl in Hz, Hm.
  assert (Hin : inited g = true).
  { destruct (inited g); [done|]. rewrite (Hz eq_refl) in Hj.
    apply lookup_replicate in Hj as [-> _]. done. }
  assert (Hthr : ∀ f, who = CThread f → j ≠ Z.to_nat (cur_thrd (sched g))).
  { intros f ->. destruct Hm as [_ (x & Hx & Hr)].
    destruct (pool_lookup_cur _ _ _ Hx) as [Hx' _]. intros ->.
    rewrite Hx' in Hj. injection Hj as ->.
    destruct Hr as [[? _]|[? _]]; congruence. }
  unfold user_call in Hcall.
  destruct c as [p n sz a| | |period|after|sem timeout|sem|sem].
  - assert (Hcase : thrds (sched (coop_sched_thread p n sz a g).2) !! j = Some u).
    { destruct (coop_sched_thread_cases p n sz a g)
        as [[_ ->]|[(_ & _ & ->)|(_ & _ & [(l & Hl & ->)|[_ ->]])]]; try done.
      - rewrite (sched_init_noop _ Hin) in Hl |- *. simpl.
        apply sched_first_empty_Some in Hl as (i & t & Hi & Ht & _ & ->).
        rewrite list_lookup_insert_ne; [done|]. intros ->. congruence.
      - by rewrite (sched_init_noop _ Hin). }
    destruct (coop_sched_thread p n sz a g) as [e g1]. simpl in Hcase.
    destruct who; simplify_eq/=; done.
  - destruct who; simplify_eq/=; done.
  - destruct (coop_thread_name _); destruct who; simplify_eq/=; done.
  - destruct who as [| |f]; try done. destruct Hm as [Hp Hr].
    pose proof Hr as (x & Hx & _).
    destruct (coop_idle_exact f _ x Hp Hr Hx) as [H0 H1].
    pose proof (tick_wrap_range period).
    destruct (decide (tick_wrap period = 0)) as [E|E].
    + rewrite E, H0 in Hcall. simpl in Hcall. injection Hcall as <- <- <- <-. simpl.
      rewrite list_lookup_insert_ne by (symmetry; by eapply Hthr). done.
    + destruct clk as [|now clk1].
      { unfold coop_idle in Hcall. rewrite (proj2 (Z.ltb_lt _ _)) in Hcall by lia. done. }
      rewrite H1 in Hcall by lia. simpl in Hcall. injection Hcall as <- <- <- <-. simpl.
      rewrite list_lookup_insert_ne by (symmetry; by eapply Hthr). done.
  - destruct who as [| |f]; try done. destruct Hm as [Hp Hr].
    pose proof Hr as (x & Hx & _). unfold coop_yield_after in Hcall.
    destruct (coop_tick_cb clk) as [[tick clk1]|]; [|done]. simpl in Hcall.
    destruct (COOP_IS_TICK_OVER _ _).
    + rewrite (yield_exact f ApiYieldAfter RUN _ x Hr Hx) in Hcall. simpl in Hcall.
      injection Hcall as <- <- <- <-. simpl.
      rewrite list_lookup_insert_ne by (symmetry; by eapply Hthr). done.
    + simpl in Hcall. by injection Hcall as <- <- <- <-.
  - destruct who as [| |f]; try done. destruct Hm as [Hp Hr].
    pose proof Hr as (x & Hx & _). unfold coop_wait in Hcall.
    destruct (wait_enter _ _ _ _) as [[s1 clk1]|] eqn:Ew; [|done]. simpl in Hcall.
    destruct (wait_enter_ok f _ _ _ _ _ _ Ew Hp Hr) as (_ & Hr1 & x1 & Hx1 & _).
    rewrite (yield_exact f ApiWait WAIT _ x1 Hr1 Hx1) in Hcall. simpl in Hcall.
    injection Hcall as <- <- <- <-. simpl.
    rewrite (wait_enter_eq _ _ _ _ x Hx) in Ew.
    assert (Hs1 : cur_thrd s1 = cur_thrd (sched g) ∧ thrds s1 !! j = Some u).
    { destruct (_ =? 0); [|destruct clk as [|now clk2]; [done|]];
        injection Ew as <- <-; simpl;
        (split; [done|]); rewrite list_lookup_insert_ne by (symmetry; by eapply Hthr); done. }
    destruct Hs1 as [-> Hj1].
    rewrite list_lookup_insert_ne by (symmetry; by eapply Hthr). done.
  - assert (Hw : wakes sem u = false).
    { unfold wakes. simpl in Hn. apply andb_false_iff. right.
      rewrite Z.eqb_sym. done. }
    assert (Hk : thrds (coop_notify sem (sched g)) !! j = Some u).
    { simpl. destruct (Forall2_lookup_l _ _ _ _ _ (notify_first_wakes sem _) Hj)
        as (u' & Hu' & [->|?]); [done|congruence]. }
    destruct who; simplify_eq/=; done.
  - assert (Hw : wakes sem u = false).
    { unfold wakes. simpl in Hn. apply andb_false_iff. right.
      rewrite Z.eqb_sym. done. }
    assert (Hk : thrds (coop_notify_all sem (sched g)) !! j = Some u).
    { simpl. destruct (Forall2_lookup_l _ _ _ _ _ (notify_each_wakes sem _) Hj)
        as (u' & Hu' & [->|?]); [done|congruence]. }
    destruct who; simplify_eq/=; done.
Qed.

Lemma step_frame inp m m' evs j u :
  machine_ok m → step inp m = Some (m', evs) →
  thrds (sched (glob m)) !! j = Some u → state u = WAIT → inf u = true →
  notifies (sem_id u) inp = false →
  thrds (sched (glob m')) !! j = Some u ∧ Z.of_nat j ∉ dispatched evs.
Proof.
  intros Hok Hstep Hj Hs Hinf Hn. unfold step in Hstep.
  destruct inp as [c| |], (ctl m) as [| f | f] eqn:Hc; try done.
  - destruct (user_call _ _ _ _) as [[[[g' c'] clk'] evs']|] eqn:Eu; [|done].
    simpl in Hstep. injection Hstep as <- <-. simpl.
    destruct (user_call_frame CMain c (glob m) (clock m) g' c' clk' evs' j u)
      as [? ->]; try done; [|split; [done|by intros ?%elem_of_nil]].
    destruct m; simpl in *; by subst.
  - destruct (user_call _ _ _ _) as [[[[g' c'] clk'] evs']|] eqn:Eu; [|done].
    simpl in Hstep. injection Hstep as <- <-. simpl.
    destruct (user_call_frame (CThread f) c (glob m) (clock m) g' c' clk' evs' j u)
      as [? ->]; try done; [|split; [done|by intros ?%elem_of_nil]].
    destruct m; simpl in *; by subst.
  - destruct Hok as [_ Hm]. rewrite Hc in Hm. destruct Hm as [Hp Hr].
    pose proof Hr as (x & Hx & Hro). destruct (pool_lookup_cur _ _ _ Hx) as [Hx' _].
    assert (Hne : j ≠ Z.to_nat (cur_thrd (sched (glob m)))).
    { intros ->. rewrite Hx' in Hj. injection Hj as ->.
      destruct Hro as [[? _]|[? _]]; congruence. }
    destruct (thrd_exit_total f _ x Hp Hr Hx)
      as [(_ & _ & He)|(_ & v & s' & _ & He & _ & _ & Hfr & _)];
      rewrite He in Hstep; simpl in Hstep; injection Hstep as <- <-; simpl.
    + rewrite list_lookup_insert_ne by done. split; [done|by intros ?%elem_of_nil].
    + split; [|by intros ?%elem_of_nil].
      destruct (Hfr _ _ Hj Hne) as (t' & Ht' & [->|[? _]]); [done|congruence].
  - destruct Hok as [_ Hm]. rewrite Hc in Hm. destruct Hm as (Hp & _).
    unfold service_step in Hstep.
    assert (Hb : 0 < busy_n (sched (glob m))).
    { destruct Hp as (_ & (-> & _) & _).
      pose proof (count_state_pos busy _ _ _ Hj) as H1. rewrite Hs in H1.
      specialize (H1 eq_refl). lia. }
    apply Z.ltb_lt in Hb. rewrite Hb in Hstep.
    destruct (sched_iter _ _ _) as [[[[s' c] clk'] evs']|] eqn:Ei; [|done].
    simpl in Hstep. injection Hstep as <- <-. simpl.
    eapply sched_iter_frame; try done; [congruence|eauto].
Qed.

(** X11. An infinite wait ends only by a notification.  A thread in [WAIT]
    with no timeout keeps its slot, every field of it, through any run of
    the machine (passes of the dispatcher, calls and returns of the other
    threads) that makes no [coop_notify] or [coop_notify_all] on the
    semaphore id it waits on; during such a run it is never given
    control. *)
Theorem infinite_wait_persists ins m m' evs j u :
  reachable m → run ins m = Some (m', evs) →
  thrds (sched (glob m)) !! j = Some u → state u = WAIT → inf u = true →
  Forall (λ inp, notifies (sem_id u) inp = false) ins →
  thrds (sched (glob m')) !! j = Some u ∧ Z.of_nat j ∉ dispatched evs.
Proof.
  intros Hreach%reachable_ok Hrun Hj Hs Hinf Hall.
  revert m evs Hreach Hrun Hj.
  induction Hall as [|inp ins Hn Hall IH]; intros m evs Hok Hrun Hj; simpl in Hrun.
  - injection Hrun as <- <-. split; [done|by intros ?%elem_of_nil].
  - destruct (step inp m) as [[m1 e1]|] eqn:Hstep; [|done]. simpl in Hrun.
    destruct (run ins m1) as [[m2 e2]|] eqn:Hrest; [|done]. simpl in Hrun.
    injection Hrun as <- <-.
    destruct (step_frame _ _ _ _ _ _ Hok Hstep Hj Hs Hinf Hn) as [Hj1 Hd1].
    destruct (IH m1 e2 (step_ok _ _ _ _ Hstep Hok) Hrest Hj1) as [Hj2 Hd2].
    split; [done|]. rewrite dispatched_app. intros [?|?]%elem_of_app; done.
Qed.

End Frame.

Section Lifecycle.
Context `{cfg : Config}.

(** ** The life cycle of a slot *)

Lemma slot_step_refl t : slot_step t t.
Proof. unfold slot_step. by destruct (state t). Qed.

Lemma slots_insert (R0 : coop_thrd_ctx_t → coop_thrd_ctx_t → Prop) l l1 i w :
  Forall2 R0 l l1 → (∀ t t1, R0 t t1 → slot_step t t1) →
  (∀ t t1, l !! i = Some t → l1 !! i = Some t1 → R0 t t1 → slot_step t w) →
  Forall2 slot_step l (<[i := w]> l1).
Proof.
  intros HF Hmono Hw. apply Forall2_same_length_lookup_2.
  { rewrite length_insert. by eapply Forall2_length. }
  intros j t t' Hj Hj'.
  destruct (Forall2_lookup_l _ _ _ _ _ HF Hj) as (t1 & Ht1 & Hr).
  apply list_lookup_insert_Some in Hj' as [(-> & <- & _)|[_ Hj']].
  - by eapply Hw.
  - rewrite Ht1 in Hj'. injection Hj' as <-. by apply Hmono.
Qed.

Lemma slots_same l : Forall2 slot_step l l.
Proof. apply Forall2_diag_left, slot_step_refl. Qed.

Lemma sched_run_shape f s clk s' c clk' evs x :
  sched_run f s clk = Some (s', c, clk', evs) →
  thrd_at (thrds s) (cur_thrd s) = Some x →
  ∃ tick, thrds s' = <[Z.to_nat (cur_thrd s) := set_switch_tick tick x]> (thrds s).
Proof.
  unfold sched_run, thrd_upd. destruct (coop_tick_cb clk) as [[tick clk1]|]; [|done]. simpl.
  intros H Hx. rewrite Hx in H. simpl in H.
  destruct (thrd_at _ _) as [t|]; [|done]. simpl in H.
  destruct (longjmp _ _) as [[c1 e1]|]; [|done]. simpl in H.
  injection H as <- <- <- <-. simpl. eauto.
Qed.

(** What a pass of the loop does to the slot it selects. *)
Lemma sched_iter_shape f s clk s' c clk' evs :
  pool_ok None s → sched_iter f s clk = Some (s', c, clk', evs) →
  ∃ s1 t1 w,
    Forall2 (λ t t', t' = t ∨ (state t = IDLE ∧ t' = set_state RUN t)) (thrds s) (thrds s1) ∧
    thrds s1 !! Z.to_nat (next_thrd (cur_thrd s)) = Some t1 ∧
    thrds s' = <[Z.to_nat (next_thrd (cur_thrd s)) := w]> (thrds s1) ∧
    proc w = proc t1 ∧ name w = name t1 ∧ arg w = arg t1 ∧ stack_sz w = stack_sz t1 ∧
    (w = t1 ∨ (state t1 = NEW ∧ state w = NEW) ∨
     (_IS_STARTED (state t1) = true ∧ state w = RUN ∧
      depth w = depth t1 ∧ entry_ctx w = entry_ctx t1)).
Proof.
  intros Hp Hit. unfold sched_iter in Hit. fold (next_thrd (cur_thrd s)) in Hit.
  assert (Hp0 : pool_ok None (set_cur_thrd (next_thrd (cur_thrd s)) s))
    by (by eapply pool_ok_scalars).
  destruct (_system_idle _ _) as [[[s1 clk1] evs0]|] eqn:Eidle; [|done].
  destruct (system_idle_loop_ok _ _ _ _ _ _ _ Eidle Hp0) as (_ & Hcur & _).
  destruct (system_idle_loop_rel _ _ _ _ _ _ _ Eidle Hp0) as [HF _].
  simpl in Hcur, HF, Hit.
  destruct (thrd_at (thrds s1) (cur_thrd s1)) as [t1|] eqn:Ht1; [|done]. simpl in Hit.
  destruct (pool_lookup_cur _ _ _ Ht1) as [Ht1' Hc1]. rewrite <- Hcur.
  exists s1, t1.
  assert (Hskip : thrds s1 = <[Z.to_nat (cur_thrd s1) := t1]> (thrds s1))
    by (by rewrite list_insert_id).
  assert (Hrun : ∀ s2 clk2 x,
            ('(s4, c4, clk4, evs4) ← sched_run f s2 clk2; Some (s4, c4, clk4, evs0 ++ evs4))
              = Some (s', c, clk', evs) →
            cur_thrd s2 = cur_thrd s1 →
            thrds s2 = <[Z.to_nat (cur_thrd s1) := x]> (thrds s1) →
            ∃ tick, thrds s' = <[Z.to_nat (cur_thrd s1) := set_switch_tick tick x]> (thrds s1)).
  { intros s2 clk2 x Er Hc2 Hth.
    destruct (sched_run f s2 clk2) as [[[[s4 c4] clk4] evs4]|] eqn:Es; [|done].
    simpl in Er. injection Er as <- <- <- <-.
    destruct (sched_run_shape _ _ _ _ _ _ _ x Es) as [tick ->].
    { rewrite Hc2, Hth. by eapply thrd_at_insert_eq. }
    exists tick. by rewrite Hc2, Hth, list_insert_insert_eq. }
  destruct (state t1) eqn:Est.
  - injection Hit as <- <- <- <-. exists t1. split_and!; try done. by left.
  - injection Hit as <- <- <- <-. exists t1. split_and!; try done. by left.
  - unfold thrd_upd in Hit. simpl in Hit. rewrite Ht1 in Hit. simpl in Hit.
    erewrite thrd_at_insert_eq in Hit by done. simpl in Hit.
    destruct (coop_tick_cb clk1) as [[tick clk2]|]; [|done]. simpl in Hit.
    erewrite thrd_at_insert_eq in Hit by (by eapply thrd_at_insert_eq). simpl in Hit.
    injection Hit as <- <- <- <-. simpl. rewrite !list_insert_insert_eq.
    eexists. split_and!; try done. right. left. done.
  - destruct (Hrun s1 clk1 t1 Hit eq_refl Hskip) as [tick ->].
    eexists. split_and!; try done. right. right. done.
  - destruct (coop_tick_cb _) as [[? ?]|]; [|done]. simpl in Hit.
    destruct (negb _).
    { injection Hit as <- <- <- <-. exists t1. split_and!; try done. by left. }
    unfold thrd_upd in Hit. rewrite Ht1 in Hit. simpl in Hit.
    destruct (Hrun _ _ (set_state RUN t1) Hit eq_refl eq_refl) as [tick ->].
    eexists. split_and!; try done. right. right. done.
  - destruct (inf t1).
    { injection Hit as <- <- <- <-. exists t1. split_and!; try done. by left. }
    destruct (coop_tick_cb _) as [[? ?]|]; [|done]. simpl in Hit.
    destruct (negb _).
    { injection Hit as <- <- <- <-. exists t1. split_and!; try done. by left. }
    unfold thrd_upd in Hit. rewrite Ht1 in Hit. simpl in Hit.
    destruct (Hrun _ _ (set_state RUN t1) Hit eq_refl eq_refl) as [tick ->].
    eexists. split_and!; try done. right. right. done.
Qed.

Lemma sched_iter_slots f s clk s' c clk' evs :
  pool_ok None s → sched_iter f s clk = Some (s', c, clk', evs) →
  Forall2 slot_step (thrds s) (thrds s').
Proof.
  intros Hp Hit.
  destruct (sched_iter_shape _ _ _ _ _ _ _ Hp Hit)
    as (s1 & t1 & w & HF & Ht1 & -> & Hpr & Hna & Har & Hsz & Hw).
  eapply slots_insert; [exact HF| |].
  - intros t t' [->|[Hs ->]]; [apply slot_step_refl|].
    unfold slot_step. simpl. by rewrite Hs.
  - intros t t1' Ht Ht1' Hr. rewrite Ht1 in Ht1'. injection Ht1' as <-.
    unfold slot_step. rewrite Hpr, Hna, Har, Hsz.
    destruct Hr as [->|[Hs ->]]; simpl in *.
    + destruct Hw as [->|[[Hs ->]|(Hst & -> & -> & ->)]].
      * by destruct (state t).
      * by rewrite Hs.
      * by destruct (state t).
    + rewrite Hs. destruct Hw as [->|[[? _]|(_ & -> & -> & ->)]]; done.
Qed.

Lemma sched_init_thrds g :
  (inited g = false → sched g = zero_sched) →
  thrds (sched (_sched_init false g)) = thrds (sched g).
Proof.
  intros Hz. unfold _sched_init. destruct (inited g); [done|]. simpl.
  by rewrite (Hz eq_refl).
Qed.

Lemma user_call_slots who c g clk g' c' clk' evs :
  machine_ok (mk_machine g who clk) →
  user_call who c g clk = Some (g', c', clk', evs) →
  Forall2 slot_step (thrds (sched g)) (thrds (sched g')).
Proof.
  intros [Hz Hm] Hcall. simpl in Hz, Hm. unfold user_call in Hcall.
  assert (Hnotif : ∀ l',
    Forall2 (λ t t', t' = t ∨ (state t = WAIT ∧ t' = set_state RUN (set_notif true t)))
      (thrds (sched g)) l' → Forall2 slot_step (thrds (sched g)) l').
  { intros l' HF. eapply Forall2_impl; [exact HF|].
    intros t t' [->|[Hs ->]]; [apply slot_step_refl|].
    unfold slot_step. simpl. by rewrite Hs. }
  assert (Hyield : ∀ f x w, who = CThread f →
    thrd_at (thrds (sched g)) (cur_thrd (sched g)) = Some x →
    proc w = proc x → name w = name x → arg w = arg x → stack_sz w = stack_sz x →
    depth w = depth x → entry_ctx w = entry_ctx x →
    state w = RUN ∨ state w = IDLE ∨ state w = WAIT →
    Forall2 slot_step (thrds (sched g))
      (<[Z.to_nat (cur_thrd (sched g)) := w]> (thrds (sched g)))).
  { intros f x w -> Hx Hpr Hna Har Hsz Hd He Hst.
    destruct Hm as [_ (y & Hy & Hr)]. rewrite Hx in Hy. injection Hy as <-.
    destruct (pool_lookup_cur _ _ _ Hx) as [Hx' _].
    apply (slots_insert eq); [apply Forall2_diag_left; done| |].
    - intros t t1 ->. apply slot_step_refl.
    - intros t t1 Ht _ _. rewrite Hx' in Ht. injection Ht as <-.
      unfold slot_step. rewrite Hpr, Hna, Har, Hsz, Hd, He.
      destruct Hr as [[-> _]|[-> _]]; destruct Hst as [-> |[-> | ->]]; done. }
  destruct c as [p n sz a| | |period|after|sem timeout|sem|sem].
  - assert (Hcase : Forall2 slot_step (thrds (sched g))
                      (thrds (sched (coop_sched_thread p n sz a g).2))).
    { destruct (coop_sched_thread_cases p n sz a g)
        as [[_ ->]|[(_ & _ & ->)|(_ & _ & [(l & Hl & ->)|[_ ->]])]]; simpl;
        try apply slots_same.
      - apply sched_first_empty_Some in Hl as (i & t & Hi & Ht & _ & ->).
        rewrite (sched_init_thrds _ Hz) in Hi |- *.
        apply (slots_insert eq); [apply Forall2_diag_left; done| |].
        + intros ? ? ->. apply slot_step_refl.
        + intros t0 t1 Ht0 _ _. rewrite Hi in Ht0. injection Ht0 as <-.
          unfold slot_step. simpl. by rewrite Ht.
      - rewrite (sched_init_thrds _ Hz). apply slots_same. }
    destruct (coop_sched_thread p n sz a g) as [e g1]. simpl in Hcase.
    destruct who; simplify_eq/=; done.
  - destruct who; simplify_eq/=; apply slots_same.
  - destruct (coop_thread_name _); destruct who; simplify_eq/=; apply slots_same.
  - destruct who as [| |f]; try done. destruct Hm as [Hp Hr].
    pose proof Hr as (x & Hx & _).
    destruct (coop_idle_exact f _ x Hp Hr Hx) as [H0 H1].
    pose proof (tick_wrap_range period).
    destruct (decide (tick_wrap period = 0)) as [E|E].
    + rewrite E, H0 in Hcall. simpl in Hcall. injection Hcall as <- <- <- <-. simpl.
      eapply Hyield; try done. by left.
    + destruct clk as [|now clk1].
      { unfold coop_idle in Hcall. rewrite (proj2 (Z.ltb_lt _ _)) in Hcall by lia. done. }
      rewrite H1 in Hcall by lia. simpl in Hcall. injection Hcall as <- <- <- <-. simpl.
      eapply Hyield; try done. right. by left.
  - destruct who as [| |f]; try done. destruct Hm as [Hp Hr].
    pose proof Hr as (x & Hx & _). unfold coop_yield_after in Hcall.
    destruct (coop_tick_cb clk) as [[tick clk1]|]; [|done]. simpl in Hcall.
    destruct (COOP_IS_TICK_OVER _ _).
    + rewrite (yield_exact f ApiYieldAfter RUN _ x Hr Hx) in Hcall. simpl in Hcall.
      injection Hcall as <- <- <- <-. simpl. eapply Hyield; try done. by left.
    + simpl in Hcall. injection Hcall as <- <- <- <-. apply slots_same.
  - destruct who as [| |f]; try done. destruct Hm as [Hp Hr].
    pose proof Hr as (x & Hx & _). unfold coop_wait in Hcall.
    destruct (wait_enter _ _ _ _) as [[s1 clk1]|] eqn:Ew; [|done]. simpl in Hcall.
    destruct (wait_enter_ok f _ _ _ _ _ _ Ew Hp Hr) as (_ & Hr1 & x1 & Hx1 & _).
    rewrite (yield_exact f ApiWait WAIT _ x1 Hr1 Hx1) in Hcall. simpl in Hcall.
    injection Hcall as <- <- <- <-. simpl.
    rewrite (wait_enter_eq _ _ _ _ x Hx) in Ew.
    assert (Hs1 : ∃ y, cur_thrd s1 = cur_thrd (sched g) ∧
              thrds s1 = <[Z.to_nat (cur_thrd (sched g)) := y]> (thrds (sched g)) ∧
              proc y = proc x ∧ name y = name x ∧ arg y = arg x ∧
              stack_sz y = stack_sz x ∧ depth y = depth x ∧ entry_ctx y = entry_ctx x).
    { destruct (_ =? 0); [|destruct clk as [|now clk2]; [done|]];
        injection Ew as <- <-; simpl; eexists; split_and!; done. }
    destruct Hs1 as (y & Hc1 & Hth & Hpr & Hna & Har & Hsz & Hd & He).
    rewrite Hc1, Hth in Hx1. erewrite thrd_at_insert_eq in Hx1 by done.
    injection Hx1 as <-. rewrite Hc1, Hth, list_insert_insert_eq.
    eapply Hyield; try done. right. by right.
  - assert (Hk := Hnotif _ (notify_first_Forall2 sem (thrds (sched g)))).
    destruct who; simplify_eq/=; done.
  - assert (Hk := Hnotif _ (notify_each_Forall2 sem (thrds (sched g)))).
    destruct who; simplify_eq/=; done.
Qed.

Lemma count_busy_zero l : count_state busy l = 0 → Forall (λ t, state t = EMPTY) l.
Proof.
  induction l as [|t l IH]; [constructor|]. simpl. intros H.
  pose proof (count_state_range busy l).
  destruct (state t) eqn:E; simpl in H; try lia. constructor; [done|]. apply IH. lia.
Qed.

(** X12. The life cycle of a thread.  In one step of the machine from a
    reachable state (a library call, a pass of the dispatcher or the return
    of a routine), the state of every slot either stays or changes along
    EMPTY to NEW (scheduled), NEW to RUN, IDLE or WAIT (first yield), RUN to
    IDLE or WAIT (yield), IDLE or WAIT to RUN (woken), RUN to HOLE (returned
    while buried), NEW or RUN to EMPTY (returned at the top), HOLE to EMPTY
    (unwound), and in no other way.  The routine, name, argument and stack
    size stored by [coop_sched_thread] stay as long as the slot is busy, and
    the depth and entry context of a slot stay as long as its stack is on
    the main stack. *)
Theorem thread_lifecycle inp m m' evs :
  reachable m → step inp m = Some (m', evs) →
  Forall2 slot_step (thrds (sched (glob m))) (thrds (sched (glob m'))).
Proof.
  intros Hok%reachable_ok Hstep. pose proof (step_ok _ _ _ _ Hstep Hok) as Hok'.
  unfold step in Hstep.
  destruct inp as [c| |], (ctl m) as [| f | f] eqn:Hc; try done.
  - destruct (user_call _ _ _ _) as [[[[g' c'] clk'] evs']|] eqn:Eu; [|done].
    simpl in Hstep. injection Hstep as <- <-. simpl.
    eapply (user_call_slots CMain); [|exact Eu]. destruct m; simpl in *; by subst.
  - destruct (user_call _ _ _ _) as [[[[g' c'] clk'] evs']|] eqn:Eu; [|done].
    simpl in Hstep. injection Hstep as <- <-. simpl.
    eapply (user_call_slots (CThread f)); [|exact Eu]. destruct m; simpl in *; by subst.
  - destruct Hok as [_ Hm]. rewrite Hc in Hm. destruct Hm as [Hp Hr].
    pose proof Hr as (x & Hx & Hro). destruct (pool_lookup_cur _ _ _ Hx) as [Hx' _].
    destruct (thrd_exit_total f _ x Hp Hr Hx)
      as [(_ & Hs & He)|(_ & v & s' & _ & He & _ & Hk & Hfr & _)];
      rewrite He in Hstep; simpl in Hstep; injection Hstep as <- <-; simpl.
    + apply (slots_insert eq); [apply Forall2_diag_left; done| |].
      * intros ? ? ->. apply slot_step_refl.
      * intros t t1 Ht _ _. rewrite Hx' in Ht. injection Ht as <-.
        unfold slot_step. simpl. by rewrite Hs.
    + apply Forall2_same_length_lookup_2.
      { destruct Hok' as [_ Hm']. apply mode_pool_ok in Hm' as (r & Hl' & _).
        simpl in Hl'. rewrite Hl'. by destruct Hp as [-> _]. }
      intros j t t' Hj Hj'.
      destruct (decide (j = Z.to_nat (cur_thrd (sched (glob m))))) as [->|Hne].
      * rewrite Hx' in Hj. injection Hj as <-. rewrite Hk in Hj'. injection Hj' as <-.
        unfold slot_step. simpl. destruct Hro as [[-> _]|[-> _]]; done.
      * destruct (Hfr _ _ Hj Hne) as (t2 & Ht2 & Hr2). rewrite Hj' in Ht2.
        injection Ht2 as <-. destruct Hr2 as [->|[Hs ->]]; [apply slot_step_refl|].
        unfold slot_step. simpl. by rewrite Hs.
  - destruct Hok as [_ Hm]. rewrite Hc in Hm. destruct Hm as (Hp & _).
    unfold service_step in Hstep.
    destruct (0 <? busy_n (sched (glob m))) eqn:Hb.
    + destruct (sched_iter _ _ _) as [[[[s' c] clk'] evs']|] eqn:Ei; [|done].
      simpl in Hstep. injection Hstep as <- <-. simpl. by eapply sched_iter_slots.
    + destruct f; [|done]. simpl in Hstep. injection Hstep as <- <-.
      rewrite sched_init_force. simpl.
      destruct Hp as (Hlen & (Hbn & _) & _). apply Z.ltb_ge in Hb.
      pose proof (count_state_range busy (thrds (sched (glob m)))).
      pose proof (count_busy_zero (thrds (sched (glob m))) ltac:(lia)) as Hall.
      apply Forall2_same_length_lookup_2; [by rewrite length_replicate|].
      intros j t t' Hj [-> _]%lookup_replicate.
      rewrite Forall_forall in Hall.
      unfold slot_step. simpl. rewrite (Hall t); [done|]. by eapply list_elem_of_lookup_2.
Qed.

End Lifecycle.

Section Completion.
Context `{cfg : Config}.

(** ** Threads that run to completion *)

(** With the slots [j .. j+n-1] holding threads not yet entered and all
    other slots free, the dispatcher at slot [j] enters them one after the
    other as each returns, and then leaves its loop. *)
Lemma drain n : ∀ j m,
  (j + n ≤ CONFIG_MAX_THREADS)%nat →
  machine_ok m → ctl m = CLoop 0 → (n ≤ length (clock m))%nat →
  ((0 < n)%nat → next_thrd (cur_thrd (sched (glob m))) = Z.of_nat j) →
  (∀ i t, thrds (sched (glob m)) !! i = Some t →
     state t = if decide (j ≤ i < j + n)%nat then NEW else EMPTY) →
  ∃ m' evs, run (concat (replicate n [in_sched; in_return]) ++ [in_sched]) m
              = Some (m', evs) ∧
    dispatched evs = Z.of_nat <$> seq j n ∧
    last evs = Some ev_service_return ∧
    ctl m' = CMain ∧ sched (glob m') = set_cur_thrd NO_THRD zero_sched ∧
    clock m' = drop n (clock m).
Proof.
  induction n as [|n IH]; intros j m Hjn Hok Hc Hclk Hnext Hst.
  - pose proof Hok as [_ Hm]. rewrite Hc in Hm. destruct Hm as ((_ & (Hb & _) & _) & _).
    assert (Hb0 : busy_n (sched (glob m)) = 0).
    { rewrite Hb. clear -Hst. revert Hst.
      generalize (thrds (sched (glob m))). intros l. induction l as [|t l IHl]; [done|].
      intros H. simpl. rewrite (H 0%nat t eq_refl).
      rewrite decide_False by lia. simpl. apply IHl. intros i u Hi.
      rewrite (H (S i) u Hi). by rewrite !decide_False by lia. }
    eexists _, _. simpl. unfold step. rewrite Hc. unfold service_step. rewrite Hb0. simpl.
    split; [done|]. rewrite sched_init_force. by rewrite drop_0.
  - pose proof Hok as [_ Hm]. rewrite Hc in Hm. destruct Hm as (Hp & Hsd & _).
    pose proof Hp as (Hlen & (Hb & _ & Hi) & _).
    set (s := sched (glob m)) in *.
    destruct (clock m) as [|r0 clk] eqn:Eclk; [simpl in Hclk; lia|].
    specialize (Hnext ltac:(lia)).
    destruct (lookup_lt_is_Some_2 (thrds s) j) as [t Ht]; [lia|].
    assert (Hs : state t = NEW) by (rewrite (Hst _ _ Ht); by rewrite decide_True by lia).
    assert (Hta : thrd_at (thrds s) (next_thrd (cur_thrd s)) = Some t).
    { rewrite Hnext. by apply thrd_at_nat. }
    assert (Hidle : idle_ready s = false).
    { unfold idle_ready. apply andb_false_iff. left. apply Z.ltb_ge. rewrite Hi.
      destruct (Z.le_gt_cases (count_state _IS_IDLE (thrds s)) 0) as [?|Hpos]; [done|].
      destruct (count_idle_pos (thrds s) ltac:(lia)) as (u & [i Hu]%list_elem_of_lookup_1 & Hsu).
      rewrite (Hst _ _ Hu) in Hsu. by case_decide. }
    destruct (sched_iter_enters 0 s r0 clk t Hidle Hta Hs) as (s1 & Hit & Hc1 & Hd1 & Hth1).
    assert (Hbusy : 0 < busy_n s).
    { rewrite Hb. pose proof (count_state_pos busy _ _ _ Ht) as H1. rewrite Hs in H1.
      specialize (H1 eq_refl). lia. }
    assert (Hstep1 : step in_sched m =
              Some (mk_machine (mk_globals s1 (inited (glob m))) (CThread 0) clk,
                    [ev_enter (Z.of_nat j)])).
    { unfold step. rewrite Hc. unfold service_step. fold s.
      apply Z.ltb_lt in Hbusy. rewrite Hbusy, Eclk, Hit. simpl. by rewrite Hnext. }
    pose proof (step_ok _ _ _ _ Hstep1 Hok) as Hok1.
    pose proof Hok1 as [_ [Hp1 Hr1]]. simpl in Hp1, Hr1.
    rewrite Hnext in Hc1, Hth1. rewrite Nat2Z.id in Hth1.
    set (w := set_switch_tick (tick_wrap r0)
                (set_depth (uint (sched_depth s + 1))
                   (set_entry_ctx (JSaved 0 sched_pos_entry_thrd) t))) in *.
    assert (Hw : thrd_at (thrds s1) (cur_thrd s1) = Some w).
    { rewrite Hc1, Hth1. apply thrd_at_nat; [by rewrite length_insert|].
      apply list_lookup_insert_eq. lia. }
    destruct (thrd_exit_total 0 s1 w Hp1 Hr1 Hw)
      as [(_ & Hrun & _)|(_ & v & s2 & _ & He & Hd2 & Hk & Hfr & Hc2)].
    { subst w. simpl in Hrun. congruence. }
    rewrite Hd1, Hsd in Hd2. change (uint (Z.of_nat 0 + 1)) with 1 in Hd2.
    assert (Hsd2 : sched_depth s2 = 0) by lia. rewrite Hsd2 in He. simpl in He.
    assert (Hstep2 : step in_return (mk_machine (mk_globals s1 (inited (glob m))) (CThread 0) clk)
              = Some (mk_machine (mk_globals s2 (inited (glob m))) (CLoop 0) clk, [])).
    { unfold step. simpl. by rewrite He. }
    pose proof (step_ok _ _ _ _ Hstep2 Hok1) as Hok2.
    rewrite Hc1, Nat2Z.id in Hk, Hfr.
    destruct (IH (S j) (mk_machine (mk_globals s2 (inited (glob m))) (CLoop 0) clk)
                ltac:(lia) Hok2 eq_refl) as (m' & evs & Hrun & Hd & Hl & Hcm & Hsm & Hcl);
      [simpl in *; lia| | |].
    { intros Hn. simpl. rewrite Hc2, Hc1.
      pose proof MAX_fit. unfold MAX in *.
      rewrite next_thrd_in_pool by (unfold MAX; lia).
      rewrite Z.mod_small by (unfold MAX; lia). lia. }
    { intros i u Hu. simpl in Hu.
      destruct (decide (i = j)) as [->|Hne].
      - rewrite Hk in Hu. injection Hu as <-. simpl. by rewrite decide_False by lia.
      - assert (His : is_Some (thrds s1 !! i)).
        { apply lookup_lt_is_Some. rewrite Hth1, length_insert, Hlen.
          apply lookup_lt_Some in Hu. destruct Hok2 as [_ (Hp2 & _)]. simpl in Hp2.
          destruct Hp2 as [Hl2 _]. by rewrite <- Hl2. }
        destruct His as [u1 Hu1].
        destruct (Hfr _ _ Hu1 Hne) as (u' & Hu' & Hrel). rewrite Hu in Hu'.
        injection Hu' as <-.
        rewrite Hth1, list_lookup_insert_ne in Hu1 by done.
        pose proof (Hst _ _ Hu1) as Hsu1.
        assert (state u = state u1) as ->.
        { destruct Hrel as [->|[Hh ->]]; [done|]. rewrite Hh in Hsu1. by case_decide. }
        rewrite Hsu1. repeat case_decide; done || lia. }
    exists m', ([ev_enter (Z.of_nat j)] ++ [] ++ evs).
    change (concat (replicate (S n) [in_sched; in_return]) ++ [in_sched])
      with (in_sched :: in_return :: (concat (replicate n [in_sched; in_return]) ++ [in_sched])).
    cbn [run]. rewrite Hstep1. cbn [mbind option_bind]. rewrite Hstep2.
    cbn [mbind option_bind]. rewrite Hrun. simpl.
    split_and!; try done.
    + change (dispatched (ev_enter (Z.of_nat j) :: evs)) with (Z.of_nat j :: dispatched evs).
      by rewrite Hd.
    + destruct evs; [done|]. done.
Qed.

(** X13. Threads that run to completion.  Up to [CONFIG_MAX_THREADS]
    threads are scheduled from program start, with any non-null routines,
    names, stack sizes and arguments, and [coop_sched_service] is called; if
    every thread returns without yielding when it is entered, then, whatever
    the clock reads, the threads are given control once each in the order in
    which they were scheduled, [coop_sched_service] returns to [main] after
    the last of them, and the scheduler is back in its initial state, having
    read the clock once per thread. *)
Theorem threads_run_to_completion cs clk :
  Forall (λ c, sa_proc c ≠ 0) cs → (length cs ≤ CONFIG_MAX_THREADS)%nat →
  (length cs ≤ length clk)%nat →
  ∃ m evs, run (run_to_completion cs) (init clk) = Some (m, evs) ∧
    dispatched evs = Z.of_nat <$> seq 0 (length cs) ∧
    last evs = Some ev_service_return ∧
    ctl m = CMain ∧ sched (glob m) = set_cur_thrd NO_THRD zero_sched ∧
    clock m = drop (length cs) clk.
Proof.
  intros Hcs Hlen Hclk.
  destruct (sched_many_in_order cs [] (init clk) Hcs)
    as (m0 & Hrun0 & Hok0 & Hc0 & Hclk0 & Hs0);
    [simpl; lia|apply init_ok|done|apply scheduled_in_order_nil; by left|].
  rewrite app_nil_l in Hs0. simpl in Hclk0.
  assert (Hreach0 : reachable m0).
  { eapply run_reachable; [apply reach_init|exact Hrun0]. }
  assert (Hstep : step do_service m0 =
            Some (mk_machine (glob m0) (CLoop 0) (clock m0), [])).
  { unfold step, do_service. by rewrite Hc0. }
  pose proof (step_ok _ _ _ _ Hstep Hok0) as Hok1.
  destruct Hs0 as (Hb & Hl & Hst).
  destruct (drain (length cs) 0 (mk_machine (glob m0) (CLoop 0) (clock m0)))
    as (m & evs & Hrun & Hd & Hlast & Hcm & Hsm & Hcl); try done.
  - simpl. by rewrite Hclk0.
  - intros Hpos. simpl.
    assert (Hin : inited (glob m0) = true).
    { destruct (inited (glob m0)) eqn:E; [done|].
      rewrite (proj1 Hok0 E) in Hb. simpl in Hb. lia. }
    rewrite (main_cur_thrd m0 Hreach0 Hc0 Hin). apply next_thrd_NO_THRD.
  - intros i t Hi. simpl in Hi. specialize (Hst _ _ Hi).
    destruct (decide (i < length cs)%nat) as [Hlt|Hge].
    + destruct (lookup_lt_is_Some_2 cs i Hlt) as [p Hp]. rewrite Hp in Hst.
      rewrite decide_True by lia. by destruct Hst.
    + rewrite lookup_ge_None_2 in Hst by lia. by rewrite decide_False by lia.
  - exists m, (((λ _, ev_return (ret_error COOP_SUCCESS)) <$> cs) ++ [] ++ evs).
    split_and!; try done.
    + unfold run_to_completion. eapply run_app; [exact Hrun0|].
      cbn [run]. rewrite Hstep. cbn [mbind option_bind]. rewrite Hrun. done.
    + by rewrite dispatched_app, dispatched_returns.
    + rewrite last_app. simpl. by rewrite Hlast.
    + simpl in Hcl. by rewrite Hcl, Hclk0.
Qed.

End Completion.

Section Holes.
Context `{cfg : Config}.

(** ** Holes lie under a thread that has not returned *)

Lemma holes_kept s s' :
  holes_buried s → sched_depth s ≤ sched_depth s' →
  (∀ j t', thrds s' !! j = Some t' → state t' = HOLE → thrds s !! j = Some t') →
  holes_buried s'.
Proof.
  intros Hb Hd Hk j t' Hj Hs. specialize (Hb _ _ (Hk _ _ Hj Hs) Hs). lia.
Qed.

Lemma insert_holes (l : list coop_thrd_ctx_t) i w j t' :
  state w ≠ HOLE → <[i := w]> l !! j = Some t' → state t' = HOLE → l !! j = Some t'.
Proof.
  intros Hw Hj Hs. apply list_lookup_insert_Some in Hj as [(_ & <- & _)|[_ Hj]]; done.
Qed.

Lemma sched_init_depth g :
  (inited g = false → sched g = zero_sched) →
  sched_depth (sched (_sched_init false g)) = sched_depth (sched g).
Proof.
  intros Hz. unfold _sched_init. destruct (inited g); [done|]. simpl.
  by rewrite (Hz eq_refl).
Qed.

Lemma user_call_holes who c g clk g' c' clk' evs :
  machine_ok (mk_machine g who clk) →
  user_call who c g clk = Some (g', c', clk', evs) →
  sched_depth (sched g') = sched_depth (sched g) ∧
  ∀ j t', thrds (sched g') !! j = Some t' → state t' = HOLE →
    thrds (sched g) !! j = Some t'.
Proof.
  intros [Hz Hm] Hcall. simpl in Hz, Hm. unfold user_call in Hcall.
  assert (Hnotif : ∀ l',
    Forall2 (λ t t', t' = t ∨ (state t = WAIT ∧ t' = set_state RUN (set_notif true t)))
      (thrds (sched g)) l' →
    ∀ j t', l' !! j = Some t' → state t' = HOLE → thrds (sched g) !! j = Some t').
  { intros l' HF j t' Hj Hs.
    destruct (Forall2_lookup_r _ _ _ _ _ HF Hj) as (t & Ht & [->|[_ ->]]); done. }
  destruct c as [p n sz a| | |period|after|sem timeout|sem|sem].
  - assert (Hcase :
      sched_depth (sched (coop_sched_thread p n sz a g).2) = sched_depth (sched g) ∧
      ∀ j t', thrds (sched (coop_sched_thread p n sz a g).2) !! j = Some t' →
        state t' = HOLE → thrds (sched g) !! j = Some t').
    { destruct (coop_sched_thread_cases p n sz a g)
        as [[_ ->]|[(_ & _ & ->)|(_ & _ & [(l & Hl & ->)|[_ ->]])]]; simpl;
        try done.
      - apply sched_first_empty_Some in Hl as (i & t & Hi & Ht & _ & ->).
        rewrite (sched_init_thrds _ Hz) in *. rewrite (sched_init_depth _ Hz).
        split; [done|]. intros j t'. by apply insert_holes.
      - by rewrite (sched_init_thrds _ Hz), (sched_init_depth _ Hz). }
    destruct (coop_sched_thread p n sz a g) as [e g1]. simpl in Hcase.
    destruct who; simplify_eq/=; done.
  - destruct who; simplify_eq/=; done.
  - destruct (coop_thread_name _); destruct who; simplify_eq/=; done.
  - destruct who as [| |f]; try done. destruct Hm as [Hp Hr].
    pose proof Hr as (x & Hx & _).
    destruct (coop_idle_exact f _ x Hp Hr Hx) as [H0 H1].
    pose proof (tick_wrap_range period).
    destruct (decide (tick_wrap period = 0)) as [E|E].
    + rewrite E, H0 in Hcall. simpl in Hcall. injection Hcall as <- <- <- <-. simpl.
      split; [done|]. intros j t'. by apply insert_holes.
    + destruct clk as [|now clk1].
      { unfold coop_idle in Hcall. rewrite (proj2 (Z.ltb_lt _ _)) in Hcall by lia. done. }
      rewrite H1 in Hcall by lia. simpl in Hcall. injection Hcall as <- <- <- <-. simpl.
      split; [done|]. intros j t'. by apply insert_holes.
  - destruct who as [| |f]; try done. destruct Hm as [Hp Hr].
    pose proof Hr as (x & Hx & _). unfold coop_yield_after in Hcall.
    destruct (coop_tick_cb clk) as [[tick clk1]|]; [|done]. simpl in Hcall.
    destruct (COOP_IS_TICK_OVER _ _).
    + rewrite (yield_exact f ApiYieldAfter RUN _ x Hr Hx) in Hcall. simpl in Hcall.
      injection Hcall as <- <- <- <-. simpl.
      split; [done|]. intros j t'. by apply insert_holes.
    + simpl in Hcall. injection Hcall as <- <- <- <-. done.
  - destruct who as [| |f]; try done. destruct Hm as [Hp Hr].
    pose proof Hr as (x & Hx & _). unfold coop_wait in Hcall.
    destruct (wait_enter _ _ _ _) as [[s1 clk1]|] eqn:Ew; [|done]. simpl in Hcall.
    destruct (wait_enter_ok f _ _ _ _ _ _ Ew Hp Hr) as (_ & Hr1 & x1 & Hx1 & _).
    rewrite (yield_exact f ApiWait WAIT _ x1 Hr1 Hx1) in Hcall. simpl in Hcall.
    injection Hcall as <- <- <- <-. simpl.
    rewrite (wait_enter_eq _ _ _ _ x Hx) in Ew.
    assert (Hs1 : ∃ y, cur_thrd s1 = cur_thrd (sched g) ∧
              sched_depth s1 = sched_depth (sched g) ∧
              thrds s1 = <[Z.to_nat (cur_thrd (sched g)) := y]> (thrds (sched g))).
    { destruct (_ =? 0); [|destruct clk as [|now clk2]; [done|]];
        injection Ew as <- <-; simpl; eexists; split_and!; done. }
    destruct Hs1 as (y & Hc1 & Hd1 & Hth).
    rewrite Hc1, Hth, list_insert_insert_eq.
    split; [done|]. intros j t'. by apply insert_holes.
  - assert (Hk := Hnotif _ (notify_first_Forall2 sem (thrds (sched g)))).
    destruct who; simplify_eq/=; done.
  - assert (Hk := Hnotif _ (notify_each_Forall2 sem (thrds (sched g)))).
    destruct who; simplify_eq/=; done.
Qed.

Lemma sched_run_depth f s clk s' c clk' evs :
  sched_run f s clk = Some (s', c, clk', evs) → sched_depth s' = sched_depth s.
Proof.
  unfold sched_run, thrd_upd. destruct (coop_tick_cb clk) as [[tick clk1]|]; [|done]. simpl.
  destruct (thrd_at (thrds s) (cur_thrd s)) as [t|]; [|done]. simpl.
  destruct (thrd_at _ _) as [t2|]; [|done]. simpl.
  destruct (longjmp _ _) as [[c1 e1]|]; [|done]. simpl.
  by intros [= <- <- <- <-].
Qed.

Lemma sched_iter_depth f s clk s' c clk' evs :
  pool_ok None s → depths_ok (sched_depth s) s → 0 ≤ sched_depth s →
  sched_iter f s clk = Some (s', c, clk', evs) →
  sched_depth s ≤ sched_depth s'.
Proof.
  intros Hp Hdo Hd Hit. unfold sched_iter in Hit. fold (next_thrd (cur_thrd s)) in Hit.
  assert (Hp0 : pool_ok None (set_cur_thrd (next_thrd (cur_thrd s)) s))
    by (by eapply pool_ok_scalars).
  destruct (_system_idle _ _) as [[[s1 clk1] evs0]|] eqn:Eidle; [|done].
  destruct (system_idle_loop_ok _ _ _ _ _ _ _ Eidle Hp0) as (Hp1 & _ & Hd1 & _ & Hl1).
  simpl in Hd1, Hl1, Hit.
  destruct (thrd_at (thrds s1) (cur_thrd s1)) as [t1|] eqn:Ht1; [|done]. simpl in Hit.
  assert (Hrun : ∀ s2 clk2,
            ('(s4, c4, clk4, evs4) ← sched_run f s2 clk2; Some (s4, c4, clk4, evs0 ++ evs4))
              = Some (s', c, clk', evs) →
            sched_depth s2 = sched_depth s1 → sched_depth s ≤ sched_depth s').
  { intros s2 clk2 Er H2.
    destruct (sched_run f s2 clk2) as [[[[s4 c4] clk4] evs4]|] eqn:Es; [|done].
    simpl in Er. injection Er as <- <- <- <-.
    rewrite (sched_run_depth _ _ _ _ _ _ _ Es). lia. }
  pose proof MAX_fit.
  destruct (state t1) eqn:Est.
  - injection Hit as <- <- <- <-. lia.
  - injection Hit as <- <- <- <-. lia.
  - unfold thrd_upd in Hit. simpl in Hit. rewrite Ht1 in Hit. simpl in Hit.
    erewrite thrd_at_insert_eq in Hit by done. simpl in Hit.
    destruct (coop_tick_cb clk1) as [[tick clk2]|]; [|done]. simpl in Hit.
    erewrite thrd_at_insert_eq in Hit by (by eapply thrd_at_insert_eq). simpl in Hit.
    injection Hit as <- <- <- <-. simpl.
    destruct (pool_lookup_cur _ _ _ Ht1) as [Ht1' _].
    assert (Hroom : sched_depth s1 + 1 ≤ MAX).
    { eapply depth_room; [exact Hp1| |lia|exact Ht1'|by rewrite Est].
      unfold depths_ok. by rewrite Hl1, Hd1. }
    rewrite uint_small by lia. lia.
  - by apply (Hrun s1 clk1).
  - destruct (coop_tick_cb _) as [[? ?]|]; [|done]. simpl in Hit.
    destruct (negb _).
    { injection Hit as <- <- <- <-. lia. }
    unfold thrd_upd in Hit. rewrite Ht1 in Hit. simpl in Hit.
    by eapply Hrun.
  - destruct (inf t1).
    { injection Hit as <- <- <- <-. lia. }
    destruct (coop_tick_cb _) as [[? ?]|]; [|done]. simpl in Hit.
    destruct (negb _).
    { injection Hit as <- <- <- <-. lia. }
    unfold thrd_upd in Hit. rewrite Ht1 in Hit. simpl in Hit.
    by eapply Hrun.
Qed.

Lemma sched_iter_holes f s clk s' c clk' evs :
  pool_ok None s → depths_ok (sched_depth s) s → 0 ≤ sched_depth s →
  sched_iter f s clk = Some (s', c, clk', evs) →
  holes_buried s → holes_buried s'.
Proof.
  intros Hp Hdo Hd Hit Hb.
  apply (holes_kept s); [done|by eapply sched_iter_depth|].
  destruct (sched_iter_shape _ _ _ _ _ _ _ Hp Hit)
    as (s1 & t1 & w & HF & Ht1 & -> & _ & _ & _ & _ & Hw).
  assert (H1 : ∀ j t', thrds s1 !! j = Some t' → state t' = HOLE → thrds s !! j = Some t').
  { intros j t' Hj Hs.
    destruct (Forall2_lookup_r _ _ _ _ _ HF Hj) as (t & Ht & [->|[_ ->]]); done. }
  intros j t' Hj Hs.
  apply list_lookup_insert_Some in Hj as [(<- & <- & _)|[_ Hj]]; [|by apply H1].
  destruct Hw as [->|[[_ Hn]|(_ & Hn & _)]]; [by apply H1| |]; congruence.
Qed.

Lemma thrd_exit_holes f s s' c evs :
  pool_ok (Some (cur_thrd s)) s → running_ok f s →
  thrd_exit s = Some (s', c, evs) → holes_buried s → holes_buried s'.
Proof.
  intros Hp Hr He Hb. pose proof Hr as (x & Hx & Hro).
  destruct (pool_lookup_cur _ _ _ Hx) as [Hx' _].
  destruct (thrd_exit_total f _ x Hp Hr Hx)
    as [(Hlt & Hs & He')|(Hdx & v & s2 & Hmu & He' & _)];
    rewrite He' in He; injection He as <- <- <-.
  - intros j t' Hj Hst. simpl in *.
    apply list_lookup_insert_Some in Hj as [(<- & <- & _)|[_ Hj]]; [done|].
    by eapply Hb.
  - assert (Hsx : state x = NEW ∨ state x = RUN)
      by (destruct Hro as [[? _]|[? _]]; eauto).
    destruct (exit_depths f s x Hx Hro ltac:(lia)) as (_ & Hd & Hdo).
    destruct (mark_unwind_spec s x Hp Hx Hsx ltac:(lia) Hdo)
      as (v' & s2' & Hmu' & _ & Hsd & _ & _ & _ & HF & _ & _ & Hperm & _).
    rewrite Hmu in Hmu'. injection Hmu' as <- <-.
    set (l1 := <[Z.to_nat (cur_thrd s) := set_state EMPTY x]> (thrds s)) in *.
    destruct (started_depth_spec l1 0) as (_ & _ & Hwit).
    set (d := started_depth l1 0) in *.
    intros j t' Hj Hst. rewrite Hsd.
    assert (Hin : depth t' ∈ live_depths (thrds s2)).
    { apply elem_of_live_depths. exists j, t'. by rewrite Hst. }
    rewrite Hperm in Hin. apply elem_of_seqZ_1 in Hin.
    destruct (decide (depth t' = d)) as [Heq|]; [|lia]. exfalso.
    destruct Hwit as [H0|(u & Hu & Hus & Hud)]; [lia|].
    apply list_elem_of_lookup in Hu as [k Hk].
    destruct (Forall2_lookup_l _ _ _ _ _ HF Hk) as (u' & Hk' & Hru).
    assert (u' = u) as ->.
    { destruct Hru as [(Hh & _)|[_ ->]]; [|done]. by rewrite Hh in Hus. }
    assert (j = k) as ->.
    { eapply (live_depth_unique (thrds s2)); try done.
      - rewrite Hperm. apply NoDup_seqZ.
      - by rewrite Hst.
      - by apply started_live.
      - lia. }
    rewrite Hj in Hk'. injection Hk' as ->. by rewrite Hst in Hus.
Qed.

Lemma zero_sched_holes c : holes_buried (set_cur_thrd c zero_sched).
Proof. by intros j t [-> _]%lookup_replicate. Qed.

Lemma step_holes inp m m' evs :
  machine_ok m → step inp m = Some (m', evs) →
  holes_buried (sched (glob m)) → holes_buried (sched (glob m')).
Proof.
  intros Hok Hstep Hb. unfold step in Hstep.
  destruct inp as [c| |], (ctl m) as [| f | f] eqn:Hc; try done.
  - destruct (user_call _ _ _ _) as [[[[g' c'] clk'] evs']|] eqn:Eu; [|done].
    simpl in Hstep. injection Hstep as <- <-. simpl.
    destruct (user_call_holes CMain c (glob m) (clock m) g' c' clk' evs') as [Hd Hk];
      [destruct m; simpl in *; by subst|done|].
    apply (holes_kept (sched (glob m))); [done|lia|done].
  - destruct (user_call _ _ _ _) as [[[[g' c'] clk'] evs']|] eqn:Eu; [|done].
    simpl in Hstep. injection Hstep as <- <-. simpl.
    destruct (user_call_holes (CThread f) c (glob m) (clock m) g' c' clk' evs') as [Hd Hk];
      [destruct m; simpl in *; by subst|done|].
    apply (holes_kept (sched (glob m))); [done|lia|done].
  - destruct Hok as [_ Hm]. rewrite Hc in Hm. destruct Hm as [Hp Hr].
    destruct (thrd_exit _) as [[[s' c'] evs']|] eqn:Ee; [|done].
    simpl in Hstep. injection Hstep as <- <-. simpl. by eapply thrd_exit_holes.
  - destruct Hok as [_ Hm]. rewrite Hc in Hm.
    destruct Hm as (Hp & Hf & Hdo).
    unfold service_step in Hstep.
    destruct (0 <? busy_n (sched (glob m))) eqn:Hbn.
    + destruct (sched_iter _ _ _) as [[[[s' c] clk'] evs']|] eqn:Ei; [|done].
      simpl in Hstep. injection Hstep as <- <-. simpl.
      eapply sched_iter_holes; try done. lia.
    + destruct f; [|done]. simpl in Hstep. injection Hstep as <- <-.
      rewrite sched_init_force. apply zero_sched_holes.
Qed.

Lemma reachable_holes m : reachable m → holes_buried (sched (glob m)).
Proof.
  induction 1 as [clk|i m m' evs Hr IH Hs].
  - by intros j t [-> _]%lookup_replicate.
  - eapply step_holes; [by apply reachable_ok|done|done].
Qed.

(** The top of the stack: when no hole reaches the top depth, the top depth
    is the depth of the most shallow started thread. *)
Lemma top_started l top :
  live_depths l ≡ₚ seqZ 1 top → 0 ≤ top →
  (∀ j t, l !! j = Some t → state t = HOLE → depth t < top) →
  max_started_depth l = top.
Proof.
  intros Hperm Htop Hb.
  pose proof (max_started_depth_nonneg l) as Hnn.
  pose proof (started_depth_max l 0 ltac:(lia)) as Hmax.
  destruct (started_depth_spec l 0) as (_ & Hle & Hwit).
  rewrite Hmax, Z.max_r in Hle, Hwit by lia.
  apply Z.le_antisymm.
  - destruct Hwit as [->|(t & Ht & Hs & <-)]; [done|].
    pose proof (live_depths_elem _ _ Ht (started_live _ Hs)) as He.
    rewrite Hperm in He. apply elem_of_seqZ_1 in He. lia.
  - destruct (decide (top = 0)) as [->|]; [done|].
    assert (He : top ∈ live_depths l) by (rewrite Hperm; apply elem_of_seqZ_1; lia).
    apply elem_of_live_depths in He as (j & t & Hj & Hl & Hd).
    rewrite <- Hd. apply Hle; [by eapply list_elem_of_lookup_2|].
    unfold live in Hl. destruct (_IS_STARTED (state t)); [done|]. simpl in Hl.
    apply bool_decide_eq_true in Hl. specialize (Hb _ _ Hj Hl). lia.
Qed.

(** X14. Holes are buried.  In every reachable state a slot in state [HOLE]
    has a depth between 1 and [sched.depth - 1]: the stack of a thread that
    has returned is given back as soon as no thread that has not returned
    lies above it, so the top of the main stack is never a hole.  Between
    two passes of the loop [sched.depth] is the greatest depth of a started
    ([RUN], [IDLE] or [WAIT]) slot, 0 when there is none; while a thread is
    in control it is the greater of that and the depth of the thread. *)
Theorem holes_are_buried m :
  reachable m →
  let s := sched (glob m) in
  (∀ j t, thrds s !! j = Some t → state t = HOLE → 1 ≤ depth t < sched_depth s) ∧
  (between_iterations m → sched_depth s = max_started_depth (thrds s)) ∧
  (∀ f x, ctl m = CThread f → thrd_at (thrds s) (cur_thrd s) = Some x →
     sched_depth s = Z.max (depth x) (max_started_depth (thrds s))).
Proof.
  intros Hr s. pose proof (reachable_holes m Hr) as Hb. fold s in Hb.
  destruct (reachable_ok _ Hr) as [_ Hm]. fold s in Hm.
  split_and!.
  - intros j t Hj Hs. split; [|by eapply Hb].
    destruct (mode_pool_ok _ _ Hm) as (r & _ & _ & Hctx & _).
    destruct (Hctx _ _ Hj) as (g & -> & _); [by rewrite Hs|lia].
  - unfold between_iterations. intros Hbt. symmetry.
    destruct (ctl m) as [|f|f]; [| |done]; simpl in Hm.
    + destruct Hm as (_ & Hd & Hdo). apply top_started; [by rewrite Hd|lia|done].
    + destruct Hm as (_ & Hd & Hdo). apply top_started; [done|lia|done].
  - intros f x Hc Hx. rewrite Hc in Hm. destruct Hm as (Hp & y & Hy & Hro).
    fold s in Hy. rewrite Hx in Hy. injection Hy as <-.
    destruct Hro as [(Hs & Hdx & Hf & _ & Hdo)|(Hs & Hdx & _ & Hdo)].
    + pose proof (max_started_depth_nonneg (thrds s)) as Hnn.
      pose proof (started_depth_max (thrds s) 0 ltac:(lia)) as Hmax.
      destruct (started_depth_spec (thrds s) 0) as (_ & _ & Hwit).
      rewrite Hmax, Z.max_r in Hwit by lia.
      destruct Hwit as [->|(t & Ht & Hst & <-)]; [lia|].
      pose proof (live_depths_elem _ _ Ht (started_live _ Hst)) as He.
      unfold depths_ok in Hdo. rewrite Hdo in He. apply elem_of_seqZ_1 in He. lia.
    + pose proof (running_depth _ _ Hx Hs Hdo).
      rewrite (top_started (thrds s) (sched_depth s)); [lia|done|lia|done].
Qed.

End Holes.

(** * Instances on [small_config] *)

Lemma demo_reachable ins clk :
  is_Some (demo_run ins clk) → @reachable small_config (demo_state ins clk).
Proof.
  unfold demo_state. intros [[m evs] H]. rewrite H.
  eapply (@run_reachable small_config); [apply reach_init | exact H].
Qed.

Lemma st_serviced_reachable : @reachable small_config st_serviced.
Proof.
  assert (E : demo_state [do_service] [] = st_serviced) by (vm_compute; reflexivity).
  rewrite <- E. apply demo_reachable. vm_compute. eauto.
Qed.

Lemma st_three_started_reachable : @reachable small_config st_three_started.
Proof.
  assert (E : demo_state three_started (repeat 0 20) = st_three_started)
    by (vm_compute; reflexivity).
  rewrite <- E. apply demo_reachable. vm_compute. eauto.
Qed.

Lemma st_first_resumed_reachable : @reachable small_config st_first_resumed.
Proof.
  assert (E : demo_state first_resumed (repeat 0 20) = st_first_resumed)
    by (vm_compute; reflexivity).
  rewrite <- E. apply demo_reachable. vm_compute. eauto.
Qed.

(** Scenario "hole coalescing": with threads at depths 1, 2, 3, the second
    returns and becomes a hole; then the third returns and both are freed. *)
Example hole_then_unwind :
  let m1 := demo_state (first_resumed ++ [do_yield; in_sched; in_return]) (repeat 0 20) in
  let m2 := demo_state (first_resumed ++ [do_yield; in_sched; in_return; in_sched; in_return])
              (repeat 0 20) in
  (state <$> thrds (sched (glob m1)), hole_n (sched (glob m1)),
   busy_n (sched (glob m1)), sched_depth (sched (glob m1)), ctl m1)
    = ([RUN; HOLE; RUN; EMPTY; EMPTY], 1, 3, 3, CLoop 3) ∧
  (state <$> thrds (sched (glob m2)), hole_n (sched (glob m2)),
   busy_n (sched (glob m2)), sched_depth (sched (glob m2)), ctl m2)
    = ([RUN; EMPTY; EMPTY; EMPTY; EMPTY], 0, 1, 1, CLoop 1).
Proof. vm_compute. done. Qed.

(** The witness of C1: the first of three started threads is running; its
    depth is 1, the scheduler's is 3. *)
Lemma termination_transition_witness :
  let s := sched (glob st_first_resumed) in
  let x := mk_thrd 1 None 256 0 RUN 0 0 0 0 false false 1
             (JSaved 0 (thrd_pos_new ApiIdle)) (JSaved 0 sched_pos_entry_thrd) in
  @thrd_exit small_config s =
    Some (set_hole_n (hole_n s + 1)
            (set_thrds (<[Z.to_nat (cur_thrd s) := set_state HOLE x]> (thrds s)) s),
          CLoop (Z.to_nat (sched_depth s)), []).
Proof.
  intros s x.
  refine (proj1 (@termination_transition small_config st_first_resumed 0%nat x
                   st_first_resumed_reachable eq_refl eq_refl) _).
  reflexivity.
Defined.

(** The witness of C2: three started threads, control in the scheduler. *)
Lemma counters_and_depths_witness :
  let m := st_three_started in
  busy_n (sched (glob m)) = count_state busy (thrds (sched (glob m))) ∧
  hole_n (sched (glob m)) = count_state is_hole (thrds (sched (glob m))) ∧
  idle_n (sched (glob m)) = count_state _IS_IDLE (thrds (sched (glob m))) ∧
  live_depths (thrds (sched (glob m))) ≡ₚ seqZ 1 (sched_depth (sched (glob m))).
Proof.
  exact (@counters_and_depths_invariant small_config st_three_started
           st_three_started_reachable I).
Defined.

(** The witness of C3: the first call at program start. *)
Lemma coop_sched_thread_witness :
  let g := glob (@init small_config []) in
  (@coop_sched_thread small_config 1 None 0 0 g).1 = COOP_INV_ARG ↔ 1 = 0.
Proof.
  exact (proj1 (@coop_sched_thread_spec small_config (@init small_config []) 1 None 0 0
                  (@reach_init small_config []))).
Defined.

(** The witness of C4: [coop_sched_service] called with nothing scheduled. *)
Lemma service_drains_witness :
  let m := st_serviced in
  @step small_config in_sched m =
    Some (mk_machine (@_sched_init small_config true (glob m)) CMain (clock m),
          [ev_service_return]).
Proof.
  exact (proj1 (proj2 (@service_drains_and_resets small_config st_serviced 0%nat
                         st_serviced_reachable eq_refl)) eq_refl).
Defined.

Lemma st_entered_reachable : @reachable small_config st_entered.
Proof.
  assert (E : demo_state [do_sched 1; do_service; in_sched] [100; 120] = st_entered)
    by (vm_compute; reflexivity).
  rewrite <- E. apply demo_reachable. vm_compute. eauto.
Qed.

Lemma st_idle_round_reachable : @reachable small_config st_idle_round.
Proof.
  assert (E : demo_state idle_round ([0; 0; 0] ++ seqZ 150 12) = st_idle_round)
    by (vm_compute; reflexivity).
  rewrite <- E. apply demo_reachable. vm_compute. eauto.
Qed.

Lemma st_waiter_notified_reachable : @reachable small_config st_waiter_notified.
Proof.
  assert (E : demo_state waiter_notified [0; 0; 5] = st_waiter_notified)
    by (vm_compute; reflexivity).
  rewrite <- E. apply demo_reachable. vm_compute. eauto.
Qed.

Lemma st_waiter_timed_reachable : @reachable small_config st_waiter_timed.
Proof.
  assert (E : demo_state waiter_timed [0; 10; 10; 100; 100] = st_waiter_timed)
    by (vm_compute; reflexivity).
  rewrite <- E. apply demo_reachable. vm_compute. eauto.
Qed.

Lemma st_scheduled_reachable : @reachable small_config st_scheduled.
Proof.
  assert (E : demo_state [do_sched 1] [] = st_scheduled) by (vm_compute; reflexivity).
  rewrite <- E. apply demo_reachable. vm_compute. eauto.
Qed.

Lemma st_named_reachable : @reachable small_config st_named.
Proof.
  assert (E : demo_state [in_call (call_sched_thread 1 (Some "blink"%string) 0 0);
                          do_service; in_sched] [0] = st_named)
    by (vm_compute; reflexivity).
  rewrite <- E. apply demo_reachable. vm_compute. eauto.
Qed.

(** Round-robin across yields on a clock that moves: A, B and C are entered
    in the order of their slots; two free slots are passed over and the
    three are resumed in the same order. *)
Example abc_two_rounds :
  demo_events (abc_inputs args_a args_b args_c ++ @abc_resumes small_config)
    [7; 3; 9; 1; 8; 2]
    = [ev_return (ret_error COOP_SUCCESS); ev_return (ret_error COOP_SUCCESS);
       ev_return (ret_error COOP_SUCCESS);
       ev_enter 0; ev_enter 1; ev_enter 2;
       ev_resume 0 ret_void; ev_resume 1 ret_void; ev_resume 2 ret_void].
Proof. vm_compute. reflexivity. Qed.

(** The witness of C5.  Tie-breaking with a timer: slot 1 has just yielded,
    the slots 2, 3 and 4 are free and the thread of slot 0 sleeps until tick
    100, the clock reading 150, 151, ...; slot 0 is given control after
    three passes over the free slots, before slot 1.  And A, B, C with
    names, stack sizes and arguments on five slots, the clock reading 7, 3,
    9, 1, 8, 2. *)
Lemma round_robin_witness :
  (∃ m' evs g,
     @run small_config (replicate 4 in_sched) st_idle_round = Some (m', evs) ∧
     ctl m' = CThread g ∧
     dispatched evs = [0] ∧ cur_thrd (sched (glob m')) = 0) ∧
  (∃ m evs,
     @run small_config (abc_inputs args_a args_b args_c)
       (@init small_config [7; 3; 9; 1; 8; 2]) = Some (m, evs) ∧
     dispatched evs = [0; 1; 2] ∧ entered evs = [0; 1; 2] ∧ resumed evs = [] ∧
     clock m = drop 3 [7; 3; 9; 1; 8; 2] ∧
     ((3 ≤ length (clock m))%nat →
      ∃ m' evs',
        @run small_config (@abc_resumes small_config) m = Some (m', evs') ∧
        dispatched evs' = [0; 1; 2] ∧ resumed evs' = [0; 1; 2] ∧ entered evs' = [] ∧
        clock m' = drop 6 [7; 3; 9; 1; 8; 2])).
Proof.
  destruct (@round_robin_dispatch small_config) as (_ & _ & _ & _ & _ & _ & H7 & _ & H8).
  split.
  - refine (H7 st_idle_round 2%nat 3%nat
              (mk_thrd 1 None 256 0 IDLE 100 0 0 0 false false 1
                 (JSaved 0 (thrd_pos_new ApiIdle)) (JSaved 0 sched_pos_entry_thrd))
              [150; 151; 152; 153; 154; 155; 156; 157; 158; 159; 160; 161] []
              st_idle_round_reachable eq_refl eq_refl _ _ eq_refl _).
    + simpl. lia.
    + intros j u r Hj Hu _. destruct j as [|[|[|j]]]; [..|lia];
        vm_compute in Hu; injection Hu as <-; reflexivity.
    + intros r Hr.
      repeat (apply elem_of_cons in Hr as [->|Hr]; [reflexivity|]).
      by apply elem_of_nil in Hr.
  - apply H8; [by vm_compute|done|done|done|simpl; lia].
Defined.

(** The witness of C7: the thread entered at tick 100 waits for semaphore 7
    with no timeout; a waiter that has been notified is resumed and its call
    returns true; a waiter whose timeout (tick 60) has passed at tick 100 is
    resumed and its call returns false. *)
Lemma coop_wait_witness :
  (let s := sched (glob st_entered) in
   let x := mk_thrd 1 None 256 0 NEW 0 100 0 0 false false 1
              JZero (JSaved 0 sched_pos_entry_thrd) in
   ∃ pos g, (pos = thrd_pos_new ApiWait ∨ pos = thrd_pos_run ApiWait) ∧
     @coop_wait small_config 0 7 0 s (clock st_entered) =
       Some (set_thrds (<[Z.to_nat (cur_thrd s) :=
               set_exe_ctx (JSaved 0 pos) (set_state WAIT
                 (set_inf true (set_wait_to 0 (set_notif false (set_sem_id 7 x)))))]>
               (thrds s)) s,
             CLoop g, clock st_entered, [])) ∧
  (∃ m' g,
     @step small_config in_sched st_waiter_notified =
       Some (m', [ev_resume 0 (ret_bool true)]) ∧
     ctl m' = CThread g ∧ clock m' = []) ∧
  (∃ m' g,
     @step small_config in_sched st_waiter_timed =
       Some (m', [ev_resume 0 (ret_bool false)]) ∧
     ctl m' = CThread g ∧ clock m' = []).
Proof.
  split_and!.
  - intros s x.
    exact (proj1 (proj1 (@coop_wait_spec small_config st_entered 0%nat
                           st_entered_reachable) eq_refl x 7 0 eq_refl) eq_refl).
  - exact (proj2 (proj1 (proj2 (proj2 (@coop_wait_spec small_config st_waiter_notified
                                          2%nat st_waiter_notified_reachable))
                           eq_refl
                           (mk_thrd 1 None 256 0 RUN 0 0 7 0 true true 1
                              (JSaved 0 (thrd_pos_new ApiWait))
                              (JSaved 0 sched_pos_entry_thrd))
                           eq_refl eq_refl)
                    eq_refl 5 [] eq_refl)).
  - exact (proj2 (proj1 (proj2 (proj2 (proj2 (@coop_wait_spec small_config st_waiter_timed
                                          2%nat st_waiter_timed_reachable))
                           eq_refl
                           (mk_thrd 1 None 256 0 WAIT 0 0 7 60 false false 1
                              (JSaved 0 (thrd_pos_new ApiWait))
                              (JSaved 0 sched_pos_entry_thrd))
                           eq_refl eq_refl))
                    eq_refl eq_refl 100 100 [] eq_refl eq_refl)).
Defined.

(** The counterexample of C10: at program start, in [main] and before any
    dispatch, [cur_thrd] is 0 and not [(unsigned)-1], and
    [coop_thread_name] reads slot 0, in bounds, returning its null name. *)
Lemma thread_name_at_program_start :
  @reachable small_config (@init small_config []) ∧
  ctl (@init small_config []) = CMain ∧
  cur_thrd (sched (glob (@init small_config []))) = 0 ∧
  @coop_thread_name small_config (sched (glob (@init small_config []))) = Some None ∧
  ¬ @sentinel_before_dispatch small_config (@init small_config []).
Proof.
  split_and!; [apply reach_init|reflexivity..|].
  intros [H _]. vm_compute in H. discriminate H.
Qed.

(** The witness of C10 (amended): the thread named "blink" is in control
    and asks for its name; [main] after one thread has been scheduled; and
    program start. *)
Lemma coop_thread_name_witness :
  (0 ≤ cur_thrd (sched (glob st_named)) < @MAX small_config ∧
   ∃ t, thrds (sched (glob st_named)) !! Z.to_nat (cur_thrd (sched (glob st_named)))
          = Some t ∧
        @coop_thread_name small_config (sched (glob st_named)) = Some (name t)) ∧
  (cur_thrd (sched (glob st_scheduled)) = @NO_THRD ∧
   @coop_thread_name small_config (sched (glob st_scheduled)) = None) ∧
  ((∀ f, ctl (@init small_config []) ≠ CThread f) ∧
   cur_thrd (sched (glob (@init small_config []))) = 0 ∧
   @coop_thread_name small_config (sched (glob (@init small_config []))) = Some None).
Proof.
  destruct (@coop_thread_name_bounds small_config)
    as (_ & H2 & _ & _ & _ & H6 & H7 & _).
  split; [|split].
  - exact (H2 st_named 0%nat st_named_reachable eq_refl).
  - exact (H6 st_scheduled st_scheduled_reachable eq_refl eq_refl).
  - exact (H7 (@init small_config []) (@reach_init small_config []) eq_refl).
Defined.

(** The witness of C8, scenario "idle collapse": two threads have called
    [coop_idle(100)] at tick 0.  At tick 0 the idle primitive is called for
    100 ticks; at tick 100 both threads become [RUN]. *)
Lemma system_idle_collapse_witness :
  let s := sched (glob st_two_idle) in
  @_system_idle small_config [0; 100] s =
    Some (set_idle_n 0
            (set_thrds ((set_state RUN <$> take 2 (thrds s)) ++ drop 2 (thrds s)) s),
          [], [ev_idle_cb 100]).
Proof.
  intros s.
  refine (proj1 (@system_idle_collapse small_config s [0] 100 [] eq_refl _ eq_refl _ _)).
  - repeat split.
  - intros now t ->%list_elem_of_singleton. revert t.
    apply Forall_forall. repeat constructor.
  - eexists. split; [apply list_elem_of_here|reflexivity].
Defined.

(** The counterexample of C9: the thread was resumed at tick 100
    ([switch_tick]) and calls [coop_yield_after(50)] at tick 120.  Counted
    from [switch_tick] the limit is tick 150, which has not passed; the call
    yields all the same, for tick 50 has. *)
Lemma yield_after_ignores_switch_tick :
  ¬ @yield_after_from_switch_tick small_config 0 50
      (sched (glob st_entered)) (clock st_entered).
Proof.
  intros H.
  specialize (H (mk_thrd 1 None 256 0 NEW 0 100 0 0 false false 1
                   JZero (JSaved 0 sched_pos_entry_thrd)) 120 [] eq_refl eq_refl).
  vm_compute in H. discriminate H.
Qed.

(** The witness of C9 (amended): the same thread calls
    [coop_yield_after(200)] at tick 120 and does not yield. *)
Lemma coop_yield_after_witness :
  let s := sched (glob st_entered) in
  @coop_yield_after small_config 0 200 s (clock st_entered) =
    Some (s, CThread 0, [], [ev_return (ret_bool false)]).
Proof.
  intros s.
  exact (proj2 (@coop_yield_after_spec small_config st_entered 0%nat 200 120 []
                  (mk_thrd 1 None 256 0 NEW 0 100 0 0 false false 1
                     JZero (JSaved 0 sched_pos_entry_thrd))
                  st_entered_reachable eq_refl eq_refl eq_refl) eq_refl).
Defined.

(** * Further instances on [small_config] *)

Lemma st_idle_selected_reachable : @reachable small_config st_idle_selected.
Proof.
  assert (E : demo_state idle_selected [0; 0; 0; 150; 150] = st_idle_selected)
    by (vm_compute; reflexivity).
  rewrite <- E. apply demo_reachable. vm_compute. eauto.
Qed.

Lemma st_one_waiting_reachable : @reachable small_config st_one_waiting.
Proof.
  assert (E : demo_state one_waiting (repeat 0 6) = st_one_waiting)
    by (vm_compute; reflexivity).
  rewrite <- E. apply demo_reachable. vm_compute. eauto.
Qed.

(** The witness of X1: three started threads, control in the scheduler. *)
Lemma counters_in_range_witness :
  let s := sched (glob st_three_started) in
  sched_depth s = busy_n s - count_state is_new (thrds s).
Proof.
  intros s.
  destruct (@counters_in_range small_config st_three_started st_three_started_reachable)
    as (_ & _ & _ & _ & _ & _ & H).
  exact (H I).
Defined.

(** The witness of X2: the same state, at the loop head of frame 3. *)
Lemma service_recursion_depth_witness :
  let s := sched (glob st_three_started) in
  sched_depth s = 3 ∧ 3 ≤ @MAX small_config ∧
  (busy_n s = 0 → 3%nat = 0%nat) ∧ ((0 < 3)%nat → 0 < busy_n s).
Proof.
  exact (proj1 (@service_recursion_depth small_config st_three_started 3%nat
                  st_three_started_reachable) eq_refl).
Defined.

(** The witness of X3: five calls, with names, stack sizes and arguments,
    on the five slots. *)
Lemma pool_capacity_witness :
  let cs := [args_a; args_b; args_c; mk_sched_args 4 None 0 0;
             mk_sched_args 5 (Some "E"%string) 64 50] in
  ∃ m, @run small_config (sched_call <$> cs) (@init small_config []) =
         Some (m, (λ _, ev_return (ret_error COOP_SUCCESS)) <$> cs) ∧
    @scheduled_in_order small_config cs (sched (glob m)) ∧
    (length cs = @CONFIG_MAX_THREADS small_config →
     ∀ p n sz a,
       @coop_sched_thread small_config p n sz a (glob m) =
         (if p =? 0 then COOP_INV_ARG else COOP_ERR_LIMIT, glob m)).
Proof.
  intros cs. apply (@pool_capacity small_config cs []).
  - repeat (apply Forall_cons_2; [by vm_compute|]). apply Forall_nil_2.
  - simpl. lia.
Defined.

(** The witness of X5: the thread entered at tick 100 yields. *)
Lemma coop_idle_spec_witness :
  let s := sched (glob st_entered) in
  let x := mk_thrd 1 None 256 0 NEW 0 100 0 0 false false 1
             JZero (JSaved 0 sched_pos_entry_thrd) in
  @coop_idle small_config 0 0 s (clock st_entered) =
    Some (set_thrds (<[Z.to_nat (cur_thrd s) :=
            set_exe_ctx (JSaved 0 (thrd_pos_new ApiIdle)) (set_state RUN x)]> (thrds s)) s,
          CLoop 1, clock st_entered, []).
Proof.
  intros s x.
  exact (proj1 (@coop_idle_spec small_config st_entered 0%nat x
                  st_entered_reachable eq_refl eq_refl)).
Defined.

(** The witness of X6: a thread that has not yielded yet is shallow. *)
Lemma coop_test_is_shallow_witness :
  @coop_test_is_shallow small_config (sched (glob st_entered)) = Some true.
Proof.
  destruct (@coop_test_is_shallow_spec small_config st_entered 0%nat
              (mk_thrd 1 None 256 0 NEW 0 100 0 0 false false 1
                 JZero (JSaved 0 sched_pos_entry_thrd))
              st_entered_reachable eq_refl eq_refl) as (b & Hb & _ & Hnew & _).
  rewrite Hb. f_equal. exact (Hnew eq_refl).
Defined.

(** The witness of X7: the routine of that thread returns. *)
Lemma thread_never_faults_witness :
  ∃ m' g, @step small_config in_return st_entered = Some (m', []) ∧ ctl m' = CLoop g.
Proof.
  exact (proj1 (@thread_never_faults small_config st_entered 0%nat
                  st_entered_reachable eq_refl)).
Defined.

(** The witness of X8: a pass of the loop with three started threads. *)
Lemma dispatcher_never_faults_witness :
  ∃ m' evs, @step small_config in_sched st_three_started = Some (m', evs) ∧
    (ctl m' = CLoop 3 ∨ ∃ g, ctl m' = CThread g).
Proof.
  refine (proj1 (proj2 (@dispatcher_never_faults small_config st_three_started 3%nat
                          st_three_started_reachable eq_refl)) eq_refl eq_refl _).
  simpl. lia.
Defined.

(** The witness of X9: both threads are idle. *)
Lemma system_idle_only_when_all_idle_witness :
  let s := sched (glob st_two_idle) in
  idle_ready s = true ↔
    (∃ t, t ∈ thrds s ∧ state t = IDLE) ∧
    (∀ t, t ∈ thrds s → state t ≠ NEW ∧ state t ≠ RUN ∧ state t ≠ WAIT).
Proof.
  intros s.
  exact (proj1 (@system_idle_only_when_all_idle small_config s [] eq_refl
                  (conj eq_refl (conj eq_refl eq_refl)))).
Defined.

(** The witness of X10: the thread that sleeps until tick 100 is selected at
    tick 150 and resumed. *)
Lemma no_early_wakeup_witness :
  let m := st_idle_selected in
  let m' := st_idle_resumed in
  let t := mk_thrd 1 None 256 0 IDLE 100 0 0 0 false false 1
             (JSaved 0 (thrd_pos_new ApiIdle)) (JSaved 0 sched_pos_entry_thrd) in
  0 = @next_thrd small_config (cur_thrd (sched (glob m))) ∧
  ∃ used, clock m = used ++ clock m' ∧
    (state t = IDLE →
     ∃ now, now ∈ used ∧
       @COOP_IS_TICK_OVER small_config (@tick_wrap small_config now) (idle_to t) = true) ∧
    (state t = WAIT →
     inf t = false ∧
     ∃ now, now ∈ used ∧
       @COOP_IS_TICK_OVER small_config (@tick_wrap small_config now) (wait_to t) = true).
Proof.
  intros m m' t.
  refine (@no_early_wakeup small_config m 2%nat m' [ev_resume 0 ret_void] 0 ret_void t
            st_idle_selected_reachable eq_refl _ _ eq_refl).
  - vm_compute. reflexivity.
  - apply list_elem_of_here.
Defined.

(** The witness of X11: the first thread waits with no timeout while the
    second yields and is resumed after a round of the dispatcher. *)
Lemma infinite_wait_persists_witness :
  let u := mk_thrd 1 None 256 0 WAIT 0 0 7 0 false true 1
             (JSaved 0 (thrd_pos_new ApiWait)) (JSaved 0 sched_pos_entry_thrd) in
  thrds (sched (glob st_still_waiting)) !! 0%nat = Some u ∧
  Z.of_nat 0 ∉ dispatched [ev_resume 1 ret_void].
Proof.
  intros u.
  refine (@infinite_wait_persists small_config a_round st_one_waiting st_still_waiting
            [ev_resume 1 ret_void] 0%nat u st_one_waiting_reachable _ eq_refl eq_refl
            eq_refl _).
  - vm_compute. reflexivity.
  - repeat (apply Forall_cons_2; [reflexivity|]). apply Forall_nil_2.
Defined.

(** The witness of X12: the first of three started threads returns and its
    slot becomes a hole. *)
Lemma thread_lifecycle_witness :
  Forall2 (@slot_step) (thrds (sched (glob st_first_resumed)))
    (thrds (sched (glob st_first_returned))).
Proof.
  refine (@thread_lifecycle small_config in_return st_first_resumed st_first_returned []
            st_first_resumed_reachable _).
  vm_compute. reflexivity.
Defined.

(** The witness of X13: three threads with names, stack sizes and
    arguments that return at once, on a clock reading 4, 9, 2. *)
Lemma threads_run_to_completion_witness :
  let cs := [args_a; args_b; args_c] in
  ∃ m evs, @run small_config (run_to_completion cs) (@init small_config [4; 9; 2]) =
             Some (m, evs) ∧
    dispatched evs = Z.of_nat <$> seq 0 (length cs) ∧
    last evs = Some ev_service_return ∧
    ctl m = CMain ∧ sched (glob m) = set_cur_thrd NO_THRD (@zero_sched small_config) ∧
    clock m = drop (length cs) [4; 9; 2].
Proof.
  intros cs. apply (@threads_run_to_completion small_config cs [4; 9; 2]).
  - repeat (apply Forall_cons_2; [by vm_compute|]). apply Forall_nil_2.
  - simpl. lia.
  - simpl. lia.
Defined.

(** The witness of X14: of three started threads the first has returned and
    its slot is a hole of depth 1 under the top depth 3. *)
Lemma holes_are_buried_witness :
  let s := sched (glob st_first_returned) in
  (∀ j t, thrds s !! j = Some t → state t = HOLE → 1 ≤ depth t < sched_depth s) ∧
  (between_iterations st_first_returned →
   sched_depth s = max_started_depth (thrds s)) ∧
  (∀ f x, ctl st_first_returned = CThread f →
     @thrd_at small_config (thrds s) (cur_thrd s) = Some x →
     sched_depth s = Z.max (depth x) (max_started_depth (thrds s))).
Proof.
  refine (@holes_are_buried small_config st_first_returned _).
  refine (@reach_step small_config in_return st_first_resumed st_first_returned []
            st_first_resumed_reachable _).
  vm_compute. reflexivity.
Defined.
